(** * Action Graph Games: the payoff engine of [src/games/agg/agg.cc]

    A shallow embedding of the AGG engine (namespace [Gambit::agg]) and the
    properties of its setup code and payoff oracle.

    Conventions of the embedding.
    - [int] indices of players, actions and nodes are [nat]; configuration
      entries (the [int]s of a [config]) are [Z]; no count in a game reaches
      the range where a machine [int] would wrap.
    - [AggNumber] is the field of rationals [Qc] (exact arithmetic).
    - [std::vector] is [list]; [v[i]] is [nth i v d].  An out of range
      [v[i]] is undefined in the source; the theorems below only read
      inside the vectors.
    - [throw std::runtime_error(msg)] is [Err e], where [e] records the
      kind of the message and the subject it names.
    - A failed [assert] and the dereference of the end iterator of an empty
      vector throw nothing: [Err AssertFailed] and [Err Undefined] mark the
      place where the program stops. *)

From Stdlib Require Import ZArith QArith Qcanon List Bool Arith Lia.
From Stdlib Require Import Permutation Sorted Relations.
Import ListNotations.

Set Implicit Arguments.

(* ================================================================== *)
(** * Errors and results *)

Abbreviation config := (list Z).
Abbreviation AggNumber := Qc.

(** One constructor per exception that the embedded functions of agg.cc can
    throw, with the subject its message names. *)
Inductive error : Type :=
| CycleAt (node : nat)
    (* "ERROR: cycle of projected nodes at <node>" *)
| TypeMismatch (node nb : nat)
    (* "ERROR: projection type mismatch: Node <node> and its neighbor <nb>" *)
| NotAscending (player : nat)
    (* "Action set for player <player> is not in ascending order" *)
| BadCount
    (* "Error reading the integer number of configuration-value pairs" *)
| BadInput
    (* "ERROR: bad input" *)
| Expected (bracket : bool)
    (* "ERROR: [ expected..." (false) or "ERROR: ] expected..." (true) *)
| BadElement (j : nat)
    (* "ERROR trying to read element #<j> of the configuration" *)
| BadUtility (key : config)
    (* "Error trying to read the utility value for configuration <key>" *)
| Overwriting (key : config)
    (* "ERROR: overwriting utility at [<key>]" *)
| NotSpecified (key : config)
    (* "ERROR: utility at [<key>] not specified." *)
| NotEnoughPayoffs
    (* "Error in game file: not enough payoffs" *)
| BadPayoffType
    (* "Error reading the integer type of the utility function..." *)
| UnknownPayoffType (t : Z)
    (* "Unknown payoff type <t>" *)
| MissingConfig (key : config) (node : nat)
    (* "AGG::getPurePayoff ERROR: unable to find the following
        configuration [<key>] in payoffs of action node #<node>" *)
| OutOfRange
    (* std::out_of_range, thrown by vector::at *)
| AssertFailed
    (* no exception: [assert(in.good())] fails and the program aborts (the
       build that keeps the assertions) *)
| Undefined
    (* no exception: the constructor dereferences [t.begin()] of an empty
       vector, after which the source says nothing of the program *)
| OutOfFuel
    (* no error of the source: the bound that the model puts on a recursion
       or a loop of the source was reached *).

Inductive result (A : Type) : Type :=
| Ok (a : A)
| Err (e : error).
Arguments Ok {A} a.
Arguments Err {A} e.

Definition rbind {A B} (r : result A) (k : A -> result B) : result B :=
  match r with
  | Ok a => k a
  | Err e => Err e
  end.

Declare Scope result_scope.
Delimit Scope result_scope with result.
Notation "x <- r ;; k" := (rbind r (fun x => k))
  (at level 61, r at next level, right associativity) : result_scope.
Notation "' p <- r ;; k" := (rbind r (fun p => k))
  (at level 61, p pattern, r at next level, right associativity) : result_scope.

(* ================================================================== *)
(** * Vectors *)

(** [v[i] = x] on a [std::vector]: the element is replaced; the model leaves
    the vector alone when [i] is past the end (undefined in the source). *)
Fixpoint upd {A} (i : nat) (x : A) (l : list A) : list A :=
  match l, i with
  | [], _ => []
  | _ :: l', O => x :: l'
  | y :: l', S i' => y :: upd i' x l'
  end.

(** [std::sort] of a vector under a total order given by [leb]: the ascending
    rearrangement of the vector, computed here by insertion. *)
Section Sort.
Variable A : Type.
Variable leb : A -> A -> bool.

Fixpoint sort_insert (x : A) (l : list A) : list A :=
  match l with
  | [] => [x]
  | y :: l' => if leb x y then x :: l else y :: sort_insert x l'
  end.

Fixpoint sort (l : list A) : list A :=
  match l with
  | [] => []
  | x :: l' => sort_insert x (sort l')
  end.
End Sort.

(** [operator<] of [std::pair<int,int>], as the [<=] it induces. *)
Definition pair_leb (x y : nat * nat) : bool :=
  (fst x <? fst y) || ((fst x =? fst y) && (snd x <=? snd y)).

(* ================================================================== *)
(** * AggNumber *)

Open Scope Qc_scope.

Definition Qcltb (x y : Qc) : bool :=
  match x ?= y with Lt => true | _ => false end.

(** [std::max] and [std::min]: [max(a,b)] is [(a < b) ? b : a] and
    [min(a,b)] is [(b < a) ? b : a]. *)
Definition Qcmax (a b : Qc) : Qc := if Qcltb a b then b else a.
Definition Qcmin (a b : Qc) : Qc := if Qcltb b a then b else a.

Definition Qcsum (l : list Qc) : Qc := fold_right Qcplus 0 l.

(* ================================================================== *)
(** * The configuration trie *)

(** Modelled from the spec: [trie_map<V>] (games/agg/trie_map.h is not among
    the sources).  A map from configuration keys to values that iterates in
    key order: an association list kept in ascending lexicographic order of
    its keys, one binding per key.  [aggdistrib] and [aggpayoff] are both
    [trie_map<AggNumber>]. *)
Module Trie.

Fixpoint cfg_compare (a b : config) : comparison :=
  match a, b with
  | [], [] => Eq
  | [], _ :: _ => Lt
  | _ :: _, [] => Gt
  | x :: a', y :: b' =>
      match (x ?= y)%Z with
      | Eq => cfg_compare a' b'
      | c => c
      end
  end.

Definition cfg_eqb (a b : config) : bool :=
  match cfg_compare a b with Eq => true | _ => false end.

Definition t (V : Type) := list (config * V).

Section Ops.
Variable V : Type.

(** [reset()] / [clear()] *)
Definition reset : t V := [].

(** [find(k)]: the binding of [k], if any. *)
Fixpoint find (k : config) (m : t V) : option V :=
  match m with
  | [] => None
  | (k', v) :: m' => if cfg_eqb k k' then Some v else find k m'
  end.

(** [count(k)] *)
Definition count (k : config) (m : t V) : nat :=
  match find k m with Some _ => 1 | None => 0 end.

(** [size()] *)
Definition size (m : t V) : nat := length m.

(** [begin()]: the binding with the least key, if the map is not
    empty. *)
Definition begin (m : t V) : option (config * V) := hd_error m.

Definition keys (m : t V) : list config := map fst m.

(** The binding of [k] becomes [f (current binding)], in key order. *)
Fixpoint alter (f : option V -> V) (k : config) (m : t V) : t V :=
  match m with
  | [] => [(k, f None)]
  | (k', v) :: m' =>
      match cfg_compare k k' with
      | Lt => (k, f None) :: m
      | Eq => (k', f (Some v)) :: m'
      | Gt => (k', v) :: alter f k m'
      end
  end.

(** [insert(make_pair(k, v))], with the result of [std::map::insert]:
    [false] and no change when [k] is bound already. *)
Definition insert (k : config) (v : V) (m : t V) : t V * bool :=
  match find k m with
  | Some _ => (m, false)
  | None => (alter (fun _ => v) k m, true)
  end.

(** [insert(first, last)]: every binding of the range whose key is not
    bound yet. *)
Definition insert_range (src : t V) (m : t V) : t V :=
  fold_left (fun m kv => fst (insert (fst kv) (snd kv) m)) src m.
End Ops.
Arguments reset {V}.

(** The operations on weights. *)

(** [m += make_pair(k, w)]: [w] is added to the weight at [k]. *)
Definition add (k : config) (w : AggNumber) (m : t AggNumber) : t AggNumber :=
  alter (fun o => match o with Some v => v + w | None => w end) k m.

(** The key composed of [ka] and [kb] under the per-position composers:
    position [i] is [phi_i(ka[i], kb[i])]. *)
Definition compose_key (arity : nat) (phi : nat -> Z -> Z -> Z)
    (ka kb : config) : config :=
  map (fun i => phi i (nth i ka 0%Z) (nth i kb 0%Z)) (seq 0 arity).

(** [dest.multiply(a, b, arity, composers)]: [dest] becomes the product
    [a * b].  Every pair of bindings contributes the product of its
    weights at its composed key. *)
Definition multiply (a b : t AggNumber) (arity : nat)
    (phi : nat -> Z -> Z -> Z) : t AggNumber :=
  fold_left
    (fun c ka =>
       fold_left
         (fun c kb => add (compose_key arity phi (fst ka) (fst kb))
                          (snd ka * snd kb) c)
         b c)
    a reset.

(** [a.inner_prod(U)]: the sum of [a[k] * U[k]] over the keys of [a]; a key
    that [U] does not bind contributes zero. *)
Definition inner_prod (a U : t AggNumber) : AggNumber :=
  fold_left
    (fun acc kw =>
       match find (fst kw) U with
       | Some u => acc + snd kw * u
       | None => acc
       end)
    a 0.

(** The total weight of a distribution. *)
Definition total (a : t AggNumber) : AggNumber := Qcsum (map snd a).

End Trie.

Abbreviation aggdistrib := (Trie.t AggNumber).
Abbreviation aggpayoff := (Trie.t AggNumber).

Close Scope Qc_scope.
Close Scope Q_scope.
Open Scope nat_scope.

(* ================================================================== *)
(** * Projection functions *)

(** Modelled from the spec: [proj_func] and [projtype] (games/agg/proj_func.h
    is not among the sources).  agg.cc uses a projection function [f] through
    four operations only, which form the interface:
    - [f(multiset)], the value of [f] on a multiset of action nodes;
    - [f(a, b)], the composer of two configuration entries;
    - [f != g], the comparison of signatures;
    - [proj_func_SUM], the composer of an action-node neighbor. *)
Class ProjFunc (projtype : Type) : Type := {
  pf_apply : projtype -> list nat -> Z;
  pf_combine : projtype -> Z -> Z -> Z;
  pf_eqb : projtype -> projtype -> bool;
  proj_func_SUM : projtype
}.

(** The composers fold the players' contributions in any order when they are
    associative and commutative. *)
Class ProjFuncAC (projtype : Type) {PF : ProjFunc projtype} : Prop := {
  pf_combine_assoc : forall f a b c,
      pf_combine f a (pf_combine f b c) = pf_combine f (pf_combine f a b) c;
  pf_combine_comm : forall f a b, pf_combine f a b = pf_combine f b a
}.

(** The two variants of the spec's scenarios: [SUM] counts the multiset and
    composes by addition, [EXIST] tells whether it is inhabited and composes
    by disjunction. *)
Inductive scenario_proj : Type := P_SUM | P_EXIST.

#[export] Instance scenario_ProjFunc : ProjFunc scenario_proj := {
  pf_apply f M :=
    match f with
    | P_SUM => Z.of_nat (length M)
    | P_EXIST => match M with [] => 0%Z | _ => 1%Z end
    end;
  pf_combine f a b :=
    match f with
    | P_SUM => (a + b)%Z
    | P_EXIST => if ((a =? 0) && (b =? 0))%Z then 0%Z else 1%Z
    end;
  pf_eqb f g :=
    match f, g with
    | P_SUM, P_SUM | P_EXIST, P_EXIST => true
    | _, _ => false
    end;
  proj_func_SUM := P_SUM
}.

(* ================================================================== *)
(** * Setup: ancestors, projections, player order *)

Section Setup.
Context {projtype : Type} {PF : ProjFunc projtype}.

(** [AGG::getAn].  [dest] is a [multiset<int>], of which the callers only
    take [equal_range]s: a list with [insert] as [cons].  [path] is pushed
    before and popped after the loop over the neighbors, so that a call
    that returns leaves it as it was: the callee gets it by value.
    The recursion of the source is bounded by [fuel] calls in depth;
    [OutOfFuel] is no error of the source. *)
Section Neighbours.
Variable call : list nat -> nat -> result (list nat).
Variable mismatch : nat -> bool.
Variable Node : nat.

(** [for (i = 0; i < numNei; ++i)] in [getAn]: the check of the
    signature of neighbour [nb], then the recursive call on it. *)
Fixpoint getAn_loop (nbs : list nat) (dest : list nat)
    : result (list nat) :=
  match nbs with
  | [] => Ok dest
  | nb :: nbs' =>
      if mismatch nb then Err (TypeMismatch Node nb)
      else
        match call dest nb with
        | Ok dest' => getAn_loop nbs' dest'
        | Err e => Err e
        end
  end.
End Neighbours.

(** [neighb[Node][i] >= S &&
     *(projTypes[neighb[Node][i] - S]) != *(projTypes[Node - S])] *)
Definition type_mismatch (projTypes : list projtype) (numS Node nb : nat)
    : bool :=
  (numS <=? nb) &&
  negb (pf_eqb (nth (nb - numS) projTypes proj_func_SUM)
               (nth (Node - numS) projTypes proj_func_SUM)).

Fixpoint getAn_rec (fuel : nat) (dest : list nat) (neighb : list (list nat))
    (projTypes : list projtype) (numS : nat) (Node : nat) (path : list nat)
    : result (list nat) :=
  match fuel with
  | O => Err OutOfFuel
  | S fuel' =>
      if Node <? numS then Ok (Node :: dest)
      else if existsb (Nat.eqb Node) path then Err (CycleAt Node)
      else
        let path' := path ++ [Node] in
        getAn_loop
          (fun dest nb =>
             getAn_rec fuel' dest neighb projTypes numS nb path')
          (type_mismatch projTypes numS Node) Node
          (nth Node neighb []) dest
  end.

(** No chain of calls is deeper than the number of function nodes plus
    one (see [getAn_terminates]). *)
Definition getAn (dest : list nat) (neighb : list (list nat))
    (projTypes : list projtype) (numS : nat) (Node : nat) (path : list nat)
    : result (list nat) :=
  getAn_rec (S (length neighb - numS)) dest neighb projTypes numS Node path.

(** [for (i = 0; i < P; i++) { path.clear(); getAn(an[i], ..., S + i, path); }] *)
Fixpoint getAn_all (neighb : list (list nat)) (projTypes : list projtype)
    (numS : nat) (fns : list nat) : result (list (list nat)) :=
  match fns with
  | [] => Ok []
  | i :: fns' =>
      (a <- getAn [] neighb projTypes numS (numS + i) [] ;;
       an <- getAn_all neighb projTypes numS fns' ;;
       Ok (a :: an))%result
  end.

(** The body of [for (k = 0; k < numNei; k++)] in [setProjections]: the
    contribution [proj[Node][i][j][k]] of action [j] of player [i] to the
    count of neighbour [k] of [Node]. *)
Definition proj_entry (numS : nat) (AS neighb : list (list nat))
    (projTypes : list projtype) (an : list (list nat)) (Node i j k : nat)
    : Z :=
  let a := nth j (nth i AS []) 0 in
  let nb := nth k (nth Node neighb []) 0 in
  if a =? nb then 1%Z
  else if numS <=? nb then
    let f := nth (nb - numS) projTypes proj_func_SUM in
    let blah := filter (Nat.eqb a) (nth (nb - numS) an []) in
    pf_apply f blah
  else 0%Z.

Definition make_proj (N numS : nat) (AS neighb : list (list nat))
    (projTypes : list projtype) (an : list (list nat))
    : list (list (list config)) :=
  map (fun Node =>
    map (fun i =>
      map (fun j =>
        map (proj_entry numS AS neighb projTypes an Node i j)
            (seq 0 (length (nth Node neighb []))))
        (seq 0 (length (nth i AS []))))
      (seq 0 N))
    (seq 0 numS).

(** [projS[Node][i].insert(make_pair(proj[Node][i][j], 1))] for every
    action [j] of player [i]. *)
Definition support (proj_Node_i : list config) : aggdistrib :=
  fold_left (fun d key => fst (Trie.insert key 1%Qc d)) proj_Node_i
            Trie.reset.

Definition make_projS (proj : list (list (list config)))
    : list (list aggdistrib) :=
  map (map support) proj.

(** [AGG::setProjections]: the projections [proj[Node][i][j]] and the
    supports [projS[Node][i]] of the players' strategies at every action
    node. *)
Definition setProjections (N numS P : nat) (AS neighb : list (list nat))
    (projTypes : list projtype)
    : result (list (list aggdistrib) * list (list (list config))) :=
  (an <- getAn_all neighb projTypes numS (seq 0 P) ;;
   let proj := make_proj N numS AS neighb projTypes an in
   Ok (make_projS proj, proj))%result.

(** [AGG::initPorder]: [Po] becomes [i] followed by the other players in
    ascending order of the pairs (size of [projS[k]], [k]). *)
Definition initPorder (i N : nat) (projS : list aggdistrib) : list nat :=
  let order :=
    map (fun k => (Trie.size (nth k projS Trie.reset), k))
        (filter (fun k => negb (k =? i)) (seq 0 N)) in
  i :: map snd (sort pair_leb order).

End Setup.

(* ================================================================== *)
(** * The input stream of the payoff tables *)

(** The [std::istream] of the reader, as the sequence of lexemes that its
    extraction operators see: integers, other numbers, the two brackets
    [AGG::LBRACKET] and [AGG::RBRACKET], and any other character.  Comments
    are taken as stripped, and the file as ending in white space, so that a
    successful extraction leaves the stream [good()]. *)
Inductive lexeme : Type :=
| LInt (z : Z)
| LNum (q : AggNumber)
| LBracket
| RBracket
| LOther.

Abbreviation stream := (list lexeme).

(** [in >> cnt] for an [int]. *)
Definition read_int (s : stream) : option (Z * stream) :=
  match s with
  | LInt z :: s' => Some (z, s')
  | _ => None
  end.

(** [in >> u] for an [AggNumber]. *)
Definition read_num (s : stream) : option (AggNumber * stream) :=
  match s with
  | LInt z :: s' => Some (Q2Qc (inject_Z z), s')
  | LNum q :: s' => Some (q, s')
  | _ => None
  end.

(** The loop [for (j = 0; j < numNei; ++j) { in >> cnt; ... key.push_back(cnt); }]
    of [makeMAPPINGpayoff], with [todo] counts still to read. *)
Fixpoint read_key (todo j : nat) (key : config) (s : stream)
    : result (config * stream) :=
  match todo with
  | O => Ok (key, s)
  | S todo' =>
      match read_int s with
      | Some (cnt, s') => read_key todo' (S j) (key ++ [cnt]) s'
      | None => Err (BadElement j)
      end
  end.

(** The loop [while (num--)] of [makeMAPPINGpayoff].  An iteration that does
    not throw takes at least three lexemes from the stream: [fuel] bounds the
    iterations.  Before the opening bracket the end of the input is tested
    ([in.eof()]); where the closing bracket is due it is not, so that there
    [in.get()] fails and [assert(in.good())] stops the program. *)
Fixpoint mapping_loop (fuel : nat) (num : Z) (numNei : nat) (s : stream)
    (pay : aggpayoff) : result (aggpayoff * stream) :=
  match fuel with
  | O => Err OutOfFuel
  | S fuel' =>
      if (num =? 0)%Z then Ok (pay, s)
      else
        match s with
        | [] => Err BadInput
        | LBracket :: s1 =>
            ('(key, s2) <- read_key numNei 0 [] s1 ;;
             match s2 with
             | [] => Err AssertFailed
             | RBracket :: s3 =>
                 match read_num s3 with
                 | Some (u, s4) =>
                     let r := Trie.insert key u pay in
                     if snd r
                     then mapping_loop fuel' (num - 1) numNei s4 (fst r)
                     else Err (Overwriting key)
                 | None => Err (BadUtility key)
                 end
             | _ :: _ => Err (Expected true)
             end)%result
        | _ :: _ => Err (Expected false)
        end
  end.

(** The loop [for (auto &it : temp)] that ends [makeMAPPINGpayoff]. *)
Fixpoint mapping_check (temp pay : aggpayoff) : result unit :=
  match temp with
  | [] => Ok tt
  | it :: temp' =>
      if Trie.count (fst it) pay =? 0 then Err (NotSpecified (fst it))
      else mapping_check temp' pay
  end.

(** [AGG::makeMAPPINGpayoff(in, pay, numNei)]: [pay] holds the acceptance
    set on entry and the table that was read on return. *)
Definition makeMAPPINGpayoff (s : stream) (pay : aggpayoff) (numNei : nat)
    : result (aggpayoff * stream) :=
  let temp := pay in
  let pay := @Trie.reset AggNumber in
  match read_int s with
  | None => Err BadCount
  | Some (num, s) =>
      ('(pay, s) <- mapping_loop (S (length s)) num numNei s pay ;;
       _ <- mapping_check temp pay ;;
       Ok (pay, s))%result
  end.

(** Modelled from the spec: [AGG::makeCOMPLETEpayoff] (its definition is not
    among the sources): a dense listing of payoffs in lexicographic
    configuration order over the acceptance set. *)
Fixpoint makeCOMPLETEpayoff (s : stream) (pay : aggpayoff)
    : result (aggpayoff * stream) :=
  match pay with
  | [] => Ok ([], s)
  | (key, _) :: pay' =>
      match read_num s with
      | Some (u, s') =>
          ('(rest, s'') <- makeCOMPLETEpayoff s' pay' ;;
           Ok ((key, u) :: rest, s''))%result
      | None => Err (BadUtility key)
      end
  end.

(* ================================================================== *)
(** * The constructor: player classes, pure nodes, actions of a node *)

(** [operator<] of [std::vector<int>]: the lexicographic comparison. *)
Fixpoint list_compare (a b : list nat) : comparison :=
  match a, b with
  | [], [] => Eq
  | [], _ :: _ => Lt
  | _ :: _, [] => Gt
  | x :: a', y :: b' =>
      match x ?= y with
      | Eq => list_compare a' b'
      | c => c
      end
  end.

(** [operator<] of [std::pair<std::vector<int>, int>], as the [<=] it
    induces. *)
Definition class_leb (x y : list nat * nat) : bool :=
  match list_compare (fst x) (fst y) with
  | Lt => true
  | Eq => snd x <=? snd y
  | Gt => false
  end.

(** The members that the constructor fills from the sorted pairs of an
    action set and its player. *)
Record classes : Type := mkClasses {
  uniqueActionSets : list (list nat);
  playerClasses : list (list nat);
  player2Class : list nat;
  numKSymActions : nat;
  kSymStrategyOffset : list nat
}.

(** The body of [while (++p != t.end())]: the pair [p] joins the last class
    when its action set is the last of [uniqueActionSets], and opens a class
    otherwise. *)
Definition ctor_classes_step (c : classes) (p : list nat * nat) : classes :=
  let last_class := length (playerClasses c) - 1 in
  let c1 :=
    if list_eq_dec Nat.eq_dec (fst p) (last (uniqueActionSets c) [])
    then mkClasses (uniqueActionSets c)
                   (upd last_class
                        (nth last_class (playerClasses c) [] ++ [snd p])
                        (playerClasses c))
                   (player2Class c) (numKSymActions c) (kSymStrategyOffset c)
    else mkClasses (uniqueActionSets c ++ [fst p])
                   (playerClasses c ++ [[snd p]])
                   (player2Class c)
                   (numKSymActions c + length (fst p))
                   (kSymStrategyOffset c ++
                      [numKSymActions c + length (fst p)]) in
  mkClasses (uniqueActionSets c1) (playerClasses c1)
            (upd (snd p) (length (playerClasses c1) - 1) (player2Class c1))
            (numKSymActions c1) (kSymStrategyOffset c1).

(** The vector [t] of the constructor after [sort(t.begin(), t.end())]: the
    pairs of the sorted action set of a player and the player. *)
Definition ctor_pairs (numPlayers : nat) (actionSets : list (list nat))
    : list (list nat * nat) :=
  sort class_leb
       (map (fun i => (sort Nat.leb (nth i actionSets []), i))
            (seq 0 numPlayers)).

(** The part of the constructor that fills [uniqueActionSets],
    [playerClasses], [player2Class], [numKSymActions] and
    [kSymStrategyOffset].  With no player, [t.begin()] points at no pair. *)
Definition ctor_classes (numPlayers : nat) (actionSets : list (list nat))
    : option classes :=
  match ctor_pairs numPlayers actionSets with
  | [] => None
  | p :: t =>
      Some (fold_left ctor_classes_step t
              (mkClasses [fst p] [[snd p]]
                         (upd (snd p) 0 (repeat 0 numPlayers))
                         (length (fst p)) [0; length (fst p)]))
  end.

(** [*max_element(first, last)] of a vector that is not empty. *)
Definition max_element (l : list nat) : nat :=
  fold_left (fun m x => if m <? x then x else m) (tl l) (hd 0 l).

(** The loop of the constructor that sets [isPure]; [neighb.at(i)] throws
    when the vector has no entry [i]. *)
Fixpoint ctor_isPure (nodes : list nat) (numANodes : nat)
    (neighb : list (list nat)) (isPure : list bool) : result (list bool) :=
  match nodes with
  | [] => Ok isPure
  | i :: nodes' =>
      match nth_error neighb i with
      | None => Err OutOfRange
      | Some nb =>
          ctor_isPure nodes' numANodes neighb
            (if 0 <? length nb
             then upd i (max_element nb <? numANodes) isPure
             else isPure)
      end
  end.

(** [isPure] as the constructor leaves it: [true] for every action node at
    first, then set by the loop. *)
Definition AGG_isPure (numANodes : nat) (neighb : list (list nat))
    : result (list bool) :=
  ctor_isPure (seq 0 numANodes) numANodes neighb (repeat true numANodes).

(** The two loops of the constructor that set [node2Action]: every entry is
    [-1] at first, then [node2Action[actionSets[i][j]][i] = j]. *)
Definition ctor_node2Action (numANodes numPlayers : nat) (actions : list nat)
    (actionSets : list (list nat)) : list (list Z) :=
  fold_left
    (fun n2a i =>
       fold_left
         (fun n2a j =>
            let v := nth j (nth i actionSets []) 0 in
            upd v (upd i (Z.of_nat j) (nth v n2a [])) n2a)
         (seq 0 (nth i actions 0)) n2a)
    (seq 0 numPlayers)
    (repeat (repeat (-1)%Z numPlayers) numANodes).

(* ================================================================== *)
(** * The game object *)

Section Game.
Context {projtype : Type} {PF : ProjFunc projtype}.

(** The data members of [class AGG] that the constructor sets.  The
    members [uniqueActionSets], [playerClasses], [player2Class],
    [numKSymActions] and [kSymStrategyOffset] are the fields of
    [symClasses]. *)
Record AGG : Type := mkAGG {
  numPlayers : nat;
  actions : list nat;
  strategyOffset : list nat;
  totalActions : nat;
  maxActions : nat;
  numActionNodes : nat;
  numPNodes : nat;
  actionSets : list (list nat);
  neighbors : list (list nat);
  projectionTypes : list projtype;
  payoffs : list aggpayoff;
  projection : list (list (list config));
  projectedStrat : list (list aggdistrib);
  fullProjectedStrat : list (list aggdistrib);
  projFunctions : list (list projtype);
  Porder : list (list (list nat));
  Pr : list aggdistrib;
  symClasses : classes;
  isPure : list bool;
  node2Action : list (list Z)
}.

Definition set_projectedStrat (g : AGG) (pS : list (list aggdistrib)) : AGG :=
  mkAGG (numPlayers g) (actions g) (strategyOffset g) (totalActions g)
        (maxActions g) (numActionNodes g) (numPNodes g) (actionSets g)
        (neighbors g) (projectionTypes g) (payoffs g) (projection g)
        pS (fullProjectedStrat g) (projFunctions g) (Porder g) (Pr g)
        (symClasses g) (isPure g) (node2Action g).

Definition set_Pr (g : AGG) (P : list aggdistrib) : AGG :=
  mkAGG (numPlayers g) (actions g) (strategyOffset g) (totalActions g)
        (maxActions g) (numActionNodes g) (numPNodes g) (actionSets g)
        (neighbors g) (projectionTypes g) (payoffs g) (projection g)
        (projectedStrat g) (fullProjectedStrat g) (projFunctions g)
        (Porder g) P (symClasses g) (isPure g) (node2Action g).

(** The first loop of the constructor: [actions], [totalActions],
    [strategyOffset] and [maxActions]. *)
Fixpoint ctor_offsets (_actions : list nat) (off total maxA : nat)
    : list nat * nat * nat :=
  match _actions with
  | [] => ([], total, maxA)
  | a :: rest =>
      let '(offs, total', maxA') :=
        ctor_offsets rest (off + a) (total + a)
                     (if maxA <? a then a else maxA) in
      ((off + a) :: offs, total', maxA')
  end.

(** The second loop of the constructor: every action set is compared with
    its sorted copy. *)
Fixpoint ctor_check_sorted (i : nat) (sets : list (list nat)) : result unit :=
  match sets with
  | [] => Ok tt
  | a :: sets' =>
      if list_eq_dec Nat.eq_dec (sort Nat.leb a) a
      then ctor_check_sorted (S i) sets'
      else Err (NotAscending i)
  end.

(** [AGG::AGG(...)]: the loop over the players that sets [actions],
    [totalActions], [strategyOffset] and [maxActions]; the loop that checks
    the action sets and collects the pairs [t]; the classes of the players,
    read from [t.begin()] on; the loop that sets [isPure]; the loops that
    set [node2Action]. *)
Definition AGG_new (numPlayers : nat) (_actions : list nat)
    (numANodes _numPNodes : nat) (_actionSets neighb : list (list nat))
    (projTypes : list projtype) (projS : list (list aggdistrib))
    (proj : list (list (list config))) (projF : list (list projtype))
    (Po : list (list (list nat))) (P : list aggdistrib)
    (_payoffs : list aggpayoff) : result AGG :=
  let actions := firstn numPlayers _actions in
  let '(offs, total, maxA) := ctor_offsets actions 0 0 0 in
  (_ <- ctor_check_sorted 0 (firstn numPlayers _actionSets) ;;
   c <- match ctor_classes numPlayers _actionSets with
        | Some c => Ok c
        | None => Err Undefined
        end ;;
   pure <- AGG_isPure numANodes neighb ;;
   Ok (mkAGG numPlayers actions (0%nat :: offs) total
             maxA numANodes _numPNodes _actionSets neighb projTypes
             _payoffs proj projS projS projF Po P
             c pure
             (ctor_node2Action numANodes numPlayers actions
                               _actionSets)))%result.

(** ** [AGG::makeAGG], from the header that it has read *)

(** [projF[i][j]]: the composer of neighbor [j] of action node [i]. *)
Definition make_projF (numS : nat) (neighb : list (list nat))
    (projTypes : list projtype) : list (list projtype) :=
  map (fun i =>
         map (fun nb =>
                if nb <? numS then proj_func_SUM
                else nth (nb - numS) projTypes proj_func_SUM)
             (nth i neighb []))
      (seq 0 numS).

(** The composer [phi_i] of a node with composers [projF_v], for
    [Trie.multiply]. *)
Definition composer (projF_v : list projtype) (i : nat) : Z -> Z -> Z :=
  pf_combine (nth i projF_v proj_func_SUM).

(** [Pr[k].multiply(Pr[k-1], projS[v][Po[k]], arity, projF[v])] for
    [k = 1 .. n-1]. *)
Definition apply_rest (ks : list nat) (Po_ij : list nat)
    (projS_v : list aggdistrib) (arity : nat) (projF_v : list projtype)
    (P : list aggdistrib) : list aggdistrib :=
  fold_left
    (fun P k =>
       upd k (Trie.multiply (nth (k - 1) P Trie.reset)
                            (nth (nth k Po_ij 0%nat) projS_v Trie.reset)
                            arity (composer projF_v)) P)
    ks P.

(** The body of [for (j = 0; j < size[i]; j++)] under
    [if (doneASets.count(as) == 0)]: the configurations that player [i]
    can see at the node of its action [j] are added to the keys of the
    payoff table of that node. *)
Definition accept_action (n i j : nat) (ASets : list (list nat))
    (projS : list (list aggdistrib)) (proj : list (list (list config)))
    (projF : list (list projtype)) (Po : list (list (list nat)))
    (st : list aggdistrib * list aggpayoff)
    : list aggdistrib * list aggpayoff :=
  let '(P, pays) := st in
  let v := nth j (nth i ASets []) 0%nat in
  let own := nth j (nth i (nth v proj []) []) [] in
  let P := upd 0 (fst (Trie.insert own 1%Qc Trie.reset)) P in
  let P := apply_rest (seq 1 (n - 1)) (nth j (nth i Po []) [])
                      (nth v projS []) (length own) (nth v projF []) P in
  (P, upd v (Trie.insert_range (nth (n - 1) P Trie.reset)
                               (nth v pays Trie.reset)) pays).

(** The loop [for (i = 0; i < n; i++)] of [makeAGG] that fills [Po] and
    the acceptance sets [pays]. *)
Fixpoint setup_players (n : nat) (todo : list nat) (size : list nat)
    (ASets : list (list nat)) (projS : list (list aggdistrib))
    (proj : list (list (list config))) (projF : list (list projtype))
    (Po : list (list (list nat))) (doneASets : list (list nat))
    (st : list aggdistrib * list aggpayoff)
    : list (list (list nat)) * (list aggdistrib * list aggpayoff) :=
  match todo with
  | [] => (Po, st)
  | i :: todo' =>
      let Po_i :=
        map (fun j => initPorder i n (nth (nth j (nth i ASets []) 0%nat) projS []))
            (seq 0 (nth i size 0%nat)) in
      let Po := upd i Po_i Po in
      let as_ := sort Nat.leb (nth i ASets []) in
      if existsb (fun d => if list_eq_dec Nat.eq_dec d as_ then true else false)
                 doneASets
      then setup_players n todo' size ASets projS proj projF Po doneASets st
      else
        let st :=
          fold_left
            (fun st j => accept_action n i j ASets projS proj projF Po st)
            (seq 0 (nth i size 0%nat)) st in
        setup_players n todo' size ASets projS proj projF Po
                      (as_ :: doneASets) st
  end.

(** [stripComment(in)] before the loop that reads the payoff tables:
    [in >> ws] sets [eofbit] when no lexeme is left. *)
Definition at_end (s : stream) : bool :=
  match s with
  | [] => true
  | _ :: _ => false
  end.

(** The loop [for (i = 0; i < S; i++)] of [makeAGG] that reads the payoff
    tables.  [eof] is [in.eof()] at the test that opens the body: the
    [stripComment] before the loop may have set it; [makeMAPPINGpayoff]
    returns after it has checked [in.good()] behind its last extraction
    (and so does [makeCOMPLETEpayoff], as it is modelled), so that in the
    later iterations the flag is clear, and the end of the input shows at
    [in >> t]. *)
Fixpoint read_payoffs (eof : bool) (nodes : list nat)
    (neighb : list (list nat)) (s : stream) (pays : list aggpayoff)
    : result (list aggpayoff) :=
  match nodes with
  | [] => Ok pays
  | i :: nodes' =>
      if eof then Err NotEnoughPayoffs
      else
        match read_int s with
        | None => Err BadPayoffType
        | Some (t, s) =>
            (r <- (if (t =? 0)%Z then
                     makeCOMPLETEpayoff s (nth i pays Trie.reset)
                   else if (t =? 1)%Z then
                     makeMAPPINGpayoff s (nth i pays Trie.reset)
                                       (length (nth i neighb []))
                   else Err (UnknownPayoffType t)) ;;
             read_payoffs false nodes' neighb (snd r)
                          (upd i (fst r) pays))%result
        end
  end.

(** The header of an AGG file, as [makeAGG] holds it when it has read the
    projection types: [n], [S], [P], [size], [ASets], [neighb] and
    [projTypes]. *)
Record header : Type := mkHeader {
  h_n : nat;
  h_S : nat;
  h_P : nat;
  h_size : list nat;
  h_ASets : list (list nat);
  h_neighb : list (list nat);
  h_projTypes : list projtype
}.

(** What the reading loops of [makeAGG] establish. *)
Record header_read (h : header) : Prop := {
  hr_ASets : length (h_ASets h) = h_n h;
  hr_size : h_size h = map (@length nat) (h_ASets h);
  hr_neighb : length (h_neighb h) = h_S h + h_P h;
  hr_projTypes : length (h_projTypes h) = h_P h
}.

(** The ranges of the indices of a file (section 6 of the spec); the
    source indexes its vectors with them unchecked. *)
Record header_ranges (h : header) : Prop := {
  hr_actions : forall i j, i < h_n h -> j < length (nth i (h_ASets h) []) ->
      nth j (nth i (h_ASets h) []) 0%nat < h_S h;
  hr_nodes : forall v k, v < h_S h + h_P h ->
      k < length (nth v (h_neighb h) []) ->
      nth k (nth v (h_neighb h) []) 0%nat < h_S h + h_P h
}.

Definition makeAGG (h : header) (s : stream) : result AGG :=
  let n := h_n h in
  let numS := h_S h in
  ('(projS, proj) <- setProjections n numS (h_P h) (h_ASets h) (h_neighb h)
                                   (h_projTypes h) ;;
   let projF := make_projF numS (h_neighb h) (h_projTypes h) in
   let '(Po, (P, pays)) :=
     setup_players n (seq 0 n) (h_size h) (h_ASets h) projS proj projF
                   (repeat [] n) []
                   (repeat Trie.reset n, repeat Trie.reset numS) in
   pays <- read_payoffs (at_end s) (seq 0 numS) (h_neighb h) s pays ;;
   AGG_new n (h_size h) numS (h_P h) (h_ASets h) (h_neighb h)
           (h_projTypes h) projS proj projF Po P pays)%result.

End Game.

(* ================================================================== *)
(** * The payoff oracle *)

Abbreviation StrategyProfile := (list AggNumber).

Section Oracle.
Context {projtype : Type} {PF : ProjFunc projtype}.

Local Abbreviation AGG := (@AGG projtype).

(** Modelled from the spec: [firstAction(i)] (agg.h is not among the
    sources): the offset of the segment of player [i] in a strategy
    profile. *)
Definition firstAction (g : AGG) (i : nat) : nat := nth i (strategyOffset g) 0.

(** The loop of [AGG::doProjection(Node, i, s)], where [s] points at the
    segment of player [i]: the distribution that [projectedStrat[Node][i]]
    holds after [reset()] and the additions of the actions of positive
    probability. *)
Definition project (g : AGG) (Node i : nat) (s : list AggNumber)
    : aggdistrib :=
  fold_left
    (fun d j =>
       if Qcltb 0%Qc (nth j s 0%Qc)
       then Trie.add (nth j (nth i (nth Node (projection g) []) []) [])
                     (nth j s 0%Qc) d
       else d)
    (seq 0 (nth i (actions g) 0)) Trie.reset.

(** [AGG::doProjection(Node, i, s)] *)
Definition doProjection_player (g : AGG) (Node i : nat) (s : list AggNumber)
    : AGG :=
  set_projectedStrat g
    (upd Node (upd i (project g Node i s) (nth Node (projectedStrat g) []))
         (projectedStrat g)).

(** [AGG::doProjection(Node, s)] *)
Definition doProjection (g : AGG) (Node : nat) (s : StrategyProfile) : AGG :=
  fold_left
    (fun g i => doProjection_player g Node i (skipn (firstAction g i) s))
    (seq 0 (numPlayers g)) g.

(** Modelled from the spec: the default of the arguments [player2] and
    [act2] of [computeP] (the declaration is in agg.h, which is not among
    the sources).  [getV] multiplies the marginal of every other player, so
    the default names no player; [computeP] compares [act2] with [-1]. *)
Abbreviation no_player := (-1)%Z.

(** [AGG::computeP(player, act, player2, act2)] *)
Definition computeP (g : AGG) (player act : nat) (player2 act2 : Z) : AGG :=
  let v := nth act (nth player (actionSets g) []) 0 in
  let own := nth act (nth player (nth v (projection g) []) []) [] in
  let P := upd 0 (fst (Trie.insert own 1%Qc Trie.reset)) (Pr g) in
  let numNei := length (nth v (neighbors g) []) in
  let phi := composer (nth v (projFunctions g) []) in
  let P :=
    fold_left
      (fun P k =>
         let q := nth k (nth act (nth player (Porder g) []) []) 0 in
         let prev := nth (k - 1) P Trie.reset in
         if (Z.of_nat q =? player2)%Z then
           if (act2 =? -1)%Z then upd k prev P
           else
             let temp :=
               fst (Trie.insert
                      (nth (Z.to_nat act2)
                           (nth (Z.to_nat player2) (nth v (projection g) []) [])
                           [])
                      1%Qc Trie.reset) in
             upd k (Trie.multiply prev temp numNei phi) P
         else
           upd k (Trie.multiply prev (nth q (nth v (projectedStrat g) [])
                                          Trie.reset)
                                numNei phi) P)
      (seq 1 (numPlayers g - 1)) P in
  set_Pr g P.

(** [AGG::getPurePayoff(player, s)] *)
Definition getPurePayoff (g : AGG) (player : nat) (s : list nat)
    : result AggNumber :=
  let Node := nth (nth player s 0) (nth player (actionSets g) []) 0 in
  let keylen := length (nth Node (neighbors g) []) in
  let pureprofile := nth (nth 0 s 0) (nth 0 (nth Node (projection g) []) []) [] in
  let pureprofile :=
    fold_left
      (fun pureprofile i =>
         map (fun j =>
                pf_combine (nth j (nth Node (projFunctions g) []) proj_func_SUM)
                  (nth j pureprofile 0%Z)
                  (nth j (nth (nth i s 0)
                              (nth i (nth Node (projection g) []) []) [])
                       0%Z))
             (seq 0 keylen))
      (seq 1 (numPlayers g - 1)) pureprofile in
  match Trie.find pureprofile (nth Node (payoffs g) []) with
  | None => Err (MissingConfig pureprofile Node)
  | Some u => Ok u
  end.

(** [AGG::getV(player, act, s)]; [actionSets.at(player).at(act)] throws
    when an index is out of range. *)
Definition getV (g : AGG) (player act : nat) (s : StrategyProfile)
    : result (AggNumber * AGG) :=
  match nth_error (actionSets g) player with
  | None => Err OutOfRange
  | Some set =>
      match nth_error set act with
      | None => Err OutOfRange
      | Some v =>
          let g := doProjection g v s in
          let g := computeP g player act no_player no_player in
          Ok (Trie.inner_prod (nth (numPlayers g - 1) (Pr g) Trie.reset)
                              (nth v (payoffs g) []),
              g)
      end
  end.

(** The body of the loop of [getMixedPayoff]: [result] and the game after
    action [act]. *)
Definition getMixedPayoff_step (player : nat) (s : StrategyProfile)
    (st : result (AggNumber * AGG)) (act : nat) : result (AggNumber * AGG) :=
  ('(result, g) <- st ;;
   let pr := nth (act + firstAction g player) s 0%Qc in
   if Qcltb 0%Qc pr then
     ('(v, g') <- getV g player act s ;;
      Ok ((result + pr * v)%Qc, g'))
   else Ok (result, g))%result.

(** [AGG::getMixedPayoff(player, s)] *)
Definition getMixedPayoff (g : AGG) (player : nat) (s : StrategyProfile)
    : result (AggNumber * AGG) :=
  fold_left (getMixedPayoff_step player s)
            (seq 0 (nth player (actions g) 0)) (Ok (0%Qc, g)).

(** The body of the loop of [getPayoffVector]. *)
Definition getPayoffVector_step (player : nat) (s : StrategyProfile)
    (st : result (list AggNumber * AGG)) (act : nat)
    : result (list AggNumber * AGG) :=
  ('(dest, g) <- st ;;
   '(v, g) <- getV g player act s ;;
   Ok (dest ++ [v], g))%result.

(** [AGG::getPayoffVector(dest, player, s)]; the entries of [dest] that the
    loop assigns are returned. *)
Definition getPayoffVector (g : AGG) (player : nat) (s : StrategyProfile)
    : result (list AggNumber * AGG) :=
  fold_left (getPayoffVector_step player s)
            (seq 0 (nth player (actions g) 0)) (Ok ([], g)).

(** [AGG::getJ(player1, act1, player2, act2, s)] *)
Definition getJ (g : AGG) (player1 act1 player2 act2 : nat)
    (s : StrategyProfile) : AggNumber * AGG :=
  let v := nth act1 (nth player1 (actionSets g) []) 0 in
  let g := doProjection g v s in
  let g := computeP g player1 act1 (Z.of_nat player2) (Z.of_nat act2) in
  (Trie.inner_prod (nth (numPlayers g - 1) (Pr g) Trie.reset)
                   (nth v (payoffs g) []),
   g).

(** [AGG::getMaxPayoff()]; [payoffs[0].begin()] has no binding to point at
    when the table is empty. *)
Definition getMaxPayoff (g : AGG) : option AggNumber :=
  match Trie.begin (nth 0 (payoffs g) []) with
  | None => None
  | Some b =>
      Some (fold_left
              (fun result i =>
                 fold_left (fun result it => Qcmax result (snd it))
                           (nth i (payoffs g) []) result)
              (seq 1 (numActionNodes g - 1)) (snd b))
  end.

(** [AGG::getMinPayoff()] *)
Definition getMinPayoff (g : AGG) : option AggNumber :=
  match Trie.begin (nth 0 (payoffs g) []) with
  | None => None
  | Some b =>
      Some (fold_left
              (fun result i =>
                 fold_left (fun result it => Qcmin result (snd it))
                           (nth i (payoffs g) []) result)
              (seq 1 (numActionNodes g - 1)) (snd b))
  end.

End Oracle.

(* ================================================================== *)
(** * The header of a game file *)

(** One constructor per exception of the part of [makeAGG] that reads the
    header, with the subject its message names. *)
Inductive header_error : Type :=
| BadNumPlayers
    (* "Error reading the number of players" *)
| BadNumActionNodes
    (* "Error reading the number of action nodes" *)
| BadNumFunctionNodes
    (* "Error reading the number of function nodes" *)
| BadActionSetSize (i : nat)
    (* "Error in game file while trying to read the size of action set of
        player <i>" *)
| BadActionIndex (j i : nat)
    (* "Error in game file while trying to read the node index of action
        <j> of player <i>" *)
| BadNeighborCount (i : nat)
    (* "Error in game file while trying to read the size of the neighbor
        list of node <i>" *)
| BadNeighbor (j i : nat)
    (* "Error while reading neighbor #<j> of node <i>" *)
| BadFunctionType (i : nat)
    (* "Error in game file: expected integer for type of function node
        #<i>" *)
| BadFunction (i : nat)
    (* an exception of make_proj_func for function node <i> *)
| BadVectorSize
    (* the exception of a std::vector that is constructed with a negative
       size *).

Inductive hresult (A : Type) : Type :=
| HOk (a : A)
| HErr (e : header_error).
Arguments HOk {A} a.
Arguments HErr {A} e.

Definition hbind {A B} (r : hresult A) (k : A -> hresult B) : hresult B :=
  match r with
  | HOk a => k a
  | HErr e => HErr e
  end.

Declare Scope hresult_scope.
Delimit Scope hresult_scope with hresult.
Notation "' p <- r ;; k" := (hbind r (fun p => k))
  (at level 61, p pattern, r at next level, right associativity)
  : hresult_scope.

(** [for (j = 0; j < todo; j++) { in >> x; if (in.fail()) throw ...; }]:
    the integers read, or the error of the first lexeme that is no
    integer. *)
Fixpoint read_ints (todo j : nat) (err : nat -> header_error) (s : stream)
    : hresult (list Z * stream) :=
  match todo with
  | O => HOk ([], s)
  | S todo' =>
      match read_int s with
      | None => HErr (err j)
      | Some (x, s) =>
          ('(xs, s) <- read_ints todo' (S j) err s ;;
           HOk (x :: xs, s))%hresult
      end
  end.

(** The loop that reads the action sets: [size[i]] node indices for every
    player [i]; a negative size reads none. *)
Fixpoint read_action_sets (i : nat) (sizes : list Z) (s : stream)
    : hresult (list (list Z) * stream) :=
  match sizes with
  | [] => HOk ([], s)
  | sz :: sizes' =>
      ('(a, s) <- read_ints (Z.to_nat sz) 0 (fun j => BadActionIndex j i) s ;;
       '(rest, s) <- read_action_sets (S i) sizes' s ;;
       HOk (a :: rest, s))%hresult
  end.

(** The loop that reads the neighbor lists: the size of the list, then the
    neighbors. *)
Fixpoint read_neighbors (todo i : nat) (s : stream)
    : hresult (list (list Z) * stream) :=
  match todo with
  | O => HOk ([], s)
  | S todo' =>
      match read_int s with
      | None => HErr (BadNeighborCount i)
      | Some (neighb_size, s) =>
          ('(nb, s) <- read_ints (Z.to_nat neighb_size) 0
                                 (fun j => BadNeighbor j i) s ;;
           '(rest, s) <- read_neighbors todo' (S i) s ;;
           HOk (nb :: rest, s))%hresult
      end
  end.

Section HeaderReader.
Context {projtype : Type}.

(** Modelled from the spec: [make_proj_func((TypeEnum)pt, in, S, P)]
    (games/agg/proj_func.h is not among the sources): the function of tag
    [pt], which reads its parameters from the stream. *)
Variable make_proj_func : Z -> stream -> Z -> Z -> option (projtype * stream).

(** The loop that reads the projection types. *)
Fixpoint read_proj_types (todo i : nat) (numS numP : Z) (s : stream)
    : hresult (list projtype * stream) :=
  match todo with
  | O => HOk ([], s)
  | S todo' =>
      match read_int s with
      | None => HErr (BadFunctionType i)
      | Some (pt, s) =>
          match make_proj_func pt s numS numP with
          | None => HErr (BadFunction i)
          | Some (f, s) =>
              ('(rest, s) <- read_proj_types todo' (S i) numS numP s ;;
               HOk (f :: rest, s))%hresult
          end
      end
  end.

(** What [makeAGG] has read when it calls [setProjections], as the [int]s
    of the file. *)
Record raw_header : Type := mkRaw {
  r_n : Z;
  r_S : Z;
  r_P : Z;
  r_size : list Z;
  r_ASets : list (list Z);
  r_neighb : list (list Z);
  r_projTypes : list projtype
}.

(** The part of [AGG::makeAGG] that reads the header.  The vectors
    [size(n)], [neighb(S + P)] and [projTypes(P)] throw when their size is
    negative. *)
Definition read_header (s : stream) : hresult (raw_header * stream) :=
  match read_int s with
  | None => HErr BadNumPlayers
  | Some (n, s) =>
      match read_int s with
      | None => HErr BadNumActionNodes
      | Some (numS, s) =>
          match read_int s with
          | None => HErr BadNumFunctionNodes
          | Some (numP, s) =>
              if (n <? 0)%Z then HErr BadVectorSize
              else
                ('(size, s) <- read_ints (Z.to_nat n) 0 BadActionSetSize s ;;
                 '(ASets, s) <- read_action_sets 0 size s ;;
                 if (numS + numP <? 0)%Z then HErr BadVectorSize
                 else
                   '(neighb, s) <-
                     read_neighbors (Z.to_nat (numS + numP)) 0 s ;;
                   if (numP <? 0)%Z then HErr BadVectorSize
                   else
                     '(projTypes, s) <-
                       read_proj_types (Z.to_nat numP) 0 numS numP s ;;
                     HOk (mkRaw n numS numP size ASets neighb projTypes, s)
                )%hresult
          end
      end
  end.

(** The header with its counts and indices as naturals, when none of them
    is negative. *)
Definition nonneg (l : list Z) : bool := forallb (fun z => (0 <=? z)%Z) l.

Definition header_of_raw (r : raw_header) : option (@header projtype) :=
  if ((0 <=? r_n r)%Z && (0 <=? r_S r)%Z && (0 <=? r_P r)%Z &&
      nonneg (r_size r) && forallb nonneg (r_ASets r) &&
      forallb nonneg (r_neighb r))%bool
  then Some (mkHeader (Z.to_nat (r_n r)) (Z.to_nat (r_S r))
                      (Z.to_nat (r_P r)) (map Z.to_nat (r_size r))
                      (map (map Z.to_nat) (r_ASets r))
                      (map (map Z.to_nat) (r_neighb r)) (r_projTypes r))
  else None.

(** The text of a header. *)
Variable proj_tag : projtype -> Z.
Variable proj_params : projtype -> stream.

Definition encode_nats (l : list nat) : stream :=
  map (fun x => LInt (Z.of_nat x)) l.

Definition encode_header (h : @header projtype) : stream :=
  [LInt (Z.of_nat (h_n h)); LInt (Z.of_nat (h_S h)); LInt (Z.of_nat (h_P h))]
  ++ encode_nats (h_size h)
  ++ flat_map encode_nats (h_ASets h)
  ++ flat_map (fun nb => LInt (Z.of_nat (length nb)) :: encode_nats nb)
              (h_neighb h)
  ++ flat_map (fun f => LInt (proj_tag f) :: proj_params f) (h_projTypes h).

Definition raw_of_header (h : @header projtype) : raw_header :=
  mkRaw (Z.of_nat (h_n h)) (Z.of_nat (h_S h)) (Z.of_nat (h_P h))
        (map Z.of_nat (h_size h)) (map (map Z.of_nat) (h_ASets h))
        (map (map Z.of_nat) (h_neighb h)) (h_projTypes h).

End HeaderReader.


(* ================================================================== *)
(** * The graph of the function nodes *)

Section FunctionGraph.
Variable neighb : list (list nat).
Variable numS : nat.

(** An edge of the neighbour graph between two function nodes. *)
Definition fedge (x y : nat) : Prop :=
  numS <= x /\ numS <= y /\ In y (nth x neighb []).

(** [y] is reached from [x] along edges between function nodes. *)
Definition reach (x y : nat) : Prop := clos_refl_trans nat fedge x y.

(** [n] lies on a cycle of function nodes. *)
Definition on_cycle (n : nat) : Prop := clos_trans nat fedge n n.

(** A walk from [x] to [y], with the nodes it leaves, in order. *)
Inductive walk : nat -> list nat -> nat -> Prop :=
| walk_nil x : walk x [] x
| walk_cons x z l y : fedge x z -> walk z l y -> walk x (x :: l) y.
End FunctionGraph.

(* ================================================================== *)
(** * The vocabulary of the properties *)

(** The text of a MAPPING table that lists [entries]: the number of pairs,
    then every pair as [[ k_0 ... k_(a-1) ] u]. *)
Definition encode_entry (kv : config * AggNumber) : stream :=
  LBracket :: map LInt (fst kv) ++ [RBracket; LNum (snd kv)].

Definition encode_mapping (entries : list (config * AggNumber)) : stream :=
  LInt (Z.of_nat (length entries)) :: flat_map encode_entry entries.

(** The insertions of the loop of [makeMAPPINGpayoff], on the pairs that it
    has read. *)
Fixpoint bind_all (entries : list (config * AggNumber)) (pay : aggpayoff)
    : result aggpayoff :=
  match entries with
  | [] => Ok pay
  | kv :: entries' =>
      let r := Trie.insert (fst kv) (snd kv) pay in
      if snd r then bind_all entries' (fst r) else Err (Overwriting (fst kv))
  end.

Section Vocabulary.
Context {projtype : Type} {PF : ProjFunc projtype}.
Local Abbreviation AGG := (@AGG projtype).
Local Open Scope Qc_scope.

(** The integral of [f] against a distribution: the sum of [w * f k] over
    its bindings. *)
Definition integrate (f : config -> AggNumber) (m : aggdistrib) : AggNumber :=
  Qcsum (map (fun kw => snd kw * f (fst kw)) m).

(** The payoff that [inner_prod] takes at a key. *)
Definition payoff_at (U : aggpayoff) (k : config) : AggNumber :=
  match Trie.find k U with Some u => u | None => 0 end.

Local Close Scope Qc_scope.

(** The game without the contents of its scratch buffers. *)
Definition static (g : AGG) : AGG := set_Pr (set_projectedStrat g []) [].

(** The sizes of the vectors of a game, and the ranges of the indices that
    they hold. *)
Record game_ok (g : AGG) : Prop := {
  ok_sets : length (actionSets g) = numPlayers g;
  ok_actions : forall p, p < numPlayers g ->
      nth p (actions g) 0 = length (nth p (actionSets g) []);
  ok_nodes : forall p a, p < numPlayers g ->
      a < length (nth p (actionSets g) []) ->
      nth a (nth p (actionSets g) []) 0 < numActionNodes g;
  ok_pS : length (projectedStrat g) = numActionNodes g;
  ok_pS_row : forall v, v < numActionNodes g ->
      length (nth v (projectedStrat g) []) = numPlayers g;
  ok_Pr : length (Pr g) = numPlayers g;
  ok_Porder : forall p a k, p < numPlayers g ->
      a < length (nth p (actionSets g) []) -> k < numPlayers g ->
      nth k (nth a (nth p (Porder g) []) []) 0 < numPlayers g
}.

(** What [getV] returns, as a function of the game and the profile: the
    inner product of the payoff table of the node with the product of the
    marginals of the other players, in the order [Porder], on top of the
    contribution of the action itself. *)
Definition getV_value (g : AGG) (player act : nat) (s : StrategyProfile)
    : AggNumber :=
  let v := nth act (nth player (actionSets g) []) 0 in
  let own := nth act (nth player (nth v (projection g) []) []) [] in
  let numNei := length (nth v (neighbors g) []) in
  let phi := composer (nth v (projFunctions g) []) in
  let order := nth act (nth player (Porder g) []) [] in
  Trie.inner_prod
    (fold_left
       (fun x k =>
          Trie.multiply x
            (project g v (nth k order 0)
                     (skipn (firstAction g (nth k order 0)) s))
            numNei phi)
       (seq 1 (numPlayers g - 1)) [(own, 1%Qc)])
    (nth v (payoffs g) []).

Local Open Scope Qc_scope.

(** The term of action [a] in the sum of [getMixedPayoff]. *)
Definition mixed_term (g : AGG) (p : nat) (s : StrategyProfile) (a : nat)
    : AggNumber :=
  let pr := nth (a + firstAction g p) s 0 in
  if Qcltb 0 pr then pr * getV_value g p a s else 0.

(** The profile [s] with its negative entries replaced by zero. *)
Definition clamp (s : StrategyProfile) : StrategyProfile := map (Qcmax 0) s.

(** Two profiles that agree on the segment of every player. *)
Definition agree (g : AGG) (s s' : StrategyProfile) : Prop :=
  forall i j, (i < numPlayers g)%nat -> (j < nth i (actions g) 0)%nat ->
    nth (j + firstAction g i) s 0 = nth (j + firstAction g i) s' 0.

(** The segment of a player that plays action [a] out of [n] with
    probability 1. *)
Definition one_hot (n a : nat) : list AggNumber :=
  map (fun j => if j =? a then 1%Qc else 0%Qc) (seq 0 n).

(** The mixed profile in which every player [i] plays its action
    [sigma[i]] with probability 1. *)
Definition indicator (g : AGG) (sigma : list nat) : StrategyProfile :=
  flat_map (fun i => one_hot (nth i (actions g) 0%nat) (nth i sigma 0%nat))
           (seq 0 (numPlayers g)).

(** A pure profile: one action index of every player. *)
Definition pure_profile (g : AGG) (sigma : list nat) : Prop :=
  length sigma = numPlayers g /\
  forall i, (i < numPlayers g)%nat ->
            (nth i sigma 0 < nth i (actions g) 0)%nat.

(** The contribution of player [q] to the configuration of node [v] under
    the pure profile [sigma]. *)
Definition contribution (g : AGG) (v : nat) (sigma : list nat) (q : nat)
    : config :=
  nth (nth q sigma 0%nat) (nth q (nth v (projection g) []) []) [].

End Vocabulary.

(** The fold of a binary operation over a vector that is not empty. *)
Definition fold1 A (f : A -> A -> A) (d : A) (l : list A) : A :=
  match l with
  | [] => d
  | x :: l' => fold_left f l' x
  end.

(** The transposition of [p] and [p']. *)
Definition exchange (p p' q : nat) : nat :=
  if q =? p then p' else if q =? p' then p else q.

Section AcceptanceSets.
Context {projtype : Type} {PF : ProjFunc projtype}.
Variables (n : nat) (size : list nat) (ASets : list (list nat)).
Variable projS : list (list aggdistrib).
Variable proj : list (list (list config)).
Variable projF : list (list projtype).

(** [Po[i]] as [makeAGG] sets it. *)
Definition Po_of (i : nat) : list (list nat) :=
  map (fun j => initPorder i n (nth (nth j (nth i ASets []) 0) projS []))
      (seq 0 (nth i size 0)).

(** The trie [Pr[n-1]] that [makeAGG] builds for action [j] of player [i]:
    the contribution of the action times the supports of the other
    players, in the order [Po[i][j]]. *)
Definition accept_trie (i j : nat) : aggdistrib :=
  let v := nth j (nth i ASets []) 0 in
  let own := nth j (nth i (nth v proj []) []) [] in
  fold_left
    (fun x k =>
       Trie.multiply x
         (nth (nth k (nth j (Po_of i) []) 0)
              (nth v projS []) Trie.reset)
         (length own) (composer (nth v projF [])))
    (seq 1 (n - 1)) [(own, 1%Qc)].

(** The tables [pays] hold the configurations of every action of
    player [i]. *)
Definition accepted (pays : list aggpayoff) (i : nat) : Prop :=
  forall j K, j < nth i size 0 ->
    In K (Trie.keys (accept_trie i j)) ->
    In K (Trie.keys (nth (nth j (nth i ASets []) 0) pays [])).

Definition keys_grow (pays pays' : list aggpayoff) : Prop :=
  forall w K, In K (Trie.keys (nth w pays [])) ->
              In K (Trie.keys (nth w pays' [])).

End AcceptanceSets.

Section Ancestry.
Variable neighb : list (list nat).
Variable numS : nat.

(** The action node [a] is an ancestor of [Node]: [Node] itself, or a
    neighbour of a function node that is reached from the function node
    [Node]. *)
Definition ancestor (Node a : nat) : Prop :=
  a < numS /\
  (a = Node \/
   (numS <= Node /\
    exists f, reach neighb numS Node f /\ In a (nth f neighb []))).
End Ancestry.

Section Routes.
Variable neighb : list (list nat).
Variable numS : nat.

(** A route from a node: the positions to take in the neighbour lists of
    the function nodes that it passes, down to the action node at which it
    ends. *)
Fixpoint route_end (x : nat) (ks : list nat) : option nat :=
  match ks with
  | [] => if x <? numS then Some x else None
  | k :: ks' =>
      if x <? numS then None
      else
        match nth_error (nth x neighb []) k with
        | Some y => route_end y ks'
        | None => None
        end
  end.

(** The routes from [x] to the action node [a] that pass fewer than [fuel]
    function nodes. *)
Fixpoint routes_to (fuel : nat) (x a : nat) : list (list nat) :=
  match fuel with
  | O => []
  | S fuel' =>
      if x <? numS then (if x =? a then [[]] else [])
      else
        flat_map (fun ky => map (cons (fst ky)) (routes_to fuel' (snd ky) a))
                 (combine (seq 0 (length (nth x neighb [])))
                          (nth x neighb []))
  end.
End Routes.

Section Products.
Variable arity : nat.
Variable phi : nat -> Z -> Z -> Z.

(** The product of [x0] and the distributions [ms], taken from the left as
    [computeP] takes it. *)
Definition chain (ms : list aggdistrib) (x0 : aggdistrib) : aggdistrib :=
  fold_left (fun x m => Trie.multiply x m arity phi) ms x0.

(** The function that is integrated against [x0] when [f] is integrated
    against [chain ms x0]. *)
Definition pull (ms : list aggdistrib) (f : config -> AggNumber)
    : config -> AggNumber :=
  fold_right
    (fun m f' ka => integrate (fun kb => f' (Trie.compose_key arity phi ka kb)) m)
    f ms.
End Products.

Section JacobianValue.
Context {projtype : Type} {PF : ProjFunc projtype}.
Local Abbreviation AGG := (@AGG projtype).

(** The factor of player [q] in the product that [computeP] builds for
    [getJ]: the action [a2] for sure when [q] is [p2], and the marginal of
    [q] otherwise. *)
Definition getJ_factor (g : AGG) (v p2 a2 : nat) (s : StrategyProfile)
    (q : nat) : aggdistrib :=
  if q =? p2
  then [(nth a2 (nth p2 (nth v (projection g) []) []) [], 1%Qc)]
  else project g v q (skipn (firstAction g q) s).

(** What [getJ] returns, as a function of the game and the profile. *)
Definition getJ_value (g : AGG) (p a p2 a2 : nat) (s : StrategyProfile)
    : AggNumber :=
  let v := nth a (nth p (actionSets g) []) 0 in
  let own := nth a (nth p (nth v (projection g) []) []) [] in
  let order := nth a (nth p (Porder g) []) [] in
  Trie.inner_prod
    (fold_left
       (fun x k =>
          Trie.multiply x (getJ_factor g v p2 a2 s (nth k order 0))
                        (length (nth v (neighbors g) []))
                        (composer (nth v (projFunctions g) [])))
       (seq 1 (numPlayers g - 1)) [(own, 1%Qc)])
    (nth v (payoffs g) []).
End JacobianValue.

(** The keys of a trie are in strictly ascending order. *)
Definition sorted_keys V (m : Trie.t V) : Prop :=
  StronglySorted (fun a b => Trie.cfg_compare a b = Lt) (Trie.keys m).

(** What the loop of the constructor over the sorted pairs keeps, when it
    has taken the pairs [pre]. *)
Record classes_inv (n : nat) (pre : list (list nat * nat)) (c : classes)
    : Prop := {
  ci_len : length (uniqueActionSets c) = length (playerClasses c) /\
           0 < length (playerClasses c);
  ci_concat : concat (playerClasses c) = map snd pre;
  ci_members : forall k q, k < length (playerClasses c) ->
      In q (nth k (playerClasses c) []) ->
      In (nth k (uniqueActionSets c) [], q) pre;
  ci_p2c : forall q, In q (map snd pre) ->
      nth q (player2Class c) 0 < length (playerClasses c) /\
      In q (nth (nth q (player2Class c) 0) (playerClasses c) []);
  ci_last : last (uniqueActionSets c) [] = fst (last pre ([], 0));
  ci_from : forall u, In u (uniqueActionSets c) -> exists q, In (u, q) pre;
  ci_sorted : StronglySorted (fun a b => list_compare a b = Lt)
                             (uniqueActionSets c);
  ci_p2c_len : length (player2Class c) = n;
  ci_off : length (kSymStrategyOffset c) = S (length (uniqueActionSets c)) /\
           nth 0 (kSymStrategyOffset c) 0 = 0 /\
           (forall k, k < length (uniqueActionSets c) ->
              nth (S k) (kSymStrategyOffset c) 0 =
              nth k (kSymStrategyOffset c) 0 +
              length (nth k (uniqueActionSets c) [])) /\
           numKSymActions c =
           nth (length (uniqueActionSets c)) (kSymStrategyOffset c) 0
}.

(* ================================================================== *)
(** * Concrete games *)

Definition empty_game : @AGG scenario_proj :=
  mkAGG 0 [] [] 0 0 0 0 [] [] [] [] [] [] [] [] [] []
        (mkClasses [] [] [] 0 []) [] [].

Definition built (r : result (@AGG scenario_proj)) : @AGG scenario_proj :=
  match r with Ok g => g | Err _ => empty_game end.

Definition mapping_entry (key : list Z) (u : Z) : stream :=
  LBracket :: map LInt key ++ [RBracket; LInt u].

(** Scenario A of the spec: two players, two action nodes, both nodes
    neighbours of both. *)
Definition hA : @header scenario_proj :=
  mkHeader 2 2 0 [2; 2] [[0; 1]; [0; 1]] [[0; 1]; [0; 1]] [].

Definition sA : stream :=
  [LInt 1; LInt 3] ++ mapping_entry [2; 0]%Z 2%Z ++ mapping_entry [1; 1]%Z 0%Z
                   ++ mapping_entry [0; 2]%Z 0%Z ++
  [LInt 1; LInt 3] ++ mapping_entry [2; 0]%Z 0%Z ++ mapping_entry [1; 1]%Z 0%Z
                   ++ mapping_entry [0; 2]%Z 2%Z.

Definition gA : @AGG scenario_proj := built (makeAGG hA sA).

(** Scenario B of the spec: three players on two action nodes that see the
    SUM function node 2 of both. *)
Definition hB : @header scenario_proj :=
  mkHeader 3 2 1 [2; 2; 2] [[0; 1]; [0; 1]; [0; 1]] [[2]; [2]; [0; 1]] [P_SUM].

Definition sB : stream :=
  [LInt 1; LInt 1] ++ mapping_entry [3]%Z 7%Z ++
  [LInt 1; LInt 1] ++ mapping_entry [3]%Z 4%Z.

Definition gB : @AGG scenario_proj := built (makeAGG hB sB).

(** One player whose action list names node 0 twice. *)
Definition hRepeat : @header scenario_proj :=
  mkHeader 1 1 0 [2] [[0; 0]] [[0]] [].

Definition sRepeat : stream := [LInt 1; LInt 1] ++ mapping_entry [1]%Z 3%Z.

(** Four players on two action nodes; node 0 sees both nodes, node 1 sees
    none.  The table of node 0 has its largest and its least payoff in the
    middle of the key order. *)
Definition hMax : @header scenario_proj :=
  mkHeader 4 2 0 [2; 2; 2; 2] [[0; 1]; [0; 1]; [0; 1]; [0; 1]] [[0; 1]; []] [].

Definition sMax : stream :=
  [LInt 1; LInt 4] ++ mapping_entry [1; 3]%Z 0%Z ++ mapping_entry [2; 2]%Z 5%Z
                   ++ mapping_entry [3; 1]%Z (-5)%Z ++ mapping_entry [4; 0]%Z 0%Z ++
  [LInt 1; LInt 1] ++ mapping_entry []%Z 0%Z.

(** A function node graph on the action node 0 and the function nodes 1 to
    4: node 1 sees 2 and 3, node 2 sees 4, node 3 sees itself; node 4 is
    EXIST and the others are SUM. *)
Definition cyc_neighb : list (list nat) := [[]; [2; 3]; [4]; [3]; []].
Definition cyc_types : list scenario_proj := [P_SUM; P_SUM; P_SUM; P_EXIST].

Definition half : AggNumber := Q2Qc (1 # 2).

(** A profile of scenario A in which the first action of player 0 has the
    probability -1. *)
Definition s_negative : StrategyProfile := [Q2Qc (-1); Q2Qc 2; 1%Qc; 0%Qc].



(** A profile with two entries more than scenario A has actions. *)
Definition s_long : StrategyProfile :=
  [Q2Qc (-1); Q2Qc 2; 1%Qc; 0%Qc; Q2Qc 5; Q2Qc (-3)].

(** Modelled from the spec: the tags of the two variants of the scenarios
    (section 6: [0 SUM], [1 EXIST]); neither has parameters. *)
Definition scenario_make_proj_func (pt : Z) (s : stream) (numS numP : Z)
    : option (scenario_proj * stream) :=
  if (pt =? 0)%Z then Some (P_SUM, s)
  else if (pt =? 1)%Z then Some (P_EXIST, s)
  else None.

Definition scenario_tag (f : scenario_proj) : Z :=
  match f with P_SUM => 0%Z | P_EXIST => 1%Z end.

Definition scenario_params (f : scenario_proj) : stream := [].

(** Four players, of which the players 0 and 2 have the action set [[0; 1]]. *)
Definition sets4 : list (list nat) := [[0; 1]; [2]; [0; 1]; [1; 2]].

(** A MAPPING table of arity 2 with the two keys [[2; 0]] and [[1; 1]]. *)
Definition two_entries : list (config * AggNumber) :=
  [([2%Z; 0%Z], Q2Qc 2); ([1%Z; 1%Z], Q2Qc 0)].

(** A profile of scenario B: player 0 mixes evenly, players 1 and 2 play
    their first action. *)
Definition sB_mixed : StrategyProfile :=
  [half; half; 1%Qc; 0%Qc; 1%Qc; 0%Qc].

(** The classes that the constructor forms for [sets4]. *)
Definition classes4 : classes :=
  mkClasses [[0; 1]; [1; 2]; [2]] [[0; 2]; [3]; [1]] [0; 2; 0; 1] 5
            [0; 2; 4; 5].

Definition gMax : @AGG scenario_proj := built (makeAGG hMax sMax).

(** The action node 0 and two function nodes: node 1 sees node 2, which
    sees node 0. *)
Definition line_neighb : list (list nat) := [[]; [2]; [0]].

(* ================================================================== *)
(** * Properties: vectors and sorting *)

Lemma upd_length A (i : nat) (x : A) l : length (upd i x l) = length l.
Proof.
  revert i; induction l as [|y l IH]; intros [|i]; simpl; auto.
Qed.

Lemma nth_upd_same A (i : nat) (x d : A) l :
  i < length l -> nth i (upd i x l) d = x.
Proof.
  revert i; induction l as [|y l IH]; intros [|i] H; simpl in *;
    try lia; auto.
  apply IH; lia.
Qed.

Lemma nth_upd_other A (i j : nat) (x d : A) l :
  i <> j -> nth j (upd i x l) d = nth j l d.
Proof.
  revert i j; induction l as [|y l IH]; intros [|i] [|j] H; simpl;
    try congruence; auto.
Qed.

Lemma nth_upd A (i j : nat) (x d : A) l :
  nth j (upd i x l) d = if (i =? j) && (i <? length l) then x else nth j l d.
Proof.
  destruct (Nat.eqb_spec i j) as [->|Hne]; simpl.
  - destruct (Nat.ltb_spec j (length l)).
    + now apply nth_upd_same.
    + rewrite !nth_overflow; auto. rewrite upd_length; lia.
  - now apply nth_upd_other.
Qed.

Section SortFacts.
Variable A : Type.
Variable leb : A -> A -> bool.
Hypothesis leb_total : forall x y, leb x y = true \/ leb y x = true.

Let le (x y : A) : Prop := leb x y = true.

Lemma sort_insert_perm x l : Permutation (x :: l) (sort_insert leb x l).
Proof.
  induction l as [|y l IH]; simpl; auto.
  destruct (leb x y); auto.
  rewrite perm_swap. now constructor.
Qed.

Lemma sort_perm l : Permutation l (sort leb l).
Proof.
  induction l as [|x l IH]; simpl; auto.
  rewrite <- sort_insert_perm. now constructor.
Qed.

Lemma sort_insert_sorted x l :
  Sorted le l -> Sorted le (sort_insert leb x l).
Proof.
  induction 1 as [|y l Hs IH Hhd]; simpl.
  - repeat constructor.
  - destruct (leb x y) eqn:E.
    + constructor; [now constructor|]. now constructor.
    + constructor; auto.
      destruct Hhd as [|z l' Hz]; simpl.
      * constructor. destruct (leb_total x y); unfold le; congruence.
      * destruct (leb x z); constructor; auto.
        destruct (leb_total x y); unfold le; congruence.
Qed.

Lemma sort_sorted l : Sorted le (sort leb l).
Proof.
  induction l; simpl; [constructor | now apply sort_insert_sorted].
Qed.

(** Sorting leaves an ascending vector alone. *)
Lemma sort_id l : Sorted le l -> sort leb l = l.
Proof.
  induction 1 as [|x l Hs IH Hhd]; simpl; auto.
  rewrite IH. destruct Hhd as [|y l' Hy]; simpl; auto.
  unfold le in Hy. now rewrite Hy.
Qed.

Lemma sort_fixpoint l : sort leb l = l <-> Sorted le l.
Proof.
  split; [|apply sort_id].
  intros <-. apply sort_sorted.
Qed.
End SortFacts.

Lemma pair_leb_total x y : pair_leb x y = true \/ pair_leb y x = true.
Proof.
  unfold pair_leb.
  destruct (Nat.ltb_spec (fst x) (fst y)); simpl; auto.
  destruct (Nat.ltb_spec (fst y) (fst x)); simpl; auto.
  assert (E : fst x = fst y) by lia. rewrite E, Nat.eqb_refl; simpl.
  destruct (Nat.leb_spec (snd x) (snd y)); auto.
  right. apply Nat.leb_le. lia.
Qed.

Lemma pair_leb_fst x y : pair_leb x y = true -> fst x <= fst y.
Proof.
  unfold pair_leb.
  destruct (Nat.ltb_spec (fst x) (fst y)); simpl; [lia|].
  destruct (Nat.eqb_spec (fst x) (fst y)); simpl; [lia|discriminate].
Qed.

Lemma pair_leb_trans x y z :
  pair_leb x y = true -> pair_leb y z = true -> pair_leb x z = true.
Proof.
  unfold pair_leb. intros H1 H2.
  apply orb_true_iff in H1, H2. apply orb_true_iff.
  rewrite !andb_true_iff, !Nat.ltb_lt, !Nat.eqb_eq, !Nat.leb_le in *.
  lia.
Qed.

Lemma nat_leb_total x y : (x <=? y) = true \/ (y <=? x) = true.
Proof. rewrite !Nat.leb_le. lia. Qed.

Lemma Sorted_leb_le l :
  Sorted (fun x y => (x <=? y) = true) l <-> Sorted le l.
Proof.
  split; induction 1 as [|x l Hs IH Hhd]; constructor; auto;
    destruct Hhd; constructor; now apply Nat.leb_le.
Qed.

Lemma nth_firstn_lt A (n i : nat) (l : list A) d :
  i < n -> nth i (firstn n l) d = nth i l d.
Proof.
  revert i l; induction n as [|n IH]; intros i l H; [lia|].
  destruct l as [|x l]; simpl; [now destruct i|].
  destruct i as [|i]; simpl; auto. apply IH; lia.
Qed.

(* ================================================================== *)
(** * The constructor's check of the action sets *)

Section Constructor.
Context {projtype : Type} {PF : ProjFunc projtype}.

Lemma ctor_check_sorted_ok sets : forall i0,
  ctor_check_sorted i0 sets = Ok tt <-> Forall (Sorted le) sets.
Proof.
  induction sets as [|a sets IH]; intros i0; simpl.
  - split; auto.
  - destruct (list_eq_dec Nat.eq_dec (sort Nat.leb a) a) as [E|E].
    + rewrite IH. apply (sort_fixpoint Nat.leb nat_leb_total) in E.
      apply Sorted_leb_le in E. split; intros H.
      * now constructor.
      * now inversion H.
    + split; [discriminate|]. intros H. inversion H as [|? ? Ha _]; subst.
      exfalso. apply E. apply (sort_fixpoint Nat.leb nat_leb_total).
      now apply Sorted_leb_le.
Qed.

Lemma ctor_check_sorted_err sets : forall i0 e,
  ctor_check_sorted i0 sets = Err e ->
  exists k, e = NotAscending (i0 + k) /\ k < length sets /\
            ~ Sorted le (nth k sets []) /\
            forall k', k' < k -> Sorted le (nth k' sets []).
Proof.
  induction sets as [|a sets IH]; intros i0 e; simpl; [discriminate|].
  destruct (list_eq_dec Nat.eq_dec (sort Nat.leb a) a) as [E|E].
  - intros H. apply IH in H as (k & -> & Hk & Hbad & Hgood).
    exists (S k). split; [f_equal; lia|]. split; [simpl; lia|].
    split; [exact Hbad|].
    intros [|k'] Hk'; [|apply Hgood; lia].
    apply Sorted_leb_le. now apply (sort_fixpoint Nat.leb nat_leb_total).
  - intros [= <-]. exists 0. split; [f_equal; lia|]. split; [simpl; lia|].
    split; [|intros k' Hk'; lia].
    + intros Hs. apply E. apply (sort_fixpoint Nat.leb nat_leb_total).
      now apply Sorted_leb_le.
Qed.

Lemma Forall_firstn_nth (Q : list nat -> Prop) n (sets : list (list nat)) :
  Q [] ->
  (Forall Q (firstn n sets) <-> forall i, i < n -> Q (nth i sets [])).
Proof.
  intros Hnil. revert sets; induction n as [|n IH]; intros sets; simpl.
  - split; [intros _ i Hi; lia | constructor].
  - destruct sets as [|a sets].
    + split; [|constructor]. intros _ [|i] _; exact Hnil.
    + split.
      * intros H. inversion H; subst. intros [|i] Hi; simpl; auto.
        apply IH; auto; lia.
      * intros H. constructor; [apply (H 0); lia|].
        apply IH. intros i Hi. apply (H (S i)); lia.
Qed.

End Constructor.

(* ================================================================== *)
(** * The ancestor computation *)

Section Ancestors.
Context {projtype : Type} {PF : ProjFunc projtype}.
Variable neighb : list (list nat).
Variable projTypes : list projtype.
Variable numS : nat.

Local Abbreviation fedge := (fedge neighb numS).
Local Abbreviation walk := (walk neighb numS).
Local Abbreviation mism := (type_mismatch projTypes numS).

Lemma getAn_loop_fuel call mm Node nbs : forall dest,
  (forall dest nb, call dest nb <> Err OutOfFuel) ->
  getAn_loop call mm Node nbs dest <> Err OutOfFuel.
Proof.
  induction nbs as [|nb nbs IH]; intros dest Hcall; simpl; [discriminate|].
  destruct (mm nb); [discriminate|].
  destruct (call dest nb) eqn:E; [now apply IH|].
  intros [= ->]. now apply (Hcall dest nb).
Qed.

Lemma getAn_loop_err call mm Node nbs : forall dest e,
  getAn_loop call mm Node nbs dest = Err e ->
  (exists nb, In nb nbs /\ mm nb = true /\ e = TypeMismatch Node nb) \/
  (exists nb dest', In nb nbs /\ mm nb = false /\ call dest' nb = Err e).
Proof.
  induction nbs as [|nb nbs IH]; intros dest e; simpl; [discriminate|].
  destruct (mm nb) eqn:M.
  - intros [= <-]. left. exists nb. auto.
  - destruct (call dest nb) eqn:E.
    + intros H. apply IH in H as [(nb' & ? & ? & ?)|(nb' & d' & ? & ? & ?)].
      * left. exists nb'. auto.
      * right. exists nb', d'. auto.
    + intros [= <-]. right. exists nb, dest. auto.
Qed.

Lemma getAn_loop_ok call mm Node nbs : forall dest d,
  getAn_loop call mm Node nbs dest = Ok d ->
  forall nb, In nb nbs ->
    mm nb = false /\ exists dest' d', call dest' nb = Ok d'.
Proof.
  induction nbs as [|nb nbs IH]; intros dest d; simpl; [intros _ ? []|].
  destruct (mm nb) eqn:M; [discriminate|].
  destruct (call dest nb) as [d1|] eqn:E; [|discriminate].
  intros H nb' [<-|Hin].
  - split; auto. now exists dest, d1.
  - eapply IH; eauto.
Qed.

(** The depth of the recursion: a path never repeats a node, and every
    node on it has neighbours, so is one of the function nodes. *)
Lemma getAn_rec_fuel : forall fuel dest Node path,
  NoDup path ->
  (forall x, In x path -> numS <= x < length neighb) ->
  length neighb - numS < fuel + length path ->
  getAn_rec fuel dest neighb projTypes numS Node path <> Err OutOfFuel.
Proof.
  induction fuel as [|fuel IH]; intros dest Node path Hnd Hin Hlen.
  - exfalso.
    assert (Hincl : incl path (seq numS (length neighb - numS))).
    { intros x Hx. apply in_seq. specialize (Hin x Hx). lia. }
    apply NoDup_incl_length in Hincl; auto.
    rewrite length_seq in Hincl. simpl in Hlen. lia.
  - simpl.
    destruct (Nat.ltb_spec Node numS); [discriminate|].
    destruct (existsb (Nat.eqb Node) path) eqn:Ex; [discriminate|].
    destruct (Nat.lt_ge_cases Node (length neighb)) as [Hlt|Hge].
    + apply getAn_loop_fuel. intros dest' nb. apply IH.
      * apply NoDup_app; auto.
        -- repeat constructor. intros [].
        -- intros x Hx [<-|[]].
           assert (existsb (Nat.eqb Node) path = true); [|congruence].
           apply existsb_exists. exists Node. split; auto.
           apply Nat.eqb_refl.
      * intros x Hx. apply in_app_or in Hx as [Hx|[<-|[]]]; auto.
      * rewrite length_app. simpl. lia.
    + rewrite nth_overflow by lia. simpl. discriminate.
Qed.

Theorem getAn_terminates dest Node :
  getAn dest neighb projTypes numS Node [] <> Err OutOfFuel.
Proof.
  unfold getAn. apply getAn_rec_fuel.
  - constructor.
  - intros x [].
  - simpl. lia.
Qed.
Lemma getAn_rec_action fuel dest Node path e :
  Node < numS ->
  getAn_rec fuel dest neighb projTypes numS Node path = Err e ->
  e = OutOfFuel.
Proof.
  intros Hlt. destruct fuel; simpl; [congruence|].
  destruct (Nat.ltb_spec Node numS); [discriminate|lia].
Qed.

(** What an error of [getAn] names: a node that the walk has met twice,
    or a node and a neighbour of it whose signatures differ. *)
Lemma getAn_rec_err : forall fuel dest Node path e,
  numS <= Node ->
  (forall x, In x path -> clos_trans nat fedge x Node) ->
  getAn_rec fuel dest neighb projTypes numS Node path = Err e ->
  e = OutOfFuel \/
  (exists n, e = CycleAt n /\ reach neighb numS Node n /\
             on_cycle neighb numS n) \/
  (exists x y, e = TypeMismatch x y /\ reach neighb numS Node x /\
               In y (nth x neighb []) /\ mism x y = true).
Proof.
  induction fuel as [|fuel IH]; intros dest Node path e HS Hpath; simpl;
    [intros [= <-]; auto|].
  destruct (Nat.ltb_spec Node numS) as [Hlt'|_]; [lia|].
  destruct (existsb (Nat.eqb Node) path) eqn:Ex.
  - intros [= <-]. right; left. exists Node. split; auto.
    split; [apply rt_refl|].
    apply existsb_exists in Ex as (x & Hx & E).
    apply Nat.eqb_eq in E; subst x. now apply Hpath.
  - intros H.
    apply getAn_loop_err in H as [(nb & Hin & Hm & ->)|(nb & d' & Hin & Hm & H)].
    + right; right. exists Node, nb. repeat split; auto. apply rt_refl.
    + destruct (Nat.lt_ge_cases nb numS) as [Hlt|Hge].
      * left. eapply getAn_rec_action; eauto.
      * assert (Hedge : fedge Node nb) by (repeat split; auto).
        apply IH in H; auto.
        -- destruct H as [->|[(n & -> & Hr & Hc)|(x & y & -> & Hr & Hy & Hxy)]];
             auto.
           ++ right; left. exists n. repeat split; auto.
              eapply rt_trans; [apply rt_step; eauto|exact Hr].
           ++ right; right. exists x, y. repeat split; auto.
              eapply rt_trans; [apply rt_step; eauto|exact Hr].
        -- intros x Hx. apply in_app_or in Hx as [Hx|[<-|[]]].
           ++ eapply t_trans; [apply Hpath; auto|now apply t_step].
           ++ now apply t_step.
Qed.

(** A call that returns has met no node twice on any walk. *)
Lemma getAn_rec_ok_walk : forall x l y,
  walk x l y ->
  forall fuel dest path d,
    numS <= x ->
    getAn_rec fuel dest neighb projTypes numS x path = Ok d ->
    ~ In y path /\ ~ In y l.
Proof.
  induction 1 as [x|x z l y Hedge Hw IH]; intros fuel dest path d HS;
    (destruct fuel as [|fuel]; simpl; [discriminate|]);
    (destruct (Nat.ltb_spec x numS); [lia|]);
    (destruct (existsb (Nat.eqb x) path) eqn:Ex; [discriminate|]);
    intros Hok.
  - split; [|intros []]. intros Hin.
    assert (existsb (Nat.eqb x) path = true); [|congruence].
    apply existsb_exists. exists x. split; auto. apply Nat.eqb_refl.
  - destruct Hedge as (_ & Hz & Hin).
    eapply getAn_loop_ok in Hok as (_ & dest' & d' & Hcall); eauto.
    apply IH in Hcall as (Hp & Hl); auto.
    split.
    + intros Hy. apply Hp. apply in_or_app. now left.
    + intros [<-|Hy]; auto. apply Hp. apply in_or_app. right. now left.
Qed.

Lemma walk_app x l1 y l2 z :
  walk x l1 y -> walk y l2 z -> walk x (l1 ++ l2) z.
Proof.
  induction 1; simpl; auto. intros. econstructor; eauto.
Qed.

Lemma reach_walk x y : reach neighb numS x y -> exists l, walk x l y.
Proof.
  intros H. apply clos_rt_rt1n in H.
  induction H as [x|x z y Hedge _ (l & Hl)].
  - exists []. constructor.
  - exists (x :: l). econstructor; eauto.
Qed.

Lemma trans_walk x y :
  clos_trans nat fedge x y -> exists l, walk x (x :: l) y.
Proof.
  intros H. apply clos_trans_t1n in H.
  induction H as [x y Hedge|x z y Hedge _ (l & Hl)].
  - exists []. econstructor; eauto. constructor.
  - exists (z :: l). econstructor; eauto.
Qed.

Lemma getAn_rec_cycle_not_ok fuel dest Node path d c :
  numS <= Node ->
  reach neighb numS Node c -> on_cycle neighb numS c ->
  getAn_rec fuel dest neighb projTypes numS Node path <> Ok d.
Proof.
  intros HS Hr Hc Hok.
  apply reach_walk in Hr as (l1 & H1).
  apply trans_walk in Hc as (l2 & H2).
  pose proof (walk_app H1 H2) as Hw.
  eapply getAn_rec_ok_walk in Hw as (_ & Hl); eauto.
  apply Hl. apply in_or_app. right. now left.
Qed.

(** C6, as the code has it.  [getAn] ends on every input.  When a cycle of
    function nodes is reached from the start it throws: the cycle error,
    which names a node on a cycle, or the mismatch error for two
    neighbours of different signatures, whichever the walk meets first.
    When no cycle is reached it returns, or throws the mismatch error. *)
Theorem getAn_cycle_error dest Node :
  numS <= Node ->
  let r := getAn dest neighb projTypes numS Node [] in
  r <> Err OutOfFuel /\
  (forall c, reach neighb numS Node c -> on_cycle neighb numS c ->
     (exists n, r = Err (CycleAt n) /\ on_cycle neighb numS n) \/
     (exists x y, r = Err (TypeMismatch x y) /\ reach neighb numS Node x /\
                  In y (nth x neighb []) /\ mism x y = true)) /\
  ((forall c, reach neighb numS Node c -> ~ on_cycle neighb numS c) ->
     (exists d, r = Ok d) \/
     (exists x y, r = Err (TypeMismatch x y) /\ reach neighb numS Node x /\
                  In y (nth x neighb []) /\ mism x y = true)).
Proof.
  intros HS r.
  pose proof (getAn_terminates dest Node) as Hfuel. fold r in Hfuel.
  assert (Herr : forall e, r = Err e ->
            (exists n, e = CycleAt n /\ reach neighb numS Node n /\
                       on_cycle neighb numS n) \/
            (exists x y, e = TypeMismatch x y /\ reach neighb numS Node x /\
                         In y (nth x neighb []) /\ mism x y = true)).
  { intros e He. pose proof He as He'. unfold r, getAn in He'.
    apply getAn_rec_err in He' as [->|He']; auto.
    - exfalso. apply Hfuel. exact He.
    - intros x []. }
  split; [exact Hfuel|]. split.
  - intros c Hr Hc. destruct r as [d|e] eqn:Er.
    + exfalso. unfold r, getAn in Er.
      eapply getAn_rec_cycle_not_ok in Er; eauto.
    + destruct (Herr e eq_refl) as [(n & -> & _ & Hn)|(x & y & -> & H)].
      * left. exists n. auto.
      * right. exists x, y. auto.
  - intros Hacyc. destruct r as [d|e] eqn:Er.
    + left. now exists d.
    + destruct (Herr e eq_refl) as [(n & -> & Hrn & Hn)|(x & y & -> & H)].
      * exfalso. eapply Hacyc; eauto.
      * right. exists x, y. auto.
Qed.

End Ancestors.

(* ================================================================== *)
(** * The routes to the ancestors *)

Lemma in_combine_seq A (l : list A) : forall k0 k y,
  In (k, y) (combine (seq k0 (length l)) l) <->
  k0 <= k /\ nth_error l (k - k0) = Some y.
Proof.
  induction l as [|x l IH]; intros k0 k y; simpl.
  - split; [intros [] | intros (_ & H)]. now destruct (k - k0).
  - rewrite IH. split.
    + intros [[= <- <-] | (Hk & Hn)].
      * split; [lia|]. now rewrite Nat.sub_diag.
      * split; [lia|]. replace (k - k0) with (S (k - S k0)) by lia. exact Hn.
    + intros (Hk & Hn). destruct (k - k0) as [|m] eqn:E.
      * left. simpl in Hn. inversion Hn. f_equal. lia.
      * right. split; [lia|]. simpl in Hn.
        replace (k - S k0) with m by lia. exact Hn.
Qed.

Lemma NoDup_map_cons (k : nat) (l : list (list nat)) :
  NoDup l -> NoDup (map (cons k) l).
Proof.
  induction 1 as [|ks l Hin Hnd IH]; simpl; constructor; auto.
  intros H. apply in_map_iff in H as (ks' & [= ->] & H). contradiction.
Qed.

Lemma NoDup_routes_step A (R : A -> list (list nat)) (l : list A) : forall k0,
  (forall y, NoDup (R y)) ->
  NoDup (flat_map (fun ky => map (cons (fst ky)) (R (snd ky)))
                  (combine (seq k0 (length l)) l)).
Proof.
  induction l as [|x l IH]; intros k0 HR; simpl; [constructor|].
  apply NoDup_app.
  - apply NoDup_map_cons, HR.
  - now apply IH.
  - intros ks H1 H2.
    apply in_map_iff in H1 as (ks1 & <- & _).
    apply in_flat_map in H2 as ([k y] & Hin & H2).
    apply in_map_iff in H2 as (ks2 & [= E _] & _).
    apply in_combine_seq in Hin as (Hk & _). simpl in E. lia.
Qed.

Lemma filter_eqb_repeat a (l : list nat) :
  filter (Nat.eqb a) l = repeat a (count_occ Nat.eq_dec l a).
Proof.
  induction l as [|x l IH]; simpl; auto.
  destruct (Nat.eqb_spec a x) as [<-|N].
  - destruct (Nat.eq_dec a a); [|congruence]. simpl. now f_equal.
  - destruct (Nat.eq_dec x a); [congruence|]. exact IH.
Qed.

Section RoutesOfWalk.
Context {projtype : Type} {PF : ProjFunc projtype}.
Variable neighb : list (list nat).
Variable projTypes : list projtype.
Variable numS : nat.

Local Abbreviation route_from := (route_end neighb numS).
Local Abbreviation all_routes := (routes_to neighb numS).

Lemma routes_to_NoDup : forall fuel x a, NoDup (all_routes fuel x a).
Proof.
  induction fuel as [|fuel IH]; intros x a; cbn [routes_to].
  - constructor.
  - destruct (x <? numS).
    + destruct (x =? a); repeat constructor. intros [].
    + apply NoDup_routes_step with (R := fun y => all_routes fuel y a).
      intros y. apply IH.
Qed.

Lemma routes_to_sound : forall fuel x a ks,
  In ks (all_routes fuel x a) -> route_from x ks = Some a.
Proof.
  induction fuel as [|fuel IH]; intros x a ks; cbn [routes_to]; [intros []|].
  destruct (x <? numS) eqn:E.
  - destruct (Nat.eqb_spec x a) as [->|]; [|intros []].
    intros [<-|[]]. simpl. now rewrite E.
  - intros H. apply in_flat_map in H as ([k y] & Hin & H).
    apply in_map_iff in H as (ks' & <- & H). cbn [fst snd] in *.
    apply in_combine_seq in Hin as (_ & Hn). rewrite Nat.sub_0_r in Hn.
    cbn [route_end]. rewrite E, Hn. now apply IH.
Qed.

Lemma getAn_loop_count call mm Node (R : nat -> list (list nat)) a nbs :
  forall k0 dest d,
  (forall dest y d, In y nbs -> call dest y = Ok d ->
     count_occ Nat.eq_dec d a = length (R y) + count_occ Nat.eq_dec dest a) ->
  getAn_loop call mm Node nbs dest = Ok d ->
  count_occ Nat.eq_dec d a =
  length (flat_map (fun ky => map (cons (fst ky)) (R (snd ky)))
                   (combine (seq k0 (length nbs)) nbs)) +
  count_occ Nat.eq_dec dest a.
Proof.
  induction nbs as [|y nbs IH]; intros k0 dest d Hcall H; simpl in H.
  - inversion H; subst. reflexivity.
  - destruct (mm y); [discriminate|].
    destruct (call dest y) as [d1|e] eqn:E; [|discriminate].
    cbn [length seq combine flat_map fst snd].
    rewrite length_app, length_map.
    rewrite (IH (S k0) d1 d); auto.
    + rewrite (Hcall dest y d1); auto; [lia | now left].
    + intros dest' y' d' Hin. apply Hcall. now right.
Qed.

Lemma getAn_rec_routes : forall fuel dest Node path d,
  getAn_rec fuel dest neighb projTypes numS Node path = Ok d ->
  forall a,
    count_occ Nat.eq_dec d a =
    length (all_routes fuel Node a) + count_occ Nat.eq_dec dest a /\
    (forall ks, route_from Node ks = Some a -> In ks (all_routes fuel Node a)).
Proof.
  induction fuel as [|fuel IH]; intros dest Node path d H a; [discriminate|].
  cbn [getAn_rec] in H. cbn [routes_to].
  destruct (Node <? numS) eqn:E.
  - inversion H; subst. split.
    + cbn [count_occ]. destruct (Nat.eq_dec Node a) as [->|N].
      * now rewrite Nat.eqb_refl.
      * destruct (Nat.eqb_spec Node a); [contradiction | reflexivity].
    + intros [|k ks]; cbn [route_end]; rewrite E; [|discriminate].
      intros [= ->]. rewrite Nat.eqb_refl. now left.
  - destruct (existsb (Nat.eqb Node) path); [discriminate|]. split.
    + apply getAn_loop_count with (R := fun y => all_routes fuel y a) (k0 := 0)
                                  (a := a) in H; [exact H|].
      intros dest' y d' _ Hc. now apply (IH _ _ _ _ Hc a).
    + intros [|k ks]; cbn [route_end]; rewrite E; [discriminate|].
      destruct (nth_error (nth Node neighb []) k) as [y|] eqn:Hn;
        [|discriminate].
      intros Hr. apply in_flat_map. exists (k, y). split.
      * apply in_combine_seq. split; [lia|]. now rewrite Nat.sub_0_r.
      * cbn [fst snd]. apply in_map.
        destruct (getAn_loop_ok _ _ _ _ _ H y) as (_ & d0 & d1 & Hc).
        { eapply nth_error_In; eauto. }
        now apply (IH _ _ _ _ Hc a).
Qed.

(** What [getAn] collects for a node, when it returns: every action node
    once for each route that leads to it. *)
Lemma getAn_routes Node d a :
  getAn [] neighb projTypes numS Node [] = Ok d ->
  exists routes,
    NoDup routes /\
    (forall ks, In ks routes <-> route_from Node ks = Some a) /\
    filter (Nat.eqb a) d = repeat a (length routes).
Proof.
  intros H. unfold getAn in H.
  destruct (getAn_rec_routes _ _ _ _ H a) as (Hc & Hall).
  exists (all_routes (S (length neighb - numS)) Node a).
  split; [apply routes_to_NoDup|]. split.
  - intros ks. split; [apply routes_to_sound | apply Hall].
  - rewrite filter_eqb_repeat, Hc. simpl. now rewrite Nat.add_0_r.
Qed.

End RoutesOfWalk.

(* ================================================================== *)
(** * The setup of [makeAGG] *)

Lemma nth_map_seq A (f : nat -> A) n i d :
  i < n -> nth i (map f (seq 0 n)) d = f i.
Proof.
  intros H. rewrite (nth_indep _ d (f 0)) by (rewrite length_map, length_seq; lia).
  rewrite map_nth, seq_nth; auto.
Qed.

Section SetupFacts.
Context {projtype : Type} {PF : ProjFunc projtype}.

Lemma getAn_all_spec neighb (projTypes : list projtype) numS fns :
  forall an,
    getAn_all neighb projTypes numS fns = Ok an ->
    length an = length fns /\
    forall k, k < length fns ->
      getAn [] neighb projTypes numS (numS + nth k fns 0) [] =
      Ok (nth k an []).
Proof.
  induction fns as [|i fns IH]; simpl; intros an.
  - intros [= <-]. split; auto. intros k Hk; lia.
  - destruct (getAn [] neighb projTypes numS (numS + i) []) as [a|] eqn:E;
      simpl; [|discriminate].
    destruct (getAn_all neighb projTypes numS fns) as [an'|] eqn:E';
      simpl; [|discriminate].
    intros [= <-]. destruct (IH an' eq_refl) as (Hlen & Hnth).
    split; [simpl; lia|].
    intros [|k] Hk; simpl; auto. apply Hnth. lia.
Qed.

Lemma make_proj_nth_action N numS AS neighb (projTypes : list projtype) an
    v p a :
  v < numS -> p < N -> a < length (nth p AS []) ->
  nth a (nth p (nth v (make_proj N numS AS neighb projTypes an) []) []) [] =
  map (proj_entry numS AS neighb projTypes an v p a)
      (seq 0 (length (nth v neighb []))).
Proof.
  intros Hv Hp Ha. unfold make_proj.
  rewrite (nth_map_seq _ []) by auto. cbv beta.
  rewrite (nth_map_seq _ []) by auto. cbv beta.
  rewrite (nth_map_seq _ []) by auto.
  reflexivity.
Qed.

Lemma make_proj_nth N numS AS neighb (projTypes : list projtype) an v p a i :
  v < numS -> p < N -> a < length (nth p AS []) ->
  i < length (nth v neighb []) ->
  nth i (nth a (nth p (nth v (make_proj N numS AS neighb projTypes an) [])
                    []) []) 0%Z =
  proj_entry numS AS neighb projTypes an v p a i.
Proof.
  intros Hv Hp Ha Hi. rewrite make_proj_nth_action by auto.
  now rewrite (nth_map_seq _ 0%Z).
Qed.

(** The parts of a game that [makeAGG] has built. *)
Lemma makeAGG_inv (h : header) s g :
  makeAGG h s = Ok g ->
  exists an Po P pays0 pays,
    getAn_all (h_neighb h) (h_projTypes h) (h_S h) (seq 0 (h_P h)) = Ok an /\
    let proj := make_proj (h_n h) (h_S h) (h_ASets h) (h_neighb h)
                          (h_projTypes h) an in
    let projS := make_projS proj in
    let projF := make_projF (h_S h) (h_neighb h) (h_projTypes h) in
    setup_players (h_n h) (seq 0 (h_n h)) (h_size h) (h_ASets h) projS proj
                  projF (repeat [] (h_n h)) []
                  (repeat Trie.reset (h_n h), repeat Trie.reset (h_S h)) =
    (Po, (P, pays0)) /\
    read_payoffs (at_end s) (seq 0 (h_S h)) (h_neighb h) s pays0 = Ok pays /\
    ctor_check_sorted 0 (firstn (h_n h) (h_ASets h)) = Ok tt /\
    exists cls pure,
      ctor_classes (h_n h) (h_ASets h) = Some cls /\
      AGG_isPure (h_S h) (h_neighb h) = Ok pure /\
      g = mkAGG (h_n h) (firstn (h_n h) (h_size h))
                (0 :: fst (fst (ctor_offsets (firstn (h_n h) (h_size h)) 0 0 0)))
                (snd (fst (ctor_offsets (firstn (h_n h) (h_size h)) 0 0 0)))
                (snd (ctor_offsets (firstn (h_n h) (h_size h)) 0 0 0))
                (h_S h) (h_P h) (h_ASets h) (h_neighb h) (h_projTypes h)
                pays proj projS projS projF Po P
                cls pure
                (ctor_node2Action (h_S h) (h_n h) (firstn (h_n h) (h_size h))
                                  (h_ASets h)).
Proof.
  unfold makeAGG, setProjections.
  destruct (getAn_all _ _ _ _) as [an|] eqn:Ean; simpl; [|discriminate].
  destruct (setup_players _ _ _ _ _ _ _ _ _ _) as [Po [P pays0]] eqn:Esp.
  destruct (read_payoffs _ _ _ _ _) as [pays|] eqn:Erp; simpl; [|discriminate].
  unfold AGG_new. cbv zeta.
  destruct (ctor_offsets _ _ _ _) as [[offs total] maxA] eqn:Eoff.
  destruct (ctor_check_sorted _ _) as [[]|] eqn:Ecs; simpl; [|discriminate].
  destruct (ctor_classes _ _) as [cls|] eqn:Ecl; cbn [rbind];
    [|discriminate].
  destruct (AGG_isPure _ _) as [pure|] eqn:Epu; cbn [rbind]; [|discriminate].
  intros Hg. injection Hg as <-.
  exists an, Po, P, pays0, pays. cbv zeta.
  split; [reflexivity|]. split; [exact Esp|]. split; [exact Erp|].
  split; [reflexivity|]. exists cls, pure. auto.
Qed.

(** C3.  The projection tensor of a constructed game: the entry of
    action [a] of player [p] at neighbour [i] of action node [v] is 1 when
    the neighbour is the node of the action; otherwise, when the neighbour
    is a function node [nb], it is the value of the projection function of
    [nb] on those of the ancestors of [nb] that equal the node of the
    action; otherwise it is 0.  The ancestors of [nb] are the multiset
    that [getAn] returns for it: the action nodes at the ends of the routes
    from [nb] through function nodes, each as many times as there are
    routes to it. *)
Theorem projection_entry_spec (h : header) s g :
  makeAGG h s = Ok g ->
  header_read h -> header_ranges h ->
  forall v p a i,
    v < numActionNodes g -> p < numPlayers g ->
    a < length (nth p (actionSets g) []) ->
    i < length (nth v (neighbors g) []) ->
    let act := nth a (nth p (actionSets g) []) 0 in
    let nb := nth i (nth v (neighbors g) []) 0 in
    let e := nth i (nth a (nth p (nth v (projection g) []) []) []) 0%Z in
    (act = nb -> e = 1%Z) /\
    (act <> nb -> numActionNodes g <= nb ->
       exists anc routes,
         getAn [] (neighbors g) (projectionTypes g) (numActionNodes g) nb []
         = Ok anc /\
         NoDup routes /\
         (forall ks, In ks routes <->
                     route_end (neighbors g) (numActionNodes g) nb ks =
                     Some act) /\
         filter (Nat.eqb act) anc = repeat act (length routes) /\
         e = pf_apply (nth (nb - numActionNodes g) (projectionTypes g)
                           proj_func_SUM)
                      (repeat act (length routes))) /\
    (act <> nb -> nb < numActionNodes g -> e = 0%Z).
Proof.
  intros Hg Hread Hrange.
  apply makeAGG_inv in Hg as (an & Po & P & pays0 & pays & Han & _ & _ & _ &
    cls & pure & _ & _ & ->).
  cbn [numActionNodes numPlayers actionSets neighbors projection
       projectionTypes].
  intros v p a i Hv Hp Ha Hi. cbv zeta.
  rewrite make_proj_nth by auto.
  unfold proj_entry.
  set (act := nth a (nth p (h_ASets h) []) 0).
  set (nb := nth i (nth v (h_neighb h) []) 0).
  destruct (Nat.eqb_spec act nb) as [E|E].
  - repeat split; auto; intros; congruence.
  - split; [congruence|].
    destruct (Nat.leb_spec (h_S h) nb) as [Hle|Hlt].
    + split; [|intros; lia]. intros _ _.
      apply getAn_all_spec in Han as (Hlen & Hnth).
      assert (Hnb : nb < h_S h + h_P h).
      { apply (hr_nodes Hrange); auto. lia. }
      specialize (Hnth (nb - h_S h)). rewrite length_seq in Hnth.
      rewrite seq_nth in Hnth by lia. simpl in Hnth.
      replace (h_S h + (nb - h_S h)) with nb in Hnth by lia.
      assert (Hget := Hnth ltac:(lia)).
      destruct (getAn_routes _ _ _ _ act Hget) as (routes & Hnd & Hall & Hf).
      exists (nth (nb - h_S h) an []), routes.
      split; [exact Hget|]. split; [exact Hnd|]. split; [exact Hall|].
      split; [exact Hf|]. now rewrite Hf.
    + split; [intros; lia | auto].
Qed.

(** ** The order of the players *)

Lemma perm_move_front (i : nat) l :
  NoDup l -> In i l ->
  Permutation l (i :: filter (fun k => negb (k =? i)) l).
Proof.
  induction l as [|x l IH]; intros Hnd Hin; [destruct Hin|].
  inversion Hnd as [|? ? Hx Hnd']; subst. simpl.
  destruct (Nat.eqb_spec x i) as [->|Hne]; simpl.
  - constructor.
    clear IH Hnd Hin Hnd'. induction l as [|y l IH]; simpl; auto.
    destruct (Nat.eqb_spec y i) as [->|Hy]; simpl.
    + exfalso. apply Hx. now left.
    + constructor. apply IH. intros H. apply Hx. now right.
  - destruct Hin as [->|Hin]; [congruence|].
    rewrite perm_swap. constructor. now apply IH.
Qed.

Lemma StronglySorted_map_in A B (R : A -> A -> Prop) (Q : B -> B -> Prop)
    (f : A -> B) l :
  StronglySorted R l ->
  (forall x y, In x l -> In y l -> R x y -> Q (f x) (f y)) ->
  StronglySorted Q (map f l).
Proof.
  induction 1 as [|x l Hs IH Hall]; intros HQ; simpl; constructor.
  - apply IH. intros; apply HQ; auto; now right.
  - rewrite Forall_forall in *. intros b Hb.
    apply in_map_iff in Hb as (y & <- & Hy).
    apply HQ; auto; [now left | now right].
Qed.

Lemma initPorder_perm i N (projS : list aggdistrib) :
  i < N -> Permutation (seq 0 N) (initPorder i N projS).
Proof.
  intros Hi. unfold initPorder.
  rewrite <- (sort_perm pair_leb).
  rewrite map_map. simpl. rewrite map_id.
  apply perm_move_front; [apply seq_NoDup | apply in_seq; lia].
Qed.

Lemma initPorder_sorted i N (projS : list aggdistrib) :
  StronglySorted
    (fun q q' => Trie.size (nth q projS Trie.reset) <=
                 Trie.size (nth q' projS Trie.reset))
    (tl (initPorder i N projS)).
Proof.
  unfold initPorder. simpl.
  set (order := map _ (filter _ _)).
  assert (Hsorted : StronglySorted (fun x y => pair_leb x y = true)
                                   (sort pair_leb order)).
  { apply Sorted_StronglySorted.
    - intros x y z. apply pair_leb_trans.
    - apply sort_sorted. apply pair_leb_total. }
  assert (Hshape : forall x, In x (sort pair_leb order) ->
            fst x = Trie.size (nth (snd x) projS Trie.reset)).
  { intros x Hx.
    apply (Permutation_in _ (Permutation_sym (sort_perm pair_leb order))) in Hx.
    unfold order in Hx. apply in_map_iff in Hx as (k & <- & _). reflexivity. }
  eapply StronglySorted_map_in; [exact Hsorted|].
  intros x y Hx Hy Hxy. cbv beta.
  rewrite <- (Hshape x Hx), <- (Hshape y Hy).
  now apply pair_leb_fst.
Qed.

Section Players.
Variables (n : nat) (size : list nat) (ASets : list (list nat)).
Variable projS : list (list aggdistrib).
Variable proj : list (list (list config)).
Variable projF : list (list projtype).

Local Abbreviation Po_of := (Po_of n size ASets projS).

Lemma setup_players_Po todo : forall Po doneASets st,
  NoDup todo ->
  (forall i, In i todo -> i < length Po) ->
  let Po' := fst (setup_players n todo size ASets projS proj projF Po
                                doneASets st) in
  length Po' = length Po /\
  forall i, (In i todo -> nth i Po' [] = Po_of i) /\
            (~ In i todo -> nth i Po' [] = nth i Po []).
Proof.
  induction todo as [|i todo IH]; intros Po doneASets st Hnd Hlt; simpl.
  - split; auto. intros i; split; [intros [] | auto].
  - inversion Hnd as [|? ? Hi Hnd']; subst.
    fold (Po_of i).
    set (Po1 := upd i (Po_of i) Po).
    assert (Hlt1 : forall k, In k todo -> k < length Po1).
    { intros k Hk. unfold Po1. rewrite upd_length. apply Hlt. now right. }
    assert (H1 : forall doneASets st,
              let Po' := fst (setup_players n todo size ASets projS proj
                                            projF Po1 doneASets st) in
              length Po' = length Po /\
              forall k, (i = k \/ In k todo -> nth k Po' [] = Po_of k) /\
                   (~ (i = k \/ In k todo) -> nth k Po' [] = nth k Po [])).
    { intros d s0.
      destruct (IH Po1 d s0 Hnd' Hlt1) as (Hlen & Hnth).
      split; [now rewrite Hlen; unfold Po1; rewrite upd_length|].
      intros k. destruct (Hnth k) as (Hin & Hout). split.
      - intros [<-|Hk]; auto.
        rewrite Hout by auto. unfold Po1.
        apply nth_upd_same. apply Hlt. now left.
      - intros Hk. rewrite Hout by tauto. unfold Po1.
        apply nth_upd_other. tauto. }
    destruct (existsb _ doneASets); apply H1.
Qed.
End Players.

(** C9.  In a constructed game, [Porder[p][a]] lists every player once,
    [p] first, and then the other players in ascending order of the size
    of [projectedStrat[actionSets[p][a]][q]]. *)
Theorem Porder_spec (h : header) s g :
  makeAGG h s = Ok g ->
  header_read h ->
  forall p a,
    p < numPlayers g -> a < nth p (actions g) 0 ->
    let v := nth a (nth p (actionSets g) []) 0 in
    let sz q := Trie.size (nth q (nth v (projectedStrat g) []) Trie.reset) in
    exists rest,
      nth a (nth p (Porder g) []) [] = p :: rest /\
      Permutation (seq 0 (numPlayers g)) (p :: rest) /\
      StronglySorted (fun q q' => sz q <= sz q') rest.
Proof.
  intros Hg Hread.
  apply makeAGG_inv in Hg as (an & Po & P & pays0 & pays & _ & Hsp & _ & _ &
    cls & pure & _ & _ & ->).
  cbn [numPlayers actions actionSets projectedStrat Porder].
  intros p a Hp Ha. cbv zeta.
  rewrite nth_firstn_lt in Ha by auto.
  match type of Hsp with setup_players ?n ?todo ?size ?AS ?pS ?pj ?pF ?Po0 ?d ?st = _ =>
    destruct (@setup_players_Po n size AS pS pj pF todo Po0 d st) as (_ & Hnth)
  end.
  { apply seq_NoDup. }
  { intros i Hi. apply in_seq in Hi. rewrite repeat_length. lia. }
  rewrite Hsp in Hnth. simpl fst in Hnth.
  destruct (Hnth p) as (Hin & _).
  rewrite Hin by (apply in_seq; lia).
  unfold Po_of. rewrite (nth_map_seq _ []) by auto.
  eexists. split; [reflexivity|]. split.
  - now apply initPorder_perm.
  - apply (initPorder_sorted p (h_n h)).
Qed.

End SetupFacts.

(* ================================================================== *)
(** * Properties of the configuration trie *)

Lemma cfg_compare_eq a : forall b, Trie.cfg_compare a b = Eq -> a = b.
Proof.
  induction a as [|x a IH]; intros [|y b]; simpl; try discriminate; auto.
  destruct (Z.compare_spec x y) as [Hxy| |]; try discriminate.
  intros H. subst. f_equal. now apply IH.
Qed.

Lemma cfg_compare_refl a : Trie.cfg_compare a a = Eq.
Proof.
  induction a as [|x a IH]; simpl; auto. now rewrite Z.compare_refl.
Qed.

Lemma cfg_eqb_eq a b : Trie.cfg_eqb a b = true <-> a = b.
Proof.
  unfold Trie.cfg_eqb. split.
  - destruct (Trie.cfg_compare a b) eqn:E; try discriminate.
    intros _. now apply cfg_compare_eq.
  - intros ->. now rewrite cfg_compare_refl.
Qed.

Lemma cfg_eqb_refl a : Trie.cfg_eqb a a = true.
Proof. now apply cfg_eqb_eq. Qed.

Lemma cfg_eqb_neq a b : Trie.cfg_eqb a b = false <-> a <> b.
Proof.
  rewrite <- cfg_eqb_eq. destruct (Trie.cfg_eqb a b); split; congruence.
Qed.

Section TrieFacts.
Variable V : Type.
Implicit Types (m : Trie.t V) (k : config).

Lemma find_in_keys k m : Trie.find k m <> None <-> In k (Trie.keys m).
Proof.
  induction m as [|[k0 v] m IH]; simpl; [tauto|].
  destruct (Trie.cfg_eqb k k0) eqn:E.
  - apply cfg_eqb_eq in E. subst. split; [auto | discriminate].
  - apply cfg_eqb_neq in E. rewrite IH. split; auto.
    intros [?|?]; auto. congruence.
Qed.

Lemma find_none_keys k m : Trie.find k m = None <-> ~ In k (Trie.keys m).
Proof.
  rewrite <- find_in_keys. destruct (Trie.find k m); split; try congruence.
  intros H. exfalso. apply H. discriminate.
Qed.

Lemma find_alter_fresh f k m k' :
  Trie.find k m = None ->
  Trie.find k' (Trie.alter f k m) =
  if Trie.cfg_eqb k' k then Some (f None) else Trie.find k' m.
Proof.
  induction m as [|[k0 v] m IH]; simpl; auto.
  destruct (Trie.cfg_eqb k k0) eqn:E; [discriminate|]. intros Hm.
  unfold Trie.cfg_eqb in E.
  destruct (Trie.cfg_compare k k0) eqn:C; try discriminate; simpl; auto.
  rewrite IH by auto.
  destruct (Trie.cfg_eqb k' k0) eqn:E0; auto.
  destruct (Trie.cfg_eqb k' k) eqn:E1; auto.
  apply cfg_eqb_eq in E0, E1. subst. now rewrite cfg_compare_refl in C.
Qed.

Lemma keys_alter_fresh f k m :
  Trie.find k m = None ->
  Permutation (Trie.keys (Trie.alter f k m)) (k :: Trie.keys m).
Proof.
  induction m as [|[k0 v] m IH]; simpl; auto.
  destruct (Trie.cfg_eqb k k0) eqn:E; [discriminate|]. intros Hm.
  unfold Trie.cfg_eqb in E.
  destruct (Trie.cfg_compare k k0) eqn:C; try discriminate; simpl; auto.
  rewrite IH by auto. apply perm_swap.
Qed.

(** The keys of a trie after [insert]. *)
Lemma keys_insert k v m :
  forall k', In k' (Trie.keys (fst (Trie.insert k v m))) <->
             k' = k \/ In k' (Trie.keys m).
Proof.
  intros k'. unfold Trie.insert.
  destruct (Trie.find k m) eqn:E; simpl.
  - split; auto. intros [->|]; auto.
    apply find_in_keys. congruence.
  - pose proof (@keys_alter_fresh (fun _ => v) k m E) as Hp.
    split; intros H.
    + apply (Permutation_in _ Hp) in H. destruct H; auto.
    + apply (Permutation_in _ (Permutation_sym Hp)).
      destruct H; [left|right]; auto.
Qed.

Lemma keys_insert_range src : forall m k,
  In k (Trie.keys (Trie.insert_range src m)) <->
  In k (Trie.keys src) \/ In k (Trie.keys m).
Proof.
  unfold Trie.insert_range.
  induction src as [|[k0 v] src IH]; intros m k; simpl; [tauto|].
  rewrite IH, keys_insert. simpl. intuition.
Qed.
End TrieFacts.

(* ================================================================== *)
(** * The MAPPING form of a payoff table *)

Section Mapping.

(** The reader of a key consumes lexemes only, and throws no error but
    that of a bad element. *)
Lemma read_key_shorter todo : forall j key s key' s',
  read_key todo j key s = Ok (key', s') -> length s' <= length s.
Proof.
  induction todo as [|todo IH]; intros j key s key' s' H; simpl in H.
  - inversion H; subst. lia.
  - destruct s as [|[z|q| | |] s0]; simpl in H; try discriminate.
    apply IH in H. simpl. lia.
Qed.

Lemma read_key_fuel todo : forall j key s,
  read_key todo j key s <> Err OutOfFuel.
Proof.
  induction todo as [|todo IH]; intros j key s; simpl.
  - discriminate.
  - destruct (read_int s) as [[cnt s']|]; [apply IH | discriminate].
Qed.

(** The loop of [makeMAPPINGpayoff] ends: the bound on its iterations
    that the model carries is never reached. *)
Lemma mapping_loop_fuel numNei : forall fuel num s pay,
  length s < fuel ->
  mapping_loop fuel num numNei s pay <> Err OutOfFuel.
Proof.
  induction fuel as [|fuel IH]; intros num s pay Hfuel; [lia|].
  cbn [mapping_loop].
  destruct (num =? 0)%Z; [discriminate|].
  destruct s as [|[z|q| | |] s1]; try discriminate.
  destruct (read_key numNei 0 [] s1) as [[key s2]|e] eqn:Hkey.
  - apply read_key_shorter in Hkey. cbn [rbind].
    destruct s2 as [|[z|q| | |] s3]; try discriminate.
    destruct (read_num s3) as [[u s4]|] eqn:Hnum; [|discriminate].
    destruct (snd (Trie.insert key u pay)); [|discriminate].
    apply IH.
    assert (length s4 < length s3).
    { destruct s3 as [|[z|q| | |] s5]; simpl in Hnum; try discriminate;
        inversion Hnum; subst; simpl; lia. }
    simpl in *. lia.
  - cbn [rbind]. intros E. inversion E; subst.
    now apply (read_key_fuel numNei 0 [] s1).
Qed.

Lemma mapping_check_fuel temp pay : mapping_check temp pay <> Err OutOfFuel.
Proof.
  induction temp as [|it temp IH]; simpl; [discriminate|].
  destruct (Trie.count (fst it) pay =? 0); [discriminate | exact IH].
Qed.

Lemma makeMAPPINGpayoff_terminates s pay numNei :
  makeMAPPINGpayoff s pay numNei <> Err OutOfFuel.
Proof.
  unfold makeMAPPINGpayoff.
  destruct (read_int s) as [[num s1]|]; [|discriminate].
  pose proof (@mapping_loop_fuel numNei (S (length s1)) num s1 Trie.reset
                                 (Nat.lt_succ_diag_r _)) as Hloop.
  destruct (mapping_loop _ _ _ _ _) as [[pay1 s2]|e]; cbn [rbind].
  - pose proof (mapping_check_fuel pay pay1) as Hc.
    destruct (mapping_check pay pay1) as [[]|e]; cbn [rbind];
      [discriminate | congruence].
  - congruence.
Qed.

Lemma read_key_encoded k : forall j key rest,
  read_key (length k) j key (map LInt k ++ rest) = Ok (key ++ k, rest).
Proof.
  induction k as [|z k IH]; intros j key rest; simpl.
  - now rewrite app_nil_r.
  - rewrite IH. now rewrite <- app_assoc.
Qed.

Lemma mapping_loop_encoded numNei entries : forall fuel pay rest,
  (forall kv, In kv entries -> length (fst kv) = numNei) ->
  length entries < fuel ->
  mapping_loop fuel (Z.of_nat (length entries)) numNei
               (flat_map encode_entry entries ++ rest) pay =
  (pay' <- bind_all entries pay ;; Ok (pay', rest))%result.
Proof.
  induction entries as [|[k u] entries IH]; intros fuel pay rest Hlen Hfuel;
    (destruct fuel as [|fuel]; [simpl in Hfuel; lia|]).
  - reflexivity.
  - assert (Hk : length k = numNei) by (apply (Hlen (k, u)); now left).
    subst numNei.
    cbn [length mapping_loop].
    destruct (Z.eqb_spec (Z.of_nat (S (length entries))) 0) as [E|_]; [lia|].
    cbn [flat_map encode_entry fst snd app].
    rewrite <- !app_assoc.
    rewrite read_key_encoded. cbn [rbind app read_num bind_all fst snd].
    destruct (Trie.insert k u pay) as [pay1 [|]]; cbn [fst snd]; auto.
    replace (Z.of_nat (S (length entries)) - 1)%Z
      with (Z.of_nat (length entries)) by lia.
    apply IH.
    + intros kv Hkv. apply Hlen. now right.
    + simpl in Hfuel. lia.
Qed.

Lemma bind_all_ok entries : forall pay pay',
  bind_all entries pay = Ok pay' ->
  NoDup (map fst entries) /\
  (forall k, In k (map fst entries) -> Trie.find k pay = None) /\
  (forall k u, In (k, u) entries -> Trie.find k pay' = Some u) /\
  (forall k, ~ In k (map fst entries) -> Trie.find k pay' = Trie.find k pay).
Proof.
  induction entries as [|[k u] entries IH]; intros pay pay'; simpl.
  - intros [= <-]. split; [constructor|]. split; [intros k []|].
    split; [intros k u [] | auto].
  - unfold Trie.insert.
    destruct (Trie.find k pay) eqn:E; simpl; [discriminate|].
    intros H. apply IH in H as (Hnd & Hfresh & Hbound & Hother).
    assert (Hk : ~ In k (map fst entries)).
    { intros Hin. apply Hfresh in Hin.
      rewrite find_alter_fresh, cfg_eqb_refl in Hin by auto. discriminate. }
    split; [now constructor|]. split; [|split].
    + intros k' [<-|Hin]; auto.
      specialize (Hfresh k' Hin).
      rewrite find_alter_fresh in Hfresh by auto.
      destruct (Trie.cfg_eqb k' k); [discriminate|auto].
    + intros k' u' [[= <- <-]|Hin]; [|now apply Hbound].
      rewrite Hother by auto.
      now rewrite find_alter_fresh, cfg_eqb_refl.
    + intros k' Hk'. rewrite Hother by tauto.
      rewrite find_alter_fresh by auto.
      destruct (Trie.cfg_eqb k' k) eqn:E'; auto.
      apply cfg_eqb_eq in E'. subst. tauto.
Qed.

Lemma bind_all_complete entries : forall pay,
  NoDup (map fst entries) ->
  (forall k, In k (map fst entries) -> Trie.find k pay = None) ->
  exists pay', bind_all entries pay = Ok pay'.
Proof.
  induction entries as [|[k u] entries IH]; intros pay Hnd Hfresh; simpl.
  - now exists pay.
  - unfold Trie.insert. rewrite (Hfresh k) by now left. simpl.
    inversion Hnd; subst. apply IH; auto.
    intros k' Hk'. rewrite find_alter_fresh by (apply Hfresh; now left).
    destruct (Trie.cfg_eqb k' k) eqn:E.
    + apply cfg_eqb_eq in E. subst. tauto.
    + apply Hfresh. now right.
Qed.

Lemma bind_all_err entries : forall pay e,
  bind_all entries pay = Err e ->
  exists k, e = Overwriting k /\ In k (map fst entries) /\
            (Trie.find k pay <> None \/ ~ NoDup (map fst entries)).
Proof.
  induction entries as [|[k u] entries IH]; intros pay e; simpl;
    [discriminate|].
  unfold Trie.insert.
  destruct (Trie.find k pay) eqn:E; simpl.
  - intros [= <-]. exists k. split; auto. split; auto. left. congruence.
  - intros H. apply IH in H as (k' & -> & Hin & Hcause).
    exists k'. split; auto. split; auto.
    destruct Hcause as [Hf|Hnd].
    + rewrite find_alter_fresh in Hf by auto.
      destruct (Trie.cfg_eqb k' k) eqn:E'.
      * apply cfg_eqb_eq in E'. subst. right. intros Hnd.
        inversion Hnd; auto.
      * now left.
    + right. intros H. inversion H; auto.
Qed.

Lemma mapping_check_ok temp pay :
  mapping_check temp pay = Ok tt <->
  forall k, In k (Trie.keys temp) -> Trie.find k pay <> None.
Proof.
  induction temp as [|[k v] temp IH]; simpl.
  - split; [intros _ k [] | auto].
  - unfold Trie.count.
    destruct (Trie.find k pay) eqn:E; simpl.
    + rewrite IH. split.
      * intros H k' [<-|Hin]; [congruence | auto].
      * intros H k' Hin. apply H. now right.
    + split; [discriminate|]. intros H.
      exfalso. apply (H k); auto.
Qed.

Lemma mapping_check_err temp pay e :
  mapping_check temp pay = Err e ->
  exists k, e = NotSpecified k /\ In k (Trie.keys temp) /\
            Trie.find k pay = None.
Proof.
  induction temp as [|[k v] temp IH]; simpl; [discriminate|].
  unfold Trie.count.
  destruct (Trie.find k pay) eqn:E; simpl.
  - intros H. apply IH in H as (k' & ? & ? & ?). exists k'. auto.
  - intros [= <-]. exists k. auto.
Qed.

Lemma bind_all_keys entries : forall pay pay',
  bind_all entries pay = Ok pay' ->
  Permutation (Trie.keys pay') (map fst entries ++ Trie.keys pay).
Proof.
  induction entries as [|[k u] entries IH]; intros pay pay'; simpl.
  - now intros [= <-].
  - unfold Trie.insert.
    destruct (Trie.find k pay) eqn:E; simpl; [discriminate|].
    intros H. apply IH in H. rewrite H.
    rewrite (@keys_alter_fresh _ _ _ _ E).
    symmetry. apply Permutation_middle.
Qed.

Lemma encoded_length entries :
  length entries <= length (flat_map encode_entry entries).
Proof.
  induction entries as [|kv entries IH]; simpl; auto.
  rewrite length_app. lia.
Qed.

Lemma in_map_fst (k : config) (entries : list (config * AggNumber)) :
  In k (map fst entries) -> exists u, In (k, u) entries.
Proof.
  intros H. apply in_map_iff in H as ([k' u] & <- & Hin). now exists u.
Qed.

(** C4, as the code has it.  On the text of a MAPPING table,
    [makeMAPPINGpayoff] succeeds exactly when no key is listed twice and
    every key of the acceptance set is listed; a table that also lists
    keys outside the acceptance set is accepted.  On success every listed
    key is bound once, to the value listed for it.  The errors are the
    overwriting error of a key listed twice and the error of an
    acceptance key that is not listed. *)
Theorem makeMAPPINGpayoff_spec temp numNei entries rest :
  (forall kv, In kv entries -> length (fst kv) = numNei) ->
  let r := makeMAPPINGpayoff (encode_mapping entries ++ rest) temp numNei in
  ((exists pay, r = Ok (pay, rest)) <->
     NoDup (map fst entries) /\ incl (Trie.keys temp) (map fst entries)) /\
  (forall pay s', r = Ok (pay, s') ->
     s' = rest /\
     Permutation (Trie.keys pay) (map fst entries) /\
     (forall k u, In (k, u) entries -> Trie.find k pay = Some u)) /\
  (forall e, r = Err e ->
     (exists k, e = Overwriting k /\ In k (map fst entries) /\
                ~ NoDup (map fst entries)) \/
     (exists k, e = NotSpecified k /\ In k (Trie.keys temp) /\
                ~ In k (map fst entries))).
Proof.
  intros Hlen r. subst r.
  unfold makeMAPPINGpayoff, encode_mapping. cbn [app read_int].
  rewrite mapping_loop_encoded; auto.
  2:{ rewrite length_app. pose proof (encoded_length entries). lia. }
  destruct (bind_all entries Trie.reset) as [pay'|e0] eqn:Eb; cbn [rbind].
  - pose proof (bind_all_keys _ _ Eb) as Hkeys.
    rewrite app_nil_r in Hkeys.
    apply bind_all_ok in Eb as (Hnd & _ & Hbound & Hother).
    destruct (mapping_check temp pay') as [[]|e1] eqn:Ec; cbn [rbind].
    + split; [|split]; [| |discriminate].
      * split; [intros _ | intros _; eauto].
        split; auto. intros k Hk.
        apply (proj1 (mapping_check_ok temp pay') Ec) in Hk.
        apply find_in_keys in Hk.
        now apply (Permutation_in _ Hkeys).
      * intros pay s' [= <- <-]. auto.
    + apply mapping_check_err in Ec as (k & -> & Hk & Hnone).
      assert (Hout : ~ In k (map fst entries)).
      { intros Hin. apply in_map_fst in Hin as (u & Hu).
        apply Hbound in Hu. congruence. }
      split; [|split]; [|discriminate|].
      * split; [intros (pay & H); discriminate|].
        intros (_ & Hincl). exfalso. apply Hout. now apply Hincl.
      * intros e [= <-]. right. exists k. auto.
  - apply bind_all_err in Eb as (k & -> & Hin & [Hf|Hnd]);
      [now exfalso; apply Hf|].
    split; [|split]; [|discriminate|].
    + split; [intros (pay & H); discriminate|]. intros (H & _). tauto.
    + intros e [= <-]. left. exists k. auto.
Qed.

End Mapping.

(* ================================================================== *)
(** * Weights and sums *)

Local Open Scope Qc_scope.

Lemma Qcltb_lt (x y : Qc) : Qcltb x y = true <-> x < y.
Proof.
  unfold Qcltb, Qccompare, Qclt. rewrite Qlt_alt.
  destruct (this x ?= this y)%Q; split; congruence.
Qed.

Lemma Qcltb_zero_nonneg (x : Qc) : Qcltb 0 x = false -> 0 <= x -> x = 0.
Proof.
  intros Hlt Hle. apply Qcle_antisym; auto.
  apply Qcnot_lt_le. intros H. apply Qcltb_lt in H. congruence.
Qed.

Lemma Qcsum_cons x l : Qcsum (x :: l) = x + Qcsum l.
Proof. reflexivity. Qed.

Lemma Qcsum_app l1 l2 : Qcsum (l1 ++ l2) = Qcsum l1 + Qcsum l2.
Proof.
  induction l1 as [|x l1 IH]; simpl; [ring|]. rewrite IH. ring.
Qed.

Lemma integrate_nil f : integrate f [] = 0.
Proof. reflexivity. Qed.

Lemma integrate_cons f k w m :
  integrate f ((k, w) :: m) = w * f k + integrate f m.
Proof. reflexivity. Qed.

Lemma integrate_add f k w m :
  integrate f (Trie.add k w m) = w * f k + integrate f m.
Proof.
  unfold integrate, Trie.add.
  induction m as [|[k0 v] m IH]; simpl.
  - reflexivity.
  - destruct (Trie.cfg_compare k k0) eqn:C; simpl.
    + apply cfg_compare_eq in C. subst. ring.
    + reflexivity.
    + rewrite IH. ring.
Qed.

Lemma inner_prod_integrate a U :
  Trie.inner_prod a U = integrate (payoff_at U) a.
Proof.
  unfold Trie.inner_prod, integrate.
  assert (H : forall acc,
    fold_left (fun acc kw =>
                 match Trie.find (fst kw) U with
                 | Some u => acc + snd kw * u
                 | None => acc
                 end) a acc =
    acc + Qcsum (map (fun kw => snd kw * payoff_at U (fst kw)) a)).
  { induction a as [|[k w] a IH]; intros acc; simpl; [ring|].
    rewrite IH. unfold payoff_at. destruct (Trie.find k U); ring. }
  rewrite H. ring.
Qed.

Lemma total_integrate a : Trie.total a = integrate (fun _ => 1) a.
Proof.
  unfold Trie.total, integrate.
  induction a as [|[k w] a IH]; simpl; auto. rewrite IH. ring.
Qed.

Lemma integrate_multiply f a b arity phi :
  integrate f (Trie.multiply a b arity phi) =
  integrate
    (fun ka => integrate (fun kb => f (Trie.compose_key arity phi ka kb)) b) a.
Proof.
  unfold Trie.multiply.
  assert (Hin : forall ka wa c,
    integrate f
      (fold_left (fun c kb => Trie.add (Trie.compose_key arity phi ka (fst kb))
                                       (wa * snd kb) c) b c) =
    integrate f c +
    wa * integrate (fun kb => f (Trie.compose_key arity phi ka kb)) b).
  { intros ka wa. induction b as [|[kb wb] b IH]; intros c; simpl.
    - rewrite integrate_nil. ring.
    - rewrite IH, integrate_add, integrate_cons. ring. }
  assert (Hout : forall c,
    integrate f
      (fold_left
         (fun c ka =>
            fold_left (fun c kb =>
                         Trie.add (Trie.compose_key arity phi (fst ka) (fst kb))
                                  (snd ka * snd kb) c) b c) a c) =
    integrate f c +
    integrate
      (fun ka => integrate (fun kb => f (Trie.compose_key arity phi ka kb)) b)
      a).
  { induction a as [|[ka wa] a IH]; intros c; simpl.
    - rewrite integrate_nil. ring.
    - rewrite IH, Hin, integrate_cons. ring. }
  rewrite Hout. unfold Trie.reset. rewrite integrate_nil. ring.
Qed.

Local Close Scope Qc_scope.

(* ================================================================== *)
(** * The oracle: marginalization *)

Section Marginal.
Context {projtype : Type} {PF : ProjFunc projtype}.
Local Abbreviation AGG := (@AGG projtype).
Local Open Scope Qc_scope.

Lemma static_doProjection_player (g : AGG) v i s :
  static (doProjection_player g v i s) = static g.
Proof. reflexivity. Qed.

Lemma static_projection (g g' : AGG) :
  static g = static g' -> projection g = projection g'.
Proof. intros H. now apply (f_equal (@projection _)) in H. Qed.

Lemma static_actions (g g' : AGG) :
  static g = static g' -> actions g = actions g'.
Proof. intros H. now apply (f_equal (@actions _)) in H. Qed.

Lemma project_static (g g' : AGG) v i s :
  static g = static g' -> project g v i s = project g' v i s.
Proof.
  intros H. unfold project.
  now rewrite (static_projection H), (static_actions H).
Qed.

(** The integral against the marginal of a player: the actions of
    positive probability contribute, the others do not. *)
Lemma integrate_project f (g : AGG) v i s :
  integrate f (project g v i s) =
  Qcsum (map (fun j =>
                if Qcltb 0 (nth j s 0)
                then nth j s 0 *
                     f (nth j (nth i (nth v (projection g) []) []) [])
                else 0)
             (seq 0 (nth i (actions g) 0%nat))).
Proof.
  unfold project.
  assert (H : forall js d,
    integrate f
      (fold_left
         (fun d j =>
            if Qcltb 0 (nth j s 0)
            then Trie.add (nth j (nth i (nth v (projection g) []) []) [])
                          (nth j s 0) d
            else d) js d) =
    integrate f d +
    Qcsum (map (fun j =>
                  if Qcltb 0 (nth j s 0)
                  then nth j s 0 *
                       f (nth j (nth i (nth v (projection g) []) []) [])
                  else 0) js)).
  { induction js as [|j js IH]; intros d; simpl; [ring|].
    rewrite IH. destruct (Qcltb 0 (nth j s 0)).
    - rewrite integrate_add. ring.
    - ring. }
  rewrite H. unfold Trie.reset. rewrite integrate_nil. ring.
Qed.

Lemma projectedStrat_doProjection_player (g : AGG) v i s :
  (v < length (projectedStrat g))%nat ->
  (i < length (nth v (projectedStrat g) []))%nat ->
  nth i (nth v (projectedStrat (doProjection_player g v i s)) [])
      Trie.reset = project g v i s.
Proof.
  intros Hv Hi. unfold doProjection_player. cbn [projectedStrat set_projectedStrat].
  rewrite nth_upd_same by auto. now apply nth_upd_same.
Qed.

(** C8.  After [doProjection(v, p, s)] the weights of
    [projectedStrat[v][p]] add up to the sum of the probabilities of the
    actions of player [p], for a strategy [s] without negative entries;
    so to 1 when [s] is a probability distribution. *)
Theorem doProjection_total_weight (g : AGG) v p s :
  (v < length (projectedStrat g))%nat ->
  (p < length (nth v (projectedStrat g) []))%nat ->
  (forall a, (a < nth p (actions g) 0)%nat -> 0 <= nth a s 0) ->
  let g' := doProjection_player g v p s in
  let mass := Qcsum (map (fun a => nth a s 0)
                         (seq 0 (nth p (actions g) 0%nat))) in
  Trie.total (nth p (nth v (projectedStrat g') []) Trie.reset) = mass /\
  (mass = 1 ->
   Trie.total (nth p (nth v (projectedStrat g') []) Trie.reset) = 1).
Proof.
  intros Hv Hp Hs g' mass.
  assert (E : Trie.total (nth p (nth v (projectedStrat g') []) Trie.reset)
              = mass).
  { unfold g'. rewrite projectedStrat_doProjection_player by auto.
    rewrite total_integrate, integrate_project. unfold mass.
    f_equal. apply map_ext_in. intros a Ha. apply in_seq in Ha.
    destruct (Qcltb 0 (nth a s 0)) eqn:E; [ring|].
    symmetry. apply Qcltb_zero_nonneg; auto. apply Hs. lia. }
  split; [exact E | intros H; now rewrite E].
Qed.

End Marginal.

(* ================================================================== *)
(** * The oracle: the scratch buffers *)

Lemma fold_left_ext_in A B (f f' : A -> B -> A) l : forall a,
  (forall a b, In b l -> f a b = f' a b) ->
  fold_left f l a = fold_left f' l a.
Proof.
  induction l as [|b l IH]; intros a H; simpl; auto.
  rewrite H by now left. apply IH. intros; apply H; now right.
Qed.

(** A loop that writes entry [k] of a vector from entry [k-1], for
    [k = 1 .. m]: the last entry written is the value of the chain. *)
Lemma fold_upd_chain T (F : nat -> T -> T) (d : T) m : forall P,
  m < length P ->
  let P' := fold_left (fun P k => upd k (F k (nth (k - 1) P d)) P)
                      (seq 1 m) P in
  length P' = length P /\
  nth m P' d = fold_left (fun x k => F k x) (seq 1 m) (nth 0 P d).
Proof.
  induction m as [|m IH]; intros P Hm; cbv zeta; [simpl; auto|].
  assert (Hm' : m < length P) by lia.
  destruct (IH P Hm') as (Hlen & Hnth).
  rewrite seq_S, !fold_left_app. cbn [fold_left Nat.add].
  rewrite upd_length. split; auto.
  rewrite nth_upd_same by lia.
  replace (S m - 1) with m by lia. now rewrite Hnth.
Qed.

Section Scratch.
Context {projtype : Type} {PF : ProjFunc projtype}.
Local Abbreviation AGG := (@AGG projtype).

Lemma static_fields (g g' : AGG) :
  static g = static g' ->
  numPlayers g = numPlayers g' /\ actions g = actions g' /\
  strategyOffset g = strategyOffset g' /\
  numActionNodes g = numActionNodes g' /\
  actionSets g = actionSets g' /\ neighbors g = neighbors g' /\
  payoffs g = payoffs g' /\ projection g = projection g' /\
  projFunctions g = projFunctions g' /\ Porder g = Porder g'.
Proof.
  intros H.
  pose proof (f_equal (@numPlayers _) H).
  pose proof (f_equal (@actions _) H).
  pose proof (f_equal (@strategyOffset _) H).
  pose proof (f_equal (@numActionNodes _) H).
  pose proof (f_equal (@actionSets _) H).
  pose proof (f_equal (@neighbors _) H).
  pose proof (f_equal (@payoffs _) H).
  pose proof (f_equal (@projection _) H).
  pose proof (f_equal (@projFunctions _) H).
  pose proof (f_equal (@Porder _) H).
  repeat split; assumption.
Qed.

Lemma game_ok_transfer (g g' : AGG) :
  static g' = static g ->
  length (Pr g') = length (Pr g) ->
  length (projectedStrat g') = length (projectedStrat g) ->
  (forall w, length (nth w (projectedStrat g') []) =
             length (nth w (projectedStrat g) [])) ->
  game_ok g -> game_ok g'.
Proof.
  intros Hs HPr HpS Hrow [].
  apply static_fields in Hs as (E1 & E2 & E3 & E4 & E5 & E6 & E7 & E8 & E9 & E10).
  constructor; rewrite ?E1, ?E2, ?E4, ?E5, ?E10, ?HPr, ?HpS; auto.
  intros v Hv. rewrite Hrow. auto.
Qed.

Lemma firstAction_static (g g' : AGG) i :
  static g = static g' -> firstAction g i = firstAction g' i.
Proof.
  intros H. apply static_fields in H as (_ & _ & E & _).
  unfold firstAction. now rewrite E.
Qed.

(** [doProjection(Node, s)] writes the marginal of every player. *)
Lemma doProjection_fold v s qs : forall g0 : AGG,
  NoDup qs ->
  v < length (projectedStrat g0) ->
  let g' := fold_left
              (fun g i => doProjection_player g v i (skipn (firstAction g i) s))
              qs g0 in
  static g' = static g0 /\ Pr g' = Pr g0 /\
  length (projectedStrat g') = length (projectedStrat g0) /\
  (forall w, length (nth w (projectedStrat g') []) =
             length (nth w (projectedStrat g0) [])) /\
  (forall q, In q qs -> q < length (nth v (projectedStrat g0) []) ->
     nth q (nth v (projectedStrat g') []) Trie.reset =
     project g0 v q (skipn (firstAction g0 q) s)) /\
  (forall q, ~ In q qs ->
     nth q (nth v (projectedStrat g') []) Trie.reset =
     nth q (nth v (projectedStrat g0) []) Trie.reset).
Proof.
  induction qs as [|q0 qs IH]; intros g0 Hnd Hv; simpl.
  - repeat split; auto. intros q [].
  - inversion Hnd as [|? ? Hq0 Hnd']; subst.
    set (g1 := doProjection_player g0 v q0 (skipn (firstAction g0 q0) s)).
    assert (Hs1 : static g1 = static g0) by reflexivity.
    assert (HpS1 : projectedStrat g1 =
                   upd v (upd q0 (project g0 v q0 (skipn (firstAction g0 q0) s))
                              (nth v (projectedStrat g0) []))
                       (projectedStrat g0)) by reflexivity.
    assert (Hlen1 : length (projectedStrat g1) = length (projectedStrat g0)).
    { rewrite HpS1. apply upd_length. }
    assert (Hrow1 : forall w, length (nth w (projectedStrat g1) []) =
                              length (nth w (projectedStrat g0) [])).
    { intros w. rewrite HpS1, nth_upd.
      destruct (Nat.eqb_spec v w) as [->|]; simpl; auto.
      destruct (Nat.ltb_spec w (length (projectedStrat g0))); auto.
      apply upd_length. }
    destruct (IH g1 Hnd') as (Hs & HPr & Hlen & Hrow & Hin & Hout);
      [now rewrite Hlen1|].
    split; [now rewrite Hs|]. split; [now rewrite HPr|].
    split; [now rewrite Hlen|].
    split; [intros w; now rewrite Hrow|]. split.
    + intros q [<-|Hq] Hlt.
      * rewrite Hout by auto. rewrite HpS1.
        rewrite nth_upd_same by auto. now apply nth_upd_same.
      * rewrite Hin by (try assumption; rewrite Hrow1; assumption).
        rewrite (project_static v q _ Hs1).
        now rewrite (firstAction_static q Hs1).
    + intros q Hq. rewrite Hout by tauto. rewrite HpS1.
      destruct (Nat.lt_ge_cases v (length (projectedStrat g0))) as [Hlt|Hge];
        [|lia].
      rewrite nth_upd_same by auto. apply nth_upd_other. tauto.
Qed.

Lemma doProjection_spec (g : AGG) v s :
  v < length (projectedStrat g) ->
  let g' := doProjection g v s in
  static g' = static g /\ Pr g' = Pr g /\
  length (projectedStrat g') = length (projectedStrat g) /\
  (forall w, length (nth w (projectedStrat g') []) =
             length (nth w (projectedStrat g) [])) /\
  (forall q, q < numPlayers g -> q < length (nth v (projectedStrat g) []) ->
     nth q (nth v (projectedStrat g') []) Trie.reset =
     project g v q (skipn (firstAction g q) s)).
Proof.
  intros Hv. unfold doProjection.
  destruct (@doProjection_fold v s (seq 0 (numPlayers g)) g (seq_NoDup _ _) Hv)
    as (Hs & HPr & Hlen & Hrow & Hin & _).
  repeat split; auto.
  intros q Hq Hlt. apply Hin; auto. apply in_seq. lia.
Qed.

End Scratch.

(* ================================================================== *)
(** * The oracle: the value of [getV] *)

Section OracleValue.
Context {projtype : Type} {PF : ProjFunc projtype}.
Local Abbreviation AGG := (@AGG projtype).

Lemma getV_value_static (g g' : AGG) p a s :
  static g = static g' -> getV_value g p a s = getV_value g' p a s.
Proof.
  intros H.
  change (getV_value (static g) p a s = getV_value (static g') p a s).
  now rewrite H.
Qed.

Lemma computeP_spec (g : AGG) p a :
  length (Pr g) = numPlayers g -> 0 < numPlayers g ->
  let g' := computeP g p a (-1) (-1) in
  let v := nth a (nth p (actionSets g) []) 0 in
  let own := nth a (nth p (nth v (projection g) []) []) [] in
  let order := nth a (nth p (Porder g) []) [] in
  static g' = static g /\ projectedStrat g' = projectedStrat g /\
  length (Pr g') = length (Pr g) /\
  nth (numPlayers g - 1) (Pr g') Trie.reset =
  fold_left
    (fun x k =>
       Trie.multiply x
         (nth (nth k order 0) (nth v (projectedStrat g) []) Trie.reset)
         (length (nth v (neighbors g) []))
         (composer (nth v (projFunctions g) [])))
    (seq 1 (numPlayers g - 1)) [(own, 1%Qc)].
Proof.
  intros HPr Hn. cbv zeta. unfold computeP.
  cbn [static set_Pr set_projectedStrat Pr projectedStrat numPlayers
       actionSets projection Porder neighbors projFunctions].
  split; [reflexivity|]. split; [reflexivity|].
  set (v := nth a (nth p (actionSets g) []) 0).
  set (own := nth a (nth p (nth v (projection g) []) []) []).
  set (order := nth a (nth p (Porder g) []) []).
  set (P0 := upd 0 _ (Pr g)).
  rewrite (@fold_left_ext_in _ _ _
             (fun P k =>
                upd k ((fun k prev =>
                          Trie.multiply prev
                            (nth (nth k order 0) (nth v (projectedStrat g) [])
                                 Trie.reset)
                            (length (nth v (neighbors g) []))
                            (composer (nth v (projFunctions g) [])))
                         k (nth (k - 1) P Trie.reset)) P)).
  2:{ intros P k _. cbv beta zeta.
      destruct (Z.eqb_spec (Z.of_nat (nth k order 0)) (-1)); [lia|reflexivity]. }
  assert (Hlen0 : length P0 = length (Pr g)) by apply upd_length.
  destruct (@fold_upd_chain _
              (fun k prev =>
                 Trie.multiply prev
                   (nth (nth k order 0) (nth v (projectedStrat g) [])
                        Trie.reset)
                   (length (nth v (neighbors g) []))
                   (composer (nth v (projFunctions g) [])))
              Trie.reset (numPlayers g - 1) P0) as (Hlen & Hnth).
  { rewrite Hlen0. lia. }
  split; [now rewrite Hlen|].
  rewrite Hnth. unfold P0. rewrite nth_upd_same by lia.
  reflexivity.
Qed.

(** [getV] returns [getV_value] and leaves a game of the same shape. *)
Lemma getV_ok (g : AGG) p a s :
  game_ok g -> p < numPlayers g -> a < length (nth p (actionSets g) []) ->
  exists g', getV g p a s = Ok (getV_value g p a s, g') /\
             static g' = static g /\ game_ok g'.
Proof.
  intros Hok Hp Ha. unfold getV.
  destruct (nth_error (actionSets g) p) as [set|] eqn:Eset.
  2:{ apply nth_error_None in Eset. rewrite (ok_sets Hok) in Eset. lia. }
  apply (nth_error_nth _ _ []) in Eset. rewrite <- Eset.
  destruct (nth_error (nth p (actionSets g) []) a) as [v|] eqn:Ev.
  2:{ apply nth_error_None in Ev. lia. }
  apply (nth_error_nth _ _ 0) in Ev.
  assert (Hv : v < numActionNodes g).
  { rewrite <- Ev. now apply (ok_nodes Hok). }
  assert (Hv' : v < length (projectedStrat g)) by now rewrite (ok_pS Hok).
  destruct (@doProjection_spec _ g v s Hv') as (Hs1 & HPr1 & Hlen1 & Hrow1 & Hq1).
  set (g1 := doProjection g v s) in *.
  apply static_fields in Hs1 as Hf1.
  destruct Hf1 as (E1 & E2 & E3 & E4 & E5 & E6 & E7 & E8 & E9 & E10).
  destruct (@computeP_spec g1 p a) as (Hs2 & HpS2 & Hlen2 & Hval);
    [rewrite E1, HPr1; apply (ok_Pr Hok) | rewrite E1; lia |].
  set (g2 := computeP g1 p a (-1) (-1)) in *.
  apply static_fields in Hs2 as Hf2.
  destruct Hf2 as (F1 & F2 & F3 & F4 & F5 & F6 & F7 & F8 & F9 & F10).
  exists g2. split; [|split].
  - f_equal. f_equal. rewrite F1, Hval, F7, E7.
    unfold getV_value. rewrite E1, E5, E6, E8, E9, E10, Ev.
    f_equal. apply fold_left_ext_in. intros x k Hk.
    apply in_seq in Hk.
    assert (Hq : nth k (nth a (nth p (Porder g) []) []) 0 < numPlayers g).
    { apply (ok_Porder Hok); auto. lia. }
    rewrite Hq1; [reflexivity | exact Hq |].
    now rewrite (ok_pS_row Hok).
  - now rewrite Hs2.
  - apply game_ok_transfer with (g := g);
      [ now rewrite Hs2 | now rewrite Hlen2, HPr1 | now rewrite HpS2
      | intros w; now rewrite HpS2 | exact Hok ].
Qed.

End OracleValue.

(* ================================================================== *)
(** * The oracle: sums over the actions of a player *)

Section OracleSums.
Context {projtype : Type} {PF : ProjFunc projtype}.
Local Abbreviation AGG := (@AGG projtype).
Local Open Scope Qc_scope.

Lemma getMixedPayoff_fold (g : AGG) p s acts : forall g0 r0,
  game_ok g0 -> static g0 = static g -> (p < numPlayers g)%nat ->
  (forall a, In a acts -> (a < length (nth p (actionSets g) []))%nat) ->
  exists g',
    fold_left (getMixedPayoff_step p s) acts (Ok (r0, g0)) =
    Ok (r0 + Qcsum (map (mixed_term g p s) acts), g') /\
    static g' = static g /\ game_ok g'.
Proof.
  induction acts as [|a acts IH]; intros g0 r0 Hok Hs Hp Hacts.
  - exists g0. simpl. split; [|split; auto].
    assert (E : r0 + 0 = r0) by ring. now rewrite E.
  - cbn [fold_left map Qcsum fold_right].
    unfold getMixedPayoff_step at 2. cbn [rbind]. cbv zeta.
    apply static_fields in Hs as Hf.
    destruct Hf as (E1 & E2 & E3 & E4 & E5 & E6 & E7 & E8 & E9 & E10).
    rewrite (firstAction_static p Hs).
    unfold mixed_term at 1.
    destruct (Qcltb 0 (nth (a + firstAction g p) s 0)) eqn:Epos.
    + destruct (@getV_ok _ _ g0 p a s Hok) as (g1 & Hv & Hs1 & Hok1).
      { now rewrite E1. }
      { rewrite E5. apply Hacts. now left. }
      rewrite Hv. cbn [rbind].
      rewrite (getV_value_static p a s Hs).
      destruct (IH g1 (r0 + nth (a + firstAction g p) s 0 * getV_value g p a s))
        as (g' & Hfold & Hs' & Hok'); auto.
      { now rewrite Hs1. }
      { intros; apply Hacts; now right. }
      exists g'. rewrite Hfold. split; [|split; auto].
      fold (Qcsum (map (mixed_term g p s) acts)).
      now rewrite Qcplus_assoc.
    + destruct (IH g0 r0) as (g' & Hfold & Hs' & Hok'); auto.
      { intros; apply Hacts; now right. }
      exists g'. rewrite Hfold. split; [|split; auto].
      fold (Qcsum (map (mixed_term g p s) acts)).
      now rewrite Qcplus_0_l.
Qed.

Lemma getMixedPayoff_ok (g : AGG) p s :
  game_ok g -> (p < numPlayers g)%nat ->
  exists g',
    getMixedPayoff g p s =
    Ok (Qcsum (map (mixed_term g p s) (seq 0 (nth p (actions g) 0%nat))), g') /\
    static g' = static g /\ game_ok g'.
Proof.
  intros Hok Hp. unfold getMixedPayoff.
  destruct (@getMixedPayoff_fold g p s (seq 0 (nth p (actions g) 0%nat)) g 0)
    as (g' & Hfold & Hs & Hok'); auto.
  { intros a Ha. apply in_seq in Ha. rewrite (ok_actions Hok) in Ha by auto. lia. }
  exists g'. rewrite Hfold. split; [|split; auto].
  now rewrite Qcplus_0_l.
Qed.

Lemma getPayoffVector_fold (g : AGG) p s acts : forall g0 dest,
  game_ok g0 -> static g0 = static g -> (p < numPlayers g)%nat ->
  (forall a, In a acts -> (a < length (nth p (actionSets g) []))%nat) ->
  exists g',
    fold_left (getPayoffVector_step p s) acts (Ok (dest, g0)) =
    Ok (dest ++ map (fun a => getV_value g p a s) acts, g') /\
    static g' = static g /\ game_ok g'.
Proof.
  induction acts as [|a acts IH]; intros g0 dest Hok Hs Hp Hacts.
  - exists g0. simpl. rewrite app_nil_r. auto.
  - cbn [fold_left map].
    unfold getPayoffVector_step at 2. cbn [rbind].
    apply static_fields in Hs as Hf.
    destruct Hf as (E1 & E2 & E3 & E4 & E5 & E6 & E7 & E8 & E9 & E10).
    destruct (@getV_ok _ _ g0 p a s Hok) as (g1 & Hv & Hs1 & Hok1).
    { now rewrite E1. }
    { rewrite E5. apply Hacts. now left. }
    rewrite Hv. cbn [rbind].
    rewrite (getV_value_static p a s Hs).
    destruct (IH g1 (dest ++ [getV_value g p a s])) as (g' & Hfold & Hs' & Hok');
      auto.
    { now rewrite Hs1. }
    { intros; apply Hacts; now right. }
    exists g'. rewrite Hfold. split; [|split; auto].
    now rewrite <- app_assoc.
Qed.

Lemma getPayoffVector_ok (g : AGG) p s :
  game_ok g -> (p < numPlayers g)%nat ->
  exists g',
    getPayoffVector g p s =
    Ok (map (fun a => getV_value g p a s) (seq 0 (nth p (actions g) 0%nat)), g').
Proof.
  intros Hok Hp. unfold getPayoffVector.
  destruct (@getPayoffVector_fold g p s (seq 0 (nth p (actions g) 0%nat)) g [])
    as (g' & Hfold & _); auto.
  { intros a Ha. apply in_seq in Ha. rewrite (ok_actions Hok) in Ha by auto. lia. }
  exists g'. exact Hfold.
Qed.

End OracleSums.

(* ================================================================== *)
(** * Constructed games *)

Section Constructed.
Context {projtype : Type} {PF : ProjFunc projtype}.
Local Abbreviation AGG := (@AGG projtype).

Lemma apply_rest_length ks Po_ij projS_v arity (projF_v : list projtype) :
  forall P, length (apply_rest ks Po_ij projS_v arity projF_v P) = length P.
Proof.
  unfold apply_rest. induction ks as [|k ks IH]; intros P; simpl; auto.
  rewrite IH. apply upd_length.
Qed.

Lemma accept_action_length n i j ASets projS proj (projF : list (list projtype))
    Po st :
  length (fst (accept_action n i j ASets projS proj projF Po st)) =
  length (fst st) /\
  length (snd (accept_action n i j ASets projS proj projF Po st)) =
  length (snd st).
Proof.
  unfold accept_action. destruct st as [P pays]. cbn [fst snd].
  rewrite apply_rest_length, !upd_length. auto.
Qed.

Lemma accept_fold_length n i ASets projS proj (projF : list (list projtype))
    Po js : forall st,
  let st' := fold_left
               (fun st j => accept_action n i j ASets projS proj projF Po st)
               js st in
  length (fst st') = length (fst st) /\ length (snd st') = length (snd st).
Proof.
  induction js as [|j js IH]; intros st; simpl; auto.
  destruct (IH (accept_action n i j ASets projS proj projF Po st)) as (H1 & H2).
  rewrite H1, H2. apply accept_action_length.
Qed.

Lemma setup_players_length n size ASets projS proj (projF : list (list projtype))
    todo : forall Po doneASets st,
  let st' := snd (setup_players n todo size ASets projS proj projF Po
                                doneASets st) in
  length (fst st') = length (fst st) /\ length (snd st') = length (snd st).
Proof.
  induction todo as [|i todo IH]; intros Po doneASets st; simpl; auto.
  destruct (existsb _ doneASets); [apply IH|].
  match goal with
  | |- context [setup_players _ _ _ _ _ _ _ ?Po' ?d' ?st'] =>
      destruct (IH Po' d' st') as (H1 & H2)
  end.
  rewrite H1, H2. apply accept_fold_length.
Qed.

Lemma make_projS_dims N numS AS neighb (projTypes : list projtype) an :
  let projS := make_projS (make_proj N numS AS neighb projTypes an) in
  length projS = numS /\
  forall v, v < numS -> length (nth v projS []) = N.
Proof.
  cbv zeta. unfold make_projS, make_proj. split.
  - now rewrite !length_map, length_seq.
  - intros v Hv.
    rewrite (nth_indep _ [] (map (@support) [])) by
      (now rewrite !length_map, length_seq).
    rewrite map_nth, length_map, (nth_map_seq _ []) by auto.
    now rewrite length_map, length_seq.
Qed.

(** [Porder[p][a]] of a constructed game is what [initPorder] makes of the
    supports at the node of the action. *)
Lemma makeAGG_Porder (h : header) s (g : AGG) :
  makeAGG h s = Ok g -> header_read h ->
  forall p a, p < numPlayers g -> a < length (nth p (actionSets g) []) ->
    nth a (nth p (Porder g) []) [] =
    initPorder p (numPlayers g)
               (nth (nth a (nth p (actionSets g) []) 0) (projectedStrat g) []).
Proof.
  intros Hg Hread.
  apply makeAGG_inv in Hg as (an & Po & P & pays0 & pays & _ & Hsp & _ & _ &
    cls & pure & _ & _ & ->).
  cbn [numPlayers actions actionSets projectedStrat Porder].
  intros p a Hp Ha.
  match type of Hsp with
    setup_players ?n ?todo ?size ?AS ?pS ?pj ?pF ?Po0 ?d ?st = _ =>
      destruct (@setup_players_Po _ _ n size AS pS pj pF todo Po0 d st)
        as (_ & Hnth)
  end.
  { apply seq_NoDup. }
  { intros i Hi. apply in_seq in Hi. rewrite repeat_length. lia. }
  rewrite Hsp in Hnth. simpl fst in Hnth.
  destruct (Hnth p) as (Hin & _).
  rewrite Hin by (apply in_seq; lia).
  unfold Po_of. rewrite (nth_map_seq _ []); auto.
  rewrite (hr_size Hread).
  rewrite (nth_indep _ 0 (length (@nil nat))) by (rewrite length_map, (hr_ASets Hread); auto).
  now rewrite map_nth.
Qed.

Lemma initPorder_range i N (projS : list aggdistrib) k :
  i < N -> k < N -> nth k (initPorder i N projS) 0 < N.
Proof.
  intros Hi Hk.
  pose proof (initPorder_perm projS Hi) as Hperm.
  assert (Hlen : length (initPorder i N projS) = N).
  { rewrite <- (Permutation_length Hperm). apply length_seq. }
  assert (Hin : In (nth k (initPorder i N projS) 0) (initPorder i N projS)).
  { apply nth_In. lia. }
  apply (Permutation_in _ (Permutation_sym Hperm)) in Hin.
  apply in_seq in Hin. lia.
Qed.

(** A constructed game has vectors of the sizes, and indices in the ranges,
    that the oracle relies on. *)
Lemma makeAGG_game_ok (h : header) s (g : AGG) :
  makeAGG h s = Ok g -> header_read h -> header_ranges h -> game_ok g.
Proof.
  intros Hg Hread Hrange.
  pose proof (@makeAGG_Porder h s g Hg Hread) as HPo.
  apply makeAGG_inv in Hg as (an & Po & P & pays0 & pays & _ & Hsp & _ & _ &
    cls & pure & _ & _ & ->).
  cbn [numPlayers actions actionSets projectedStrat Porder] in HPo.
  destruct (make_projS_dims (h_n h) (h_S h) (h_ASets h) (h_neighb h)
                            (h_projTypes h) an) as (HpS & Hrow).
  constructor;
    cbn [numPlayers actions actionSets projectedStrat Porder Pr
         numActionNodes]; auto.
  - apply (hr_ASets Hread).
  - intros p Hp. rewrite nth_firstn_lt by auto.
    rewrite (hr_size Hread).
    rewrite (nth_indep _ 0 (length (@nil nat)))
      by (rewrite length_map, (hr_ASets Hread); auto).
    now rewrite map_nth.
  - apply (hr_actions Hrange).
  - match type of Hsp with
      setup_players ?n ?todo ?size ?AS ?pS ?pj ?pF ?Po0 ?d ?st = _ =>
        destruct (@setup_players_length n size AS pS pj pF todo Po0 d st)
          as (H1 & _)
    end.
    rewrite Hsp in H1. cbn [fst snd] in H1. rewrite H1. apply repeat_length.
  - intros p a k Hp Ha Hk. rewrite HPo by auto.
    now apply initPorder_range.
Qed.

End Constructed.

(* ================================================================== *)
(** * The oracle on mixed profiles *)

Section MixedProfiles.
Context {projtype : Type} {PF : ProjFunc projtype}.
Local Abbreviation AGG := (@AGG projtype).
Local Open Scope Qc_scope.

Lemma nth_clamp s k : nth k (clamp s) 0 = Qcmax 0 (nth k s 0).
Proof.
  unfold clamp. exact (map_nth (Qcmax 0) s 0 k).
Qed.

Lemma positive_clamp s k :
  Qcltb 0 (nth k (clamp s) 0) = Qcltb 0 (nth k s 0) /\
  (Qcltb 0 (nth k s 0) = true -> nth k (clamp s) 0 = nth k s 0).
Proof.
  rewrite nth_clamp. unfold Qcmax.
  destruct (Qcltb 0 (nth k s 0)) eqn:E; split; auto; discriminate.
Qed.

Lemma skipn_clamp n s : skipn n (clamp s) = clamp (skipn n s).
Proof. unfold clamp. apply skipn_map. Qed.

Lemma project_clamp (g : AGG) v i s :
  project g v i (clamp s) = project g v i s.
Proof.
  unfold project. apply fold_left_ext_in. intros d j _.
  destruct (positive_clamp s j) as (E1 & E2). rewrite E1.
  destruct (Qcltb 0 (nth j s 0)); auto. now rewrite E2.
Qed.

Lemma doProjection_clamp (g : AGG) v s :
  doProjection g v (clamp s) = doProjection g v s.
Proof.
  unfold doProjection. apply fold_left_ext_in. intros g0 i _.
  unfold doProjection_player. now rewrite skipn_clamp, project_clamp.
Qed.

Lemma getV_clamp (g : AGG) p a s : getV g p a (clamp s) = getV g p a s.
Proof.
  unfold getV. destruct (nth_error (actionSets g) p); auto.
  destruct (nth_error l a); auto. now rewrite doProjection_clamp.
Qed.

Lemma getJ_clamp (g : AGG) p1 a1 p2 a2 s :
  getJ g p1 a1 p2 a2 (clamp s) = getJ g p1 a1 p2 a2 s.
Proof. unfold getJ. now rewrite doProjection_clamp. Qed.

Lemma getMixedPayoff_clamp (g : AGG) p s :
  getMixedPayoff g p (clamp s) = getMixedPayoff g p s.
Proof.
  unfold getMixedPayoff. apply fold_left_ext_in. intros st act _.
  unfold getMixedPayoff_step. destruct st as [[r g0]|e]; cbn [rbind]; auto.
  cbv zeta.
  destruct (positive_clamp s (act + firstAction g0 p)) as (E1 & E2).
  rewrite E1.
  destruct (Qcltb 0 (nth (act + firstAction g0 p) s 0)); auto.
  now rewrite E2, getV_clamp.
Qed.

Lemma getPayoffVector_clamp (g : AGG) p s :
  getPayoffVector g p (clamp s) = getPayoffVector g p s.
Proof.
  unfold getPayoffVector. apply fold_left_ext_in. intros st act _.
  unfold getPayoffVector_step. destruct st as [[r g0]|e]; cbn [rbind]; auto.
  now rewrite getV_clamp.
Qed.

(** C2.  In a constructed game, on a mixed profile (a profile of the
    dimension of the game without negative entries), [getMixedPayoff]
    returns the sum over the actions [a] of player [p] of [s[p,a]] times
    the value that [getV(p, a, s)] returns. *)
Theorem getMixedPayoff_weighted_sum (h : header) st (g : AGG) :
  makeAGG h st = Ok g -> header_read h -> header_ranges h ->
  forall p s,
    (p < numPlayers g)%nat -> length s = totalActions g ->
    (forall a, (a < nth p (actions g) 0)%nat ->
               0 <= nth (a + firstAction g p) s 0) ->
    exists (V : nat -> AggNumber) g',
      (forall a, (a < nth p (actions g) 0)%nat ->
                 exists g_a, getV g p a s = Ok (V a, g_a)) /\
      getMixedPayoff g p s =
      Ok (Qcsum (map (fun a => nth (a + firstAction g p) s 0 * V a)
                     (seq 0 (nth p (actions g) 0%nat))), g').
Proof.
  intros Hg Hread Hrange p s Hp _ Hs.
  pose proof (@makeAGG_game_ok _ _ h st g Hg Hread Hrange) as Hok.
  destruct (@getMixedPayoff_ok _ _ g p s Hok Hp) as (g' & Hmix & _).
  exists (fun a => getV_value g p a s), g'. split.
  - intros a Ha. rewrite (ok_actions Hok) in Ha by auto.
    destruct (@getV_ok _ _ g p a s Hok Hp Ha) as (g_a & Hv & _).
    now exists g_a.
  - rewrite Hmix. f_equal. f_equal. f_equal.
    apply map_ext_in. intros a Ha. apply in_seq in Ha.
    unfold mixed_term.
    destruct (Qcltb 0 (nth (a + firstAction g p) s 0)) eqn:E; auto.
    rewrite (Qcltb_zero_nonneg E); [ring|]. apply Hs. lia.
Qed.

End MixedProfiles.

(* ================================================================== *)
(** * Folding contributions in any order *)

Section AnyOrder.
Variable A : Type.
Variable f : A -> A -> A.
Hypothesis f_assoc : forall a b c, f a (f b c) = f (f a b) c.
Hypothesis f_comm : forall a b, f a b = f b a.
Hypothesis A_eq_dec : forall a b : A, {a = b} + {a <> b}.

Lemma fold_left_perm l l' :
  Permutation l l' -> forall x, fold_left f l x = fold_left f l' x.
Proof.
  induction 1 as [|a l l' _ IH|a b l|l l' l'' _ IH1 _ IH2]; intros x; simpl;
    auto.
  - f_equal. rewrite <- !f_assoc. f_equal. apply f_comm.
  - now rewrite IH1.
Qed.

Lemma fold_left_head x y l :
  fold_left f (y :: l) x = fold_left f (x :: l) y.
Proof. simpl. now rewrite f_comm. Qed.

Lemma fold1_perm d l l' : Permutation l l' -> fold1 f d l = fold1 f d l'.
Proof.
  intros Hperm.
  destruct l as [|x l]; destruct l' as [|y l']; auto.
  - now apply Permutation_nil_cons in Hperm.
  - symmetry in Hperm. now apply Permutation_nil_cons in Hperm.
  - simpl. destruct (A_eq_dec x y) as [->|Hne].
    + apply fold_left_perm. now apply Permutation_cons_inv in Hperm.
    + assert (Hin : In y l).
      { assert (H : In y (x :: l))
          by (apply (Permutation_in _ (Permutation_sym Hperm)); now left).
        destruct H; [congruence | auto]. }
      apply in_split in Hin as (l1 & l2 & ->).
      assert (Hl : Permutation (l1 ++ y :: l2) (y :: l1 ++ l2))
        by (symmetry; apply Permutation_middle).
      rewrite (fold_left_perm Hl x).
      rewrite fold_left_head.
      apply fold_left_perm.
      apply Permutation_cons_inv with (a := y).
      rewrite perm_swap. rewrite <- Hperm.
      constructor. symmetry. exact Hl.
Qed.
End AnyOrder.

Section ComposeAC.
Context {projtype : Type} {PF : ProjFunc projtype} {AC : @ProjFuncAC projtype PF}.
Variable arity : nat.
Variable projF_v : list projtype.

Lemma nth_compose_key phi ka kb i :
  i < arity ->
  nth i (Trie.compose_key arity phi ka kb) 0%Z =
  phi i (nth i ka 0%Z) (nth i kb 0%Z).
Proof. intros Hi. unfold Trie.compose_key. now rewrite (nth_map_seq _ 0%Z). Qed.

Lemma compose_key_assoc a b c :
  Trie.compose_key arity (composer projF_v) a
    (Trie.compose_key arity (composer projF_v) b c) =
  Trie.compose_key arity (composer projF_v)
    (Trie.compose_key arity (composer projF_v) a b) c.
Proof.
  unfold Trie.compose_key at 1 3. apply map_ext_in. intros i Hi.
  apply in_seq in Hi. rewrite !nth_compose_key by lia.
  unfold composer. apply pf_combine_assoc.
Qed.

Lemma compose_key_comm a b :
  Trie.compose_key arity (composer projF_v) a b =
  Trie.compose_key arity (composer projF_v) b a.
Proof.
  unfold Trie.compose_key. apply map_ext_in. intros i _.
  unfold composer. apply pf_combine_comm.
Qed.

(** The configuration that a list of contributions folds to does not depend
    on their order. *)
Lemma fold_keys_perm l l' :
  Permutation l l' ->
  fold1 (Trie.compose_key arity (composer projF_v)) [] l =
  fold1 (Trie.compose_key arity (composer projF_v)) [] l'.
Proof.
  apply fold1_perm.
  - apply compose_key_assoc.
  - apply compose_key_comm.
  - apply (list_eq_dec Z.eq_dec).
Qed.
End ComposeAC.

(* ================================================================== *)
(** * Pure profiles as mixed profiles *)

Lemma nth_flat_map B (F : nat -> list B) (d : B) l : forall i j,
  i < length l -> j < length (F (nth i l 0)) ->
  nth (list_sum (map (fun x => length (F x)) (firstn i l)) + j)
      (flat_map F l) d =
  nth j (F (nth i l 0)) d.
Proof.
  induction l as [|x l IH]; intros i j Hi Hj; simpl in Hi; [lia|].
  destruct i as [|i]; simpl.
  - now rewrite app_nth1.
  - rewrite <- Nat.add_assoc, app_nth2_plus. apply IH; auto. lia.
Qed.

Lemma firstn_seq_le i : forall start n,
  i <= n -> firstn i (seq start n) = seq start i.
Proof.
  induction i as [|i IH]; intros start n Hi; auto.
  destruct n as [|n]; [lia|]. simpl. f_equal. apply IH. lia.
Qed.

Lemma fold_left_map A B C (f : A -> B -> A) (g : C -> B) l : forall x,
  fold_left f (map g l) x = fold_left (fun a c => f a (g c)) l x.
Proof. induction l as [|c l IH]; intros x; simpl; auto. Qed.

Lemma map_nth_seq (l : list nat) i :
  i <= length l -> map (fun k => nth k l 0) (seq 0 i) = firstn i l.
Proof.
  revert l. induction i as [|i IH]; intros l Hi; auto.
  destruct l as [|x l]; simpl in Hi; [lia|].
  simpl. f_equal. rewrite <- seq_shift, map_map. apply IH. lia.
Qed.

Lemma ctor_offsets_nth acts : forall off total maxA i,
  i <= length acts ->
  nth i (off :: fst (fst (ctor_offsets acts off total maxA))) 0 =
  off + list_sum (firstn i acts).
Proof.
  induction acts as [|a acts IH]; intros off total maxA i Hi; simpl in Hi.
  - assert (i = 0) by lia. subst. simpl. lia.
  - destruct i as [|i]; [simpl; lia|].
    cbn [ctor_offsets].
    destruct (ctor_offsets acts (off + a) (total + a)
                           (if maxA <? a then a else maxA))
      as [[offs total'] maxA'] eqn:E.
    cbn [fst].
    change (nth (S i) (off :: (off + a) :: offs) 0)
      with (nth i ((off + a) :: offs) 0).
    specialize (IH (off + a) (total + a) (if maxA <? a then a else maxA) i).
    rewrite E in IH. cbn [fst] in IH. rewrite IH by lia.
    simpl. lia.
Qed.

Section PureProfiles.
Context {projtype : Type} {PF : ProjFunc projtype}.
Local Abbreviation AGG := (@AGG projtype).
Local Open Scope Qc_scope.

Lemma makeAGG_offsets (h : header) st (g : AGG) :
  makeAGG h st = Ok g -> header_read h ->
  length (actions g) = numPlayers g /\
  forall i, (i <= numPlayers g)%nat ->
            firstAction g i = list_sum (firstn i (actions g)).
Proof.
  intros Hg Hread.
  apply makeAGG_inv in Hg as (an & Po & P & pays0 & pays & _ & _ & _ & _ &
    cls & pure & _ & _ & ->).
  unfold firstAction. cbn [actions numPlayers strategyOffset].
  assert (Hlen : length (firstn (h_n h) (h_size h)) = h_n h).
  { rewrite length_firstn, (hr_size Hread), length_map, (hr_ASets Hread). lia. }
  split; auto.
  intros i Hi. rewrite ctor_offsets_nth by lia. reflexivity.
Qed.

Lemma length_one_hot n a : length (one_hot n a) = n.
Proof. unfold one_hot. now rewrite length_map, length_seq. Qed.

Lemma nth_one_hot n a j :
  (j < n)%nat -> nth j (one_hot n a) 0 = if j =? a then 1 else 0.
Proof. intros H. unfold one_hot. now rewrite (nth_map_seq _ 0). Qed.

(** The entry of action [a] of player [i] in the indicator profile. *)
Lemma nth_indicator (g : AGG) sigma i a :
  length (actions g) = numPlayers g ->
  (forall i, (i <= numPlayers g)%nat ->
             firstAction g i = list_sum (firstn i (actions g))) ->
  (i < numPlayers g)%nat -> (a < nth i (actions g) 0)%nat ->
  nth (firstAction g i + a) (indicator g sigma) 0 =
  if a =? nth i sigma 0%nat then 1 else 0.
Proof.
  intros Hlen Hoff Hi Ha. unfold indicator.
  rewrite Hoff by lia.
  set (F := fun i => one_hot (nth i (actions g) 0%nat) (nth i sigma 0%nat)).
  assert (Esum : list_sum (firstn i (actions g)) =
                 list_sum (map (fun x => length (F x))
                               (firstn i (seq 0 (numPlayers g))))).
  { rewrite firstn_seq_le by lia.
    rewrite <- (map_nth_seq (actions g)) by lia.
    f_equal. apply map_ext. intros k. unfold F. now rewrite length_one_hot. }
  rewrite Esum.
  rewrite (@nth_flat_map _ F 0 (seq 0 (numPlayers g)) i a).
  - rewrite seq_nth by auto. unfold F. simpl plus.
    now rewrite nth_one_hot.
  - now rewrite length_seq.
  - rewrite seq_nth by auto. unfold F. simpl plus.
    now rewrite length_one_hot.
Qed.

Lemma Qcltb_0_1 : Qcltb 0 1 = true.
Proof. reflexivity. Qed.

Lemma Qcltb_0_0 : Qcltb 0 0 = false.
Proof. reflexivity. Qed.

Lemma fold_one_hot_add (key : nat -> config) a js : forall d0,
  NoDup js ->
  fold_left
    (fun d j =>
       if Qcltb 0 (if j =? a then 1 else 0)
       then Trie.add (key j) (if j =? a then 1 else 0) d
       else d) js d0 =
  if existsb (Nat.eqb a) js then Trie.add (key a) 1 d0 else d0.
Proof.
  induction js as [|j js IH]; intros d0 Hnd; simpl; auto.
  inversion Hnd as [|? ? Hj Hnd']; subst.
  rewrite IH by auto.
  destruct (Nat.eqb_spec j a) as [->|Hne].
  - rewrite Nat.eqb_refl, Qcltb_0_1. simpl.
    destruct (existsb (Nat.eqb a) js) eqn:E; auto.
    apply existsb_exists in E as (x & Hx & Ex).
    apply Nat.eqb_eq in Ex. subst. contradiction.
  - rewrite Qcltb_0_0.
    destruct (Nat.eqb_spec a j); [congruence|]. reflexivity.
Qed.

Lemma Qcsum_one_hot (F : nat -> AggNumber) a0 l :
  NoDup l -> In a0 l ->
  Qcsum (map (fun a => if a =? a0 then F a else 0) l) = F a0.
Proof.
  induction l as [|a l IH]; intros Hnd Hin; [destruct Hin|].
  inversion Hnd as [|? ? Ha Hnd']; subst.
  rewrite map_cons, Qcsum_cons.
  destruct (Nat.eqb_spec a a0) as [->|Hne].
  - assert (E : Qcsum (map (fun a => if a =? a0 then F a else 0) l) = 0).
    { clear IH Hnd Hnd' Hin. induction l as [|b l IH]; auto.
      rewrite map_cons, Qcsum_cons.
      destruct (Nat.eqb_spec b a0) as [->|_].
      - exfalso. apply Ha. now left.
      - rewrite IH; [ring|]. intros H. apply Ha. now right. }
    rewrite E. ring.
  - destruct Hin as [->|Hin]; [congruence|].
    rewrite IH by auto. ring.
Qed.

Section Indicator.
Variable g : AGG.
Variable sigma : list nat.
Hypothesis Hlen : length (actions g) = numPlayers g.
Hypothesis Hoff : forall i, (i <= numPlayers g)%nat ->
    firstAction g i = list_sum (firstn i (actions g)).
Hypothesis Hsigma : pure_profile g sigma.

(** The marginal of a player that plays a pure strategy is the point mass
    at its contribution. *)
Lemma project_indicator v q :
  (q < numPlayers g)%nat ->
  project g v q (skipn (firstAction g q) (indicator g sigma)) =
  [(contribution g v sigma q, 1)].
Proof.
  intros Hq. unfold project.
  rewrite (@fold_left_ext_in _ _ _
             (fun d j =>
                if Qcltb 0 (if j =? nth q sigma 0%nat then 1 else 0)
                then Trie.add (nth j (nth q (nth v (projection g) []) []) [])
                              (if j =? nth q sigma 0%nat then 1 else 0) d
                else d)).
  2:{ intros d j Hj. apply in_seq in Hj.
      rewrite nth_skipn, (@nth_indicator g sigma) by (auto; lia).
      reflexivity. }
  rewrite fold_one_hot_add by apply seq_NoDup.
  destruct (existsb (Nat.eqb (nth q sigma 0%nat))
                    (seq 0 (nth q (actions g) 0%nat))) eqn:E.
  - reflexivity.
  - exfalso.
    assert (H : existsb (Nat.eqb (nth q sigma 0%nat))
                        (seq 0 (nth q (actions g) 0%nat)) = true);
      [|congruence].
    apply existsb_exists. exists (nth q sigma 0%nat). split.
    + apply in_seq. destruct Hsigma as (_ & Hs). specialize (Hs q Hq). lia.
    + apply Nat.eqb_refl.
Qed.

Lemma chain_singletons (key : nat -> config) arity phi ks : forall k0 w0,
  fold_left (fun x k => Trie.multiply x [(key k, 1)] arity phi) ks
            [(k0, w0)] =
  [(fold_left (fun K k => Trie.compose_key arity phi K (key k)) ks k0, w0)].
Proof.
  induction ks as [|k ks IH]; intros k0 w0; simpl; auto.
  unfold Trie.multiply at 2. simpl. unfold Trie.add. simpl.
  rewrite Qcmult_1_r. apply IH.
Qed.

(** [getV] at a pure profile: the payoff at the configuration that the
    contributions fold to in the order [Porder], or zero when the table
    does not bind it. *)
Lemma getV_value_indicator p :
  game_ok g -> (p < numPlayers g)%nat ->
  let a := nth p sigma 0%nat in
  let v := nth a (nth p (actionSets g) []) 0%nat in
  let order := nth a (nth p (Porder g) []) [] in
  getV_value g p a (indicator g sigma) =
  payoff_at (nth v (payoffs g) [])
    (fold_left
       (fun K k =>
          Trie.compose_key (length (nth v (neighbors g) []))
                           (composer (nth v (projFunctions g) [])) K
                           (contribution g v sigma (nth k order 0%nat)))
       (seq 1 (numPlayers g - 1)) (contribution g v sigma p)).
Proof.
  intros Hok Hp a v order. unfold getV_value. fold a v order.
  assert (Ha : (a < length (nth p (actionSets g) []))%nat).
  { rewrite <- (ok_actions Hok) by auto. now apply Hsigma. }
  rewrite (@fold_left_ext_in _ _ _
             (fun x k =>
                Trie.multiply x
                  [(contribution g v sigma (nth k order 0%nat), 1)]
                  (length (nth v (neighbors g) []))
                  (composer (nth v (projFunctions g) [])))).
  2:{ intros x k Hk. apply in_seq in Hk.
      rewrite project_indicator; auto.
      apply (ok_Porder Hok); auto. lia. }
  rewrite (chain_singletons
             (fun k => contribution g v sigma (nth k order 0%nat))).
  unfold Trie.inner_prod, payoff_at, contribution. fold a. simpl.
  destruct (Trie.find _ _); ring.
Qed.

(** [getMixedPayoff] at a pure profile is [getV] of the action played. *)
Lemma mixed_sum_indicator p :
  (p < numPlayers g)%nat ->
  Qcsum (map (mixed_term g p (indicator g sigma))
             (seq 0 (nth p (actions g) 0%nat))) =
  getV_value g p (nth p sigma 0%nat) (indicator g sigma).
Proof.
  intros Hp.
  rewrite (@map_ext_in _ _ _
             (fun a => if a =? nth p sigma 0%nat
                       then getV_value g p a (indicator g sigma) else 0)).
  - apply Qcsum_one_hot; [apply seq_NoDup|].
    apply in_seq. destruct Hsigma as (_ & Hs). specialize (Hs p Hp). lia.
  - intros a Ha. apply in_seq in Ha. unfold mixed_term.
    rewrite Nat.add_comm, (@nth_indicator g sigma) by (auto; lia).
    destruct (a =? nth p sigma 0%nat).
    + rewrite Qcltb_0_1. ring.
    + now rewrite Qcltb_0_0.
Qed.

End Indicator.

End PureProfiles.

(* ================================================================== *)
(** * The acceptance sets *)

Lemma keys_add k w m k' :
  In k' (Trie.keys (Trie.add k w m)) <-> k' = k \/ In k' (Trie.keys m).
Proof.
  unfold Trie.add. induction m as [|[k0 v] m IH]; simpl.
  - intuition.
  - destruct (Trie.cfg_compare k k0) eqn:C; simpl.
    + apply cfg_compare_eq in C. subst. intuition.
    + intuition.
    + rewrite IH. intuition.
Qed.

(** A loop whose steps keep the keys of a trie keeps them; a key that one
    step adds is there at the end. *)
Section KeysOfFolds.
Variable Y : Type.
Variable step : aggdistrib -> Y -> aggdistrib.
Hypothesis step_mono :
  forall c y k, In k (Trie.keys c) -> In k (Trie.keys (step c y)).

Lemma keys_fold_mono l : forall c k,
  In k (Trie.keys c) -> In k (Trie.keys (fold_left step l c)).
Proof.
  induction l as [|y l IH]; intros c k Hk; simpl; auto.
Qed.

Lemma keys_fold_in l y K : forall c,
  In y l -> (forall c, In K (Trie.keys (step c y))) ->
  In K (Trie.keys (fold_left step l c)).
Proof.
  induction l as [|z l IH]; intros c Hy HK; simpl; [destruct Hy|].
  destruct Hy as [->|Hy]; [|now apply IH].
  apply keys_fold_mono. apply HK.
Qed.
End KeysOfFolds.

Lemma keys_multiply_in a b arity phi ka kb :
  In ka (Trie.keys a) -> In kb (Trie.keys b) ->
  In (Trie.compose_key arity phi ka kb)
     (Trie.keys (Trie.multiply a b arity phi)).
Proof.
  intros Ha Hb. unfold Trie.multiply.
  apply in_map_iff in Ha as (x & <- & Hx).
  apply in_map_iff in Hb as (y & <- & Hy).
  apply keys_fold_in with (y := x); auto.
  - intros c x0 k Hk. apply keys_fold_mono; auto.
    intros c0 y0 k0 Hk0. apply keys_add. now right.
  - intros c. apply keys_fold_in with (y := y); auto.
    + intros c0 y0 k0 Hk0. apply keys_add. now right.
    + intros c0. apply keys_add. now left.
Qed.

Lemma keys_support_in l k : In k l -> In k (Trie.keys (support l)).
Proof.
  intros Hk. unfold support.
  apply keys_fold_in with (y := k); auto.
  - intros c y k0 Hk0. apply keys_insert. now right.
  - intros c. apply keys_insert. now left.
Qed.

(** The keys of a product of tries hold the fold of every choice of one key
    of each factor. *)
Lemma keys_chain_in arity phi ks ts :
  Forall2 (fun k t => In k (Trie.keys t)) ks ts ->
  forall x0 k0, In k0 (Trie.keys x0) ->
    In (fold_left (Trie.compose_key arity phi) ks k0)
       (Trie.keys (fold_left (fun x t => Trie.multiply x t arity phi) ts x0)).
Proof.
  induction 1 as [|k t ks ts Hk _ IH]; intros x0 k0 H0; simpl; auto.
  apply IH. now apply keys_multiply_in.
Qed.

Section Acceptance.
Context {projtype : Type} {PF : ProjFunc projtype}.
Variables (n : nat) (size : list nat) (ASets : list (list nat)).
Variable projS : list (list aggdistrib).
Variable proj : list (list (list config)).
Variable projF : list (list projtype).
Hypothesis n_pos : 0 < n.

Local Abbreviation accept_trie := (accept_trie n size ASets projS proj projF).
Local Abbreviation accepted := (accepted n size ASets projS proj projF).

Lemma keys_grow_refl pays : keys_grow pays pays.
Proof. intros w K H. exact H. Qed.

Lemma keys_grow_trans p1 p2 p3 :
  keys_grow p1 p2 -> keys_grow p2 p3 -> keys_grow p1 p3.
Proof. intros H1 H2 w K H. apply H2, H1, H. Qed.

Lemma accepted_grow pays pays' i :
  keys_grow pays pays' -> accepted pays i -> accepted pays' i.
Proof. intros Hg Ha j K Hj HK. apply Hg. now apply Ha. Qed.

Lemma accept_action_spec i j Po P pays :
  nth i Po [] = Po_of n size ASets projS i ->
  length P = n ->
  nth j (nth i ASets []) 0 < length pays ->
  let st' := accept_action n i j ASets projS proj projF Po (P, pays) in
  length (fst st') = n /\ length (snd st') = length pays /\
  keys_grow pays (snd st') /\
  (forall K, In K (Trie.keys (accept_trie i j)) ->
             In K (Trie.keys (nth (nth j (nth i ASets []) 0) (snd st') []))).
Proof.
  intros HPo HP Hv. unfold accept_action. cbv zeta. cbn [fst snd].
  set (v := nth j (nth i ASets []) 0) in *.
  set (own := nth j (nth i (nth v proj []) []) []).
  set (P0 := upd 0 _ P).
  assert (HP0 : length P0 = n) by (unfold P0; now rewrite upd_length).
  unfold apply_rest.
  destruct (@fold_upd_chain _
              (fun k prev =>
                 Trie.multiply prev
                   (nth (nth k (nth j (nth i Po []) []) 0) (nth v projS [])
                        Trie.reset)
                   (length own) (composer (nth v projF [])))
              Trie.reset (n - 1) P0) as (Hlen & Hnth); [lia|].
  cbv zeta in Hlen, Hnth. rewrite Hlen, upd_length.
  split; auto. split; auto.
  rewrite Hnth. unfold P0. rewrite nth_upd_same by lia.
  rewrite HPo. split.
  - intros w K HK. rewrite nth_upd.
    destruct (Nat.eqb_spec v w) as [<-|]; simpl; auto.
    destruct (Nat.ltb_spec v (length pays)); auto.
    apply keys_insert_range. now right.
  - intros K HK. rewrite nth_upd_same by auto.
    apply keys_insert_range. left. exact HK.
Qed.

Lemma accept_fold_spec i Po js : forall P pays,
  nth i Po [] = Po_of n size ASets projS i ->
  length P = n ->
  (forall j, In j js -> nth j (nth i ASets []) 0 < length pays) ->
  let st' := fold_left
               (fun st j => accept_action n i j ASets projS proj projF Po st)
               js (P, pays) in
  length (fst st') = n /\ length (snd st') = length pays /\
  keys_grow pays (snd st') /\
  (forall j K, In j js -> In K (Trie.keys (accept_trie i j)) ->
               In K (Trie.keys (nth (nth j (nth i ASets []) 0) (snd st') []))).
Proof.
  induction js as [|j js IH]; intros P pays HPo HP Hv; cbn [fold_left]; cbv zeta.
  - cbn [fst snd]. split; auto. split; auto.
    split; [apply keys_grow_refl | intros j K []].
  - destruct (@accept_action_spec i j Po P pays HPo HP) as (H1 & H2 & H3 & H4).
    { apply Hv. now left. }
    destruct (accept_action n i j ASets projS proj projF Po (P, pays))
      as [P1 pays1] eqn:E.
    cbn [fst snd] in H1, H2, H3, H4.
    destruct (IH P1 pays1 HPo H1) as (G1 & G2 & G3 & G4).
    { intros j' Hj'. rewrite H2. apply Hv. now right. }
    split; auto. split; [congruence|]. split.
    + eapply keys_grow_trans; eauto.
    + intros j' K [<-|Hj'] HK.
      * apply G3. now apply H4.
      * now apply G4.
Qed.

(** Every player has a player of the same sorted action set whose
    configurations the acceptance sets hold when [makeAGG] has looped over
    the players. *)
Lemma setup_players_accept todo : forall Po doneASets P pays,
  length P = n -> length Po = n ->
  (forall i, In i todo -> i < n) ->
  (forall i j, i < n -> j < nth i size 0 ->
               nth j (nth i ASets []) 0 < length pays) ->
  (forall d, In d doneASets ->
     exists i', i' < n /\ sort Nat.leb (nth i' ASets []) = d /\
                accepted pays i') ->
  let pays' := snd (snd (setup_players n todo size ASets projS proj projF Po
                                      doneASets (P, pays))) in
  keys_grow pays pays' /\
  forall i, In i todo ->
    exists i', i' < n /\
               sort Nat.leb (nth i' ASets []) = sort Nat.leb (nth i ASets []) /\
               accepted pays' i'.
Proof.
  induction todo as [|i todo IH]; intros Po doneASets P pays HP HPo Htodo Hrange
                                         Hinv; cbv zeta.
  - simpl. split; [apply keys_grow_refl | intros i []].
  - cbn [setup_players]. fold (Po_of n size ASets projS i).
    set (Po1 := upd i (Po_of n size ASets projS i) Po).
    assert (HPo1 : length Po1 = n) by (unfold Po1; now rewrite upd_length).
    assert (Hi : i < n) by (apply Htodo; now left).
    assert (HPoi : nth i Po1 [] = Po_of n size ASets projS i).
    { unfold Po1. apply nth_upd_same. lia. }
    destruct (existsb _ doneASets) eqn:Ex.
    + destruct (IH Po1 doneASets P pays) as (Hg & Hcov); auto.
      { intros; apply Htodo; now right. }
      split; auto.
      intros i0 [<-|Hi0]; [|now apply Hcov].
      apply existsb_exists in Ex as (d & Hd & Ed).
      destruct (list_eq_dec Nat.eq_dec d (sort Nat.leb (nth i ASets [])))
        as [->|]; [|discriminate].
      destruct (Hinv _ Hd) as (i' & Hi' & Es & Ha).
      exists i'. repeat split; auto. eapply accepted_grow; eauto.
    + destruct (@accept_fold_spec i Po1 (seq 0 (nth i size 0)) P pays HPoi HP)
        as (H1 & H2 & H3 & H4).
      { intros j Hj. apply in_seq in Hj. apply Hrange; auto. lia. }
      destruct (fold_left _ (seq 0 (nth i size 0)) (P, pays))
        as [P1 pays1] eqn:E.
      cbn [fst snd] in H1, H2, H3, H4.
      assert (Hacc : accepted pays1 i).
      { intros j K Hj HK. apply H4; auto. apply in_seq. lia. }
      destruct (IH Po1 (sort Nat.leb (nth i ASets []) :: doneASets) P1 pays1)
        as (Hg & Hcov); auto.
      { intros; apply Htodo; now right. }
      { intros i0 j Hi0 Hj. rewrite H2. now apply Hrange. }
      { intros d [<-|Hd].
        - exists i. auto.
        - destruct (Hinv _ Hd) as (i' & Hi' & Es & Ha).
          exists i'. repeat split; auto. eapply accepted_grow; eauto. }
      split; [eapply keys_grow_trans; eauto|].
      intros i0 [<-|Hi0]; [|now apply Hcov].
      exists i. repeat split; auto. eapply accepted_grow; eauto.
Qed.

End Acceptance.

(** ** The payoff tables that are read keep the acceptance sets *)

Lemma makeCOMPLETEpayoff_keys pay : forall s pay' s',
  makeCOMPLETEpayoff s pay = Ok (pay', s') -> Trie.keys pay' = Trie.keys pay.
Proof.
  induction pay as [|[key u0] pay IH]; intros s pay' s'; simpl.
  - now intros [= <- <-].
  - destruct (read_num s) as [[u s1]|]; [|discriminate].
    destruct (makeCOMPLETEpayoff s1 pay) as [[rest s2]|] eqn:E; simpl;
      [|discriminate].
    intros [= <- <-]. simpl. f_equal. eapply IH; eauto.
Qed.

Lemma makeMAPPINGpayoff_keys s pay numNei pay' s' :
  makeMAPPINGpayoff s pay numNei = Ok (pay', s') ->
  forall k, In k (Trie.keys pay) -> In k (Trie.keys pay').
Proof.
  unfold makeMAPPINGpayoff.
  destruct (read_int s) as [[num s1]|]; [|discriminate].
  destruct (mapping_loop _ _ _ _ _) as [[pay1 s2]|]; simpl; [|discriminate].
  destruct (mapping_check pay pay1) as [[]|] eqn:E; simpl; [|discriminate].
  intros [= <- <-] k Hk.
  apply find_in_keys. now apply (proj1 (mapping_check_ok pay pay1) E).
Qed.

Lemma read_payoffs_keys neighb nodes : forall eof s pays pays',
  read_payoffs eof nodes neighb s pays = Ok pays' -> keys_grow pays pays'.
Proof.
  induction nodes as [|i nodes IH]; intros eof s pays pays'; simpl.
  - intros [= <-]. apply keys_grow_refl.
  - destruct eof; [discriminate|].
    destruct (read_int s) as [[t s1]|]; [|discriminate].
    match goal with
    | |- rbind ?r _ = _ -> _ => destruct r as [[pay1 s2]|] eqn:E
    end; simpl; [|discriminate].
    intros H. apply IH in H.
    eapply keys_grow_trans; [|exact H].
    intros w K HK. rewrite nth_upd.
    destruct (Nat.eqb_spec i w) as [<-|]; simpl; auto.
    destruct (Nat.ltb_spec i (length pays)); auto.
    destruct (t =? 0)%Z.
    + apply makeCOMPLETEpayoff_keys in E. now rewrite E.
    + destruct (t =? 1)%Z; [|discriminate].
      eapply makeMAPPINGpayoff_keys; eauto.
Qed.

(** ** Exchanging two players *)

Lemma exchange_involutive p p' q : exchange p p' (exchange p p' q) = q.
Proof.
  unfold exchange.
  destruct (Nat.eqb_spec q p) as [->|H1].
  - destruct (Nat.eqb_spec p' p) as [->|H2]; auto.
    now rewrite Nat.eqb_refl.
  - destruct (Nat.eqb_spec q p') as [->|H2].
    + now rewrite Nat.eqb_refl.
    + destruct (Nat.eqb_spec q p); [congruence|].
      destruct (Nat.eqb_spec q p'); congruence.
Qed.

Lemma exchange_range n p p' q :
  p < n -> p' < n -> q < n -> exchange p p' q < n.
Proof.
  intros. unfold exchange.
  destruct (q =? p); auto. destruct (q =? p'); auto.
Qed.

Lemma exchange_perm n p p' :
  p < n -> p' < n -> Permutation (map (exchange p p') (seq 0 n)) (seq 0 n).
Proof.
  intros Hp Hp'. apply NoDup_Permutation.
  - apply Finite.Injective_map_NoDup; [|apply seq_NoDup].
    intros x y H. apply (f_equal (exchange p p')) in H.
    now rewrite !exchange_involutive in H.
  - apply seq_NoDup.
  - intros x. rewrite in_map_iff. split.
    + intros (y & <- & Hy). apply in_seq in Hy. apply in_seq.
      pose proof (@exchange_range n p p' y). lia.
    + intros Hx. apply in_seq in Hx. exists (exchange p p' x). split.
      * apply exchange_involutive.
      * apply in_seq. pose proof (@exchange_range n p p' x). lia.
Qed.

(* ================================================================== *)
(** * Pure payoffs and mixed payoffs *)

Lemma map_nth_tail (l : list nat) x :
  map (fun k => nth k (x :: l) 0) (seq 1 (length l)) = l.
Proof.
  rewrite <- seq_shift, map_map. simpl.
  rewrite map_nth_seq by auto. apply firstn_all.
Qed.

Lemma Forall2_map_same A B C (R : B -> C -> Prop) (f : A -> B) (g : A -> C) l :
  (forall x, In x l -> R (f x) (g x)) -> Forall2 R (map f l) (map g l).
Proof.
  induction l as [|x l IH]; intros H; simpl; constructor.
  - apply H. now left.
  - apply IH. intros; apply H; now right.
Qed.

Lemma nth_make_projS proj v q :
  nth q (nth v (make_projS proj) []) Trie.reset =
  support (nth q (nth v proj []) []).
Proof.
  unfold make_projS.
  change (@nil aggdistrib) with (map support []).
  rewrite map_nth.
  change (@Trie.reset AggNumber) with (support []).
  now rewrite map_nth.
Qed.

Section PureMixed.
Context {projtype : Type} {PF : ProjFunc projtype} {AC : @ProjFuncAC projtype PF}.
Local Abbreviation AGG := (@AGG projtype).

(** The fold of the contributions in the order that [initPorder] gives is
    their fold in the order of the players. *)
Lemma fold_order_indep arity (projF_v : list projtype) (c : nat -> config)
    N i (projS_v : list aggdistrib) :
  i < N ->
  fold_left
    (fun K k =>
       Trie.compose_key arity (composer projF_v) K
                        (c (nth k (initPorder i N projS_v) 0)))
    (seq 1 (N - 1)) (c i) =
  fold1 (Trie.compose_key arity (composer projF_v)) [] (map c (seq 0 N)).
Proof.
  intros Hi.
  pose proof (initPorder_perm projS_v Hi) as Hperm.
  assert (Hlen : length (tl (initPorder i N projS_v)) = N - 1).
  { apply Permutation_length in Hperm. rewrite length_seq in Hperm.
    unfold initPorder in *. simpl in *. lia. }
  rewrite <- (fold_left_map (Trie.compose_key arity (composer projF_v))
                            (fun k => c (nth k (initPorder i N projS_v) 0))).
  rewrite <- (map_map (fun k => nth k (initPorder i N projS_v) 0) c).
  rewrite <- Hlen.
  change (initPorder i N projS_v) with (i :: tl (initPorder i N projS_v)) at 1.
  rewrite map_nth_tail.
  change (fold_left (Trie.compose_key arity (composer projF_v))
                    (map c (tl (initPorder i N projS_v))) (c i))
    with (fold1 (Trie.compose_key arity (composer projF_v)) []
                (map c (i :: tl (initPorder i N projS_v)))).
  apply fold_keys_perm. apply Permutation_map. symmetry. exact Hperm.
Qed.

(** [getPurePayoff] looks up the fold of the contributions of the players,
    in their order. *)
Lemma getPurePayoff_fold (g : AGG) p sigma :
  0 < numPlayers g ->
  let v := nth (nth p sigma 0) (nth p (actionSets g) []) 0 in
  let K := fold1 (Trie.compose_key (length (nth v (neighbors g) []))
                                   (composer (nth v (projFunctions g) [])))
                 [] (map (contribution g v sigma) (seq 0 (numPlayers g))) in
  getPurePayoff g p sigma =
  match Trie.find K (nth v (payoffs g) []) with
  | None => Err (MissingConfig K v)
  | Some u => Ok u
  end.
Proof.
  intros Hn. cbv zeta. unfold getPurePayoff.
  destruct (numPlayers g) as [|m]; [lia|].
  cbn [seq map fold1]. rewrite fold_left_map.
  replace (S m - 1) with m by lia. reflexivity.
Qed.

(** The acceptance set of action [j] of player [i] holds the fold of any
    choice [c] of one contribution per player that has the contribution of
    the action for [i]. *)
Lemma accept_trie_in n size ASets proj (projF : list (list projtype)) i j
    (c : nat -> config) :
  i < n -> j < nth i size 0 ->
  let v := nth j (nth i ASets []) 0 in
  let own := nth j (nth i (nth v proj []) []) [] in
  (forall q, q < n -> In (c q) (nth q (nth v proj []) [])) ->
  c i = own ->
  In (fold_left
        (fun K k =>
           Trie.compose_key (length own) (composer (nth v projF [])) K
             (c (nth k (initPorder i n (nth v (make_projS proj) [])) 0)))
        (seq 1 (n - 1)) (c i))
     (Trie.keys (accept_trie n size ASets (make_projS proj) proj projF i j)).
Proof.
  intros Hi Hj v own Hc Hown. unfold accept_trie. fold v own.
  unfold Po_of. rewrite (nth_map_seq _ []) by auto. fold v.
  set (order := initPorder i n (nth v (make_projS proj) [])).
  rewrite <- (fold_left_map
                (Trie.compose_key (length own) (composer (nth v projF [])))
                (fun k => c (nth k order 0))).
  rewrite <- (fold_left_map
                (fun x t => Trie.multiply x t (length own)
                                          (composer (nth v projF [])))
                (fun k => nth (nth k order 0) (nth v (make_projS proj) [])
                              Trie.reset)).
  apply keys_chain_in.
  - apply Forall2_map_same. intros k Hk. apply in_seq in Hk.
    rewrite nth_make_projS. apply keys_support_in. apply Hc.
    unfold order. apply initPorder_range; auto. lia.
  - rewrite Hown. now left.
Qed.

Lemma make_proj_row_eq N numS AS neighb (projTypes : list projtype) an v q q' :
  v < numS -> q < N -> q' < N -> nth q AS [] = nth q' AS [] ->
  nth q (nth v (make_proj N numS AS neighb projTypes an) []) [] =
  nth q' (nth v (make_proj N numS AS neighb projTypes an) []) [].
Proof.
  intros Hv Hq Hq' E. unfold make_proj.
  rewrite (nth_map_seq _ []) by auto. cbv beta.
  rewrite !(nth_map_seq _ []) by auto.
  rewrite E. apply map_ext. intros j. apply map_ext. intros k.
  unfold proj_entry. now rewrite E.
Qed.

Lemma make_proj_row_length N numS AS neighb (projTypes : list projtype) an v q :
  v < numS -> q < N ->
  length (nth q (nth v (make_proj N numS AS neighb projTypes an) []) []) =
  length (nth q AS []).
Proof.
  intros Hv Hq. unfold make_proj.
  rewrite (nth_map_seq _ []) by auto. cbv beta.
  rewrite (nth_map_seq _ []) by auto.
  now rewrite length_map, length_seq.
Qed.

Lemma makeAGG_sorted (h : header) st (g : AGG) :
  makeAGG h st = Ok g ->
  forall i, i < numPlayers g ->
    sort Nat.leb (nth i (actionSets g) []) = nth i (actionSets g) [].
Proof.
  intros Hg.
  apply makeAGG_inv in Hg as (an & Po & P & pays0 & pays & _ & _ & _ & Hcs &
    cls & pure & _ & _ & ->).
  cbn [numPlayers actionSets]. intros i Hi.
  apply ctor_check_sorted_ok in Hcs.
  assert (Hs : forall i, i < h_n h -> Sorted le (nth i (h_ASets h) []))
    by (apply Forall_firstn_nth; [constructor | exact Hcs]).
  apply (sort_fixpoint Nat.leb nat_leb_total). apply Sorted_leb_le.
  now apply Hs.
Qed.

(** The payoff table of a node of a constructed game binds the
    configuration of every pure profile in which some player plays the
    node. *)
Lemma pure_key_accepted (h : header) st (g : AGG) :
  makeAGG h st = Ok g -> header_read h -> header_ranges h ->
  forall p sigma,
    p < numPlayers g -> pure_profile g sigma ->
    let v := nth (nth p sigma 0) (nth p (actionSets g) []) 0 in
    In (fold1 (Trie.compose_key (length (nth v (neighbors g) []))
                                (composer (nth v (projFunctions g) [])))
              [] (map (contribution g v sigma) (seq 0 (numPlayers g))))
       (Trie.keys (nth v (payoffs g) [])).
Proof.
  intros Hg Hread Hrange p sigma Hp (Hlen & Hsig).
  pose proof (@makeAGG_game_ok _ _ h st g Hg Hread Hrange) as Hok.
  pose proof (@makeAGG_sorted h st g Hg) as Hsorted.
  assert (Hact : forall i, i < numPlayers g ->
            nth i sigma 0 < length (nth i (actionSets g) [])).
  { intros i Hi. rewrite <- (ok_actions Hok) by auto. now apply Hsig. }
  assert (Hnodes := ok_nodes Hok).
  clear Hok Hsig.
  apply makeAGG_inv in Hg as (an & Po & P & pays0 & pays & _ & Hsp & Hrp & _ &
    cls & pure & _ & _ & ->).
  unfold contribution.
  cbn [numPlayers actionSets neighbors projFunctions payoffs projection
       numActionNodes] in *.
  cbv zeta.
  set (v := nth (nth p sigma 0) (nth p (h_ASets h) []) 0) in *.
  set (proj := make_proj (h_n h) (h_S h) (h_ASets h) (h_neighb h)
                         (h_projTypes h) an) in *.
  set (projF := make_projF (h_S h) (h_neighb h) (h_projTypes h)) in *.
  assert (Hv : v < h_S h) by (apply Hnodes; auto).
  (* a player of the same action set whose configurations were accepted *)
  assert (Hn : 0 < h_n h) by lia.
  destruct (@setup_players_accept _ _ (h_n h) (h_size h) (h_ASets h)
              (make_projS proj) proj projF Hn (seq 0 (h_n h))
              (repeat [] (h_n h)) [] (repeat Trie.reset (h_n h))
              (repeat Trie.reset (h_S h))) as (_ & Hcov).
  { apply repeat_length. }
  { apply repeat_length. }
  { intros i Hi. apply in_seq in Hi. lia. }
  { intros i j Hi Hj. rewrite repeat_length.
    apply (hr_actions Hrange); auto.
    rewrite (hr_size Hread) in Hj.
    rewrite (nth_indep _ 0 (length (@nil nat))) in Hj
      by (rewrite length_map, (hr_ASets Hread); auto).
    now rewrite map_nth in Hj. }
  { intros d []. }
  rewrite Hsp in Hcov. cbn [snd] in Hcov.
  destruct (Hcov p) as (p' & Hp' & Eset & Hacc); [apply in_seq; lia|].
  rewrite !Hsorted in Eset by auto.
  assert (Esize : nth p' (h_size h) 0 = length (nth p (h_ASets h) [])).
  { rewrite (hr_size Hread).
    rewrite (nth_indep _ 0 (length (@nil nat)))
      by (rewrite length_map, (hr_ASets Hread); auto).
    now rewrite map_nth, Eset. }
  (* the contributions, with the choices of [p] and [p'] exchanged *)
  set (c := fun q => nth (nth q sigma 0) (nth q (nth v proj []) []) []).
  set (c' := fun q => nth (nth (exchange p p' q) sigma 0)
                          (nth q (nth v proj []) []) []).
  assert (Eex : forall q, q < h_n h ->
            nth (exchange p p' q) (h_ASets h) [] = nth q (h_ASets h) []).
  { intros q Hq. unfold exchange.
    destruct (Nat.eqb_spec q p) as [->|]; auto.
    destruct (Nat.eqb_spec q p') as [->|]; auto. }
  assert (Ec : forall q, q < h_n h -> c' q = c (exchange p p' q)).
  { intros q Hq. unfold c, c'. f_equal.
    apply make_proj_row_eq; auto.
    - now apply exchange_range.
    - now rewrite Eex. }
  assert (Hin := @accept_trie_in (h_n h) (h_size h) (h_ASets h) proj projF
                   p' (nth p sigma 0) c').
  cbv zeta in Hin. rewrite Eset in Hin. fold v in Hin.
  specialize (Hin Hp').
  rewrite Esize in Hin. specialize (Hin (Hact p Hp)).
  assert (Hown : c' p' = nth (nth p sigma 0) (nth p' (nth v proj []) []) []).
  { unfold c'. f_equal. f_equal. unfold exchange.
    destruct (Nat.eqb_spec p' p) as [->|]; auto. now rewrite Nat.eqb_refl. }
  assert (Hc' : forall q, q < h_n h -> In (c' q) (nth q (nth v proj []) [])).
  { intros q Hq. unfold c', proj. apply nth_In.
    rewrite make_proj_row_length by auto.
    rewrite <- (Eex q Hq). apply Hact. now apply exchange_range. }
  specialize (Hin Hc' Hown).
  rewrite fold_order_indep in Hin by auto.
  (* the acceptance set is kept by the table that is read *)
  pose proof (@read_payoffs_keys _ _ _ _ _ _ Hrp) as Hgrow. apply Hgrow.
  assert (Ev : nth (nth p sigma 0) (nth p' (h_ASets h) []) 0 = v)
    by now rewrite Eset.
  unfold accepted in Hacc. specialize (Hacc (nth p sigma 0)).
  rewrite Ev in Hacc. apply Hacc; [rewrite Esize; auto|].
  replace (length (nth (nth p sigma 0) (nth p' (nth v proj []) []) []))
    with (length (nth v (h_neighb h) [])) in Hin.
  2:{ unfold proj. rewrite make_proj_nth_action; auto.
      - now rewrite length_map, length_seq.
      - rewrite Eset. auto. }
  replace (fold1 _ [] (map c (seq 0 (h_n h))))
    with (fold1 (Trie.compose_key (length (nth v (h_neighb h) []))
                                  (composer (nth v projF [])))
                [] (map c' (seq 0 (h_n h)))); [exact Hin|].
  apply fold_keys_perm.
  rewrite (@map_ext_in _ _ c' (fun q => c (exchange p p' q))).
  - rewrite <- map_map. apply Permutation_map. now apply exchange_perm.
  - intros q Hq. apply in_seq in Hq. apply Ec. lia.
Qed.

(** C1.  In a constructed game whose composers are associative and
    commutative, the expected payoff of player [p] under the mixed profile
    that plays the pure profile [sigma] with probability 1 is the pure
    payoff of [p] under [sigma]: [getPurePayoff] returns it and
    [getMixedPayoff] returns it. *)
Theorem pure_payoff_of_indicator (h : header) st (g : AGG) :
  makeAGG h st = Ok g -> header_read h -> header_ranges h ->
  forall p sigma,
    p < numPlayers g -> pure_profile g sigma ->
    exists u g',
      getPurePayoff g p sigma = Ok u /\
      getMixedPayoff g p (indicator g sigma) = Ok (u, g').
Proof.
  intros Hg Hread Hrange p sigma Hp Hsigma.
  pose proof (@makeAGG_game_ok _ _ h st g Hg Hread Hrange) as Hok.
  destruct (@makeAGG_offsets _ _ h st g Hg Hread) as (Hlen & Hoff).
  pose proof (@pure_key_accepted h st g Hg Hread Hrange p sigma Hp Hsigma)
    as Hkey.
  cbv zeta in Hkey.
  set (a := nth p sigma 0) in *.
  set (v := nth a (nth p (actionSets g) []) 0) in *.
  assert (Ha : a < length (nth p (actionSets g) [])).
  { rewrite <- (ok_actions Hok) by auto. now apply Hsigma. }
  apply find_in_keys in Hkey.
  destruct (Trie.find _ (nth v (payoffs g) [])) as [u|] eqn:Efind;
    [clear Hkey | congruence].
  destruct (@getMixedPayoff_ok _ _ g p (indicator g sigma) Hok Hp)
    as (g' & Hmix & _).
  exists u, g'. split.
  - rewrite getPurePayoff_fold by lia. cbv zeta. fold a v.
    now rewrite Efind.
  - rewrite Hmix. f_equal. f_equal.
    rewrite (@mixed_sum_indicator _ _ g sigma Hlen Hoff Hsigma p Hp).
    rewrite (@getV_value_indicator _ _ g sigma Hlen Hoff Hsigma p Hok Hp).
    fold a v.
    rewrite (@makeAGG_Porder _ _ h st g Hg Hread p a Hp Ha). fold v.
    rewrite fold_order_indep by auto.
    unfold payoff_at. now rewrite Efind.
Qed.

End PureMixed.

(* ================================================================== *)
(** * The properties on the concrete games *)

Lemma hA_read : header_read hA.
Proof. constructor; reflexivity. Qed.

Lemma hB_read : header_read hB.
Proof. constructor; reflexivity. Qed.

Ltac index_cases i j Hj :=
  do 5 (try (destruct i as [|i];
             [do 5 (try (destruct j as [|j]; [simpl; lia|]));
              simpl in Hj; lia|]));
  simpl in *; lia.

Lemma hA_ranges : header_ranges hA.
Proof. constructor; simpl; intros i j Hi Hj; index_cases i j Hj. Qed.

Lemma hB_ranges : header_ranges hB.
Proof. constructor; simpl; intros i j Hi Hj; index_cases i j Hj. Qed.

Lemma gA_built : makeAGG hA sA = Ok gA.
Proof. vm_compute. reflexivity. Qed.

Lemma gB_built : makeAGG hB sB = Ok gB.
Proof. vm_compute. reflexivity. Qed.

(** Node 0 of scenario B sees function node 2, an ancestor of which is the
    node of action 1 of player 2. *)
Lemma projection_entry_spec_witness :
  let nb := nth 0 (nth 0 (neighbors gB) []) 0 in
  let act := nth 1 (nth 2 (actionSets gB) []) 0 in
  let e := nth 0 (nth 1 (nth 2 (nth 0 (projection gB) []) []) []) 0%Z in
  (act = nb -> e = 1%Z) /\
  (act <> nb -> numActionNodes gB <= nb ->
   exists anc routes,
     getAn [] (neighbors gB) (projectionTypes gB) (numActionNodes gB) nb []
     = Ok anc /\
     NoDup routes /\
     (forall ks, In ks routes <->
                 route_end (neighbors gB) (numActionNodes gB) nb ks =
                 Some act) /\
     filter (Nat.eqb act) anc = repeat act (length routes) /\
     e = pf_apply (nth (nb - numActionNodes gB) (projectionTypes gB)
                       proj_func_SUM)
                  (repeat act (length routes))) /\
  (act <> nb -> nb < numActionNodes gB -> e = 0%Z).
Proof.
  apply (@projection_entry_spec _ _ hB sB gB gB_built hB_read hB_ranges
           0 2 1 0); vm_compute; lia.
Defined.

(** Scenario D of the spec: two function nodes that see each other. *)
Lemma getAn_cycle_error_witness :
  let neighb := [[]; []; [3]; [2]] in
  let r := getAn [] neighb [P_SUM; P_SUM] 2 2 [] in
  r <> Err OutOfFuel /\
  (forall c, reach neighb 2 2 c -> on_cycle neighb 2 c ->
     (exists n, r = Err (CycleAt n) /\ on_cycle neighb 2 n) \/
     (exists x y, r = Err (TypeMismatch x y) /\ reach neighb 2 2 x /\
                  In y (nth x neighb []) /\
                  type_mismatch [P_SUM; P_SUM] 2 x y = true)) /\
  ((forall c, reach neighb 2 2 c -> ~ on_cycle neighb 2 c) ->
     (exists d, r = Ok d) \/
     (exists x y, r = Err (TypeMismatch x y) /\ reach neighb 2 2 x /\
                  In y (nth x neighb []) /\
                  type_mismatch [P_SUM; P_SUM] 2 x y = true)).
Proof.
  apply (@getAn_cycle_error _ _ [[]; []; [3]; [2]] [P_SUM; P_SUM] 2 [] 2).
  lia.
Defined.

Lemma cyc_no_edge_from_4 y : ~ fedge cyc_neighb 1 4 y.
Proof. intros (_ & _ & []). Qed.

Lemma cyc_edge_from_2 y : fedge cyc_neighb 1 2 y -> y = 4.
Proof. intros (_ & _ & [<-|[]]). reflexivity. Qed.

(** The claim of C6 fails on [cyc_neighb]: the cycle of node 3 is reached
    from node 1, and the error that [getAn] throws names the nodes 2 and 4,
    neither of which lies on a cycle. *)
Lemma getAn_cycle_counterexample :
  reach cyc_neighb 1 1 3 /\ on_cycle cyc_neighb 1 3 /\
  getAn [] cyc_neighb cyc_types 1 1 [] = Err (TypeMismatch 2 4) /\
  ~ on_cycle cyc_neighb 1 2 /\ ~ on_cycle cyc_neighb 1 4.
Proof.
  assert (E13 : fedge cyc_neighb 1 1 3).
  { unfold fedge; simpl. split; [lia|]. split; [lia|]. auto. }
  assert (E33 : fedge cyc_neighb 1 3 3).
  { unfold fedge; simpl. split; [lia|]. split; [lia|]. auto. }
  split; [now apply rt_step|]. split; [now apply t_step|].
  split; [reflexivity|].
  assert (H4 : forall z, ~ clos_trans_1n nat (fedge cyc_neighb 1) 4 z).
  { intros z H. inversion H as [? He|? ? He _]; now apply cyc_no_edge_from_4 in He. }
  split; intros H; apply clos_trans_t1n in H.
  - inversion H as [? He|y ? He Hy]; apply cyc_edge_from_2 in He;
      [discriminate|]. subst y. now apply H4 in Hy.
  - now apply H4 in H.
Qed.

(** The claim of C7 fails on [hRepeat]: the action list of player 0 is not
    strictly ascending, and the game is constructed. *)
Lemma AGG_new_repeated_action_counterexample :
  ~ Sorted lt (nth 0 (h_ASets hRepeat) []) /\
  exists g, makeAGG hRepeat sRepeat = Ok g.
Proof.
  split.
  - simpl. intros H. inversion H as [|? ? _ Hhd]; subst.
    inversion Hhd; subst. lia.
  - eexists. vm_compute. reflexivity.
Qed.

(** The claim of C4 fails on a table that lists the key [7], which the
    acceptance set [{[1]}] does not hold: the table is accepted. *)
Lemma makeMAPPINGpayoff_unexpected_key_counterexample :
  let temp : aggpayoff := [([1%Z], 1%Qc)] in
  let entries := [([1%Z], Q2Qc 3); ([7%Z], Q2Qc 4)] in
  ~ In [7%Z] (Trie.keys temp) /\
  exists pay, makeMAPPINGpayoff (encode_mapping entries) temp 1 = Ok (pay, []) /\
              Trie.find [7%Z] pay = Some (Q2Qc 4).
Proof.
  split.
  - simpl. intros [H|[]]. discriminate.
  - eexists. split; vm_compute; reflexivity.
Qed.

Lemma makeMAPPINGpayoff_spec_witness :
  let temp : aggpayoff := [([1%Z], 1%Qc)] in
  let entries := [([1%Z], Q2Qc 3); ([7%Z], Q2Qc 4)] in
  let r := makeMAPPINGpayoff (encode_mapping entries ++ [LInt 1]) temp 1 in
  ((exists pay, r = Ok (pay, [LInt 1])) <->
     NoDup (map fst entries) /\ incl (Trie.keys temp) (map fst entries)) /\
  (forall pay s', r = Ok (pay, s') ->
     s' = [LInt 1] /\
     Permutation (Trie.keys pay) (map fst entries) /\
     (forall k u, In (k, u) entries -> Trie.find k pay = Some u)) /\
  (forall e, r = Err e ->
     (exists k, e = Overwriting k /\ In k (map fst entries) /\
                ~ NoDup (map fst entries)) \/
     (exists k, e = NotSpecified k /\ In k (Trie.keys temp) /\
                ~ In k (map fst entries))).
Proof.
  apply (@makeMAPPINGpayoff_spec [([1%Z], 1%Qc)] 1
           [([1%Z], Q2Qc 3); ([7%Z], Q2Qc 4)] [LInt 1]).
  intros kv [<-|[<-|[]]]; reflexivity.
Defined.

(** [Porder[1][0]] of scenario B, a game of three players. *)
Lemma Porder_spec_witness :
  let v := nth 0 (nth 1 (actionSets gB) []) 0 in
  let sz q := Trie.size (nth q (nth v (projectedStrat gB) []) Trie.reset) in
  exists rest,
    nth 0 (nth 1 (Porder gB) []) [] = 1 :: rest /\
    Permutation (seq 0 (numPlayers gB)) (1 :: rest) /\
    StronglySorted (fun q q' => sz q <= sz q') rest.
Proof.
  apply (@Porder_spec _ _ hB sB gB gB_built hB_read 1 0); vm_compute; lia.
Defined.

(** Player 1 of scenario A mixes its two actions evenly at node 0. *)
Lemma doProjection_total_weight_witness :
  let s := [Q2Qc (1 # 2); Q2Qc (1 # 2)] in
  let g' := doProjection_player gA 0 1 s in
  let mass := Qcsum (map (fun a => nth a s 0%Qc)
                         (seq 0 (nth 1 (actions gA) 0))) in
  Trie.total (nth 1 (nth 0 (projectedStrat g') []) Trie.reset) = mass /\
  (mass = 1%Qc ->
   Trie.total (nth 1 (nth 0 (projectedStrat g') []) Trie.reset) = 1%Qc).
Proof.
  apply (@doProjection_total_weight _ gA 0 1 [Q2Qc (1 # 2); Q2Qc (1 # 2)]).
  - vm_compute; lia.
  - vm_compute; lia.
  - intros a Ha. vm_compute in Ha.
    destruct a as [|[|a]]; [discriminate | discriminate | lia].
Defined.

#[export] Instance scenario_ProjFuncAC : @ProjFuncAC scenario_proj _.
Proof.
  constructor.
  - intros [] a b c; simpl; [lia|].
    destruct (Z.eqb_spec a 0), (Z.eqb_spec b 0), (Z.eqb_spec c 0);
      reflexivity.
  - intros [] a b; simpl; [lia|].
    destruct (Z.eqb_spec a 0), (Z.eqb_spec b 0); reflexivity.
Qed.

(** Scenario B: players 0 and 2 play action 0 and player 1 plays
    action 1. *)
Lemma pure_payoff_of_indicator_witness :
  exists u g',
    getPurePayoff gB 0 [0; 1; 0] = Ok u /\
    getMixedPayoff gB 0 (indicator gB [0; 1; 0]) = Ok (u, g').
Proof.
  apply (@pure_payoff_of_indicator _ _ scenario_ProjFuncAC hB sB gB gB_built
           hB_read hB_ranges 0 [0; 1; 0]).
  - vm_compute; lia.
  - split; [reflexivity|]. intros i Hi. vm_compute in Hi.
    destruct i as [|[|[|i]]]; vm_compute; lia.
Defined.

(** Scenario A: both players mix their two actions evenly. *)
Lemma getMixedPayoff_weighted_sum_witness :
  let s := [half; half; half; half] in
  exists (V : nat -> AggNumber) g',
    (forall a, a < nth 0 (actions gA) 0 ->
               exists g_a, getV gA 0 a s = Ok (V a, g_a)) /\
    getMixedPayoff gA 0 s =
    Ok (Qcsum (map (fun a => (nth (a + firstAction gA 0) s 0 * V a)%Qc)
                   (seq 0 (nth 0 (actions gA) 0))), g').
Proof.
  apply (@getMixedPayoff_weighted_sum _ _ hA sA gA gA_built hA_read hA_ranges
           0 [half; half; half; half]).
  - vm_compute; lia.
  - reflexivity.
  - intros a Ha. vm_compute in Ha.
    destruct a as [|[|a]]; [vm_compute; discriminate .. | lia].
Defined.

(** C10: [getMaxPayoff] and [getMinPayoff] read one binding of the table of
    action node 0, the first in key order.  On the game of [hMax] the
    payoffs 5 and -5 of node 0 are bound at later keys: the maximum and the
    minimum that the functions return are both 0. *)
Theorem getMaxPayoff_misses_node0 :
  exists g,
    makeAGG hMax sMax = Ok g /\
    Trie.find [2; 2]%Z (nth 0 (payoffs g) []) = Some (Q2Qc 5) /\
    getMaxPayoff g = Some 0%Qc /\
    Trie.find [3; 1]%Z (nth 0 (payoffs g) []) = Some (Q2Qc (-5)) /\
    getMinPayoff g = Some 0%Qc.
Proof.
  eexists. split; [vm_compute; reflexivity|].
  repeat split; vm_compute; reflexivity.
Qed.

(* ================================================================== *)
(** * The ancestors that [getAn] collects *)

Section AncestorMembers.
Context {projtype : Type} {PF : ProjFunc projtype}.
Variable neighb : list (list nat).
Variable projTypes : list projtype.
Variable numS : nat.

Lemma getAn_loop_members call mm Node nbs (Q : nat -> nat -> Prop) :
  (forall dest nb d, In nb nbs -> call dest nb = Ok d ->
     exists an, d = an ++ dest /\ forall a, In a an <-> Q nb a) ->
  forall dest d, getAn_loop call mm Node nbs dest = Ok d ->
  exists an, d = an ++ dest /\
             forall a, In a an <-> exists nb, In nb nbs /\ Q nb a.
Proof.
  induction nbs as [|nb nbs IH]; intros Hcall dest d H; simpl in H.
  - inversion H; subst. exists []. split; [reflexivity|].
    intros a; split; [intros [] | intros (nb & [] & _)].
  - destruct (mm nb); [discriminate|].
    destruct (call dest nb) as [d1|e] eqn:E; [|discriminate].
    destruct (Hcall dest nb d1 (or_introl eq_refl) E) as (an1 & -> & H1).
    destruct (IH (fun dest nb' d Hin => Hcall dest nb' d (or_intror Hin))
                 _ _ H) as (an2 & -> & H2).
    exists (an2 ++ an1). split; [now rewrite app_assoc|].
    intros a. rewrite in_app_iff, H1, H2. split.
    + intros [(nb' & Hin & HQ) | HQ].
      * exists nb'. split; [now right | exact HQ].
      * exists nb. split; [now left | exact HQ].
    + intros (nb' & [<- | Hin] & HQ); [now right | left; eauto].
Qed.

Lemma ancestor_step Node a :
  numS <= Node ->
  (ancestor neighb numS Node a <->
   exists nb, In nb (nth Node neighb []) /\ ancestor neighb numS nb a).
Proof.
  intros HN. split.
  - intros (Ha & [-> | (_ & f & Hreach & Hin)]); [lia|].
    apply clos_rt_rt1n in Hreach.
    destruct Hreach as [|y z (_ & Hy & Hin') Hrest].
    + exists a. split; [exact Hin|]. split; [exact Ha | now left].
    + exists y. split; [exact Hin'|]. split; [exact Ha|].
      right. split; [exact Hy|]. exists z. split; [|exact Hin].
      now apply clos_rt1n_rt.
  - intros (nb & Hin & Ha & [-> | (Hnb & f & Hreach & Hin')]).
    + split; [exact Ha|]. right. split; [exact HN|].
      exists Node. split; [apply rt_refl | exact Hin].
    + split; [exact Ha|]. right. split; [exact HN|].
      exists f. split; [|exact Hin'].
      eapply rt_trans; [apply rt_step; repeat split; eassumption | exact Hreach].
Qed.

Lemma getAn_rec_members : forall fuel dest Node path d,
  getAn_rec fuel dest neighb projTypes numS Node path = Ok d ->
  exists an, d = an ++ dest /\
             forall a, In a an <-> ancestor neighb numS Node a.
Proof.
  induction fuel as [|fuel IH]; intros dest Node path d H; [discriminate|].
  cbn [getAn_rec] in H.
  destruct (Node <? numS) eqn:E.
  - apply Nat.ltb_lt in E. inversion H; subst.
    exists [Node]. split; [reflexivity|].
    intros a. simpl. split.
    + intros [<- | []]. split; [exact E | now left].
    + intros (_ & [-> | (Hle & _)]); [now left | lia].
  - apply Nat.ltb_ge in E.
    destruct (existsb (Nat.eqb Node) path); [discriminate|].
    apply getAn_loop_members with (Q := ancestor neighb numS) in H.
    + destruct H as (an & -> & Han). exists an. split; [reflexivity|].
      intros a. rewrite Han. symmetry. now apply ancestor_step.
    + intros dest' nb d' _ Hcall. eapply IH. exact Hcall.
Qed.

(** X1.  What [getAn] adds to [dest] when it returns: the action nodes that
    are ancestors of [Node], and only those.  (It returns or throws: see
    [getAn_terminates].) *)
Theorem getAn_members dest Node d :
  getAn dest neighb projTypes numS Node [] = Ok d ->
  exists an, d = an ++ dest /\
             forall a, In a an <-> ancestor neighb numS Node a.
Proof. apply getAn_rec_members. Qed.

End AncestorMembers.

(* ================================================================== *)
(** * The shape of the projections *)

Lemma in_insert_fresh V (v : V) k m kw :
  In kw (fst (Trie.insert k v m)) -> kw = (k, v) \/ In kw m.
Proof.
  unfold Trie.insert. destruct (Trie.find k m) eqn:E; simpl; auto.
  revert E. induction m as [|[k0 v0] m IH]; simpl.
  - intros _ [<- | []]; auto.
  - destruct (Trie.cfg_eqb k k0) eqn:Eq; [discriminate|]. intros E.
    unfold Trie.cfg_eqb in Eq.
    destruct (Trie.cfg_compare k k0) eqn:C; try discriminate; simpl.
    + intros [<- | [<- | H]]; auto.
    + intros [<- | H]; auto. apply IH in H; tauto.
Qed.

Lemma NoDup_keys_insert V (v : V) k m :
  NoDup (Trie.keys m) -> NoDup (Trie.keys (fst (Trie.insert k v m))).
Proof.
  intros Hnd. unfold Trie.insert.
  destruct (Trie.find k m) eqn:E; simpl; auto.
  pose proof (@keys_alter_fresh _ (fun _ => v) k m E) as Hp.
  apply (Permutation_NoDup (Permutation_sym Hp)).
  constructor; auto. now apply find_none_keys.
Qed.

Lemma size_insert V (v : V) k m :
  Trie.size (fst (Trie.insert k v m)) <= S (Trie.size m).
Proof.
  unfold Trie.insert, Trie.size.
  destruct (Trie.find k m) eqn:E; simpl; [lia|].
  pose proof (@keys_alter_fresh _ (fun _ => v) k m E) as Hp.
  apply Permutation_length in Hp. unfold Trie.keys in Hp.
  cbn [length] in Hp. rewrite !length_map in Hp. lia.
Qed.

Lemma support_fold l : forall d,
  let d' := fold_left (fun d key => fst (Trie.insert key 1%Qc d)) l d in
  (forall k, In k (Trie.keys d') <-> In k l \/ In k (Trie.keys d)) /\
  (NoDup (Trie.keys d) -> NoDup (Trie.keys d')) /\
  (forall kw, In kw d' -> snd kw = 1%Qc \/ In kw d) /\
  Trie.size d' <= length l + Trie.size d.
Proof.
  induction l as [|k0 l IH]; intros d; cbn [fold_left].
  - cbv zeta.
    split; [intros k; simpl; tauto | split; [auto | split; [auto | simpl; lia]]].
  - cbv zeta. destruct (IH (fst (Trie.insert k0 1%Qc d))) as (H1 & H2 & H3 & H4).
    split; [|split; [|split]].
    + intros k. rewrite H1, keys_insert. simpl. intuition.
    + intros Hnd. apply H2. now apply NoDup_keys_insert.
    + intros kw Hkw. apply H3 in Hkw as [Hw | Hin]; auto.
      apply in_insert_fresh in Hin as [-> | Hin]; auto.
    + pose proof (size_insert 1%Qc k0 d). simpl. lia.
Qed.

Section ProjectionShape.
Context {projtype : Type} {PF : ProjFunc projtype}.

Lemma make_proj_shape N numS AS neighb (projTypes : list projtype) an :
  let proj := make_proj N numS AS neighb projTypes an in
  length proj = numS /\
  forall v, v < numS ->
    length (nth v proj []) = N /\
    forall i, i < N ->
      length (nth i (nth v proj []) []) = length (nth i AS []) /\
      forall j, j < length (nth i AS []) ->
        length (nth j (nth i (nth v proj []) []) []) =
        length (nth v neighb []).
Proof.
  cbv zeta. unfold make_proj. split.
  - now rewrite length_map, length_seq.
  - intros v Hv. rewrite (nth_map_seq _ []) by exact Hv. split.
    + now rewrite length_map, length_seq.
    + intros i Hi. rewrite (nth_map_seq _ []) by exact Hi. split.
      * now rewrite length_map, length_seq.
      * intros j Hj. rewrite (nth_map_seq _ []) by exact Hj.
        now rewrite length_map, length_seq.
Qed.

(** X2.  The dimensions of what [setProjections] returns: one row per
    action node and player in [projS] and [proj], one projection per action
    of the player, one entry per neighbour of the node. *)
Theorem setProjections_shape N numS P AS neighb (projTypes : list projtype)
    projS proj :
  setProjections N numS P AS neighb projTypes = Ok (projS, proj) ->
  length proj = numS /\ length projS = numS /\
  forall v, v < numS ->
    length (nth v proj []) = N /\ length (nth v projS []) = N /\
    forall i, i < N ->
      length (nth i (nth v proj []) []) = length (nth i AS []) /\
      forall j, j < length (nth i AS []) ->
        length (nth j (nth i (nth v proj []) []) []) =
        length (nth v neighb []).
Proof.
  unfold setProjections.
  destruct (getAn_all neighb projTypes numS (seq 0 P)) as [an|e];
    cbn [rbind]; [|discriminate].
  intros H. inversion H; subst. clear H.
  destruct (make_proj_shape N numS AS neighb projTypes an) as (Hlen & Hrows).
  destruct (make_projS_dims N numS AS neighb projTypes an) as (HlenS & HrowsS).
  split; [exact Hlen|]. split; [exact HlenS|].
  intros v Hv. destruct (Hrows v Hv) as (Hn & Hacts).
  split; [exact Hn|]. split; [now apply HrowsS | exact Hacts].
Qed.

(** X3.  The support [projS[Node][i]] that [setProjections] returns binds
    the projections of the actions of player [i] at [Node], each once and
    with weight 1. *)
Theorem setProjections_support N numS P AS neighb (projTypes : list projtype)
    projS proj :
  setProjections N numS P AS neighb projTypes = Ok (projS, proj) ->
  forall v i, v < numS -> i < N ->
    let d := nth i (nth v projS []) Trie.reset in
    (forall k, In k (Trie.keys d) <-> In k (nth i (nth v proj []) [])) /\
    NoDup (Trie.keys d) /\
    (forall k w, In (k, w) d -> w = 1%Qc) /\
    Trie.size d <= length (nth i AS []).
Proof.
  intros H v i Hv Hi.
  destruct (setProjections_shape _ _ _ _ _ _ H) as (_ & _ & Hshape).
  destruct (Hshape v Hv) as (_ & _ & Hrow). destruct (Hrow i Hi) as (Hlen & _).
  unfold setProjections in H.
  destruct (getAn_all neighb projTypes numS (seq 0 P)) as [an|e];
    cbn [rbind] in H; [|discriminate].
  inversion H; subst. clear H. cbv zeta.
  rewrite nth_make_projS. unfold support.
  destruct (support_fold
              (nth i (nth v (make_proj N numS AS neighb projTypes an) []) [])
              Trie.reset) as (H1 & H2 & H3 & H4).
  cbv zeta in H1, H2, H3, H4.
  split; [|split; [|split]].
  - intros k. rewrite H1. simpl. tauto.
  - apply H2. constructor.
  - intros k w Hin. apply H3 in Hin as [Hw | []]. exact Hw.
  - rewrite Hlen in H4. simpl in H4. lia.
Qed.
Lemma getAn_all_result neighb (projTypes : list projtype) numS fns :
  match getAn_all neighb projTypes numS fns with
  | Ok an => forall k, k < length fns ->
               getAn [] neighb projTypes numS (numS + nth k fns 0) [] =
               Ok (nth k an [])
  | Err e => exists k, k < length fns /\
               getAn [] neighb projTypes numS (numS + nth k fns 0) [] = Err e /\
               forall k', k' < k -> exists a,
                 getAn [] neighb projTypes numS (numS + nth k' fns 0) [] = Ok a
  end.
Proof.
  induction fns as [|i fns IH]; cbn [getAn_all].
  - intros k Hk. simpl in Hk. lia.
  - destruct (getAn [] neighb projTypes numS (numS + i) []) as [a|e] eqn:E;
      cbn [rbind].
    + destruct (getAn_all neighb projTypes numS fns) as [an|e]; cbn [rbind].
      * intros [|k] Hk; [exact E|]. apply IH. simpl in Hk. lia.
      * destruct IH as (k & Hk & Hek & Hbefore).
        exists (S k). split; [simpl; lia|]. split; [exact Hek|].
        intros [|k'] Hk'; [now exists a|]. apply Hbefore. lia.
    + exists 0. split; [simpl; lia|]. split; [exact E|].
      intros k' Hk'. lia.
Qed.

(** X24.  [setProjections] throws only what an ancestor walk throws: the
    error of the first function node whose walk fails; when it returns,
    the walk of every function node has returned. *)
Theorem setProjections_errors N numS P AS neighb (projTypes : list projtype) :
  let walk i := getAn [] neighb projTypes numS (numS + i) [] in
  match setProjections N numS P AS neighb projTypes with
  | Ok _ => forall i, i < P -> exists a, walk i = Ok a
  | Err e => e <> OutOfFuel /\
             exists i, i < P /\ walk i = Err e /\
                       forall i', i' < i -> exists a, walk i' = Ok a
  end.
Proof.
  cbv zeta. unfold setProjections.
  pose proof (getAn_all_result neighb projTypes numS (seq 0 P)) as H.
  destruct (getAn_all neighb projTypes numS (seq 0 P)) as [an|e]; cbn [rbind].
  - intros i Hi. exists (nth i an []).
    specialize (H i). rewrite length_seq, seq_nth in H by exact Hi.
    now apply H.
  - destruct H as (k & Hk & Hek & Hbefore). rewrite length_seq in Hk.
    rewrite seq_nth in Hek by exact Hk. split.
    + intros ->. now apply getAn_terminates in Hek.
    + exists k. split; [exact Hk|]. split; [exact Hek|].
      intros i' Hi'. destruct (Hbefore i' Hi') as (a & Ha).
      rewrite seq_nth in Ha by lia. now exists a.
Qed.
End ProjectionShape.

(* ================================================================== *)
(** * The order of the players and the offsets of their strategies *)

Lemma StronglySorted_strict A (R : A -> A -> Prop) l :
  StronglySorted R l -> NoDup l ->
  StronglySorted (fun x y => R x y /\ x <> y) l.
Proof.
  induction 1 as [|x l Hs IH Hall]; intros Hnd; constructor.
  - apply IH. now inversion Hnd.
  - inversion Hnd as [|? ? Hx _]; subst.
    rewrite Forall_forall in *. intros y Hy. split; [now apply Hall|].
    intros ->. contradiction.
Qed.

Lemma initPorder_ties i N (projS : list aggdistrib) :
  let sz q := Trie.size (nth q projS Trie.reset) in
  StronglySorted (fun q q' => sz q < sz q' \/ (sz q = sz q' /\ q < q'))
                 (tl (initPorder i N projS)).
Proof.
  cbv zeta. unfold initPorder. simpl.
  set (order := map _ (filter _ _)).
  assert (Hperm : Permutation order (sort pair_leb order))
    by apply sort_perm.
  assert (Hsorted : StronglySorted (fun x y => pair_leb x y = true)
                                   (sort pair_leb order)).
  { apply Sorted_StronglySorted.
    - intros x y z. apply pair_leb_trans.
    - apply sort_sorted. apply pair_leb_total. }
  assert (Hnd : NoDup (sort pair_leb order)).
  { apply (Permutation_NoDup Hperm). unfold order.
    apply Finite.Injective_map_NoDup.
    - intros x y E. now inversion E.
    - apply NoDup_filter, seq_NoDup. }
  assert (Hshape : forall x, In x (sort pair_leb order) ->
            fst x = Trie.size (nth (snd x) projS Trie.reset)).
  { intros x Hx. apply (Permutation_in _ (Permutation_sym Hperm)) in Hx.
    unfold order in Hx. apply in_map_iff in Hx as (k & <- & _). reflexivity. }
  eapply StronglySorted_map_in;
    [exact (StronglySorted_strict Hsorted Hnd)|].
  intros [sx x] [sy y] Hx Hy (Hxy & Hne). cbv beta.
  apply Hshape in Hx. apply Hshape in Hy. simpl in Hx, Hy. subst sx sy. simpl.
  unfold pair_leb in Hxy. simpl in Hxy.
  apply orb_true_iff in Hxy as [H | H].
  - left. now apply Nat.ltb_lt.
  - apply andb_true_iff in H as (H1 & H2).
    apply Nat.eqb_eq in H1. apply Nat.leb_le in H2.
    right. split; [exact H1|].
    assert (x <> y) by (intros ->; now apply Hne).
    lia.
Qed.

Lemma list_sum_firstn_S (l : list nat) : forall i,
  i < length l ->
  list_sum (firstn (S i) l) = list_sum (firstn i l) + nth i l 0.
Proof.
  induction l as [|x l IH]; intros i Hi; simpl in Hi; [lia|].
  destruct i as [|i]; [simpl; lia|].
  change (firstn (S (S i)) (x :: l)) with (x :: firstn (S i) l).
  change (firstn (S i) (x :: l)) with (x :: firstn i l).
  unfold list_sum in *. cbn [fold_right nth]. rewrite IH by lia. lia.
Qed.

Section OrderAndOffsets.
Context {projtype : Type} {PF : ProjFunc projtype}.

(** X4.  In a constructed game the players that follow [p] in
    [Porder[p][a]] are in strictly ascending order of the pairs (size of
    the support at the node, player): equal sizes are ordered by player
    index. *)
Theorem Porder_breaks_ties (h : header) s (g : @AGG projtype) :
  makeAGG h s = Ok g -> header_read h ->
  forall p a, p < numPlayers g -> a < length (nth p (actionSets g) []) ->
    let v := nth a (nth p (actionSets g) []) 0 in
    let sz q := Trie.size (nth q (nth v (projectedStrat g) []) Trie.reset) in
    StronglySorted (fun q q' => sz q < sz q' \/ (sz q = sz q' /\ q < q'))
                   (tl (nth a (nth p (Porder g) []) [])).
Proof.
  intros Hg Hread p a Hp Ha. cbv zeta.
  rewrite (makeAGG_Porder _ Hg Hread) by assumption.
  apply initPorder_ties.
Qed.

Lemma ctor_offsets_spec acts : forall off total maxA,
  let r := ctor_offsets acts off total maxA in
  length (fst (fst r)) = length acts /\
  snd (fst r) = total + list_sum acts /\
  maxA <= snd r /\ (forall a, In a acts -> a <= snd r) /\
  (snd r = maxA \/ In (snd r) acts).
Proof.
  induction acts as [|a acts IH]; intros off total maxA; cbv zeta.
  - simpl. split; [reflexivity|]. split; [lia|]. split; [lia|].
    split; [intros a []|now left].
  - cbn [ctor_offsets].
    specialize (IH (off + a) (total + a) (if maxA <? a then a else maxA)).
    cbv zeta in IH.
    destruct (ctor_offsets acts (off + a) (total + a)
                           (if maxA <? a then a else maxA))
      as [[offs total'] maxA'] eqn:E.
    cbn [fst snd] in *. destruct IH as (H1 & H2 & H3 & H4 & H5).
    assert (Hm : maxA <= (if maxA <? a then a else maxA) /\
                 a <= (if maxA <? a then a else maxA)).
    { destruct (maxA <? a) eqn:C;
        [apply Nat.ltb_lt in C | apply Nat.ltb_ge in C]; lia. }
    split; [simpl; lia|]. split; [simpl; lia|]. split; [lia|]. split.
    + intros x [<- | Hx]; [lia | now apply H4].
    + destruct H5 as [-> | H5]; [|right; now right].
      destruct (maxA <? a); [right; now left | now left].
Qed.

(** X5.  The first loop of the constructor: [actions] copies the first
    [numPlayers] entries of its argument, [strategyOffset] holds their
    prefix sums, and no player has more than [maxActions] actions. *)
Theorem AGG_new_offsets n _actions numANodes _numPNodes _actionSets neighb
    (projTypes : list projtype) projS proj projF Po P _payoffs g :
  AGG_new n _actions numANodes _numPNodes _actionSets neighb projTypes projS
          proj projF Po P _payoffs = Ok g ->
  n <= length _actions ->
  length (strategyOffset g) = n + 1 /\
  nth 0 (strategyOffset g) 0 = 0 /\
  (forall i, i < n ->
     nth i (actions g) 0 = nth i _actions 0 /\
     nth (S i) (strategyOffset g) 0 =
     nth i (strategyOffset g) 0 + nth i (actions g) 0 /\
     nth i (actions g) 0 <= maxActions g).
Proof.
  unfold AGG_new. intros H Hn. cbv zeta in H.
  pose proof (ctor_offsets_spec (firstn n _actions) 0 0 0) as Hspec.
  pose proof (fun i => @ctor_offsets_nth (firstn n _actions) 0 0 0 i) as Hnth.
  cbv zeta in Hspec.
  destruct (ctor_offsets (firstn n _actions) 0 0 0) as [[offs total] maxA].
  cbn [fst snd] in *.
  destruct (ctor_check_sorted 0 (firstn n _actionSets)); cbn [rbind] in H;
    [|discriminate].
  destruct (ctor_classes n _actionSets); cbn [rbind] in H; [|discriminate].
  destruct (AGG_isPure numANodes neighb); cbn [rbind] in H; [|discriminate].
  inversion H; subst g; clear H.
  cbn [strategyOffset actions totalActions maxActions].
  assert (Hlen : length (firstn n _actions) = n)
    by (rewrite length_firstn; lia).
  destruct Hspec as (H1 & H2 & _ & H4 & H5).
  split; [simpl; lia|]. split; [reflexivity|].
  intros i Hi. split; [now apply nth_firstn_lt|]. split.
  - rewrite (Hnth (S i)), (Hnth i) by lia.
    rewrite list_sum_firstn_S by lia. lia.
  - apply H4. apply nth_In. lia.
Qed.
End OrderAndOffsets.

(* ================================================================== *)
(** * The player classes *)

Lemma list_compare_eq a : forall b, list_compare a b = Eq -> a = b.
Proof.
  induction a as [|x a IH]; intros [|y b]; simpl; try discriminate; auto.
  destruct (Nat.compare_spec x y) as [E|E|E]; try discriminate.
  intros H. subst. f_equal. now apply IH.
Qed.

Lemma list_compare_refl a : list_compare a a = Eq.
Proof. induction a; simpl; auto. now rewrite Nat.compare_refl. Qed.

Lemma list_compare_antisym a : forall b,
  list_compare b a = CompOpp (list_compare a b).
Proof.
  induction a as [|x a IH]; intros [|y b]; simpl; auto.
  rewrite (Nat.compare_antisym x y).
  destruct (x ?= y); simpl; auto.
Qed.

Lemma list_compare_trans a : forall b c,
  list_compare a b = Lt -> list_compare b c = Lt -> list_compare a c = Lt.
Proof.
  induction a as [|x a IH]; intros [|y b] [|z c]; simpl; try discriminate; auto.
  destruct (Nat.compare_spec x y) as [Exy|Exy|Exy];
    destruct (Nat.compare_spec y z) as [Eyz|Eyz|Eyz];
    try discriminate; subst; intros H1 H2.
  - rewrite Nat.compare_refl. eapply IH; eassumption.
  - now apply Nat.compare_lt_iff in Eyz as ->.
  - now apply Nat.compare_lt_iff in Exy as ->.
  - assert (Exz : x < z) by lia. now apply Nat.compare_lt_iff in Exz as ->.
Qed.

Lemma class_leb_total x y : class_leb x y = true \/ class_leb y x = true.
Proof.
  unfold class_leb. rewrite (list_compare_antisym (fst x) (fst y)).
  destruct (list_compare (fst x) (fst y)); simpl; auto.
  rewrite !Nat.leb_le. lia.
Qed.

Lemma class_leb_trans x y z :
  class_leb x y = true -> class_leb y z = true -> class_leb x z = true.
Proof.
  unfold class_leb.
  destruct (list_compare (fst x) (fst y)) eqn:E1; try discriminate;
    destruct (list_compare (fst y) (fst z)) eqn:E2; try discriminate;
    intros H1 H2.
  - apply list_compare_eq in E1, E2. rewrite E1, E2, list_compare_refl.
    apply Nat.leb_le in H1, H2. apply Nat.leb_le. lia.
  - apply list_compare_eq in E1. now rewrite E1, E2.
  - apply list_compare_eq in E2. now rewrite <- E2, E1.
  - now rewrite (list_compare_trans _ _ _ E1 E2).
Qed.

Lemma class_leb_fst x y :
  class_leb x y = true -> list_compare (fst x) (fst y) <> Gt.
Proof. unfold class_leb. destruct (list_compare _ _); congruence. Qed.

Lemma StronglySorted_app_mid A (R : A -> A -> Prop) pre p suf :
  StronglySorted R (pre ++ p :: suf) ->
  StronglySorted R pre /\ forall x, In x pre -> R x p.
Proof.
  induction pre as [|y pre IH]; simpl; intros H.
  - split; [constructor | intros x []].
  - inversion H as [|? ? Hs Hall]; subst.
    destruct (IH Hs) as (H1 & H2). split.
    + constructor; auto. rewrite Forall_forall in *.
      intros x Hx. apply Hall. apply in_or_app. now left.
    + intros x [<- | Hx]; auto.
      rewrite Forall_forall in Hall. apply Hall.
      apply in_or_app. right. now left.
Qed.

Lemma StronglySorted_last A (R : A -> A -> Prop) l d x :
  StronglySorted R l -> In x l -> x = last l d \/ R x (last l d).
Proof.
  induction 1 as [|y l Hs IH Hall]; intros Hx; [destruct Hx|].
  destruct l as [|z l].
  - destruct Hx as [<- | []]. now left.
  - change (last (y :: z :: l) d) with (last (z :: l) d).
    destruct Hx as [<- | Hx]; [|now apply IH].
    right. rewrite Forall_forall in Hall. apply Hall.
    destruct (@exists_last _ (z :: l)) as (l' & a & E); [discriminate|].
    rewrite E, last_last. apply in_or_app. right. now left.
Qed.

Lemma last_nth A (l : list A) d : last l d = nth (length l - 1) l d.
Proof.
  induction l as [|x l IH]; [reflexivity|].
  destruct l as [|y l]; [reflexivity|].
  change (last (x :: y :: l) d) with (last (y :: l) d). rewrite IH.
  simpl. now rewrite Nat.sub_0_r.
Qed.

Lemma upd_last_app A (front : list A) cl x :
  upd (length (front ++ [cl]) - 1) x (front ++ [cl]) = front ++ [x].
Proof.
  rewrite length_app. simpl. replace (length front + 1 - 1) with (length front) by lia.
  induction front as [|y front IH]; simpl; auto. now rewrite IH.
Qed.

Section ClassesFacts.
Variable n : nat.
Variable actionSets : list (list nat).

Let A (i : nat) : list nat := sort Nat.leb (nth i actionSets []).
Let t := ctor_pairs n actionSets.

Lemma ctor_pairs_perm :
  Permutation (map (fun i => (A i, i)) (seq 0 n)) t.
Proof. unfold t, ctor_pairs. apply sort_perm. Qed.

Lemma ctor_pairs_sorted :
  StronglySorted (fun x y => class_leb x y = true) t.
Proof.
  apply Sorted_StronglySorted.
  - intros x y z. apply class_leb_trans.
  - apply sort_sorted. apply class_leb_total.
Qed.

Lemma ctor_pairs_in u q : In (u, q) t <-> q < n /\ u = A q.
Proof.
  split.
  - intros H. apply (Permutation_in _ (Permutation_sym ctor_pairs_perm)) in H.
    apply in_map_iff in H as (i & E & Hi). inversion E; subst.
    apply in_seq in Hi. split; [lia | reflexivity].
  - intros (Hq & ->). apply (Permutation_in _ ctor_pairs_perm).
    apply in_map_iff. exists q. split; [reflexivity | apply in_seq; lia].
Qed.

Lemma ctor_pairs_players : Permutation (map snd t) (seq 0 n).
Proof.
  rewrite <- ctor_pairs_perm, map_map. simpl. now rewrite map_id.
Qed.

Local Abbreviation classes_inv := (classes_inv n).

Lemma classes_inv_init u q :
  q < n -> 
  classes_inv [(u, q)]
    (mkClasses [u] [[q]] (upd q 0 (repeat 0 n)) (length u) [0; length u]).
Proof.
  intros Hq. constructor; cbn [uniqueActionSets playerClasses player2Class
                               numKSymActions kSymStrategyOffset].
  - simpl. lia.
  - reflexivity.
  - intros k q' Hk Hin. simpl in Hk. assert (k = 0) by lia. subst k.
    simpl in Hin. destruct Hin as [<- | []]. now left.
  - intros q' [<- | []]. simpl.
    rewrite nth_upd_same by (rewrite repeat_length; lia). simpl. auto.
  - reflexivity.
  - intros u' [<- | []]. exists q. now left.
  - repeat constructor.
  - rewrite upd_length. apply repeat_length.
  - simpl. repeat split; auto. intros k Hk. assert (k = 0) by lia. now subst.
Qed.

Lemma classes_inv_step pre p c :
  pre <> [] ->
  classes_inv pre c ->
  StronglySorted (fun x y => class_leb x y = true) (pre ++ [p]) ->
  snd p < n -> ~ In (snd p) (map snd pre) ->
  classes_inv (pre ++ [p]) (ctor_classes_step c p).
Proof.
  intros Hne Hinv Hsorted Hq Hfresh. destruct p as [u q]. cbn [fst snd] in *.
  destruct Hinv as [(Hlen & Hpos) Hcat Hmem Hp2c Hlast Hfrom Hsort Hplen Hoff].
  destruct (StronglySorted_app_mid _ _ _ Hsorted) as (Hpre & Hle).
  unfold ctor_classes_step. cbn [fst snd].
  destruct (list_eq_dec Nat.eq_dec u (last (uniqueActionSets c) [])) as [E|E];
    cbn [uniqueActionSets playerClasses player2Class numKSymActions
         kSymStrategyOffset].
  - (* the pair joins the last class *)
    set (L := length (playerClasses c) - 1).
    assert (HL : L < length (playerClasses c)) by (unfold L; lia).
    destruct (@exists_last _ (playerClasses c)) as (front & cl & Epcs).
    { intros E0. rewrite E0 in Hpos. simpl in Hpos. lia. }
    assert (HnL : nth L (playerClasses c) [] = cl).
    { unfold L. rewrite <- last_nth, Epcs. apply last_last. }
    assert (Hupd : upd L (nth L (playerClasses c) [] ++ [q]) (playerClasses c)
                   = front ++ [cl ++ [q]]).
    { rewrite HnL. unfold L. rewrite Epcs. apply upd_last_app. }
    constructor; cbn [uniqueActionSets playerClasses player2Class
                      numKSymActions kSymStrategyOffset];
      rewrite ?upd_length.
    + split; lia.
    + rewrite Hupd, map_app, <- Hcat, Epcs, !concat_app. simpl.
      now rewrite !app_nil_r, app_assoc.
    + intros k q' Hk Hin. apply in_or_app.
      destruct (Nat.eq_dec k L) as [->|Hk'].
      * rewrite nth_upd_same in Hin by exact HL.
        apply in_app_or in Hin as [Hin | [<- | []]].
        -- left. now apply Hmem.
        -- right. left. f_equal.
           rewrite E, last_nth, Hlen. reflexivity.
      * rewrite nth_upd_other in Hin by congruence. left. now apply Hmem.
    + intros q' Hq'. rewrite map_app in Hq'.
      apply in_app_or in Hq' as [Hq' | [<- | []]].
      * assert (q <> q') by (intros ->; contradiction).
        rewrite nth_upd_other by assumption.
        destruct (Hp2c q' Hq') as (H1 & H2). split; [exact H1|].
        destruct (Nat.eq_dec (nth q' (player2Class c) 0) L) as [El|Nl].
        -- rewrite El in *. rewrite nth_upd_same by exact HL.
           apply in_or_app. now left.
        -- rewrite nth_upd_other by congruence. exact H2.
      * cbn [snd]. rewrite nth_upd_same by lia. fold L. split; [exact HL|].
        rewrite nth_upd_same by exact HL. apply in_or_app. right. now left.
    + rewrite last_last. cbn [fst]. now rewrite <- E.
    + intros u' Hu'. destruct (Hfrom u' Hu') as (q' & Hq').
      exists q'. apply in_or_app. now left.
    + exact Hsort.
    + exact Hplen.
    + exact Hoff.
  - (* the pair opens a class *)
    assert (Hlt : forall a, In a (uniqueActionSets c) -> list_compare a u = Lt).
    { intros a Ha. destruct (Hfrom a Ha) as (q' & Hq').
      pose proof (class_leb_fst _ _ (Hle _ Hq')) as Hau. cbn [fst] in Hau.
      destruct (list_compare a u) eqn:C; [|reflexivity|congruence].
      apply list_compare_eq in C. subst a. exfalso.
      assert (Hlp : In (last pre ([], 0)) pre).
      { destruct (@exists_last _ pre Hne) as (l' & x & ->).
        rewrite last_last. apply in_or_app. right. now left. }
      pose proof (class_leb_fst _ _ (Hle _ Hlp)) as Hlu. cbn [fst] in Hlu.
      rewrite <- Hlast in Hlu.
      destruct (@StronglySorted_last _ _ pre ([], 0) (u, q') Hpre Hq') as [El | Hl].
      - apply E. now rewrite Hlast, <- El.
      - apply class_leb_fst in Hl. cbn [fst] in Hl. rewrite <- Hlast in Hl.
        rewrite (list_compare_antisym (last (uniqueActionSets c) []) u) in Hl.
        destruct (list_compare (last (uniqueActionSets c) []) u) eqn:C;
          simpl in Hl; try congruence.
        apply list_compare_eq in C. congruence. }
    constructor; cbn [uniqueActionSets playerClasses player2Class
                      numKSymActions kSymStrategyOffset];
      rewrite ?upd_length, ?length_app; cbn [length].
    + split; lia.
    + rewrite concat_app, map_app, Hcat. simpl. reflexivity.
    + intros k q' Hk Hin. apply in_or_app.
      destruct (Nat.eq_dec k (length (playerClasses c))) as [->|Hk'].
      * rewrite nth_middle in Hin. destruct Hin as [<- | []].
        right. left. f_equal. rewrite <- Hlen. symmetry. apply nth_middle.
      * rewrite app_nth1 in Hin by lia. rewrite app_nth1 by lia.
        left. apply Hmem; [lia | exact Hin].
    + intros q' Hq'. rewrite map_app in Hq'.
      replace (length (playerClasses c) + 1 - 1) with (length (playerClasses c))
        by lia.
      apply in_app_or in Hq' as [Hq' | [<- | []]].
      * assert (q <> q') by (intros ->; contradiction).
        rewrite nth_upd_other by assumption.
        destruct (Hp2c q' Hq') as (H1 & H2). split; [lia|].
        now rewrite app_nth1 by lia.
      * cbn [snd]. rewrite nth_upd_same by lia. split; [lia|].
        rewrite nth_middle. now left.
    + now rewrite !last_last.
    + intros u' Hu'. apply in_app_or in Hu' as [Hu' | [<- | []]].
      * destruct (Hfrom u' Hu') as (q' & Hq').
        exists q'. apply in_or_app. now left.
      * exists q. apply in_or_app. right. now left.
    + clear - Hsort Hlt. induction Hsort as [|a l Hs IH Hall]; simpl.
      * repeat constructor.
      * constructor.
        -- apply IH. intros b Hb. apply Hlt. now right.
        -- apply Forall_app. split; [exact Hall|].
           constructor; [|constructor]. apply Hlt. now left.
    + exact Hplen.
    + destruct Hoff as (O1 & O2 & O3 & O4).
      split; [lia|]. split; [|split].
      * rewrite app_nth1 by lia. exact O2.
      * intros k Hk.
        destruct (Nat.eq_dec k (length (uniqueActionSets c))) as [->|Hk'].
        -- rewrite nth_middle.
           replace (S (length (uniqueActionSets c)))
             with (length (kSymStrategyOffset c)) by lia.
           rewrite nth_middle. rewrite app_nth1 by lia. now rewrite <- O4.
        -- rewrite !(app_nth1 (kSymStrategyOffset c)) by lia.
           rewrite app_nth1 by lia. apply O3. lia.
      * replace (length (uniqueActionSets c) + 1)
          with (length (kSymStrategyOffset c)) by lia.
        now rewrite nth_middle.
Qed.

Lemma StronglySorted_app_l T (R : T -> T -> Prop) l1 l2 :
  StronglySorted R (l1 ++ l2) -> StronglySorted R l1.
Proof.
  induction l1 as [|x l1 IH]; simpl; intros H; [constructor|].
  inversion H as [|? ? Hs Hall]; subst. constructor; auto.
  rewrite Forall_forall in *. intros y Hy. apply Hall.
  apply in_or_app. now left.
Qed.

Lemma classes_inv_fold suf : forall pre c,
  pre <> [] -> classes_inv pre c -> pre ++ suf = t ->
  classes_inv t (fold_left ctor_classes_step suf c).
Proof.
  induction suf as [|p suf IH]; intros pre c Hne Hinv Et; cbn [fold_left].
  - now rewrite <- Et, app_nil_r.
  - assert (Et' : (pre ++ [p]) ++ suf = t) by now rewrite <- app_assoc.
    apply (IH (pre ++ [p])); [now destruct pre | | exact Et'].
    apply classes_inv_step; auto.
    + apply StronglySorted_app_l with (l2 := suf).
      rewrite Et'. apply ctor_pairs_sorted.
    + assert (Hin : In p t) by (rewrite <- Et; apply in_or_app; right; now left).
      destruct p as [u q]. now apply ctor_pairs_in in Hin.
    + pose proof (Permutation_NoDup (Permutation_sym ctor_pairs_players)
                                    (seq_NoDup n 0)) as Hnd.
      rewrite <- Et, map_app in Hnd. cbn [map] in Hnd.
      apply NoDup_remove_2 in Hnd. intros H. apply Hnd.
      apply in_or_app. now left.
Qed.

Lemma ctor_classes_inv c :
  ctor_classes n actionSets = Some c -> classes_inv t c.
Proof.
  unfold ctor_classes. fold t. destruct t as [|p t'] eqn:Et; [discriminate|].
  intros H. inversion H; subst c; clear H.
  rewrite <- Et. apply (classes_inv_fold t' (pre := [p])).
  - discriminate.
  - destruct p as [u q]. apply classes_inv_init.
    assert (Hin : In (u, q) t) by (rewrite Et; now left).
    now apply ctor_pairs_in in Hin.
  - now rewrite Et.
Qed.

Lemma ctor_classes_none : ctor_classes n actionSets = None <-> n = 0.
Proof.
  unfold ctor_classes. fold t.
  pose proof (Permutation_length ctor_pairs_players) as Hlen.
  rewrite length_map, length_seq in Hlen.
  destruct t as [|p t']; simpl in Hlen; split; intros H;
    try reflexivity; try discriminate; lia.
Qed.

(** X6.  The classes that the constructor forms are a partition of the
    players: every player is in one class, the class that [player2Class]
    gives it, and the action set of that class is its (sorted) action
    set. *)
Theorem ctor_classes_partition c :
  ctor_classes n actionSets = Some c ->
  Permutation (concat (playerClasses c)) (seq 0 n) /\
  length (uniqueActionSets c) = length (playerClasses c) /\
  forall q, q < n ->
    let k := nth q (player2Class c) 0 in
    k < length (playerClasses c) /\
    In q (nth k (playerClasses c) []) /\
    nth k (uniqueActionSets c) [] = sort Nat.leb (nth q actionSets []).
Proof.
  intros Hc. apply ctor_classes_inv in Hc.
  destruct Hc as [(Hlen & Hpos) Hcat Hmem Hp2c _ _ _ _ _].
  split; [rewrite Hcat; apply ctor_pairs_players|]. split; [exact Hlen|].
  intros q Hq. cbv zeta.
  assert (Hin : In q (map snd t)).
  { apply (Permutation_in _ (Permutation_sym ctor_pairs_players)).
    apply in_seq. lia. }
  destruct (Hp2c q Hin) as (H1 & H2). split; [exact H1|]. split; [exact H2|].
  apply Hmem in H2; [|exact H1]. now apply ctor_pairs_in in H2.
Qed.

(** X7.  [uniqueActionSets] is strictly ascending in the lexicographic
    order, hence without repetition, and two players are in the same class
    exactly when their (sorted) action sets are equal. *)
Theorem ctor_classes_same_class c :
  ctor_classes n actionSets = Some c ->
  StronglySorted (fun a b => list_compare a b = Lt) (uniqueActionSets c) /\
  NoDup (uniqueActionSets c) /\
  forall q q', q < n -> q' < n ->
    (nth q (player2Class c) 0 = nth q' (player2Class c) 0 <->
     sort Nat.leb (nth q actionSets []) = sort Nat.leb (nth q' actionSets [])).
Proof.
  intros Hc. destruct (ctor_classes_partition Hc) as (_ & Hlen & Hcls).
  apply ctor_classes_inv in Hc. destruct Hc as [_ _ _ _ _ _ Hsort _ _].
  assert (Hnd : NoDup (uniqueActionSets c)).
  { clear - Hsort. induction Hsort as [|a l Hs IH Hall]; constructor; auto.
    intros Ha. rewrite Forall_forall in Hall. apply Hall in Ha.
    now rewrite list_compare_refl in Ha. }
  split; [exact Hsort|]. split; [exact Hnd|].
  intros q q' Hq Hq'.
  destruct (Hcls q Hq) as (H1 & _ & H3). destruct (Hcls q' Hq') as (H1' & _ & H3').
  cbv zeta in *. split.
  - intros E. rewrite <- H3, <- H3', E. reflexivity.
  - intros E. rewrite <- H3, <- H3' in E.
    apply (proj1 (NoDup_nth (uniqueActionSets c) []) Hnd); [lia | lia | exact E].
Qed.

(** X8.  [kSymStrategyOffset] holds the prefix sums of the sizes of the
    action sets of the classes, and [numKSymActions] their total. *)
Theorem ctor_classes_offsets c :
  ctor_classes n actionSets = Some c ->
  length (kSymStrategyOffset c) = S (length (uniqueActionSets c)) /\
  nth 0 (kSymStrategyOffset c) 0 = 0 /\
  (forall k, k < length (uniqueActionSets c) ->
     nth (S k) (kSymStrategyOffset c) 0 =
     nth k (kSymStrategyOffset c) 0 + length (nth k (uniqueActionSets c) [])) /\
  numKSymActions c =
  nth (length (uniqueActionSets c)) (kSymStrategyOffset c) 0.
Proof.
  intros Hc. apply ctor_classes_inv in Hc. now destruct Hc.
Qed.

End ClassesFacts.

(* ================================================================== *)
(** * Pure nodes and the actions of a node *)

Lemma max_element_spec l :
  l <> [] ->
  In (max_element l) l /\ forall x, In x l -> x <= max_element l.
Proof.
  destruct l as [|x0 l]; [congruence|]. intros _. unfold max_element. simpl.
  revert x0. induction l as [|y l IH]; intros x0; simpl.
  - split; [now left|]. intros x [<- | []]. lia.
  - destruct (x0 <? y) eqn:C;
      [apply Nat.ltb_lt in C | apply Nat.ltb_ge in C].
    + destruct (IH y) as (H1 & H2). split; [now right|].
      intros x [<- | Hx]; [|now apply H2].
      pose proof (H2 _ (or_introl eq_refl)). lia.
    + destruct (IH x0) as (H1 & H2). split.
      * destruct H1 as [H1 | H1]; [now left | right; now right].
      * intros x [<- | [<- | Hx]].
        -- apply H2. now left.
        -- pose proof (H2 _ (or_introl eq_refl)). lia.
        -- apply H2. now right.
Qed.

Lemma ctor_isPure_spec numANodes neighb nodes : forall isPure,
  NoDup nodes ->
  (forall i, In i nodes -> i < length isPure /\ nth i isPure true = true) ->
  match ctor_isPure nodes numANodes neighb isPure with
  | Ok r =>
      length r = length isPure /\
      (forall i, In i nodes -> i < length neighb) /\
      (forall i, ~ In i nodes -> nth i r true = nth i isPure true) /\
      (forall i, In i nodes ->
         (nth i r true = true <->
          forall nb, In nb (nth i neighb []) -> nb < numANodes))
  | Err e => e = OutOfRange /\ exists i, In i nodes /\ length neighb <= i
  end.
Proof.
  induction nodes as [|i nodes IH]; intros isPure Hnd Hlen; cbn [ctor_isPure].
  - split; [reflexivity|]. split; [intros i []|]. split; [auto | intros i []].
  - inversion Hnd as [|? ? Hi Hnd']; subst.
    destruct (nth_error neighb i) as [nb|] eqn:E.
    2:{ split; [reflexivity|]. exists i. split; [now left|].
        now apply nth_error_None. }
    assert (Hi' : i < length neighb)
      by (apply nth_error_Some; congruence).
    apply (nth_error_nth _ _ []) in E.
    set (isPure' := if 0 <? length nb
                    then upd i (max_element nb <? numANodes) isPure
                    else isPure).
    assert (Hlen' : length isPure' = length isPure).
    { unfold isPure'. destruct (0 <? length nb); [apply upd_length|reflexivity]. }
    specialize (IH isPure' Hnd').
    destruct (ctor_isPure nodes numANodes neighb isPure') as [r|e].
    + destruct IH as (H1 & H2 & H3 & H4).
      { intros k Hk. rewrite Hlen'. split; [apply Hlen; now right|].
        unfold isPure'. destruct (0 <? length nb); [|apply Hlen; now right].
        rewrite nth_upd_other; [apply Hlen; now right|].
        intros ->. contradiction. }
      split; [congruence|]. split; [|split].
      * intros k [<- | Hk]; auto.
      * intros k Hk. rewrite H3 by (intros H; apply Hk; now right).
        unfold isPure'. destruct (0 <? length nb); [|reflexivity].
        apply nth_upd_other. intros ->. apply Hk. now left.
      * intros k [<- | Hk]; [|now apply H4].
        rewrite H3 by exact Hi. unfold isPure'. rewrite E.
        destruct (0 <? length nb) eqn:C.
        -- apply Nat.ltb_lt in C.
           rewrite nth_upd_same by (apply Hlen; now left).
           destruct (@max_element_spec nb) as (M1 & M2).
           { intros ->. simpl in C. lia. }
           rewrite Nat.ltb_lt. split.
           ++ intros H x Hx. apply M2 in Hx. lia.
           ++ intros H. now apply H.
        -- apply Nat.ltb_ge in C. destruct nb; [|simpl in C; lia].
           split; [intros _ x [] | intros _].
           apply Hlen. now left.
    + destruct IH as (-> & k & Hk & Hle).
      { intros k Hk. rewrite Hlen'. split; [apply Hlen; now right|].
        unfold isPure'. destruct (0 <? length nb); [|apply Hlen; now right].
        rewrite nth_upd_other; [apply Hlen; now right|].
        intros ->. contradiction. }
      split; [reflexivity|]. exists k. split; [now right | exact Hle].
Qed.

(** X9.  The constructor marks an action node pure exactly when all its
    neighbours are action nodes; it throws [std::out_of_range] exactly when
    [neighb] has fewer entries than there are action nodes. *)
Theorem AGG_isPure_spec numANodes neighb :
  match AGG_isPure numANodes neighb with
  | Ok isPure =>
      numANodes <= length neighb /\ length isPure = numANodes /\
      forall i, i < numANodes ->
        (nth i isPure true = true <->
         forall nb, In nb (nth i neighb []) -> nb < numANodes)
  | Err e => e = OutOfRange /\ length neighb < numANodes
  end.
Proof.
  unfold AGG_isPure.
  pose proof (@ctor_isPure_spec numANodes neighb (seq 0 numANodes)
                (repeat true numANodes) (seq_NoDup _ _)) as H.
  destruct (ctor_isPure (seq 0 numANodes) numANodes neighb
                        (repeat true numANodes)) as [r|e].
  - destruct H as (H1 & H2 & _ & H4).
    { intros i Hi. apply in_seq in Hi. rewrite repeat_length. split; [lia|].
      apply nth_repeat. }
    rewrite repeat_length in H1. split; [|split; [exact H1|]].
    + destruct numANodes as [|m]; [lia|].
      specialize (H2 m). rewrite in_seq in H2. lia.
    + intros i Hi. apply H4. apply in_seq. lia.
  - destruct H as (-> & i & Hi & Hle).
    { intros i Hi. apply in_seq in Hi. rewrite repeat_length. split; [lia|].
      apply nth_repeat. }
    apply in_seq in Hi. split; [reflexivity | lia].
Qed.

(* ================================================================== *)
(** * What the constructor returns *)

Lemma AGG_isPure_cases numANodes neighb :
  (numANodes <= length neighb /\
   exists r, AGG_isPure numANodes neighb = Ok r) \/
  (length neighb < numANodes /\ AGG_isPure numANodes neighb = Err OutOfRange).
Proof.
  unfold AGG_isPure.
  pose proof (@ctor_isPure_spec numANodes neighb (seq 0 numANodes)
                (repeat true numANodes) (seq_NoDup _ _)) as H.
  destruct (ctor_isPure (seq 0 numANodes) numANodes neighb
                        (repeat true numANodes)) as [r|e].
  - destruct H as (_ & H2 & _).
    { intros i Hi. apply in_seq in Hi. rewrite repeat_length. split; [lia|].
      apply nth_repeat. }
    left. split; [|now exists r].
    destruct numANodes as [|m]; [lia|].
    specialize (H2 m). rewrite in_seq in H2. lia.
  - destruct H as (-> & i & Hi & Hle).
    { intros i Hi. apply in_seq in Hi. rewrite repeat_length. split; [lia|].
      apply nth_repeat. }
    apply in_seq in Hi. right. split; [lia | reflexivity].
Qed.

Section ConstructorResult.
Context {projtype : Type} {PF : ProjFunc projtype}.

(** C7, as the code has it.  The constructor is given an action count and
    an action set for every player.  It throws the error of an action set
    that is not in ascending order exactly when the action set of some
    player is not ascending, where ascending admits equal neighbours; the
    error names the first such player.  With every action set ascending the
    constructor goes on: with no player at all it reads [t.begin()] of an
    empty vector; it throws where [neighb.at(i)] finds no entry for an
    action node; and it returns the game otherwise, when the actions that
    [node2Action] is written at are actions of the sets and name action
    nodes. *)
Theorem AGG_new_checks_ascending :
  forall n _actions numANodes _numPNodes _actionSets neighb
         (projTypes : list projtype) projS proj projF Po P _payoffs,
    n <= length _actions -> n <= length _actionSets ->
    let r := AGG_new n _actions numANodes _numPNodes _actionSets neighb
                     projTypes projS proj projF Po P _payoffs in
    let ascending := forall i, i < n -> Sorted le (nth i _actionSets []) in
    ((exists i, r = Err (NotAscending i)) <-> ~ ascending) /\
    (forall i, r = Err (NotAscending i) <->
       i < n /\ ~ Sorted le (nth i _actionSets []) /\
       forall i', i' < i -> Sorted le (nth i' _actionSets [])) /\
    (ascending ->
       (n = 0 -> r = Err Undefined) /\
       (0 < n -> length neighb < numANodes -> r = Err OutOfRange) /\
       (0 < n -> numANodes <= length neighb ->
        (forall i j, i < n -> j < nth i _actions 0 ->
           j < length (nth i _actionSets []) /\
           nth j (nth i _actionSets []) 0 < numANodes) ->
        exists g, r = Ok g)).
Proof.
  intros n _actions numANodes _numPNodes _actionSets neighb projTypes projS
         proj projF Po P _payoffs _ _ r ascending.
  subst r ascending. unfold AGG_new. cbv zeta.
  destruct (ctor_offsets (firstn n _actions) 0 0 0) as [[offs total] maxA].
  destruct (ctor_check_sorted 0 (firstn n _actionSets)) as [[]|e0] eqn:E;
    cbn [rbind].
  - apply ctor_check_sorted_ok in E.
    pose proof (proj1 (@Forall_firstn_nth (Sorted le) n _actionSets
                                          (Sorted_nil _)) E) as Hasc.
    clear E. rename Hasc into E.
    pose proof (ctor_classes_none n _actionSets) as Hnone.
    assert (Hr : forall i,
      (c <- match ctor_classes n _actionSets with
            | Some c => Ok c
            | None => Err Undefined
            end ;;
       pure <- AGG_isPure numANodes neighb ;;
       Ok (mkAGG n (firstn n _actions) (0 :: offs) total maxA numANodes
                 _numPNodes _actionSets neighb projTypes _payoffs proj projS
                 projS projF Po P c pure
                 (ctor_node2Action numANodes n (firstn n _actions)
                                   _actionSets)))%result
      <> Err (NotAscending i)).
    { intros i. destruct (ctor_classes n _actionSets); cbn [rbind];
        [|discriminate].
      destruct (AGG_isPure_cases numANodes neighb) as [(_ & r & ->)|(_ & ->)];
        cbn [rbind]; discriminate. }
    split; [|split].
    + split; [intros (i & Hi); now apply Hr in Hi | intros H; now elim H].
    + intros i. split; [intros Hi; now apply Hr in Hi|].
      intros (Hi & Hbad & _). elim Hbad. now apply E.
    + intros _. split; [|split].
      * intros Hn. apply Hnone in Hn. now rewrite Hn.
      * intros Hn Hlt.
        destruct (ctor_classes n _actionSets) as [c|] eqn:Ec;
          [|apply (proj1 (ctor_classes_none n _actionSets)) in Ec; lia]. cbn [rbind].
        destruct (AGG_isPure_cases numANodes neighb) as [(? & _)|(_ & ->)];
          [lia | reflexivity].
      * intros Hn Hle _.
        destruct (ctor_classes n _actionSets) as [c|] eqn:Ec;
          [|apply (proj1 (ctor_classes_none n _actionSets)) in Ec; lia].
        cbn [rbind].
        destruct (AGG_isPure_cases numANodes neighb) as [(_ & r & ->)|(? & _)];
          [|lia]. cbn [rbind]. eauto.
  - apply ctor_check_sorted_err in E as (k & -> & Hk & Hbad & Hgood).
    rewrite length_firstn in Hk. cbn [Nat.add].
    rewrite nth_firstn_lt in Hbad by lia.
    assert (Hgood' : forall i', i' < k -> Sorted le (nth i' _actionSets [])).
    { intros i' Hi'. specialize (Hgood i' Hi').
      rewrite nth_firstn_lt in Hgood by lia. exact Hgood. }
    split; [|split].
    + split; [|eauto]. intros _ H. apply Hbad, H. lia.
    + intros i. split.
      * intros [= <-]. split; [lia|]. split; assumption.
      * intros (Hi & Hbad' & Hgood''). f_equal. f_equal.
        destruct (Nat.lt_trichotomy i k) as [H|[H|H]]; [|exact (eq_sym H)|].
        -- elim Hbad'. now apply Hgood'.
        -- elim Hbad. now apply Hgood''.
    + intros H. elim Hbad. apply H. lia.
Qed.

End ConstructorResult.

(* ================================================================== *)
(** * The actions of a node *)

Section Node2Action.
Variables numANodes numPlayers : nat.
Variable actions : list nat.
Variable actionSets : list (list nat).

Let cell (M : list (list Z)) (v i : nat) : Z := nth i (nth v M []) (-1)%Z.
Let write (M : list (list Z)) (v i : nat) (z : Z) : list (list Z) :=
  upd v (upd i z (nth v M [])) M.
Let dims (M : list (list Z)) : Prop :=
  length M = numANodes /\ forall v, v < numANodes -> length (nth v M []) = numPlayers.

Lemma write_dims M v i z : dims M -> dims (write M v i z).
Proof.
  intros (H1 & H2). unfold write. split; [now rewrite upd_length|].
  intros v' Hv'. rewrite nth_upd.
  destruct ((v =? v') && (v <? length M)) eqn:C; [|now apply H2].
  apply andb_true_iff in C as (C & _). apply Nat.eqb_eq in C. subst v'.
  rewrite upd_length. now apply H2.
Qed.

Lemma write_cell M v i z v' i' :
  dims M -> v < numANodes -> i < numPlayers ->
  cell (write M v i z) v' i' =
  if (v =? v') && (i =? i') then z else cell M v' i'.
Proof.
  intros (H1 & H2) Hv Hi. unfold cell, write. rewrite nth_upd.
  replace (v <? length M) with true by (symmetry; apply Nat.ltb_lt; lia).
  rewrite andb_true_r.
  destruct (Nat.eqb_spec v v') as [<-|Hne]; [|reflexivity].
  rewrite nth_upd, (H2 v Hv).
  replace (i <? numPlayers) with true by (symmetry; apply Nat.ltb_lt; lia).
  now rewrite andb_true_r.
Qed.

Lemma inner_loop i0 v i js : forall M,
  dims M -> i0 < numPlayers ->
  (forall j, In j js -> nth j (nth i0 actionSets []) 0 < numANodes) ->
  let M' := fold_left
              (fun n2a j =>
                 let v := nth j (nth i0 actionSets []) 0 in
                 upd v (upd i0 (Z.of_nat j) (nth v n2a [])) n2a) js M in
  dims M' /\
  cell M' v i =
  if i0 =? i
  then fold_left (fun acc j => if nth j (nth i0 actionSets []) 0 =? v
                               then Z.of_nat j else acc) js (cell M v i)
  else cell M v i.
Proof.
  induction js as [|j js IH]; intros M Hd Hi0 Hr; cbn [fold_left]; cbv zeta.
  - split; [exact Hd|]. now destruct (i0 =? i).
  - specialize (IH (write M (nth j (nth i0 actionSets []) 0) i0 (Z.of_nat j))).
    cbv zeta in IH. destruct IH as (IH1 & IH2).
    + now apply write_dims.
    + exact Hi0.
    + intros j' Hj'. apply Hr. now right.
    + split; [exact IH1|]. unfold write in IH2 at 1. rewrite IH2.
      rewrite write_cell by (auto; apply Hr; now left).
      destruct (Nat.eqb_spec i0 i) as [<-|Hne].
      * now rewrite andb_true_r.
      * now rewrite andb_false_r.
Qed.

Lemma outer_loop v i ps : forall M,
  dims M -> NoDup ps ->
  (forall i0 j, In i0 ps -> i0 < numPlayers /\
     (j < nth i0 actions 0 -> nth j (nth i0 actionSets []) 0 < numANodes)) ->
  let M' := fold_left
              (fun n2a i0 =>
                 fold_left
                   (fun n2a j =>
                      let v := nth j (nth i0 actionSets []) 0 in
                      upd v (upd i0 (Z.of_nat j) (nth v n2a [])) n2a)
                   (seq 0 (nth i0 actions 0)) n2a) ps M in
  dims M' /\
  cell M' v i =
  if existsb (Nat.eqb i) ps
  then fold_left (fun acc j => if nth j (nth i actionSets []) 0 =? v
                               then Z.of_nat j else acc)
                 (seq 0 (nth i actions 0)) (cell M v i)
  else cell M v i.
Proof.
  induction ps as [|i0 ps IH]; intros M Hd Hnd Hr; cbn [fold_left]; cbv zeta.
  - split; [exact Hd | reflexivity].
  - inversion Hnd as [|? ? Hi0 Hnd']; subst.
    destruct (@inner_loop i0 v i (seq 0 (nth i0 actions 0)) M Hd) as (D1 & C1).
    { apply (Hr i0 0). now left. }
    { intros j Hj. apply in_seq in Hj. apply (Hr i0 j); [now left | lia]. }
    cbv zeta in D1, C1.
    destruct (IH _ D1 Hnd') as (D2 & C2).
    { intros i1 j Hi1. apply Hr. now right. }
    cbv zeta in D2, C2. split; [exact D2|]. rewrite C2, C1. cbn [existsb].
    destruct (Nat.eqb_spec i i0) as [->|Hne].
    + rewrite Nat.eqb_refl. simpl.
      destruct (existsb (Nat.eqb i0) ps) eqn:Ex; [|reflexivity].
      apply existsb_exists in Ex as (x & Hx & Ex). apply Nat.eqb_eq in Ex.
      subst x. contradiction.
    + destruct (Nat.eqb_spec i0 i) as [E|_]; [congruence|]. reflexivity.
Qed.

Lemma last_match (P : nat -> bool) m : forall z0,
  let r := fold_left (fun acc j => if P j then Z.of_nat j else acc)
                     (seq 0 m) z0 in
  ((forall j, j < m -> P j = false) /\ r = z0) \/
  (exists j, j < m /\ P j = true /\ r = Z.of_nat j /\
             forall j', j < j' < m -> P j' = false).
Proof.
  induction m as [|m IH]; intros z0; cbv zeta.
  - left. split; [intros j Hj; lia | reflexivity].
  - rewrite seq_S, fold_left_app. cbn [fold_left Nat.add].
    destruct (P m) eqn:Pm.
    + right. exists m. split; [lia|]. split; [exact Pm|].
      split; [reflexivity | intros j' Hj'; lia].
    + destruct (IH z0) as [(H1 & H2) | (j & Hj & Pj & Hr & Hlater)].
      * left. split; [|exact H2]. intros j Hj.
        destruct (Nat.eq_dec j m) as [->|]; [exact Pm | apply H1; lia].
      * right. exists j. split; [lia|]. split; [exact Pj|]. split; [exact Hr|].
        intros j' Hj'. destruct (Nat.eq_dec j' m) as [->|];
          [exact Pm | apply Hlater; lia].
Qed.

(** X10.  When every action of every player is an action node,
    [node2Action[v][i]] is [-1] exactly when no action of player [i] is the
    node [v], and otherwise the index of the last action of [i] that is
    [v]. *)
Theorem ctor_node2Action_spec :
  (forall i j, i < numPlayers -> j < nth i actions 0 ->
               nth j (nth i actionSets []) 0 < numANodes) ->
  let node2Action :=
    ctor_node2Action numANodes numPlayers actions actionSets in
  length node2Action = numANodes /\
  forall v i, v < numANodes -> i < numPlayers ->
    length (nth v node2Action []) = numPlayers /\
    (nth i (nth v node2Action []) (-1)%Z = (-1)%Z <->
     forall j, j < nth i actions 0 -> nth j (nth i actionSets []) 0 <> v) /\
    (forall j, nth i (nth v node2Action []) (-1)%Z = Z.of_nat j <->
       j < nth i actions 0 /\ nth j (nth i actionSets []) 0 = v /\
       forall j', j < j' < nth i actions 0 ->
                  nth j' (nth i actionSets []) 0 <> v).
Proof.
  intros Hr. cbv zeta. unfold ctor_node2Action.
  set (M0 := repeat (repeat (-1)%Z numPlayers) numANodes).
  assert (Hd0 : dims M0).
  { split; [apply repeat_length|]. intros v Hv. unfold M0.
    rewrite nth_repeat_lt by exact Hv. apply repeat_length. }
  assert (Hps : forall i0 j, In i0 (seq 0 numPlayers) -> i0 < numPlayers /\
            (j < nth i0 actions 0 ->
             nth j (nth i0 actionSets []) 0 < numANodes)).
  { intros i0 j Hi0. apply in_seq in Hi0. split; [lia|].
    intros Hj. apply Hr; lia. }
  pose proof (fun v i => @outer_loop v i (seq 0 numPlayers) M0 Hd0
                                     (seq_NoDup _ _) Hps) as Hall.
  cbv zeta in Hall.
  set (M' := fold_left _ (seq 0 numPlayers) M0) in *.
  split; [apply (proj1 (proj1 (Hall 0 0)))|].
  intros v i Hv Hi. destruct (Hall v i) as ((_ & D) & C).
  split; [now apply D|].
  unfold cell in C. rewrite C. clear C.
  replace (existsb (Nat.eqb i) (seq 0 numPlayers)) with true.
  2:{ symmetry. apply existsb_exists. exists i.
      split; [apply in_seq; lia | apply Nat.eqb_refl]. }
  unfold M0. rewrite nth_repeat_lt by exact Hv.
  rewrite nth_repeat_lt by exact Hi.
    destruct (@last_match (fun j => nth j (nth i actionSets []) 0 =? v)
                          (nth i actions 0) (-1)%Z)
      as [(H1 & H2) | (j0 & Hj0 & Pj0 & Hres & Hlater)];
      cbv zeta in *.
    + rewrite H2. split.
      * split; [|reflexivity]. intros _ j Hj. apply Nat.eqb_neq. now apply H1.
      * intros j. split; [lia|]. intros (Hj & E & _).
        apply H1 in Hj. apply Nat.eqb_neq in Hj. contradiction.
    + rewrite Hres. apply Nat.eqb_eq in Pj0. split.
      * split; [lia|]. intros H. now apply H in Hj0.
      * intros j. split.
        -- intros E. apply Nat2Z.inj in E. subst j0.
           split; [exact Hj0|]. split; [exact Pj0|].
           intros j' Hj'. apply Nat.eqb_neq. now apply Hlater.
        -- intros (Hj & E & Hl). f_equal.
           destruct (Nat.lt_total j0 j) as [Hlt | [-> | Hgt]]; [|reflexivity|].
           ++ assert (Hf : (nth j (nth i actionSets []) 0 =? v) = false)
                by (apply Hlater; lia).
              apply Nat.eqb_neq in Hf. contradiction.
           ++ exfalso. apply (Hl j0); [lia | exact Pj0].
Qed.

End Node2Action.

(* ================================================================== *)
(** * Reading the header *)

Lemma read_ints_length todo : forall j err s xs s',
  read_ints todo j err s = HOk (xs, s') -> length xs = todo.
Proof.
  induction todo as [|todo IH]; intros j err s xs s' H; simpl in H.
  - now inversion H.
  - destruct (read_int s) as [[x s1]|]; [|discriminate].
    destruct (read_ints todo (S j) err s1) as [[xs1 s2]|] eqn:E;
      simpl in H; [|discriminate].
    inversion H; subst. simpl. f_equal. eapply IH; eassumption.
Qed.

Lemma read_action_sets_length sizes : forall i s sets s',
  read_action_sets i sizes s = HOk (sets, s') ->
  map (@length Z) sets = map Z.to_nat sizes.
Proof.
  induction sizes as [|sz sizes IH]; intros i s sets s' H; simpl in H.
  - now inversion H.
  - destruct (read_ints (Z.to_nat sz) 0 (fun j => BadActionIndex j i) s)
      as [[a s1]|] eqn:E1; simpl in H; [|discriminate].
    destruct (read_action_sets (S i) sizes s1) as [[rest s2]|] eqn:E2;
      simpl in H; [|discriminate].
    inversion H; subst. simpl. f_equal.
    + eapply read_ints_length; eassumption.
    + eapply IH; eassumption.
Qed.

Lemma read_neighbors_length todo : forall i s nbs s',
  read_neighbors todo i s = HOk (nbs, s') -> length nbs = todo.
Proof.
  induction todo as [|todo IH]; intros i s nbs s' H; simpl in H.
  - now inversion H.
  - destruct (read_int s) as [[cnt s1]|]; [|discriminate].
    destruct (read_ints (Z.to_nat cnt) 0 (fun j => BadNeighbor j i) s1)
      as [[nb s2]|]; simpl in H; [|discriminate].
    destruct (read_neighbors todo (S i) s2) as [[rest s3]|] eqn:E;
      simpl in H; [|discriminate].
    inversion H; subst. simpl. f_equal. eapply IH; eassumption.
Qed.

Lemma encode_nats_read l : forall j err rest,
  read_ints (length l) j err (encode_nats l ++ rest) =
  HOk (map Z.of_nat l, rest).
Proof.
  induction l as [|x l IH]; intros j err rest; simpl; [reflexivity|].
  fold (encode_nats l). now rewrite IH.
Qed.

Lemma encode_sets_read sets : forall i rest,
  read_action_sets i (map Z.of_nat (map (@length nat) sets))
                   (flat_map encode_nats sets ++ rest) =
  HOk (map (map Z.of_nat) sets, rest).
Proof.
  induction sets as [|a sets IH]; intros i rest; simpl; [reflexivity|].
  rewrite Nat2Z.id, <- app_assoc, encode_nats_read. simpl.
  now rewrite IH.
Qed.

Lemma encode_neighbors_read nbs : forall i rest,
  read_neighbors (length nbs) i
    (flat_map (fun nb => LInt (Z.of_nat (length nb)) :: encode_nats nb) nbs
     ++ rest) =
  HOk (map (map Z.of_nat) nbs, rest).
Proof.
  induction nbs as [|nb nbs IH]; intros i rest; simpl; [reflexivity|].
  rewrite Nat2Z.id, <- app_assoc, encode_nats_read. simpl.
  now rewrite IH.
Qed.

Lemma nonneg_of_nat l : nonneg (map Z.of_nat l) = true.
Proof.
  unfold nonneg. apply forallb_forall. intros z Hz.
  apply in_map_iff in Hz as (x & <- & _). apply Z.leb_le. lia.
Qed.

Lemma to_nat_of_nat l : map Z.to_nat (map Z.of_nat l) = l.
Proof.
  rewrite map_map. rewrite <- (map_id l) at 2. apply map_ext.
  intros x. apply Nat2Z.id.
Qed.

Lemma of_nat_to_nat l : nonneg l = true -> map Z.of_nat (map Z.to_nat l) = l.
Proof.
  intros H. rewrite map_map. rewrite <- (map_id l) at 2.
  apply map_ext_in. intros z Hz.
  unfold nonneg in H. rewrite forallb_forall in H.
  apply H, Z.leb_le in Hz. now apply Z2Nat.id.
Qed.

Section HeaderFacts.
Context {projtype : Type}.
Variable make_proj_func : Z -> stream -> Z -> Z -> option (projtype * stream).

Lemma read_proj_types_length todo : forall i numS numP s fs s',
  read_proj_types make_proj_func todo i numS numP s = HOk (fs, s') ->
  length fs = todo.
Proof.
  induction todo as [|todo IH]; intros i numS numP s fs s' H; simpl in H.
  - now inversion H.
  - destruct (read_int s) as [[pt s1]|]; [|discriminate].
    destruct (make_proj_func pt s1 numS numP) as [[f s2]|]; [|discriminate].
    destruct (read_proj_types make_proj_func todo (S i) numS numP s2)
      as [[rest s3]|] eqn:E; simpl in H; [|discriminate].
    inversion H; subst. simpl. f_equal. eapply IH; eassumption.
Qed.

(** X11.  What the reading loops of [makeAGG] establish: a header that
    was read, and holds no negative number, has one action set per player
    of the size that was read for it, one neighbour list per node and one
    projection type per function node. *)
Theorem read_header_establishes s r s' h :
  read_header make_proj_func s = HOk (r, s') ->
  header_of_raw r = Some h ->
  header_read h.
Proof.
  unfold read_header. intros H Hh.
  destruct (read_int s) as [[n s1]|]; [|discriminate].
  destruct (read_int s1) as [[numS s2]|]; [|discriminate].
  destruct (read_int s2) as [[numP s3]|]; [|discriminate].
  destruct (n <? 0)%Z; [discriminate|].
  destruct (read_ints (Z.to_nat n) 0 BadActionSetSize s3)
    as [[size s4]|] eqn:Esize; cbn [hbind] in H; [|discriminate].
  destruct (read_action_sets 0 size s4) as [[ASets s5]|] eqn:Esets;
    cbn [hbind] in H; [|discriminate].
  destruct (numS + numP <? 0)%Z; [discriminate|].
  destruct (read_neighbors (Z.to_nat (numS + numP)) 0 s5)
    as [[neighb s6]|] eqn:Enb; cbn [hbind] in H; [|discriminate].
  destruct (numP <? 0)%Z; [discriminate|].
  destruct (read_proj_types make_proj_func (Z.to_nat numP) 0 numS numP s6)
    as [[projTypes s7]|] eqn:Etypes; cbn [hbind] in H; [|discriminate].
  inversion H; subst r s'; clear H.
  unfold header_of_raw in Hh. cbn [r_n r_S r_P r_size r_ASets r_neighb
                                   r_projTypes] in Hh.
  destruct (_ && _)%bool eqn:Hnn in Hh; [|discriminate].
  inversion Hh; subst h; clear Hh.
  repeat (apply andb_true_iff in Hnn as (Hnn & ?)).
  apply read_ints_length in Esize. apply read_action_sets_length in Esets.
  apply read_neighbors_length in Enb. apply read_proj_types_length in Etypes.
  constructor; cbn [h_n h_S h_P h_size h_ASets h_neighb h_projTypes].
  - rewrite length_map, <- Esize.
    rewrite <- (length_map (@length Z) ASets), Esets. apply length_map.
  - rewrite <- Esets, !map_map. apply map_ext. intros a.
    now rewrite length_map.
  - rewrite length_map, Enb. apply Z2Nat.inj_add; now apply Z.leb_le.
  - exact Etypes.
Qed.

Variable proj_tag : projtype -> Z.
Variable proj_params : projtype -> stream.
Hypothesis make_proj_func_reads : forall f rest numS numP,
  make_proj_func (proj_tag f) (proj_params f ++ rest) numS numP =
  Some (f, rest).

Lemma encode_types_read numS numP fs : forall todo i rest,
  todo = length fs ->
  read_proj_types make_proj_func todo i numS numP
    (flat_map (fun f => LInt (proj_tag f) :: proj_params f) fs ++ rest) =
  HOk (fs, rest).
Proof.
  induction fs as [|f fs IH]; intros todo i rest ->; simpl; [reflexivity|].
  rewrite <- app_assoc, make_proj_func_reads. now rewrite IH.
Qed.

(** X12.  Reading the text of a header gives the header back, and leaves
    the stream at the payoff tables. *)
Theorem read_header_encoded (h : @header projtype) rest :
  header_read h ->
  read_header make_proj_func (encode_header proj_tag proj_params h ++ rest) =
  HOk (raw_of_header h, rest) /\
  header_of_raw (raw_of_header h) = Some h.
Proof.
  intros [HA Hsz Hnb Hty]. split.
  - unfold read_header, encode_header. cbn [app read_int].
    replace (Z.of_nat (h_n h) <? 0)%Z with false
      by (symmetry; apply Z.ltb_ge; lia).
    rewrite Nat2Z.id.
    replace (h_n h) with (length (h_size h)) at 1
      by (now rewrite Hsz, length_map).
    rewrite <- !app_assoc, encode_nats_read. cbn [hbind].
    rewrite Hsz at 1. rewrite encode_sets_read. cbn [hbind].
    replace (Z.of_nat (h_S h) + Z.of_nat (h_P h) <? 0)%Z with false
      by (symmetry; apply Z.ltb_ge; lia).
    rewrite <- Nat2Z.inj_add, Nat2Z.id, <- Hnb.
    rewrite encode_neighbors_read. cbn [hbind].
    replace (Z.of_nat (h_P h) <? 0)%Z with false
      by (symmetry; apply Z.ltb_ge; lia).
    rewrite Nat2Z.id.
    rewrite encode_types_read by (symmetry; exact Hty). cbn [hbind].
    reflexivity.
  - unfold header_of_raw, raw_of_header.
    cbn [r_n r_S r_P r_size r_ASets r_neighb r_projTypes].
    replace (_ && _)%bool with true.
    + rewrite !Nat2Z.id, to_nat_of_nat.
      destruct h as [n numS numP size ASets neighb types]. simpl. f_equal.
      f_equal; rewrite map_map; rewrite <- map_id; apply map_ext;
        intros a; apply to_nat_of_nat.
    + symmetry. repeat (apply andb_true_iff; split);
        try (apply Z.leb_le; lia); try apply nonneg_of_nat;
        apply forallb_forall; intros l Hl;
        apply in_map_iff in Hl as (a & <- & _); apply nonneg_of_nat.
Qed.
End HeaderFacts.

Lemma read_ints_bad partial : forall todo j err tail,
  length partial < todo -> read_int tail = None ->
  read_ints todo j err (encode_nats partial ++ tail) =
  HErr (err (j + length partial)).
Proof.
  induction partial as [|x partial IH]; intros todo j err tail Hlt Htail;
    (destruct todo as [|todo]; [simpl in Hlt; lia|]);
    cbn [read_ints encode_nats map app].
  - rewrite Htail. simpl. now rewrite Nat.add_0_r.
  - cbn [read_int]. fold (encode_nats partial).
    rewrite IH by (simpl in Hlt; auto; lia).
    simpl. f_equal. f_equal. lia.
Qed.

Lemma read_action_sets_bad sets : forall i0 i j tail,
  i < length sets -> j < length (nth i sets []) -> read_int tail = None ->
  read_action_sets i0 (map Z.of_nat (map (@length nat) sets))
    (flat_map encode_nats (firstn i sets)
     ++ encode_nats (firstn j (nth i sets [])) ++ tail) =
  HErr (BadActionIndex j (i0 + i)).
Proof.
  induction sets as [|a sets IH]; intros i0 i j tail Hi Hj Htail;
    [simpl in Hi; lia|].
  destruct i as [|i]; cbn [map read_action_sets firstn flat_map nth app].
  - rewrite Nat2Z.id. simpl in Hj.
    rewrite read_ints_bad; [|rewrite length_firstn; lia | exact Htail].
    cbn [hbind]. rewrite length_firstn, Nat.add_0_r. f_equal. f_equal. lia.
  - rewrite Nat2Z.id, <- app_assoc, encode_nats_read. cbn [hbind].
    rewrite IH; [|simpl in Hi; lia | exact Hj | exact Htail].
    cbn [hbind]. f_equal. f_equal. lia.
Qed.

Section HeaderErrors.
Context {projtype : Type}.
Variable make_proj_func : Z -> stream -> Z -> Z -> option (projtype * stream).

(** X13.  The errors of the first two reading loops name their subject:
    the player whose size is no integer, and the action and the player of a
    node index that is no integer. *)
Theorem read_header_names_the_subject (h : @header projtype) tail :
  header_read h -> read_int tail = None ->
  let start := [LInt (Z.of_nat (h_n h)); LInt (Z.of_nat (h_S h));
                LInt (Z.of_nat (h_P h))] in
  (forall i, i < h_n h ->
     read_header make_proj_func
       (start ++ encode_nats (firstn i (h_size h)) ++ tail) =
     HErr (BadActionSetSize i)) /\
  (forall i j, i < h_n h -> j < length (nth i (h_ASets h) []) ->
     read_header make_proj_func
       (start ++ encode_nats (h_size h)
              ++ flat_map encode_nats (firstn i (h_ASets h))
              ++ encode_nats (firstn j (nth i (h_ASets h) [])) ++ tail) =
     HErr (BadActionIndex j i)).
Proof.
  intros [HA Hsz Hnb Hty] Htail. cbv zeta.
  assert (Hn : length (h_size h) = h_n h) by now rewrite Hsz, length_map.
  split.
  - intros i Hi. unfold read_header. cbn [app read_int].
    replace (Z.of_nat (h_n h) <? 0)%Z with false
      by (symmetry; apply Z.ltb_ge; lia).
    rewrite Nat2Z.id.
    rewrite read_ints_bad; [|rewrite length_firstn; lia | exact Htail].
    cbn [hbind]. rewrite length_firstn. f_equal. f_equal. lia.
  - intros i j Hi Hj. unfold read_header. cbn [app read_int].
    replace (Z.of_nat (h_n h) <? 0)%Z with false
      by (symmetry; apply Z.ltb_ge; lia).
    rewrite Nat2Z.id. rewrite <- Hn at 1.
    rewrite encode_nats_read. cbn [hbind]. rewrite Hsz.
    rewrite read_action_sets_bad; [reflexivity | lia | exact Hj | exact Htail].
Qed.
End HeaderErrors.

(* ================================================================== *)
(** * More on the payoff tables *)

Section MappingMore.

Lemma read_key_length todo : forall j key s key' s',
  read_key todo j key s = Ok (key', s') -> length key' = length key + todo.
Proof.
  induction todo as [|todo IH]; intros j key s key' s' H; simpl in H.
  - inversion H; subst. lia.
  - destruct (read_int s) as [[cnt s1]|]; [|discriminate].
    apply IH in H. rewrite length_app in H. simpl in H. lia.
Qed.

Lemma size_insert_new (k : config) (u : AggNumber) pay :
  snd (Trie.insert k u pay) = true ->
  Trie.size (fst (Trie.insert k u pay)) = S (Trie.size pay).
Proof.
  unfold Trie.insert, Trie.size.
  destruct (Trie.find k pay) eqn:E; simpl; [discriminate|]. intros _.
  pose proof (@keys_alter_fresh _ (fun _ => u) k pay E) as Hp.
  apply Permutation_length in Hp. unfold Trie.keys in Hp.
  cbn [length] in Hp. now rewrite !length_map in Hp.
Qed.

Lemma mapping_loop_table numNei : forall fuel num s pay pay' s',
  mapping_loop fuel num numNei s pay = Ok (pay', s') ->
  (0 <= num)%Z /\
  Trie.size pay' = Trie.size pay + Z.to_nat num /\
  length s' + 3 * Z.to_nat num <= length s /\
  (forall k, In k (Trie.keys pay') ->
             In k (Trie.keys pay) \/ length k = numNei) /\
  (forall k, In k (Trie.keys pay) -> In k (Trie.keys pay')).
Proof.
  induction fuel as [|fuel IH]; intros num s pay pay' s' H; [discriminate|].
  cbn [mapping_loop] in H.
  destruct (Z.eqb_spec num 0) as [->|Hnum].
  - inversion H; subst. simpl. repeat split; auto; lia.
  - destruct s as [|[z|q| | |] s1]; try discriminate.
    destruct (read_key numNei 0 [] s1) as [[key s2]|e] eqn:Hkey;
      cbn [rbind] in H; [|discriminate].
    destruct s2 as [|[z|q| | |] s3]; try discriminate.
    destruct (read_num s3) as [[u s4]|] eqn:Hnum'; [|discriminate].
    destruct (snd (Trie.insert key u pay)) eqn:Hins; [|discriminate].
    apply IH in H as (H1 & H2 & H3 & H4 & H5).
    pose proof (read_key_length _ _ _ _ Hkey) as Hlen. simpl in Hlen.
    pose proof (read_key_shorter _ _ _ _ Hkey) as Hshort. simpl in Hshort.
    assert (Hs4 : S (length s4) = length s3).
    { destruct s3 as [|[z|q| | |] s5]; simpl in Hnum'; try discriminate;
        inversion Hnum'; subst; reflexivity. }
    rewrite size_insert_new in H2 by exact Hins.
    split; [lia|]. split; [lia|]. split; [simpl; lia|]. split.
    + intros k Hk. apply H4 in Hk as [Hk | Hk]; [|now right].
      apply keys_insert in Hk as [-> | Hk]; [now right | now left].
    + intros k Hk. apply H5. apply keys_insert. now right.
Qed.

(** X15.  A MAPPING table that [makeMAPPINGpayoff] accepts starts with a
    count that is not negative, binds exactly that many keys, each of the
    arity of the node, among them every key of the acceptance set, and
    takes at least three lexemes per pair from the stream. *)
Theorem makeMAPPINGpayoff_table s pay numNei pay' s' :
  makeMAPPINGpayoff s pay numNei = Ok (pay', s') ->
  exists num s0,
    s = LInt num :: s0 /\ (0 <= num)%Z /\
    Trie.size pay' = Z.to_nat num /\
    length s' + 3 * Z.to_nat num <= length s0 /\
    (forall k, In k (Trie.keys pay') -> length k = numNei) /\
    (forall k, In k (Trie.keys pay) -> In k (Trie.keys pay')).
Proof.
  intros H. pose proof (makeMAPPINGpayoff_keys _ _ _ H) as Hkeys.
  unfold makeMAPPINGpayoff in H.
  destruct s as [|[num|q| | |] s0]; try discriminate. cbn [read_int] in H.
  destruct (mapping_loop (S (length s0)) num numNei s0 Trie.reset)
    as [[pay1 s1]|] eqn:E; cbn [rbind] in H; [|discriminate].
  destruct (mapping_check pay pay1) as [[]|]; cbn [rbind] in H; [|discriminate].
  inversion H; subst pay1 s1; clear H.
  apply mapping_loop_table in E as (H1 & H2 & H3 & H4 & _).
  exists num, s0. split; [reflexivity|]. split; [exact H1|].
  split; [exact H2|]. split; [exact H3|]. split; [|exact Hkeys].
  intros k Hk. apply H4 in Hk as [[] | Hk]. exact Hk.
Qed.

Lemma mapping_loop_prefix numNei entries : forall fuel pay more rest,
  (forall kv, In kv entries -> length (fst kv) = numNei) ->
  (0 <= more)%Z -> length entries < fuel ->
  mapping_loop fuel (Z.of_nat (length entries) + more) numNei
               (flat_map encode_entry entries ++ rest) pay =
  (pay' <- bind_all entries pay ;;
   mapping_loop (fuel - length entries) more numNei rest pay')%result.
Proof.
  induction entries as [|[k u] entries IH];
    intros fuel pay more rest Hlen Hmore Hfuel.
  - cbn [length flat_map app bind_all rbind]. now rewrite Nat.sub_0_r.
  - destruct fuel as [|fuel]; [simpl in Hfuel; lia|].
    assert (Hk : length k = numNei) by (apply (Hlen (k, u)); now left).
    subst numNei.
    cbn [length mapping_loop].
    destruct (Z.eqb_spec (Z.of_nat (S (length entries)) + more) 0) as [E|_];
      [lia|].
    cbn [flat_map encode_entry fst snd app].
    rewrite <- !app_assoc.
    rewrite read_key_encoded. cbn [rbind app read_num bind_all fst snd].
    destruct (Trie.insert k u pay) as [pay1 [|]]; cbn [fst snd]; auto.
    replace (Z.of_nat (S (length entries)) + more - 1)%Z
      with (Z.of_nat (length entries) + more)%Z by lia.
    rewrite IH.
    + reflexivity.
    + intros kv Hkv. apply Hlen. now right.
    + exact Hmore.
    + simpl in Hfuel. lia.
Qed.

Lemma read_key_bad partial : forall todo j key tail,
  length partial < todo -> read_int tail = None ->
  read_key todo j key (map LInt partial ++ tail) =
  Err (BadElement (j + length partial)).
Proof.
  induction partial as [|z partial IH]; intros todo j key tail Hlt Htail;
    (destruct todo as [|todo]; [simpl in Hlt; lia|]); cbn [read_key map app].
  - rewrite Htail. simpl. now rewrite Nat.add_0_r.
  - cbn [read_int]. rewrite IH by (simpl in Hlt; auto; lia).
    simpl. f_equal. f_equal. lia.
Qed.

(** X16.  After any number of well-formed pairs with distinct keys, a
    malformed pair is reported by the error of its first defect: the end
    of the input, a missing opening bracket, an element that is no
    integer (by its position), another lexeme where the closing bracket is
    due, a utility that is no number (by the key).  When the input ends
    where the closing bracket is due, nothing is thrown: the assertion on
    the stream fails. *)
Theorem makeMAPPINGpayoff_syntax_errors temp numNei entries more :
  (forall kv, In kv entries -> length (fst kv) = numNei) ->
  NoDup (map fst entries) -> (0 < more)%Z ->
  let run bad :=
    makeMAPPINGpayoff
      (LInt (Z.of_nat (length entries) + more)
         :: flat_map encode_entry entries ++ bad) temp numNei in
  run [] = Err BadInput /\
  (forall x tail, x <> LBracket -> run (x :: tail) = Err (Expected false)) /\
  (forall partial tail, length partial < numNei -> read_int tail = None ->
     run (LBracket :: map LInt partial ++ tail) =
     Err (BadElement (length partial))) /\
  (forall key x tail, length key = numNei -> x <> RBracket ->
     run (LBracket :: map LInt key ++ x :: tail) = Err (Expected true)) /\
  (forall key, length key = numNei ->
     run (LBracket :: map LInt key) = Err AssertFailed) /\
  (forall key tail, length key = numNei -> read_num tail = None ->
     run (LBracket :: map LInt key ++ RBracket :: tail) =
     Err (BadUtility key)).
Proof.
  intros Hlen Hnd Hmore. cbv zeta.
  destruct (@bind_all_complete entries Trie.reset Hnd) as (pay' & Hbind).
  { intros k _. reflexivity. }
  assert (Hrun : forall bad,
    makeMAPPINGpayoff
      (LInt (Z.of_nat (length entries) + more)
         :: flat_map encode_entry entries ++ bad) temp numNei =
    ('(pay, s) <- mapping_loop
                    (S (length (flat_map encode_entry entries ++ bad))
                       - length entries)
                    more numNei bad pay' ;;
     _ <- mapping_check temp pay ;; Ok (pay, s))%result).
  { intros bad. unfold makeMAPPINGpayoff. cbn [read_int].
    rewrite mapping_loop_prefix; auto; try lia.
    - now rewrite Hbind.
    - rewrite length_app. pose proof (encoded_length entries). lia. }
  assert (Hfuel : forall bad,
    exists f, S (length (flat_map encode_entry entries ++ bad))
              - length entries = S f).
  { intros bad. rewrite length_app. pose proof (encoded_length entries).
    exists (length (flat_map encode_entry entries) + length bad
            - length entries). lia. }
  assert (Hnz : (more =? 0)%Z = false) by (apply Z.eqb_neq; lia).
  split; [|split; [|split; [|split; [|split]]]].
  - rewrite Hrun. destruct (Hfuel []) as (f & ->).
    cbn [mapping_loop]. now rewrite Hnz.
  - intros x tail Hx. rewrite Hrun. destruct (Hfuel (x :: tail)) as (f & ->).
    cbn [mapping_loop]. rewrite Hnz. destruct x; try reflexivity. congruence.
  - intros partial tail Hp Htail. rewrite Hrun.
    destruct (Hfuel (LBracket :: map LInt partial ++ tail)) as (f & ->).
    cbn [mapping_loop]. rewrite Hnz.
    now rewrite read_key_bad by assumption.
  - intros key x tail Hk Hx. rewrite Hrun.
    destruct (Hfuel (LBracket :: map LInt key ++ x :: tail)) as (f & ->).
    cbn [mapping_loop]. rewrite Hnz. subst numNei.
    rewrite read_key_encoded. cbn [rbind app].
    destruct x; try reflexivity. congruence.
  - intros key Hk. rewrite Hrun.
    destruct (Hfuel (LBracket :: map LInt key)) as (f & ->).
    cbn [mapping_loop]. rewrite Hnz. subst numNei.
    rewrite <- (app_nil_r (map LInt key)), read_key_encoded.
    reflexivity.
  - intros key tail Hk Htail. rewrite Hrun.
    destruct (Hfuel (LBracket :: map LInt key ++ RBracket :: tail)) as (f & ->).
    cbn [mapping_loop]. rewrite Hnz. subst numNei.
    rewrite read_key_encoded. cbn [rbind app]. now rewrite Htail.
Qed.

End MappingMore.

Section PayoffSection.









End PayoffSection.

(* ================================================================== *)
(** * The support of a projected strategy, and the payoff bounds *)

Section Positive.
Local Open Scope Qc_scope.

Lemma in_add k w m kw :
  In kw (Trie.add k w m) ->
  In kw m \/ kw = (k, w) \/ exists v, In (k, v) m /\ kw = (k, v + w).
Proof.
  unfold Trie.add.
  induction m as [|[k0 v0] m IH]; cbn [Trie.alter].
  - intros [<- | []]; auto.
  - destruct (Trie.cfg_compare k k0) eqn:C.
    + apply cfg_compare_eq in C. subst k0.
      intros [<- | H]; [|left; now right].
      right; right. exists v0. split; [now left | reflexivity].
    + intros [<- | H]; auto.
    + intros [<- | H]; [left; now left|].
      apply IH in H as [H | [H | (v & H & E)]]; auto.
      * left; now right.
      * right; right. exists v. split; [now right | exact E].
Qed.

Lemma Qcplus_pos (x y : Qc) : 0 < x -> 0 < y -> 0 < x + y.
Proof.
  intros Hx Hy. apply Qclt_le_trans with (y := x); [exact Hx|].
  replace x with (x + 0) at 1 by ring.
  apply Qcplus_le_compat; [apply Qcle_refl | now apply Qclt_le_weak].
Qed.
End Positive.

Section ProjectedSupport.
Context {projtype : Type} {PF : ProjFunc projtype}.
Local Abbreviation AGG := (@AGG projtype).
Local Open Scope Qc_scope.

Lemma project_fold_support (key : nat -> config) s js : forall d,
  let d' := fold_left
              (fun d j => if Qcltb 0 (nth j s 0)
                          then Trie.add (key j) (nth j s 0) d else d) js d in
  (forall k, In k (Trie.keys d') <->
             In k (Trie.keys d) \/
             exists j, In j js /\ 0 < nth j s 0 /\ k = key j) /\
  ((forall kw, In kw d -> 0 < snd kw) -> forall kw, In kw d' -> 0 < snd kw).
Proof.
  induction js as [|j js IH]; intros d; cbn [fold_left]; cbv zeta.
  - split; [|auto]. intros k. split; [now left|].
    intros [H | (j & [] & _)]. exact H.
  - specialize (IH (if Qcltb 0 (nth j s 0)
                    then Trie.add (key j) (nth j s 0) d else d)).
    cbv zeta in IH. destruct IH as (IHk & IHw).
    destruct (Qcltb 0 (nth j s 0)) eqn:E.
    + apply Qcltb_lt in E. split.
      * intros k. rewrite IHk, keys_add. split.
        -- intros [[-> | H] | (j' & Hj' & Hpos & ->)]; auto.
           ++ right. exists j. split; [now left | now split].
           ++ right. exists j'. split; [now right | now split].
        -- intros [H | (j' & [<- | Hj'] & Hpos & ->)]; auto.
           right. exists j'. now repeat split.
      * intros Hd. apply IHw. intros kw Hkw.
        apply in_add in Hkw as [H | [-> | (v & H & ->)]]; auto.
        simpl. apply Qcplus_pos; [apply (Hd _ H) | exact E].
    + split.
      * intros k. rewrite IHk. split.
        -- intros [H | (j' & Hj' & Hpos & ->)]; auto.
           right. exists j'. split; [now right | now split].
        -- intros [H | (j' & [<- | Hj'] & Hpos & ->)]; auto.
           ++ apply Qcltb_lt in Hpos. congruence.
           ++ right. exists j'. now repeat split.
      * exact IHw.
Qed.

(** X17.  After [doProjection(v, p, s)] the keys of [projectedStrat[v][p]]
    are the projections of the actions of [p] that have a positive
    probability, and every weight it stores is positive. *)
Theorem doProjection_support (g : AGG) v p s :
  (v < length (projectedStrat g))%nat ->
  (p < length (nth v (projectedStrat g) []))%nat ->
  let d := nth p (nth v (projectedStrat (doProjection_player g v p s)) [])
               Trie.reset in
  (forall k, In k (Trie.keys d) <->
             exists a, (a < nth p (actions g) 0)%nat /\ 0 < nth a s 0 /\
                       k = nth a (nth p (nth v (projection g) []) []) []) /\
  (forall k w, In (k, w) d -> 0 < w).
Proof.
  intros Hv Hp. cbv zeta.
  rewrite projectedStrat_doProjection_player by assumption.
  unfold project.
  destruct (project_fold_support
              (fun j => nth j (nth p (nth v (projection g) []) []) []) s
              (seq 0 (nth p (actions g) 0%nat)) Trie.reset) as (Hk & Hw).
  cbv zeta in Hk, Hw. split.
  - intros k. rewrite Hk. split.
    + intros [[] | (j & Hj & Hpos & ->)]. apply in_seq in Hj.
      exists j. split; [lia | now split].
    + intros (a & Ha & Hpos & ->). right. exists a.
      split; [apply in_seq; lia | now split].
  - intros k w Hin. apply (Hw (fun kw H => match H with end) (k, w) Hin).
Qed.

End ProjectedSupport.

Section MaxMin.
Context {projtype : Type} {PF : ProjFunc projtype}.
Local Abbreviation AGG := (@AGG projtype).
Local Open Scope Qc_scope.

Lemma Qcmax_spec a b : a <= Qcmax a b /\ b <= Qcmax a b /\
                       (Qcmax a b = a \/ Qcmax a b = b).
Proof.
  unfold Qcmax. destruct (Qcltb a b) eqn:E.
  - apply Qcltb_lt in E. split; [now apply Qclt_le_weak|].
    split; [apply Qcle_refl | now right].
  - split; [apply Qcle_refl|]. split; [|now left].
    apply Qcnot_lt_le. intros H. apply Qcltb_lt in H. congruence.
Qed.

Lemma Qcmin_spec a b : Qcmin a b <= a /\ Qcmin a b <= b /\
                       (Qcmin a b = a \/ Qcmin a b = b).
Proof.
  unfold Qcmin. destruct (Qcltb b a) eqn:E.
  - apply Qcltb_lt in E. split; [now apply Qclt_le_weak|].
    split; [apply Qcle_refl | now right].
  - split; [apply Qcle_refl|]. split; [|now left].
    apply Qcnot_lt_le. intros H. apply Qcltb_lt in H. congruence.
Qed.

(** A scan of tables that keeps the better of the running value and each
    payoff. *)
Lemma scan_tables (pick : AggNumber -> AggNumber -> AggNumber)
    (R : AggNumber -> AggNumber -> Prop) (tables : list aggpayoff) :
  (forall a b, R a (pick a b) /\ R b (pick a b) /\
               (pick a b = a \/ pick a b = b)) ->
  (forall a, R a a) -> (forall a b c, R a b -> R b c -> R a c) ->
  forall r0,
    let r := fold_left
               (fun result t =>
                  fold_left (fun result it => pick result (snd it)) t result)
               tables r0 in
    R r0 r /\
    (forall t kw, In t tables -> In kw t -> R (snd kw) r) /\
    (r = r0 \/ exists t kw, In t tables /\ In kw t /\ snd kw = r).
Proof.
  intros Hpick Hrefl Htrans.
  assert (Hrow : forall (t : aggpayoff) r0,
            let r := fold_left (fun result it => pick result (snd it)) t r0 in
            R r0 r /\ (forall kw, In kw t -> R (snd kw) r) /\
            (r = r0 \/ exists kw, In kw t /\ snd kw = r)).
  { induction t as [|it t IH]; intros r0; cbn [fold_left]; cbv zeta.
    - split; [apply Hrefl|]. split; [intros kw []|now left].
    - destruct (IH (pick r0 (snd it))) as (H1 & H2 & H3).
      destruct (Hpick r0 (snd it)) as (P1 & P2 & P3).
      split; [eapply Htrans; eassumption|]. split.
      + intros kw [<- | Hkw]; [eapply Htrans; eassumption | now apply H2].
      + destruct H3 as [-> | (kw & Hkw & E)].
        * destruct P3 as [-> | ->]; [now left|].
          right. exists it. split; [now left | reflexivity].
        * right. exists kw. split; [now right | exact E]. }
  induction tables as [|t tables IH]; intros r0; cbn [fold_left]; cbv zeta.
  - split; [apply Hrefl|]. split; [intros t kw []|now left].
  - destruct (Hrow t r0) as (R1 & R2 & R3).
    destruct (IH (fold_left (fun result it => pick result (snd it)) t r0))
      as (H1 & H2 & H3).
    split; [eapply Htrans; eassumption|]. split.
    + intros t' kw [<- | Ht'] Hkw.
      * eapply Htrans; [now apply R2 | exact H1].
      * now apply (H2 t').
    + destruct H3 as [-> | (t' & kw & Ht' & Hkw & E)].
      * destruct R3 as [-> | (kw & Hkw & E)]; [now left|].
        right. exists t, kw. split; [now left | now split].
      * right. exists t', kw. split; [now right | now split].
Qed.

(** X23.  What [getMaxPayoff] and [getMinPayoff] do return: bounds of the
    first binding of the table of node 0 and of every binding of the tables
    of the other nodes, each attained by one of these bindings. *)
Theorem getMaxPayoff_getMinPayoff_bounds (g : AGG) b :
  Trie.begin (nth 0 (payoffs g) []) = Some b ->
  exists M m,
    getMaxPayoff g = Some M /\ getMinPayoff g = Some m /\
    m <= snd b <= M /\
    (forall i kw, (1 <= i < numActionNodes g)%nat ->
                  In kw (nth i (payoffs g) []) -> m <= snd kw <= M) /\
    (M = snd b \/
     exists i kw, (1 <= i < numActionNodes g)%nat /\
                  In kw (nth i (payoffs g) []) /\ snd kw = M) /\
    (m = snd b \/
     exists i kw, (1 <= i < numActionNodes g)%nat /\
                  In kw (nth i (payoffs g) []) /\ snd kw = m).
Proof.
  intros Hb. unfold getMaxPayoff, getMinPayoff. rewrite Hb.
  eexists _, _. split; [reflexivity|]. split; [reflexivity|].
  pose proof (fold_left_map
                (fun result (t : aggpayoff) =>
                   fold_left (fun result it => Qcmax result (snd it)) t result)
                (fun i => nth i (payoffs g) [])
                (seq 1 (numActionNodes g - 1)) (snd b)) as EM.
  pose proof (fold_left_map
                (fun result (t : aggpayoff) =>
                   fold_left (fun result it => Qcmin result (snd it)) t result)
                (fun i => nth i (payoffs g) [])
                (seq 1 (numActionNodes g - 1)) (snd b)) as Em.
  cbv beta in EM, Em. rewrite <- EM, <- Em. clear EM Em.
  pose proof (@scan_tables Qcmax Qcle
                (map (fun i => nth i (payoffs g) [])
                     (seq 1 (numActionNodes g - 1)))
                Qcmax_spec Qcle_refl Qcle_trans (snd b)) as HM.
  assert (Hm : forall x y, Qcmin x y <= x /\ Qcmin x y <= y /\
                           (Qcmin x y = x \/ Qcmin x y = y))
    by apply Qcmin_spec.
  pose proof (@scan_tables Qcmin (fun x y => y <= x)
                (map (fun i => nth i (payoffs g) [])
                     (seq 1 (numActionNodes g - 1)))
                Hm Qcle_refl
                (fun x y z H1 H2 => Qcle_trans _ _ _ H2 H1) (snd b)) as Hmin.
  cbv zeta in HM, Hmin.
  destruct HM as (M1 & M2 & M3). destruct Hmin as (m1 & m2 & m3).
  assert (Hmem : forall i, (1 <= i < numActionNodes g)%nat ->
            In (nth i (payoffs g) [])
               (map (fun i => nth i (payoffs g) [])
                    (seq 1 (numActionNodes g - 1)))).
  { intros i Hi. apply in_map_iff. exists i. split; [reflexivity|].
    apply in_seq. lia. }
  split; [now split|]. split; [|split].
  - intros i kw Hi Hkw. split; [eapply m2 | eapply M2]; eauto.
  - destruct M3 as [E | (t & kw & Ht & Hkw & E)]; [left; exact E|].
    apply in_map_iff in Ht as (i & <- & Hi). apply in_seq in Hi.
    right. exists i, kw. split; [lia | now split].
  - destruct m3 as [E | (t & kw & Ht & Hkw & E)]; [left; exact E|].
    apply in_map_iff in Ht as (i & <- & Hi). apply in_seq in Hi.
    right. exists i, kw. split; [lia | now split].
Qed.
End MaxMin.

(* ================================================================== *)
(** * Relations between the oracle calls *)

Section ChainFacts.
Local Open Scope Qc_scope.

Lemma integrate_ext f f' (m : aggdistrib) :
  (forall k, f k = f' k) -> integrate f m = integrate f' m.
Proof.
  intros H. induction m as [|[k w] m IH]; [reflexivity|].
  rewrite !integrate_cons, IH, H. reflexivity.
Qed.

Lemma integrate_linear J (c : J -> AggNumber) (F : J -> config -> AggNumber)
    (js : list J) (m : aggdistrib) :
  integrate (fun k => Qcsum (map (fun j => c j * F j k) js)) m =
  Qcsum (map (fun j => c j * integrate (F j) m) js).
Proof.
  induction m as [|[k w] m IH].
  - rewrite integrate_nil. induction js as [|j js IHj]; [reflexivity|].
    cbn [map]. rewrite Qcsum_cons, <- IHj, integrate_nil. ring.
  - rewrite integrate_cons, IH. clear IH.
    induction js as [|j js IHj]; [cbn [map]; unfold Qcsum; simpl; ring|].
    cbn [map]. rewrite !Qcsum_cons, integrate_cons, <- IHj. ring.
Qed.

Variable arity : nat.
Variable phi : nat -> Z -> Z -> Z.

Local Abbreviation chain := (chain arity phi).
Local Abbreviation pull := (pull arity phi).

Lemma chain_cons m ms x0 :
  chain (m :: ms) x0 = chain ms (Trie.multiply x0 m arity phi).
Proof. reflexivity. Qed.

Lemma integrate_chain f ms : forall x0,
  integrate f (chain ms x0) = integrate (pull ms f) x0.
Proof.
  induction ms as [|m ms IH]; intros x0; [reflexivity|].
  rewrite chain_cons, IH, integrate_multiply. reflexivity.
Qed.

Lemma chain_linear J (c : J -> AggNumber) (delta : J -> aggdistrib)
    (js : list J) (m : aggdistrib) :
  (forall f, integrate f m =
             Qcsum (map (fun j => c j * integrate f (delta j)) js)) ->
  forall f post pre x0,
    integrate f (chain (pre ++ m :: post) x0) =
    Qcsum (map (fun j => c j * integrate f (chain (pre ++ delta j :: post) x0))
               js).
Proof.
  intros Hm f post.
  induction pre as [|m0 pre IH]; intros x0.
  - cbn [app]. rewrite chain_cons, integrate_chain, integrate_multiply.
    rewrite (integrate_ext _ _ x0
               (fun ka => Hm (fun kb => pull post f
                                          (Trie.compose_key arity phi ka kb)))).
    rewrite integrate_linear. f_equal. apply map_ext. intros j.
    f_equal. now rewrite chain_cons, integrate_chain, integrate_multiply.
  - cbn [app]. rewrite chain_cons, IH. f_equal.
Qed.

End ChainFacts.

Section JacobianFacts.
Context {projtype : Type} {PF : ProjFunc projtype}.
Local Abbreviation AGG := (@AGG projtype).

Lemma computeP_getJ (g : AGG) p a p2 a2 :
  length (Pr g) = numPlayers g -> 0 < numPlayers g ->
  let g' := computeP g p a (Z.of_nat p2) (Z.of_nat a2) in
  let v := nth a (nth p (actionSets g) []) 0 in
  let own := nth a (nth p (nth v (projection g) []) []) [] in
  let order := nth a (nth p (Porder g) []) [] in
  static g' = static g /\
  nth (numPlayers g - 1) (Pr g') Trie.reset =
  fold_left
    (fun x k =>
       Trie.multiply x
         (if nth k order 0 =? p2
          then [(nth a2 (nth p2 (nth v (projection g) []) []) [], 1%Qc)]
          else nth (nth k order 0) (nth v (projectedStrat g) []) Trie.reset)
         (length (nth v (neighbors g) []))
         (composer (nth v (projFunctions g) [])))
    (seq 1 (numPlayers g - 1)) [(own, 1%Qc)].
Proof.
  intros HPr Hn. cbv zeta. unfold computeP.
  cbn [static set_Pr set_projectedStrat Pr projectedStrat numPlayers
       actionSets projection Porder neighbors projFunctions].
  split; [reflexivity|].
  set (v := nth a (nth p (actionSets g) []) 0).
  set (own := nth a (nth p (nth v (projection g) []) []) []).
  set (order := nth a (nth p (Porder g) []) []).
  set (P0 := upd 0 _ (Pr g)).
  set (F := fun (k : nat) (prev : aggdistrib) =>
              Trie.multiply prev
                (if nth k order 0 =? p2
                 then [(nth a2 (nth p2 (nth v (projection g) []) []) [], 1%Qc)]
                 else nth (nth k order 0) (nth v (projectedStrat g) [])
                          Trie.reset)
                (length (nth v (neighbors g) []))
                (composer (nth v (projFunctions g) []))).
  rewrite (@fold_left_ext_in _ _ _
             (fun P k => upd k (F k (nth (k - 1) P Trie.reset)) P)).
  2:{ intros P k _. cbv beta zeta. unfold F.
      destruct (Z.eqb_spec (Z.of_nat (nth k order 0)) (Z.of_nat p2)) as [E|E].
      - apply Nat2Z.inj in E. rewrite E, Nat.eqb_refl.
        destruct (Z.eqb_spec (Z.of_nat a2) (-1)); [lia|].
        rewrite !Nat2Z.id. reflexivity.
      - destruct (Nat.eqb_spec (nth k order 0) p2); [congruence|].
        reflexivity. }
  assert (Hlen0 : length P0 = length (Pr g)) by apply upd_length.
  destruct (@fold_upd_chain _ F Trie.reset (numPlayers g - 1) P0)
    as (Hlen & Hnth).
  { rewrite Hlen0. lia. }
  rewrite Hnth. unfold P0. rewrite nth_upd_same by lia.
  reflexivity.
Qed.

Lemma getJ_ok (g : AGG) p a p2 a2 s :
  game_ok g -> p < numPlayers g -> a < length (nth p (actionSets g) []) ->
  fst (getJ g p a p2 a2 s) = getJ_value g p a p2 a2 s /\
  static (snd (getJ g p a p2 a2 s)) = static g.
Proof.
  intros Hok Hp Ha. unfold getJ. cbn [fst snd].
  set (v := nth a (nth p (actionSets g) []) 0).
  assert (Hv : v < numActionNodes g) by now apply (ok_nodes Hok).
  assert (Hv' : v < length (projectedStrat g)) by now rewrite (ok_pS Hok).
  destruct (@doProjection_spec _ g v s Hv') as (Hs1 & HPr1 & Hlen1 & Hrow1 & Hq1).
  set (g1 := doProjection g v s) in *.
  apply static_fields in Hs1 as Hf1.
  destruct Hf1 as (E1 & E2 & E3 & E4 & E5 & E6 & E7 & E8 & E9 & E10).
  destruct (@computeP_getJ g1 p a p2 a2) as (Hs2 & Hval);
    [rewrite E1, HPr1; apply (ok_Pr Hok) | rewrite E1; lia |].
  set (g2 := computeP g1 p a (Z.of_nat p2) (Z.of_nat a2)) in *.
  apply static_fields in Hs2 as Hf2.
  destruct Hf2 as (F1 & F2 & F3 & F4 & F5 & F6 & F7 & F8 & F9 & F10).
  split; [|now rewrite Hs2].
  rewrite F1, Hval, F7, E7.
  unfold getJ_value. rewrite E1, E5, E6, E8, E9, E10. fold v.
  f_equal. apply fold_left_ext_in. intros x k Hk.
  apply in_seq in Hk.
  assert (Hq : nth k (nth a (nth p (Porder g) []) []) 0 < numPlayers g).
  { apply (ok_Porder Hok); auto. lia. }
  unfold getJ_factor.
  destruct (nth k (nth a (nth p (Porder g) []) []) 0 =? p2); [reflexivity|].
  rewrite Hq1; [reflexivity | exact Hq |].
  now rewrite (ok_pS_row Hok).
Qed.

End JacobianFacts.

Section OracleFrames.
Context {projtype : Type} {PF : ProjFunc projtype}.
Local Abbreviation AGG := (@AGG projtype).

(** X18.  An oracle call changes nothing of the game but its scratch
    buffers, and what these hold does not change the value of a call:
    [getV] returns the same value after another call as on the game as it
    was constructed. *)
Theorem getV_after_getV (h : header) st (g : AGG) :
  makeAGG h st = Ok g -> header_read h -> header_ranges h ->
  forall p0 a0 s0 p a s,
    p0 < numPlayers g -> a0 < nth p0 (actions g) 0 ->
    p < numPlayers g -> a < nth p (actions g) 0 ->
    exists v0 g1 v g2 g2',
      getV g p0 a0 s0 = Ok (v0, g1) /\
      getV g1 p a s = Ok (v, g2) /\
      getV g p a s = Ok (v, g2') /\
      static g1 = static g /\ static g2 = static g.
Proof.
  intros Hg Hread Hranges p0 a0 s0 p a s Hp0 Ha0 Hp Ha.
  pose proof (makeAGG_game_ok _ Hg Hread Hranges) as Hok.
  rewrite (ok_actions Hok) in Ha0, Ha by assumption.
  destruct (getV_ok s0 Hok Hp0 Ha0) as (g1 & H1 & Hs1 & Hok1).
  destruct (getV_ok s Hok Hp Ha) as (g2' & H2' & _).
  destruct (static_fields Hs1) as (E1 & _ & _ & _ & E5 & _).
  destruct (@getV_ok _ _ g1 p a s Hok1) as (g2 & H2 & Hs2 & _);
    [now rewrite E1 | now rewrite E5 |].
  exists (getV_value g p0 a0 s0), g1, (getV_value g p a s), g2, g2'.
  split; [exact H1|]. split; [|split; [exact H2'|split; [exact Hs1|]]].
  - rewrite H2. now rewrite (getV_value_static p a s Hs1).
  - now rewrite Hs2.
Qed.

(** X22.  [getPayoffVector] returns one entry per action of the player,
    the entry of action [a] being what [getV(p, a, s)] returns. *)
Theorem getPayoffVector_entries (h : header) st (g : AGG) :
  makeAGG h st = Ok g -> header_read h -> header_ranges h ->
  forall p s, p < numPlayers g ->
    exists vs g',
      getPayoffVector g p s = Ok (vs, g') /\
      length vs = nth p (actions g) 0 /\
      forall a, a < nth p (actions g) 0 ->
        exists g_a, getV g p a s = Ok (nth a vs 0%Qc, g_a).
Proof.
  intros Hg Hread Hranges p s Hp.
  pose proof (makeAGG_game_ok _ Hg Hread Hranges) as Hok.
  destruct (getPayoffVector_ok s Hok Hp) as (g' & Hvec).
  eexists _, g'. split; [exact Hvec|].
  split; [now rewrite length_map, length_seq|].
  intros a Ha.
  destruct (@getV_ok _ _ g p a s Hok Hp) as (g_a & HV & _).
  { now rewrite <- (ok_actions Hok). }
  exists g_a. rewrite HV. f_equal. f_equal.
  now rewrite (nth_map_seq _ 0%Qc).
Qed.

End OracleFrames.

Section OracleRelations.
Context {projtype : Type} {PF : ProjFunc projtype}.
Local Abbreviation AGG := (@AGG projtype).
Local Open Scope Qc_scope.

Lemma constructed_order (h : header) st (g : AGG) :
  makeAGG h st = Ok g -> header_read h ->
  forall p a, (p < numPlayers g)%nat ->
    (a < length (nth p (actionSets g) []))%nat ->
    let order := nth a (nth p (Porder g) []) [] in
    nth 0 order 0%nat = p /\ NoDup order /\ length order = numPlayers g /\
    (forall q, (q < numPlayers g)%nat -> In q order).
Proof.
  intros Hg Hread p a Hp Ha. cbv zeta.
  rewrite (makeAGG_Porder _ Hg Hread) by assumption.
  set (pS := nth _ (projectedStrat g) []).
  pose proof (initPorder_perm pS Hp) as Hperm.
  split; [reflexivity|]. split; [|split].
  - apply (Permutation_NoDup Hperm), seq_NoDup.
  - rewrite <- (Permutation_length Hperm). apply length_seq.
  - intros q Hq. apply (Permutation_in _ Hperm). apply in_seq. lia.
Qed.

Lemma project_ext (g : AGG) v q s s' :
  (forall j, (j < nth q (actions g) 0)%nat -> nth j s 0 = nth j s' 0) ->
  project g v q s = project g v q s'.
Proof.
  intros H. unfold project. apply fold_left_ext_in.
  intros d j Hj. apply in_seq in Hj. rewrite H by lia. reflexivity.
Qed.

(** X19.  [getV(p, a, s)] does not depend on the strategy of [p] itself:
    two profiles that agree on the strategies of the other players give the
    same value. *)
Theorem getV_ignores_own_strategy (h : header) st (g : AGG) :
  makeAGG h st = Ok g -> header_read h -> header_ranges h ->
  forall p a s s',
    (p < numPlayers g)%nat -> (a < nth p (actions g) 0)%nat ->
    (forall q j, (q < numPlayers g)%nat -> q <> p ->
       (j < nth q (actions g) 0)%nat ->
       nth (j + firstAction g q) s 0 = nth (j + firstAction g q) s' 0) ->
    exists v g1 g2,
      getV g p a s = Ok (v, g1) /\ getV g p a s' = Ok (v, g2).
Proof.
  intros Hg Hread Hranges p a s s' Hp Ha Hagree.
  pose proof (makeAGG_game_ok _ Hg Hread Hranges) as Hok.
  rewrite (ok_actions Hok) in Ha by exact Hp.
  destruct (getV_ok s Hok Hp Ha) as (g1 & H1 & _).
  destruct (getV_ok s' Hok Hp Ha) as (g2 & H2 & _).
  exists (getV_value g p a s), g1, g2. split; [exact H1|].
  rewrite H2. f_equal. f_equal.
  destruct (constructed_order _ Hg Hread Hp Ha) as (H0 & Hnd & Hlen & _).
  unfold getV_value. f_equal. apply fold_left_ext_in.
  intros x k Hk. apply in_seq in Hk. f_equal.
  set (order := nth a (nth p (Porder g) []) []) in *.
  assert (Hq : (nth k order 0 < numPlayers g)%nat).
  { apply (ok_Porder Hok); auto. lia. }
  assert (Hne : nth k order 0%nat <> p).
  { intros E. rewrite <- H0 in E.
    apply (proj1 (NoDup_nth order 0%nat) Hnd) in E; lia. }
  apply project_ext. intros j Hj.
  rewrite !nth_skipn, !(Nat.add_comm (firstAction g _) j).
  symmetry. now apply Hagree.
Qed.

(** X20.  [getJ] with [player2] equal to [player1] ignores [act2] and
    returns what [getV] returns. *)
Theorem getJ_same_player (h : header) st (g : AGG) :
  makeAGG h st = Ok g -> header_read h -> header_ranges h ->
  forall p a a2 s,
    (p < numPlayers g)%nat -> (a < nth p (actions g) 0)%nat ->
    exists g', getV g p a s = Ok (fst (getJ g p a p a2 s), g').
Proof.
  intros Hg Hread Hranges p a a2 s Hp Ha.
  pose proof (makeAGG_game_ok _ Hg Hread Hranges) as Hok.
  rewrite (ok_actions Hok) in Ha by exact Hp.
  destruct (getV_ok s Hok Hp Ha) as (g1 & H1 & _).
  exists g1. rewrite H1. f_equal. f_equal.
  rewrite (proj1 (getJ_ok p a2 s Hok Hp Ha)).
  destruct (constructed_order _ Hg Hread Hp Ha) as (H0 & Hnd & Hlen & _).
  unfold getV_value, getJ_value. f_equal. apply fold_left_ext_in.
  intros x k Hk. apply in_seq in Hk. f_equal.
  set (order := nth a (nth p (Porder g) []) []) in *.
  unfold getJ_factor.
  destruct (Nat.eqb_spec (nth k order 0%nat) p) as [E|E]; [|reflexivity].
  rewrite <- H0 in E.
  apply (proj1 (NoDup_nth order 0%nat) Hnd) in E; lia.
Qed.

Lemma seq_split_at k0 m :
  (1 <= k0 <= m)%nat ->
  seq 1 m = seq 1 (k0 - 1) ++ k0 :: seq (S k0) (m - k0).
Proof.
  intros H. replace m with ((k0 - 1) + S (m - k0))%nat at 1 by lia.
  rewrite seq_app. f_equal. replace (1 + (k0 - 1))%nat with k0 by lia.
  reflexivity.
Qed.

(** X21.  The value of an action is linear in the strategy of every other
    player [p2], with the entries of [getJ] as coefficients:
    [getV(p, a, s)] is the sum over the actions [a2] of [p2] of
    [s[p2, a2] * getJ(p, a, p2, a2, s)]. *)
Theorem getV_linear_in_opponent (h : header) st (g : AGG) :
  makeAGG h st = Ok g -> header_read h -> header_ranges h ->
  forall p a p2 s,
    (p < numPlayers g)%nat -> (a < nth p (actions g) 0)%nat ->
    (p2 < numPlayers g)%nat -> p2 <> p ->
    (forall a2, (a2 < nth p2 (actions g) 0)%nat ->
                0 <= nth (a2 + firstAction g p2) s 0) ->
    exists g',
      getV g p a s =
      Ok (Qcsum (map (fun a2 => nth (a2 + firstAction g p2) s 0 *
                                fst (getJ g p a p2 a2 s))
                     (seq 0 (nth p2 (actions g) 0%nat))), g').
Proof.
  intros Hg Hread Hranges p a p2 s Hp Ha Hp2 Hne Hpos.
  pose proof (makeAGG_game_ok _ Hg Hread Hranges) as Hok.
  rewrite (ok_actions Hok) in Ha by exact Hp.
  destruct (getV_ok s Hok Hp Ha) as (g1 & H1 & _).
  exists g1. rewrite H1. f_equal. f_equal.
  destruct (constructed_order _ Hg Hread Hp Ha) as (H0 & Hnd & Hlen & Hin).
  set (order := nth a (nth p (Porder g) []) []) in *.
  destruct (In_nth order p2 0%nat (Hin p2 Hp2)) as (k0 & Hk0 & Ek0).
  assert (Hk0' : (1 <= k0 <= numPlayers g - 1)%nat).
  { destruct k0; [congruence | lia]. }
  assert (Hother : forall k, (k < numPlayers g)%nat -> k <> k0 ->
                             nth k order 0%nat <> p2).
  { intros k Hk Hkk E. rewrite <- Ek0 in E.
    apply (proj1 (NoDup_nth order 0%nat) Hnd) in E; lia. }
  set (v := nth a (nth p (actionSets g) []) 0%nat).
  set (arity := length (nth v (neighbors g) [])).
  set (phi := composer (nth v (projFunctions g) [])).
  set (own := nth a (nth p (nth v (projection g) []) []) []).
  set (U := nth v (payoffs g) []).
  set (Mv := fun k => project g v (nth k order 0%nat)
                              (skipn (firstAction g (nth k order 0%nat)) s)).
  set (pre := seq 1 (k0 - 1)).
  set (post := seq (S k0) (numPlayers g - 1 - k0)).
  set (delta := fun a2 : nat =>
                  [(nth a2 (nth p2 (nth v (projection g) []) []) [], 1)]
                  : aggdistrib).
  set (c := fun a2 : nat =>
              if Qcltb 0 (nth a2 (skipn (firstAction g p2) s) 0)
              then nth a2 (skipn (firstAction g p2) s) 0 else 0).
  assert (HV : getV_value g p a s =
               integrate (payoff_at U)
                 (chain arity phi (map Mv pre ++ Mv k0 :: map Mv post)
                        [(own, 1)])).
  { unfold getV_value. fold v own U arity phi order.
    rewrite inner_prod_integrate. f_equal.
    rewrite (seq_split_at Hk0'). fold pre post.
    unfold chain. rewrite <- (map_cons Mv), <- map_app, fold_left_map.
    reflexivity. }
  assert (HJ : forall a2, fst (getJ g p a p2 a2 s) =
               integrate (payoff_at U)
                 (chain arity phi (map Mv pre ++ delta a2 :: map Mv post)
                        [(own, 1)])).
  { intros a2. rewrite (proj1 (getJ_ok p2 a2 s Hok Hp Ha)).
    unfold getJ_value. fold v own U arity phi order.
    rewrite inner_prod_integrate. f_equal.
    rewrite (seq_split_at Hk0'). fold pre post.
    unfold chain. rewrite fold_left_app. cbn [fold_left].
    rewrite fold_left_app. cbn [fold_left]. rewrite !fold_left_map.
    replace (getJ_factor g v p2 a2 s (nth k0 order 0%nat)) with (delta a2)
      by (unfold getJ_factor; now rewrite Ek0, Nat.eqb_refl).
    assert (Hsame : forall ks x,
              (forall k, In k ks -> (k < numPlayers g)%nat /\ k <> k0) ->
              fold_left
                (fun x k => Trie.multiply x
                              (getJ_factor g v p2 a2 s (nth k order 0%nat))
                              arity phi) ks x =
              fold_left (fun x k => Trie.multiply x (Mv k) arity phi) ks x).
    { intros ks x Hks. apply fold_left_ext_in. intros y k Hk.
      destruct (Hks k Hk) as (Hlt & Hkk). unfold getJ_factor.
      destruct (Nat.eqb_spec (nth k order 0%nat) p2) as [E|E];
        [now apply Hother in E | reflexivity]. }
    rewrite !Hsame; [reflexivity | |].
    - intros k Hk. apply in_seq in Hk. lia.
    - intros k Hk. apply in_seq in Hk. lia. }
  rewrite HV.
  rewrite (@chain_linear arity phi nat c delta
             (seq 0 (nth p2 (actions g) 0%nat)) (Mv k0)).
  - f_equal. apply map_ext_in. intros a2 Ha2. apply in_seq in Ha2.
    rewrite HJ. f_equal. unfold c.
    rewrite nth_skipn, (Nat.add_comm (firstAction g p2) a2).
    destruct (Qcltb 0 (nth (a2 + firstAction g p2) s 0)) eqn:E; [reflexivity|].
    symmetry. apply Qcltb_zero_nonneg; [exact E|]. apply Hpos. lia.
  - intros f. unfold Mv. rewrite Ek0, integrate_project.
    f_equal. apply map_ext. intros j. unfold c, delta.
    rewrite integrate_cons, integrate_nil.
    destruct (Qcltb 0 (nth j (skipn (firstAction g p2) s) 0)); ring.
Qed.

End OracleRelations.

(* ================================================================== *)
(** * The oracle on profiles that are not mixed strategies *)

Lemma list_sum_firstn_le (l : list nat) : forall i,
  list_sum (firstn i l) <= list_sum l.
Proof.
  induction l as [|x l IH]; intros [|i]; simpl; try lia.
  specialize (IH i). lia.
Qed.

Lemma nth_firstn_below A (l : list A) d : forall T k,
  k < T -> nth k (firstn T l) d = nth k l d.
Proof.
  induction l as [|x l IH]; intros [|T] [|k] H; simpl; auto; try lia.
  apply IH. lia.
Qed.

Section Unvalidated.
Context {projtype : Type} {PF : ProjFunc projtype}.
Local Abbreviation AGG := (@AGG projtype).
Local Open Scope Qc_scope.

Lemma doProjection_fold_agree v s s' qs : forall g0 : AGG,
  (forall i j, In i qs -> (j < nth i (actions g0) 0)%nat ->
     nth (j + firstAction g0 i) s 0 = nth (j + firstAction g0 i) s' 0) ->
  fold_left (fun g i => doProjection_player g v i (skipn (firstAction g i) s))
            qs g0 =
  fold_left (fun g i => doProjection_player g v i (skipn (firstAction g i) s'))
            qs g0.
Proof.
  induction qs as [|q qs IH]; intros g0 H; cbn [fold_left]; [reflexivity|].
  assert (E : doProjection_player g0 v q (skipn (firstAction g0 q) s) =
              doProjection_player g0 v q (skipn (firstAction g0 q) s')).
  { unfold doProjection_player. f_equal. f_equal. f_equal.
    apply project_ext. intros j Hj.
    rewrite !nth_skipn, !(Nat.add_comm (firstAction g0 q) j).
    apply H; [now left | exact Hj]. }
  rewrite E. apply IH. intros i j Hi Hj. apply H; [now right | exact Hj].
Qed.

Lemma doProjection_agree (g : AGG) v s s' :
  agree g s s' -> doProjection g v s = doProjection g v s'.
Proof.
  intros H. unfold doProjection. apply doProjection_fold_agree.
  intros i j Hi Hj. apply in_seq in Hi. apply H; [lia | exact Hj].
Qed.

Lemma static_doProjection_fold v s qs : forall g0 : AGG,
  static (fold_left
            (fun g i => doProjection_player g v i (skipn (firstAction g i) s))
            qs g0) = static g0.
Proof.
  induction qs as [|q qs IH]; intros g0; cbn [fold_left]; [reflexivity|].
  now rewrite IH.
Qed.

Lemma getV_agree (g : AGG) p a s s' :
  agree g s s' -> getV g p a s = getV g p a s'.
Proof.
  intros H. unfold getV. destruct (nth_error (actionSets g) p); auto.
  destruct (nth_error l a); auto. now rewrite (@doProjection_agree g n s s' H).
Qed.

Lemma getJ_agree (g : AGG) p1 a1 p2 a2 s s' :
  agree g s s' -> getJ g p1 a1 p2 a2 s = getJ g p1 a1 p2 a2 s'.
Proof.
  intros H. unfold getJ.
  now rewrite (@doProjection_agree g _ s s' H).
Qed.

Lemma getV_keeps (g : AGG) p a s v g' :
  getV g p a s = Ok (v, g') ->
  numPlayers g' = numPlayers g /\ actions g' = actions g /\
  strategyOffset g' = strategyOffset g.
Proof.
  unfold getV. destruct (nth_error (actionSets g) p); [|discriminate].
  destruct (nth_error l a); [|discriminate].
  intros [= _ <-].
  pose proof (static_doProjection_fold n s (seq 0 (numPlayers g)) g) as Hs.
  fold (doProjection g n s) in Hs.
  apply static_fields in Hs as (E1 & E2 & E3 & _).
  cbn [computeP set_Pr numPlayers actions strategyOffset]. auto.
Qed.

Lemma getMixedPayoff_fold_agree p s s' acts :
  forall (g0 : AGG) r,
    agree g0 s s' -> (p < numPlayers g0)%nat ->
    (forall a, In a acts -> (a < nth p (actions g0) 0)%nat) ->
    fold_left (getMixedPayoff_step p s) acts (Ok (r, g0)) =
    fold_left (getMixedPayoff_step p s') acts (Ok (r, g0)).
Proof.
  induction acts as [|a acts IH]; intros g0 r H Hp Hacts; [reflexivity|].
  cbn [fold_left].
  assert (E : getMixedPayoff_step p s (Ok (r, g0)) a =
              getMixedPayoff_step p s' (Ok (r, g0)) a).
  { unfold getMixedPayoff_step. cbn [rbind]. cbv zeta.
    rewrite (H p a Hp) by (apply Hacts; now left).
    now rewrite (@getV_agree g0 p a s s' H). }
  rewrite E.
  destruct (getMixedPayoff_step p s' (Ok (r, g0)) a) as [[r1 g1]|e] eqn:Est.
  - assert (Hk : numPlayers g1 = numPlayers g0 /\ actions g1 = actions g0 /\
                 strategyOffset g1 = strategyOffset g0).
    { unfold getMixedPayoff_step in Est. cbn [rbind] in Est. cbv zeta in Est.
      destruct (Qcltb 0 (nth (a + firstAction g0 p) s' 0)).
      - destruct (getV g0 p a s') as [[v g2]|] eqn:Ev; cbn [rbind] in Est;
          [|discriminate].
        inversion Est; subst. eapply getV_keeps; eauto.
      - inversion Est; subst. auto. }
    destruct Hk as (E1 & E2 & E3). apply IH.
    + intros i j Hi Hj. unfold firstAction. rewrite E3.
      apply H; [now rewrite <- E1 | now rewrite <- E2].
    + now rewrite E1.
    + intros a' Ha'. rewrite E2. apply Hacts. now right.
  - clear. induction acts as [|a' acts IH']; [reflexivity|]. exact IH'.
Qed.

Lemma getMixedPayoff_agree (g : AGG) p s s' :
  agree g s s' -> (p < numPlayers g)%nat ->
  getMixedPayoff g p s = getMixedPayoff g p s'.
Proof.
  intros H Hp. unfold getMixedPayoff. apply getMixedPayoff_fold_agree; auto.
  intros a Ha. apply in_seq in Ha. lia.
Qed.

Lemma getPayoffVector_fold_agree p s s' acts :
  forall (g0 : AGG) dest,
    agree g0 s s' ->
    fold_left (getPayoffVector_step p s) acts (Ok (dest, g0)) =
    fold_left (getPayoffVector_step p s') acts (Ok (dest, g0)).
Proof.
  induction acts as [|a acts IH]; intros g0 dest H; [reflexivity|].
  cbn [fold_left].
  assert (E : getPayoffVector_step p s (Ok (dest, g0)) a =
              getPayoffVector_step p s' (Ok (dest, g0)) a).
  { unfold getPayoffVector_step. cbn [rbind].
    now rewrite (@getV_agree g0 p a s s' H). }
  rewrite E.
  destruct (getPayoffVector_step p s' (Ok (dest, g0)) a) as [[d1 g1]|e] eqn:Est.
  - assert (Hk : numPlayers g1 = numPlayers g0 /\ actions g1 = actions g0 /\
                 strategyOffset g1 = strategyOffset g0).
    { unfold getPayoffVector_step in Est. cbn [rbind] in Est.
      destruct (getV g0 p a s') as [[v g2]|] eqn:Ev; cbn [rbind] in Est;
        [|discriminate].
      inversion Est; subst. eapply getV_keeps; eauto. }
    destruct Hk as (E1 & E2 & E3). apply IH.
    intros i j Hi Hj. unfold firstAction. rewrite E3.
    apply H; [now rewrite <- E1 | now rewrite <- E2].
  - clear. induction acts as [|a' acts IH']; [reflexivity|]. exact IH'.
Qed.

Lemma getPayoffVector_agree (g : AGG) p s s' :
  agree g s s' -> getPayoffVector g p s = getPayoffVector g p s'.
Proof.
  intros H. unfold getPayoffVector. now apply getPayoffVector_fold_agree.
Qed.

Lemma makeAGG_totalActions (h : header) st (g : AGG) :
  makeAGG h st = Ok g -> totalActions g = list_sum (actions g).
Proof.
  intros Hg.
  apply makeAGG_inv in Hg as (an & Po & P & pays0 & pays & _ & _ & _ & _ &
    cls & pure & _ & _ & ->).
  cbn [totalActions actions].
  pose proof (ctor_offsets_spec (firstn (h_n h) (h_size h)) 0 0 0) as Hspec.
  cbv zeta in Hspec. destruct Hspec as (_ & H & _). rewrite H. reflexivity.
Qed.

Lemma agree_firstn (h : header) st (g : AGG) s :
  makeAGG h st = Ok g -> header_read h ->
  agree g (firstn (totalActions g) s) s.
Proof.
  intros Hg Hread i j Hi Hj.
  destruct (@makeAGG_offsets _ _ h st g Hg Hread) as (Hlen & Hoff).
  apply nth_firstn_below.
  rewrite (@makeAGG_totalActions h st g Hg), Hoff by lia.
  pose proof (list_sum_firstn_le (actions g) (S i)) as Hle.
  rewrite list_sum_firstn_S in Hle by lia. lia.
Qed.

Lemma clamp_nonneg s k : 0 <= nth k (clamp s) 0.
Proof.
  rewrite nth_clamp. unfold Qcmax.
  destruct (Qcltb 0 (nth k s 0)) eqn:E.
  - apply Qclt_le_weak. now apply Qcltb_lt.
  - apply Qcle_refl.
Qed.

(** C5, as the code has it.  The oracle does not validate the profile: no
    call tests its length or the sign of its entries.  On a profile that
    has an entry for every action of the game, whatever its length and
    with or without negative entries, [getV], [getMixedPayoff],
    [getPayoffVector] and [getJ] return a value: the value that they return
    on the profile of the dimension of the game without negative entries
    that is left when the entries past the last action are dropped and the
    negative entries are replaced by zero. *)
Theorem oracle_skips_nonpositive (h : header) st (g : AGG) :
  makeAGG h st = Ok g -> header_read h -> header_ranges h ->
  forall p a s,
    (p < numPlayers g)%nat -> (a < nth p (actions g) 0)%nat ->
    (totalActions g <= length s)%nat ->
    let s0 := clamp (firstn (totalActions g) s) in
    (length s0 = totalActions g /\ forall k, 0 <= nth k s0 0) /\
    (exists v g', getV g p a s = Ok (v, g') /\
                  getV g p a s0 = Ok (v, g')) /\
    (exists v g', getMixedPayoff g p s = Ok (v, g') /\
                  getMixedPayoff g p s0 = Ok (v, g')) /\
    (exists vs g', getPayoffVector g p s = Ok (vs, g') /\
                   getPayoffVector g p s0 = Ok (vs, g')) /\
    (forall p2 a2,
       (p2 < numPlayers g)%nat -> (a2 < nth p2 (actions g) 0)%nat ->
       getJ g p a p2 a2 s0 = getJ g p a p2 a2 s).
Proof.
  intros Hg Hread Hrange p a s Hp Ha Hlen s0.
  pose proof (@makeAGG_game_ok _ _ h st g Hg Hread Hrange) as Hok.
  pose proof (@agree_firstn h st g s Hg Hread) as Hag.
  rewrite (ok_actions Hok) in Ha by auto.
  split; [|split; [|split; [|split]]].
  - split; [|intros k; apply clamp_nonneg].
    unfold s0, clamp. rewrite length_map, length_firstn. lia.
  - destruct (@getV_ok _ _ g p a s Hok Hp Ha) as (g' & Hv & _).
    eexists _, g'. split; [exact Hv|].
    unfold s0. now rewrite getV_clamp, (@getV_agree g p a _ _ Hag).
  - destruct (@getMixedPayoff_ok _ _ g p s Hok Hp) as (g' & Hmix & _).
    eexists _, g'. split; [exact Hmix|].
    unfold s0. now rewrite getMixedPayoff_clamp, (@getMixedPayoff_agree g p _ _ Hag Hp).
  - destruct (@getPayoffVector_ok _ _ g p s Hok Hp) as (g' & Hvec).
    eexists _, g'. split; [exact Hvec|].
    unfold s0. now rewrite getPayoffVector_clamp, (@getPayoffVector_agree g p _ _ Hag).
  - intros p2 a2 _ _. unfold s0.
    now rewrite getJ_clamp, (@getJ_agree g p a p2 a2 _ _ Hag).
Qed.

End Unvalidated.

(* ================================================================== *)
(** * Players with the same actions *)

Section Anonymity.
Context {projtype : Type} {PF : ProjFunc projtype} {AC : @ProjFuncAC projtype PF}.
Local Abbreviation AGG := (@AGG projtype).

(** X25.  The payoff of an action depends on the other players through
    the configuration only: when two players with the same action set
    exchange their actions, the payoff of the action that changes hands is
    the same. *)
Theorem getPurePayoff_exchange (h : header) st (g : AGG) :
  makeAGG h st = Ok g -> header_read h -> header_ranges h ->
  forall p p' sigma,
    p < numPlayers g -> p' < numPlayers g ->
    nth p (actionSets g) [] = nth p' (actionSets g) [] ->
    pure_profile g sigma ->
    let sigma' := map (fun q => nth (exchange p p' q) sigma 0)
                      (seq 0 (numPlayers g)) in
    exists u, getPurePayoff g p sigma = Ok u /\
              getPurePayoff g p' sigma' = Ok u.
Proof.
  intros Hg Hread Hrange p p' sigma Hp Hp' Esets Hpure. cbv zeta.
  pose proof (@pure_key_accepted _ _ AC h st g Hg Hread Hrange p sigma Hp Hpure)
    as Hkey.
  cbv zeta in Hkey. apply find_in_keys in Hkey.
  pose proof (makeAGG_game_ok _ Hg Hread Hrange) as Hok.
  assert (Hn : 0 < numPlayers g) by lia.
  rewrite !getPurePayoff_fold by exact Hn.
  set (sigma' := map (fun q => nth (exchange p p' q) sigma 0)
                     (seq 0 (numPlayers g))).
  assert (Hs' : forall q, q < numPlayers g ->
                  nth q sigma' 0 = nth (exchange p p' q) sigma 0).
  { intros q Hq. unfold sigma'. now rewrite (nth_map_seq _ 0). }
  assert (Ev : nth (nth p' sigma' 0) (nth p' (actionSets g) []) 0 =
               nth (nth p sigma 0) (nth p (actionSets g) []) 0).
  { rewrite Hs' by exact Hp'. rewrite <- Esets. f_equal. f_equal.
    unfold exchange. destruct (Nat.eqb_spec p' p) as [->|]; [reflexivity|].
    now rewrite Nat.eqb_refl. }
  rewrite Ev.
  set (v := nth (nth p sigma 0) (nth p (actionSets g) []) 0) in *.
  assert (Hv : v < numActionNodes g).
  { apply (ok_nodes Hok); [exact Hp|].
    rewrite <- (ok_actions Hok) by exact Hp. now apply (proj2 Hpure). }
  assert (EK : map (contribution g v sigma') (seq 0 (numPlayers g)) =
               map (contribution g v sigma)
                   (map (exchange p p') (seq 0 (numPlayers g)))).
  { rewrite map_map. apply map_ext_in. intros q Hq. apply in_seq in Hq.
    unfold contribution. rewrite Hs' by lia. f_equal.
    assert (Eex : nth (exchange p p' q) (actionSets g) [] =
                  nth q (actionSets g) []).
    { unfold exchange.
      destruct (Nat.eqb_spec q p) as [->|]; [now symmetry|].
      destruct (Nat.eqb_spec q p') as [->|]; auto. }
    assert (Hex : exchange p p' q < numPlayers g)
      by (apply exchange_range; lia).
    clear - Hg Hv Hq Hex Eex.
    apply makeAGG_inv in Hg
      as (an & Po & P & pays0 & pays & _ & _ & _ & _ &
    cls & pure & _ & _ & ->).
    cbn [projection numPlayers numActionNodes actionSets] in *.
    symmetry. apply make_proj_row_eq; auto. lia. }
  rewrite EK.
  rewrite (@fold_keys_perm _ _ AC _ _ _ _
             (Permutation_map (contribution g v sigma)
                              (exchange_perm Hp Hp'))).
  destruct (Trie.find _ (nth v (payoffs g) [])) as [u|]; [|congruence].
  exists u. split; reflexivity.
Qed.
End Anonymity.

(* ================================================================== *)
(** * Signatures along the walk of [getAn] *)

Section TypesAgree.
Context {projtype : Type} {PF : ProjFunc projtype}.
Variable neighb : list (list nat).
Variable projTypes : list projtype.
Variable numS : nat.

Lemma getAn_rec_types : forall fuel dest Node path d,
  getAn_rec fuel dest neighb projTypes numS Node path = Ok d ->
  forall x y, reach neighb numS Node x -> numS <= x ->
    In y (nth x neighb []) ->
    type_mismatch projTypes numS x y = false.
Proof.
  induction fuel as [|fuel IH]; intros dest Node path d H; [discriminate|].
  cbn [getAn_rec] in H.
  destruct (Node <? numS) eqn:E.
  - apply Nat.ltb_lt in E. intros x y Hreach Hx Hy.
    apply clos_rt_rt1n in Hreach.
    destruct Hreach as [|z w (HN & _) _]; lia.
  - destruct (existsb (Nat.eqb Node) path); [discriminate|].
    intros x y Hreach Hx Hy. apply clos_rt_rt1n in Hreach.
    destruct Hreach as [|z w (_ & Hz & Hin) Hrest].
    + destruct (getAn_loop_ok _ _ _ _ _ H y Hy) as (Hmm & _). exact Hmm.
    + destruct (getAn_loop_ok _ _ _ _ _ H z Hin) as (_ & dest' & d' & Hcall).
      apply (IH _ _ _ _ Hcall w y); auto. now apply clos_rt1n_rt.
Qed.

(** X26.  When [getAn] returns, it has compared the signature of every
    function node that it has reached with those of its function-node
    neighbours, and they agree. *)
Theorem getAn_types_agree dest Node d :
  getAn dest neighb projTypes numS Node [] = Ok d ->
  forall x y, reach neighb numS Node x -> numS <= x ->
    In y (nth x neighb []) -> numS <= y ->
    pf_eqb (nth (y - numS) projTypes proj_func_SUM)
           (nth (x - numS) projTypes proj_func_SUM) = true.
Proof.
  intros H x y Hreach Hx Hy Hyf.
  pose proof (@getAn_rec_types _ _ _ _ _ H x y Hreach Hx Hy) as Hmm.
  unfold type_mismatch in Hmm.
  apply andb_false_iff in Hmm as [Hle | Hneg].
  - apply Nat.leb_gt in Hle. lia.
  - now apply negb_false_iff in Hneg.
Qed.
End TypesAgree.

(* ================================================================== *)
(** * The distribution that [computeP] builds *)

Section TotalOne.
Local Open Scope Qc_scope.
Variable arity : nat.
Variable phi : nat -> Z -> Z -> Z.

Lemma pull_one ms :
  (forall m, In m ms -> Trie.total m = 1) ->
  forall ka, pull arity phi ms (fun _ => 1) ka = 1.
Proof.
  induction ms as [|m ms IH]; intros Hms ka; [reflexivity|].
  cbn [pull fold_right].
  rewrite (integrate_ext _ (fun _ => 1) m).
  - rewrite <- total_integrate. apply Hms. now left.
  - intros kb. apply IH. intros m' Hm'. apply Hms. now right.
Qed.

Lemma total_chain ms own :
  (forall m, In m ms -> Trie.total m = 1) ->
  Trie.total (chain arity phi ms [(own, 1)]) = 1.
Proof.
  intros Hms. rewrite total_integrate, integrate_chain.
  rewrite integrate_cons, integrate_nil, pull_one by exact Hms. ring.
Qed.
End TotalOne.

Section Distribution.
Context {projtype : Type} {PF : ProjFunc projtype}.
Local Abbreviation AGG := (@AGG projtype).

Lemma getV_Pr (g : AGG) p a s :
  game_ok g -> p < numPlayers g -> a < length (nth p (actionSets g) []) ->
  let v := nth a (nth p (actionSets g) []) 0 in
  let own := nth a (nth p (nth v (projection g) []) []) [] in
  let order := nth a (nth p (Porder g) []) [] in
  exists val g',
    getV g p a s = Ok (val, g') /\
    nth (numPlayers g - 1) (Pr g') Trie.reset =
    chain (length (nth v (neighbors g) []))
          (composer (nth v (projFunctions g) []))
          (map (fun k => project g v (nth k order 0)
                                 (skipn (firstAction g (nth k order 0)) s))
               (seq 1 (numPlayers g - 1)))
          [(own, 1%Qc)].
Proof.
  intros Hok Hp Ha. cbv zeta. unfold getV.
  destruct (nth_error (actionSets g) p) as [set|] eqn:Eset.
  2:{ apply nth_error_None in Eset. rewrite (ok_sets Hok) in Eset. lia. }
  apply (nth_error_nth _ _ []) in Eset. rewrite <- Eset.
  destruct (nth_error (nth p (actionSets g) []) a) as [v|] eqn:Ev.
  2:{ apply nth_error_None in Ev. lia. }
  apply (nth_error_nth _ _ 0) in Ev.
  assert (Hv : v < numActionNodes g).
  { rewrite <- Ev. now apply (ok_nodes Hok). }
  assert (Hv' : v < length (projectedStrat g)) by now rewrite (ok_pS Hok).
  destruct (@doProjection_spec _ g v s Hv') as (Hs1 & HPr1 & Hlen1 & Hrow1 & Hq1).
  set (g1 := doProjection g v s) in *.
  apply static_fields in Hs1 as Hf1.
  destruct Hf1 as (E1 & E2 & E3 & E4 & E5 & E6 & E7 & E8 & E9 & E10).
  destruct (@computeP_spec _ _ g1 p a) as (Hs2 & HpS2 & Hlen2 & Hval);
    [rewrite E1, HPr1; apply (ok_Pr Hok) | rewrite E1; lia |].
  set (g2 := computeP g1 p a (-1) (-1)) in *.
  apply static_fields in Hs2 as Hf2.
  destruct Hf2 as (F1 & F2 & F3 & F4 & F5 & F6 & F7 & F8 & F9 & F10).
  eexists _, g2. split; [reflexivity|].
  rewrite E1 in Hval. rewrite Hval, E5, E6, E8, E9, E10, Ev.
  unfold chain. rewrite fold_left_map.
  apply fold_left_ext_in. intros x k Hk.
  apply in_seq in Hk.
  assert (Hq : nth k (nth a (nth p (Porder g) []) []) 0 < numPlayers g).
  { apply (ok_Porder Hok); auto. lia. }
  rewrite Hq1; [reflexivity | exact Hq |].
  now rewrite (ok_pS_row Hok).
Qed.
End Distribution.

Section DistributionOne.
Context {projtype : Type} {PF : ProjFunc projtype}.
Local Abbreviation AGG := (@AGG projtype).
Local Open Scope Qc_scope.

(** X27.  When the strategy of every other player is a probability
    distribution, the trie [Pr[numPlayers - 1]] that [computeP] leaves for
    [getV] has total weight 1. *)
Theorem getV_builds_a_distribution (h : header) st (g : AGG) :
  makeAGG h st = Ok g -> header_read h -> header_ranges h ->
  forall p a s,
    (p < numPlayers g)%nat -> (a < nth p (actions g) 0)%nat ->
    (forall q, (q < numPlayers g)%nat -> q <> p ->
       (forall j, (j < nth q (actions g) 0)%nat ->
                  0 <= nth (j + firstAction g q) s 0) /\
       Qcsum (map (fun j => nth (j + firstAction g q) s 0)
                  (seq 0 (nth q (actions g) 0%nat))) = 1) ->
    exists v g',
      getV g p a s = Ok (v, g') /\
      Trie.total (nth (numPlayers g - 1) (Pr g') Trie.reset) = 1.
Proof.
  intros Hg Hread Hranges p a s Hp Ha Hdist.
  pose proof (makeAGG_game_ok _ Hg Hread Hranges) as Hok.
  rewrite (ok_actions Hok) in Ha by exact Hp.
  destruct (getV_Pr s Hok Hp Ha) as (v & g' & HV & HPr).
  exists v, g'. split; [exact HV|]. rewrite HPr. clear HV HPr.
  destruct (constructed_order _ Hg Hread Hp Ha) as (H0 & Hnd & Hlen & _).
  set (order := nth a (nth p (Porder g) []) []) in *.
  apply total_chain. intros m Hm.
  apply in_map_iff in Hm as (k & <- & Hk). apply in_seq in Hk.
  assert (Hq : (nth k order 0 < numPlayers g)%nat).
  { apply (ok_Porder Hok); auto. lia. }
  assert (Hne : nth k order 0%nat <> p).
  { intros E. rewrite <- H0 in E.
    apply (proj1 (NoDup_nth order 0%nat) Hnd) in E; lia. }
  destruct (Hdist _ Hq Hne) as (Hpos & Hsum).
  rewrite total_integrate, integrate_project.
  etransitivity; [|exact Hsum].
  f_equal. apply map_ext_in. intros j Hj. apply in_seq in Hj.
  rewrite nth_skipn, (Nat.add_comm (firstAction g _) j). cbv beta.
  destruct (Qcltb 0 (nth (j + firstAction g (nth k order 0%nat)) s 0)) eqn:E;
    [ring|].
  symmetry. apply Qcltb_zero_nonneg; [exact E|]. apply Hpos. lia.
Qed.
End DistributionOne.

(* ================================================================== *)
(** * The weights of a projected strategy *)

Lemma cfg_compare_antisym a : forall b,
  Trie.cfg_compare b a = CompOpp (Trie.cfg_compare a b).
Proof.
  induction a as [|x a IH]; intros [|y b]; simpl; auto.
  rewrite (Z.compare_antisym x y).
  destruct (x ?= y)%Z; simpl; auto.
Qed.

Lemma cfg_compare_trans a : forall b c,
  Trie.cfg_compare a b = Lt -> Trie.cfg_compare b c = Lt ->
  Trie.cfg_compare a c = Lt.
Proof.
  induction a as [|x a IH]; intros [|y b] [|z c]; simpl; try discriminate; auto.
  destruct (Z.compare_spec x y) as [Exy|Exy|Exy];
    destruct (Z.compare_spec y z) as [Eyz|Eyz|Eyz];
    try discriminate; subst; intros H1 H2.
  - rewrite Z.compare_refl. eapply IH; eassumption.
  - now apply Z.compare_lt_iff in Eyz as ->.
  - now apply Z.compare_lt_iff in Exy as ->.
  - assert (Exz : (x < z)%Z) by lia. now apply Z.compare_lt_iff in Exz as ->.
Qed.

Section SortedTrie.
Variable V : Type.

Lemma find_below k k0 (v : V) m :
  sorted_keys ((k0, v) :: m) -> Trie.cfg_compare k k0 = Lt ->
  Trie.find k ((k0, v) :: m) = None.
Proof.
  intros Hs Hlt. apply find_none_keys. intros Hin.
  unfold sorted_keys in Hs. simpl in Hs, Hin.
  inversion Hs as [|? ? _ Hall]; subst. rewrite Forall_forall in Hall.
  destruct Hin as [<- | Hin].
  - now rewrite cfg_compare_refl in Hlt.
  - apply Hall in Hin.
    pose proof (cfg_compare_refl k) as R.
    rewrite (cfg_compare_trans _ _ _ Hlt Hin) in R. discriminate.
Qed.

Lemma alter_keys_in (f : option V -> V) k m k' :
  In k' (Trie.keys (Trie.alter f k m)) -> k' = k \/ In k' (Trie.keys m).
Proof.
  induction m as [|[k0 v0] m IH]; simpl.
  - intros [<- | []]; auto.
  - destruct (Trie.cfg_compare k k0) eqn:C; simpl.
    + apply cfg_compare_eq in C. subst. intros [<- | H]; auto.
    + intros [<- | [<- | H]]; auto.
    + intros [<- | H]; auto. apply IH in H. tauto.
Qed.

Lemma alter_sorted (f : option V -> V) k m :
  sorted_keys m -> sorted_keys (Trie.alter f k m).
Proof.
  unfold sorted_keys.
  induction m as [|[k0 v0] m IH]; simpl; intros Hs.
  - repeat constructor.
  - inversion Hs as [|? ? Hs' Hall]; subst.
    destruct (Trie.cfg_compare k k0) eqn:C; simpl.
    + exact Hs.
    + constructor; [exact Hs|]. constructor; [exact C|].
      rewrite Forall_forall in *. intros x Hx.
      eapply cfg_compare_trans; [exact C | now apply Hall].
    + constructor; [now apply IH|].
      rewrite Forall_forall in *. intros x Hx.
      apply alter_keys_in in Hx as [-> | Hx]; [|now apply Hall].
      rewrite cfg_compare_antisym, C. reflexivity.
Qed.

Lemma find_alter (f : option V -> V) k m k' :
  sorted_keys m ->
  Trie.find k' (Trie.alter f k m) =
  if Trie.cfg_eqb k' k then Some (f (Trie.find k m)) else Trie.find k' m.
Proof.
  induction m as [|[k0 v0] m IH]; intros Hs.
  - simpl. destruct (Trie.cfg_eqb k' k); reflexivity.
  - cbn [Trie.alter].
    destruct (Trie.cfg_compare k k0) eqn:C.
    + apply cfg_compare_eq in C. subst k0. cbn [Trie.find].
      rewrite cfg_eqb_refl. destruct (Trie.cfg_eqb k' k); reflexivity.
    + rewrite (@find_below k k0 v0 m Hs C). cbn [Trie.find].
      destruct (Trie.cfg_eqb k' k); reflexivity.
    + assert (Hne : Trie.cfg_eqb k k0 = false).
      { unfold Trie.cfg_eqb. now rewrite C. }
      cbn [Trie.find]. rewrite Hne.
      destruct (Trie.cfg_eqb k' k0) eqn:E0.
      * apply cfg_eqb_eq in E0. subst k0.
        destruct (Trie.cfg_eqb k' k) eqn:E1; [|reflexivity].
        apply cfg_eqb_eq in E1. subst k'.
        rewrite cfg_eqb_refl in Hne. discriminate.
      * apply IH. unfold sorted_keys in *. simpl in Hs.
        now inversion Hs.
Qed.
End SortedTrie.

Section WeightAtKey.
Context {projtype : Type} {PF : ProjFunc projtype}.
Local Abbreviation AGG := (@AGG projtype).
Local Open Scope Qc_scope.

Lemma add_sorted k w m : sorted_keys m -> sorted_keys (Trie.add k w m).
Proof. apply alter_sorted. Qed.

Lemma project_fold_weight (key : nat -> config) s K js : forall d,
  sorted_keys d ->
  let hits := filter (fun j => Qcltb 0 (nth j s 0) && Trie.cfg_eqb K (key j))
                     js in
  let d' := fold_left
              (fun d j => if Qcltb 0 (nth j s 0)
                          then Trie.add (key j) (nth j s 0) d else d) js d in
  sorted_keys d' /\
  Trie.find K d' =
  match hits, Trie.find K d with
  | [], o => o
  | _ :: _, Some v => Some (v + Qcsum (map (fun j => nth j s 0) hits))
  | _ :: _, None => Some (Qcsum (map (fun j => nth j s 0) hits))
  end.
Proof.
  induction js as [|j js IH]; intros d Hs; cbn [fold_left filter]; cbv zeta.
  - split; [exact Hs | reflexivity].
  - destruct (Qcltb 0 (nth j s 0)) eqn:E; cbn [andb].
    + destruct (IH _ (add_sorted (key j) (nth j s 0) Hs)) as (Hs' & Hf).
      cbv zeta in Hs', Hf. split; [exact Hs'|]. rewrite Hf.
      unfold Trie.add at 1 2. rewrite find_alter by exact Hs.
      destruct (Trie.cfg_eqb K (key j)) eqn:EK.
      * apply cfg_eqb_eq in EK. rewrite <- EK.
        destruct (filter _ js) as [|j' hits'];
          destruct (Trie.find K d) as [v|]; cbn [map]; rewrite ?Qcsum_cons;
          f_equal; unfold Qcsum; simpl; ring.
      * reflexivity.
    + now apply IH.
Qed.

(** X28.  After [doProjection(v, p, s)] the weight that
    [projectedStrat[v][p]] holds at a configuration is the sum of the
    positive probabilities of the actions of [p] that project to it; a
    configuration that no such action projects to is not bound. *)
Theorem doProjection_weight (g : AGG) v p s K :
  (v < length (projectedStrat g))%nat ->
  (p < length (nth v (projectedStrat g) []))%nat ->
  let hits :=
    filter (fun a => Qcltb 0 (nth a s 0) &&
                     Trie.cfg_eqb K (nth a (nth p (nth v (projection g) []) [])
                                         []))
           (seq 0 (nth p (actions g) 0%nat)) in
  Trie.find K (nth p (nth v (projectedStrat (doProjection_player g v p s)) [])
                   Trie.reset) =
  match hits with
  | [] => None
  | _ :: _ => Some (Qcsum (map (fun a => nth a s 0) hits))
  end.
Proof.
  intros Hv Hp. cbv zeta.
  rewrite projectedStrat_doProjection_player by assumption.
  unfold project.
  destruct (@project_fold_weight
              (fun j => nth j (nth p (nth v (projection g) []) []) []) s K
              (seq 0 (nth p (actions g) 0%nat)) Trie.reset) as (_ & Hf).
  { constructor. }
  cbv zeta in Hf. rewrite Hf. simpl.
  now destruct (filter _ _).
Qed.
End WeightAtKey.

(* ================================================================== *)
(** * The further properties on the concrete games *)

(** The function node 2 of scenario B has the two action nodes as
    ancestors. *)
Lemma getAn_members_witness :
  exists an, [1; 0] = an ++ [] /\
             forall a, In a an <-> ancestor (h_neighb hB) 2 2 a.
Proof.
  apply (@getAn_members _ _ (h_neighb hB) (h_projTypes hB) 2 [] 2 [1; 0]).
  reflexivity.
Defined.

Lemma hB_projections :
  setProjections 3 2 1 (h_ASets hB) (h_neighb hB) (h_projTypes hB) =
  Ok (projectedStrat gB, projection gB).
Proof. vm_compute. reflexivity. Qed.

Lemma setProjections_shape_witness :
  length (projection gB) = 2 /\ length (projectedStrat gB) = 2 /\
  forall v, v < 2 ->
    length (nth v (projection gB) []) = 3 /\
    length (nth v (projectedStrat gB) []) = 3 /\
    forall i, i < 3 ->
      length (nth i (nth v (projection gB) []) []) =
      length (nth i (h_ASets hB) []) /\
      forall j, j < length (nth i (h_ASets hB) []) ->
        length (nth j (nth i (nth v (projection gB) []) []) []) =
        length (nth v (h_neighb hB) []).
Proof.
  apply (@setProjections_shape _ _ 3 2 1 (h_ASets hB) (h_neighb hB)
           (h_projTypes hB) (projectedStrat gB) (projection gB)).
  exact hB_projections.
Defined.

Lemma setProjections_support_witness :
  let d := nth 2 (nth 0 (projectedStrat gB) []) Trie.reset in
  (forall k, In k (Trie.keys d) <->
             In k (nth 2 (nth 0 (projection gB) []) [])) /\
  NoDup (Trie.keys d) /\
  (forall k w, In (k, w) d -> w = 1%Qc) /\
  Trie.size d <= length (nth 2 (h_ASets hB) []).
Proof.
  apply (@setProjections_support _ _ 3 2 1 (h_ASets hB) (h_neighb hB)
           (h_projTypes hB) (projectedStrat gB) (projection gB)
           hB_projections 0 2); lia.
Defined.

(** [Porder[0][0]] of scenario B. *)
Lemma Porder_breaks_ties_witness :
  let v := nth 0 (nth 0 (actionSets gB) []) 0 in
  let sz q := Trie.size (nth q (nth v (projectedStrat gB) []) Trie.reset) in
  StronglySorted (fun q q' => sz q < sz q' \/ (sz q = sz q' /\ q < q'))
                 (tl (nth 0 (nth 0 (Porder gB) []) [])).
Proof.
  apply (@Porder_breaks_ties _ _ hB sB gB gB_built hB_read 0 0);
    vm_compute; lia.
Defined.

(** The constructor call that [makeAGG] makes for scenario A. *)
Lemma AGG_new_offsets_witness :
  length (strategyOffset gA) = 2 + 1 /\
  nth 0 (strategyOffset gA) 0 = 0 /\
  (forall i, i < 2 ->
     nth i (actions gA) 0 = nth i (h_size hA) 0 /\
     nth (S i) (strategyOffset gA) 0 =
     nth i (strategyOffset gA) 0 + nth i (actions gA) 0 /\
     nth i (actions gA) 0 <= maxActions gA).
Proof.
  apply (@AGG_new_offsets _ 2 (h_size hA) 2 0 (h_ASets hA) (h_neighb hA)
           (h_projTypes hA) (projectedStrat gA) (projection gA)
           (projFunctions gA) (Porder gA) (Pr gA) (payoffs gA) gA).
  - vm_compute. reflexivity.
  - vm_compute. lia.
Defined.

Lemma sets4_classes : ctor_classes 4 sets4 = Some classes4.
Proof. reflexivity. Qed.

(** The classes of [sets4]: the players 0 and 2, player 3, player 1. *)
Lemma ctor_classes_partition_witness :
  Permutation (concat (playerClasses classes4)) (seq 0 4) /\
  length (uniqueActionSets classes4) = length (playerClasses classes4) /\
  forall q, q < 4 ->
    let k := nth q (player2Class classes4) 0 in
    k < length (playerClasses classes4) /\
    In q (nth k (playerClasses classes4) []) /\
    nth k (uniqueActionSets classes4) [] = sort Nat.leb (nth q sets4 []).
Proof. exact (@ctor_classes_partition 4 sets4 classes4 sets4_classes). Defined.

Lemma ctor_classes_same_class_witness :
  StronglySorted (fun a b => list_compare a b = Lt)
                 (uniqueActionSets classes4) /\
  NoDup (uniqueActionSets classes4) /\
  forall q q', q < 4 -> q' < 4 ->
    (nth q (player2Class classes4) 0 = nth q' (player2Class classes4) 0 <->
     sort Nat.leb (nth q sets4 []) = sort Nat.leb (nth q' sets4 [])).
Proof. exact (@ctor_classes_same_class 4 sets4 classes4 sets4_classes). Defined.

Lemma ctor_classes_offsets_witness :
  length (kSymStrategyOffset classes4) = S (length (uniqueActionSets classes4)) /\
  nth 0 (kSymStrategyOffset classes4) 0 = 0 /\
  (forall k, k < length (uniqueActionSets classes4) ->
     nth (S k) (kSymStrategyOffset classes4) 0 =
     nth k (kSymStrategyOffset classes4) 0 +
     length (nth k (uniqueActionSets classes4) [])) /\
  numKSymActions classes4 =
  nth (length (uniqueActionSets classes4)) (kSymStrategyOffset classes4) 0.
Proof. exact (@ctor_classes_offsets 4 sets4 classes4 sets4_classes). Defined.

(** [node2Action] for [sets4] on three action nodes. *)
Lemma ctor_node2Action_spec_witness :
  let node2Action := ctor_node2Action 3 4 [2; 1; 2; 2] sets4 in
  length node2Action = 3 /\
  forall v i, v < 3 -> i < 4 ->
    length (nth v node2Action []) = 4 /\
    (nth i (nth v node2Action []) (-1)%Z = (-1)%Z <->
     forall j, j < nth i [2; 1; 2; 2] 0 -> nth j (nth i sets4 []) 0 <> v) /\
    (forall j, nth i (nth v node2Action []) (-1)%Z = Z.of_nat j <->
       j < nth i [2; 1; 2; 2] 0 /\ nth j (nth i sets4 []) 0 = v /\
       forall j', j < j' < nth i [2; 1; 2; 2] 0 ->
                  nth j' (nth i sets4 []) 0 <> v).
Proof.
  apply (@ctor_node2Action_spec 3 4 [2; 1; 2; 2] sets4).
  intros i j Hi Hj. index_cases i j Hj.
Defined.

(** The header of scenario B, read from its text. *)
Lemma read_header_establishes_witness : header_read hB.
Proof.
  apply (@read_header_establishes _ scenario_make_proj_func
           (encode_header scenario_tag scenario_params hB ++ sB)
           (raw_of_header hB) sB hB); reflexivity.
Defined.

Lemma scenario_make_proj_func_reads f rest numS numP :
  scenario_make_proj_func (scenario_tag f) (scenario_params f ++ rest)
                          numS numP = Some (f, rest).
Proof. destruct f; reflexivity. Qed.

Lemma read_header_encoded_witness :
  read_header scenario_make_proj_func
    (encode_header scenario_tag scenario_params hB ++ sB) =
  HOk (raw_of_header hB, sB) /\
  header_of_raw (raw_of_header hB) = Some hB.
Proof.
  exact (@read_header_encoded _ scenario_make_proj_func scenario_tag
           scenario_params scenario_make_proj_func_reads hB sB hB_read).
Defined.

Lemma read_header_names_the_subject_witness :
  let start := [LInt (Z.of_nat (h_n hB)); LInt (Z.of_nat (h_S hB));
                LInt (Z.of_nat (h_P hB))] in
  (forall i, i < h_n hB ->
     read_header scenario_make_proj_func
       (start ++ encode_nats (firstn i (h_size hB)) ++ [LOther]) =
     HErr (BadActionSetSize i)) /\
  (forall i j, i < h_n hB -> j < length (nth i (h_ASets hB) []) ->
     read_header scenario_make_proj_func
       (start ++ encode_nats (h_size hB)
              ++ flat_map encode_nats (firstn i (h_ASets hB))
              ++ encode_nats (firstn j (nth i (h_ASets hB) [])) ++ [LOther]) =
     HErr (BadActionIndex j i)).
Proof.
  apply (@read_header_names_the_subject _ scenario_make_proj_func hB [LOther]
           hB_read).
  reflexivity.
Defined.

(** The table [two_entries], read with an empty acceptance set. *)
Lemma makeMAPPINGpayoff_table_witness :
  let pay' : aggpayoff := [([1; 1]%Z, Q2Qc 0); ([2; 0]%Z, Q2Qc 2)] in
  exists num s0,
    encode_mapping two_entries ++ [LInt 1] = LInt num :: s0 /\ (0 <= num)%Z /\
    Trie.size pay' = Z.to_nat num /\
    length [LInt 1] + 3 * Z.to_nat num <= length s0 /\
    (forall k, In k (Trie.keys pay') -> length k = 2) /\
    (forall k, In k (@Trie.keys AggNumber []) -> In k (Trie.keys pay')).
Proof.
  apply (@makeMAPPINGpayoff_table (encode_mapping two_entries ++ [LInt 1])
           [] 2 [([1; 1]%Z, Q2Qc 0); ([2; 0]%Z, Q2Qc 2)] [LInt 1]).
  vm_compute. reflexivity.
Defined.

Lemma makeMAPPINGpayoff_syntax_errors_witness :
  let run bad :=
    makeMAPPINGpayoff
      (LInt (Z.of_nat (length two_entries) + 1)
         :: flat_map encode_entry two_entries ++ bad) [] 2 in
  run [] = Err BadInput /\
  (forall x tail, x <> LBracket -> run (x :: tail) = Err (Expected false)) /\
  (forall partial tail, length partial < 2 -> read_int tail = None ->
     run (LBracket :: map LInt partial ++ tail) =
     Err (BadElement (length partial))) /\
  (forall key x tail, length key = 2 -> x <> RBracket ->
     run (LBracket :: map LInt key ++ x :: tail) = Err (Expected true)) /\
  (forall key, length key = 2 ->
     run (LBracket :: map LInt key) = Err AssertFailed) /\
  (forall key tail, length key = 2 -> read_num tail = None ->
     run (LBracket :: map LInt key ++ RBracket :: tail) =
     Err (BadUtility key)).
Proof.
  apply (@makeMAPPINGpayoff_syntax_errors [] 2 two_entries 1%Z).
  - intros kv [<-|[<-|[]]]; reflexivity.
  - repeat constructor; simpl; intuition discriminate.
  - lia.
Defined.

(** Player 1 of scenario A mixes its two actions evenly at node 0. *)
Lemma doProjection_support_witness :
  let s := [half; half] in
  let d := nth 1 (nth 0 (projectedStrat (doProjection_player gA 0 1 s)) [])
               Trie.reset in
  (forall k, In k (Trie.keys d) <->
             exists a, a < nth 1 (actions gA) 0 /\ (0 < nth a s 0)%Qc /\
                       k = nth a (nth 1 (nth 0 (projection gA) []) []) []) /\
  (forall k w, In (k, w) d -> (0 < w)%Qc).
Proof.
  apply (@doProjection_support _ gA 0 1 [half; half]); vm_compute; lia.
Defined.

(** The bounds on the game of [hMax]. *)
Lemma getMaxPayoff_getMinPayoff_bounds_witness :
  let b : config * AggNumber := ([1; 3]%Z, 0%Qc) in
  exists M m,
    getMaxPayoff gMax = Some M /\ getMinPayoff gMax = Some m /\
    (m <= snd b <= M)%Qc /\
    (forall i kw, 1 <= i < numActionNodes gMax ->
                  In kw (nth i (payoffs gMax) []) -> (m <= snd kw <= M)%Qc) /\
    (M = snd b \/
     exists i kw, 1 <= i < numActionNodes gMax /\
                  In kw (nth i (payoffs gMax) []) /\ snd kw = M) /\
    (m = snd b \/
     exists i kw, 1 <= i < numActionNodes gMax /\
                  In kw (nth i (payoffs gMax) []) /\ snd kw = m).
Proof.
  apply (@getMaxPayoff_getMinPayoff_bounds _ gMax ([1; 3]%Z, 0%Qc)).
  vm_compute. reflexivity.
Defined.

(** Scenario A: a call for player 1 after a call for player 0. *)
Lemma getV_after_getV_witness :
  exists v0 g1 v g2 g2',
    getV gA 0 0 [half; half; half; half] = Ok (v0, g1) /\
    getV g1 1 1 [1%Qc; 0%Qc; half; half] = Ok (v, g2) /\
    getV gA 1 1 [1%Qc; 0%Qc; half; half] = Ok (v, g2') /\
    static g1 = static gA /\ static g2 = static gA.
Proof.
  apply (@getV_after_getV _ _ hA sA gA gA_built hA_read hA_ranges
           0 0 [half; half; half; half] 1 1 [1%Qc; 0%Qc; half; half]);
    vm_compute; lia.
Defined.

(** Scenario A: two profiles in which player 1 plays the same strategy. *)
Lemma getV_ignores_own_strategy_witness :
  exists v g1 g2,
    getV gA 0 0 [half; half; half; half] = Ok (v, g1) /\
    getV gA 0 0 [1%Qc; 0%Qc; half; half] = Ok (v, g2).
Proof.
  apply (@getV_ignores_own_strategy _ _ hA sA gA gA_built hA_read hA_ranges
           0 0 [half; half; half; half] [1%Qc; 0%Qc; half; half]).
  - vm_compute; lia.
  - vm_compute; lia.
  - intros q j Hq Hne Hj. vm_compute in Hq, Hj.
    destruct q as [|[|q]]; [congruence | | lia].
    destruct j as [|[|j]]; [reflexivity | reflexivity | lia].
Defined.

Lemma getJ_same_player_witness :
  exists g', getV gB 0 0 sB_mixed = Ok (fst (getJ gB 0 0 0 1 sB_mixed), g').
Proof.
  apply (@getJ_same_player _ _ hB sB gB gB_built hB_read hB_ranges
           0 0 1 sB_mixed); vm_compute; lia.
Defined.

(** Scenario A: the value of action 0 of player 0 against the even mix of
    player 1. *)
Lemma getV_linear_in_opponent_witness :
  let s := [half; half; half; half] in
  exists g',
    getV gA 0 0 s =
    Ok (Qcsum (map (fun a2 => (nth (a2 + firstAction gA 1) s 0 *
                               fst (getJ gA 0 0 1 a2 s))%Qc)
                   (seq 0 (nth 1 (actions gA) 0))), g').
Proof.
  apply (@getV_linear_in_opponent _ _ hA sA gA gA_built hA_read hA_ranges
           0 0 1 [half; half; half; half]).
  - vm_compute; lia.
  - vm_compute; lia.
  - vm_compute; lia.
  - discriminate.
  - intros a2 Ha2. vm_compute in Ha2.
    destruct a2 as [|[|a2]]; [vm_compute; discriminate .. | lia].
Defined.

Lemma getPayoffVector_entries_witness :
  exists vs g',
    getPayoffVector gB 2 sB_mixed = Ok (vs, g') /\
    length vs = nth 2 (actions gB) 0 /\
    forall a, a < nth 2 (actions gB) 0 ->
      exists g_a, getV gB 2 a sB_mixed = Ok (nth a vs 0%Qc, g_a).
Proof.
  apply (@getPayoffVector_entries _ _ hB sB gB gB_built hB_read hB_ranges
           2 sB_mixed); vm_compute; lia.
Defined.

(** Scenario B: the players 0 and 1 exchange their actions. *)
Lemma getPurePayoff_exchange_witness :
  let sigma' := map (fun q => nth (exchange 0 1 q) [0; 1; 0] 0)
                    (seq 0 (numPlayers gB)) in
  exists u, getPurePayoff gB 0 [0; 1; 0] = Ok u /\
            getPurePayoff gB 1 sigma' = Ok u.
Proof.
  apply (@getPurePayoff_exchange _ _ scenario_ProjFuncAC hB sB gB gB_built
           hB_read hB_ranges 0 1 [0; 1; 0]).
  - vm_compute; lia.
  - vm_compute; lia.
  - reflexivity.
  - split; [reflexivity|]. intros i Hi. vm_compute in Hi.
    destruct i as [|[|[|i]]]; vm_compute; lia.
Defined.

(** The walk from function node 1 of [line_neighb] compares its signature
    with that of node 2. *)
Lemma getAn_types_agree_witness :
  pf_eqb (nth (2 - 1) [P_SUM; P_SUM] proj_func_SUM)
         (nth (1 - 1) [P_SUM; P_SUM] proj_func_SUM) = true.
Proof.
  apply (@getAn_types_agree _ _ line_neighb [P_SUM; P_SUM] 1 [] 1 [0]).
  - reflexivity.
  - apply rt_refl.
  - lia.
  - simpl. auto.
  - lia.
Defined.

(** Scenario A: player 1 mixes its two actions evenly. *)
Lemma getV_builds_a_distribution_witness :
  exists v g',
    getV gA 0 0 [half; half; half; half] = Ok (v, g') /\
    Trie.total (nth (numPlayers gA - 1) (Pr g') Trie.reset) = 1%Qc.
Proof.
  apply (@getV_builds_a_distribution _ _ hA sA gA gA_built hA_read hA_ranges
           0 0 [half; half; half; half]).
  - vm_compute; lia.
  - vm_compute; lia.
  - intros q Hq Hne. vm_compute in Hq.
    destruct q as [|[|q]]; [congruence | | lia]. split.
    + intros j Hj. vm_compute in Hj.
      destruct j as [|[|j]]; [vm_compute; discriminate .. | lia].
    + apply Qc_is_canon. reflexivity.
Defined.

(** Scenario A: the weight at the configuration of action 0, when player 1
    mixes its two actions evenly at node 0. *)
Lemma doProjection_weight_witness :
  let s := [half; half] in
  let K := [1; 0]%Z in
  let hits :=
    filter (fun a => Qcltb 0%Qc (nth a s 0%Qc) &&
                     Trie.cfg_eqb K (nth a (nth 1 (nth 0 (projection gA) []) [])
                                         []))
           (seq 0 (nth 1 (actions gA) 0)) in
  Trie.find K (nth 1 (nth 0 (projectedStrat (doProjection_player gA 0 1 s)) [])
                   Trie.reset) =
  match hits with
  | [] => None
  | _ :: _ => Some (Qcsum (map (fun a => nth a s 0%Qc) hits))
  end.
Proof.
  apply (@doProjection_weight _ gA 0 1 [half; half] [1; 0]%Z);
    vm_compute; lia.
Defined.

(** Scenario A, a profile of six entries, three of them negative. *)
Lemma oracle_skips_nonpositive_witness :
  let s0 := clamp (firstn (totalActions gA) s_long) in
  (length s0 = totalActions gA /\ forall k, (0 <= nth k s0 0)%Qc) /\
  (exists v g', getV gA 0 0 s_long = Ok (v, g') /\
                getV gA 0 0 s0 = Ok (v, g')) /\
  (exists v g', getMixedPayoff gA 0 s_long = Ok (v, g') /\
                getMixedPayoff gA 0 s0 = Ok (v, g')) /\
  (exists vs g', getPayoffVector gA 0 s_long = Ok (vs, g') /\
                 getPayoffVector gA 0 s0 = Ok (vs, g')) /\
  (forall p2 a2, p2 < numPlayers gA -> a2 < nth p2 (actions gA) 0 ->
                 getJ gA 0 0 p2 a2 s0 = getJ gA 0 0 p2 a2 s_long).
Proof.
  apply (@oracle_skips_nonpositive _ _ hA sA gA gA_built hA_read hA_ranges
           0 0 s_long).
  - vm_compute; lia.
  - vm_compute; lia.
  - vm_compute; lia.
Defined.

(** The claim of C5 fails on [s_negative], a profile of the dimension of
    scenario A with a negative probability, and on [s_long], a profile of
    another dimension: every oracle call returns a value. *)
Lemma oracle_negative_probability_counterexample :
  (length s_negative = totalActions gA /\
   (nth 0 s_negative 0 < 0)%Qc /\
   (exists g', getV gA 0 0 s_negative = Ok (Q2Qc 2, g')) /\
   (exists g', getMixedPayoff gA 0 s_negative = Ok (0%Qc, g')) /\
   (exists g', getPayoffVector gA 0 s_negative = Ok ([Q2Qc 2; 0%Qc], g')) /\
   (exists g', getJ gA 0 0 1 0 s_negative = (Q2Qc 2, g'))) /\
  (length s_long <> totalActions gA /\
   (exists g', getV gA 0 0 s_long = Ok (Q2Qc 2, g')) /\
   (exists g', getMixedPayoff gA 0 s_long = Ok (0%Qc, g')) /\
   (exists g', getPayoffVector gA 0 s_long = Ok ([Q2Qc 2; 0%Qc], g')) /\
   (exists g', getJ gA 0 0 1 0 s_long = (Q2Qc 2, g'))).
Proof.
  split.
  - split; [reflexivity|]. split; [reflexivity|].
    repeat split; eexists; vm_compute; reflexivity.
  - split; [vm_compute; discriminate|].
    repeat split; eexists; vm_compute; reflexivity.
Qed.


(** The arguments that [makeAGG] passes for scenario B. *)
Lemma AGG_new_checks_ascending_witness :
  let r := AGG_new 3 (h_size hB) 2 1 (h_ASets hB) (h_neighb hB)
                   (h_projTypes hB) [] [] [] [] [] [] in
  let ascending := forall i, i < 3 -> Sorted le (nth i (h_ASets hB) []) in
  ((exists i, r = Err (NotAscending i)) <-> ~ ascending) /\
  (forall i, r = Err (NotAscending i) <->
     i < 3 /\ ~ Sorted le (nth i (h_ASets hB) []) /\
     forall i', i' < i -> Sorted le (nth i' (h_ASets hB) [])) /\
  (ascending ->
     (3 = 0 -> r = Err Undefined) /\
     (0 < 3 -> length (h_neighb hB) < 2 -> r = Err OutOfRange) /\
     (0 < 3 -> 2 <= length (h_neighb hB) ->
      (forall i j, i < 3 -> j < nth i (h_size hB) 0 ->
         j < length (nth i (h_ASets hB) []) /\
         nth j (nth i (h_ASets hB) []) 0 < 2) ->
      exists g, r = Ok g)).
Proof.
  apply (@AGG_new_checks_ascending scenario_proj 3 (h_size hB) 2 1
           (h_ASets hB) (h_neighb hB) (h_projTypes hB) [] [] [] [] [] []);
    simpl; lia.
Defined.
